(* ===== verification/_CoqProject ===== *)
-Q . S2P
Prelude.v
FlatContainers.v
FlatHint.v
EqualRange.v
ContainerAlgo.v
Introsort.v
IntrosortSorts.v
IntrosortFuel.v
IntrosortPerm.v
Collection.v
EraseSet.v
Visit.v
Protocol.v
Refinement.v
TaskQueue.v
TaskTest.v
HasField.v
