(* ===== verification/Prelude.v ===== *)
(** * A verification library for simple_cpp's [associated_collection]

    The program.  [src/inc/associated_collection.hpp] defines
    [associated_collection<Element, Foreign_key, Key, Contributors>]: a
    keyed set of elements ([collection_], a [boost::container::flat_set]),
    a many-to-many association table from keys to foreign keys
    ([associations_], a [flat_multimap]), a reserved per-key
    [contributors_] multimap, an untouched [keys_] set and the cumulative
    set [foreign_keys_] of [(foreign key, key)] pairs that the counterpart
    index must retract.  Its operations ([emplace], [emplace_association],
    [erase(key)], [erase(set)], [compare_associations], [visit]) are
    written with the generic helpers of [src/inc/container_algo.hpp]
    (namespace [calgo]: [erase_if], [erase_duplicates_if], [sort],
    [equal_values], [set_intersection], ...).  The free function
    [emplace_associations] links two indices, and [src/src/main.cpp]
    drives a dogs/cats pair of them.

    The library, in dependency order (_CoqProject):
    - [Prelude] (this file): the [Ord] class of strict total orders
      (the [operator<] of keys, elements and [std::pair]), its instances
      for [Z], [nat] and lexicographic pairs, the [Keyed] class (the
      [is_associatable] trait: an element has a [key] member), the
      notation scope [ac_scope], the hint database [ac] and the shared
      lemmas on orders, sorted lists and [filter].
    - [FlatContainers]: the boost flat containers as sorted vectors:
      the binary search [priv_lower_bound] ([lower_bound_by], run with a
      fuel equal to the length, which the theorems show is enough),
      [flat_set::emplace] ([fs_insert], which inserts where the binary
      search stops, so that its result on a vector that is not sorted is
      the one the code computes), [flat_multimap::emplace]
      ([mm_insert], at the upper bound of the key), [equal_range],
      [count] and [erase(key)] by their documented contract (the
      filter of the entries of a key).  Theorems:
      the binary search finds the partition point of a partitioned
      vector; [fs_insert] is the sorted insertion on a sorted vector and
      keeps it sorted; [mm_insert] keeps the table sorted by key.
    - [FlatHint]: [flat_set::insert(hint, value)], boost's
      [insert_unique] with the N1780 check of the hint's neighbours
      ([insert_unique_prepare]) and the binary search of a sub-range it
      falls back on, and [std::insert_iterator] ([inserter],
      [insert_assign]: insert at the hint, then move the hint past the
      value).  Theorems: the search of a sub-range returns the partition
      point clamped to it; on a strictly sorted vector and any hint in
      range or at the end the hinted insertion is [fs_insert] and returns
      the lower bound of the key; an inserter keeps its hint valid.
    - [EqualRange]: boost's own [equal_range] ([priv_equal_range]: a
      binary search that narrows the window to an entry of the key, then
      [lower_bound] and [upper_bound] on its two halves) and [count], its
      distance, which step 1 of [erase(set)] calls.  Theorems: on a table
      sorted by key it returns the bounds of the two full searches and
      counts the entries of the key; on any vector a count of one names
      an entry of the key between a smaller and a larger neighbour; on
      the vectors step 1 hands it its [== 1] verdict is the linear
      count's.
    - [ContainerAlgo] (Module [calgo]): the helpers of
      container_algo.hpp, with the state their predicates thread
      ([remove_if] with a predicate that observes the vector being
      compacted, [unique] with a predicate that has side effects,
      [set_intersection] with a two-sided comparator), the searching and
      erasing helpers composed as the header composes them ([contains]
      is [find != end], [erase_value] is [erase_to_end] of [remove],
      [equal_values] is [std::equal] on [calgo::value], that is
      [std::get<1>]), [unique_if] and [unique] (the vector and its new
      end) under [erase_duplicates_if] and [erase_duplicates],
      [calgo::iterable] (a pair of indices into a vector) and the
      [equal]/[equal_values] overloads on pairs of iterators,
      [calgo::overload] (the record of its two call operators),
      [back_inserter] and [front_inserter] (the insert iterators of
      [FlatHint] with the hint [end()] or [begin()]) and
      [calgo::transform] writing through them, the [operator<] overloads
      of [set_intersection], [erase(container, key)], [unique_transform],
      [triangle_product], and [std::sort] as the class [Sorter] (a
      permutation, sorted for a strict total order) with libstdc++'s
      insertion sort as an instance.  Theorems: [unique_transform]
      keeps the elements [unique] keeps; [erase_duplicates] leaves no
      equal neighbours; [triangle_product] visits each pair [i < j]
      once; [erase_if_found] erases at [end()] when nothing matches;
      [front_inserter] and [back_inserter] fill a flat set alike, as
      successive [emplace]s do;
      [set_intersection] with [operator<] on strictly increasing ranges
      is the filter by membership.
    - [Introsort] (Module [Introsort]): libstdc++'s [std::sort], which
      [calgo::sort] calls, routine by routine ([__introsort_loop] with
      its depth limit [2 * __lg(n)] and threshold 16,
      [__unguarded_partition_pivot], the heap sort it falls back on,
      [__final_insertion_sort]) in a state and error monad over the
      vector whose accesses out of range are error values.  Theorems: on
      at most 16 elements it is [calgo]'s functional insertion sort,
      whatever the comparator; with a comparator that holds of every
      pair, on 17 elements or more, its partition reads one past the end.
    - [IntrosortSorts]: the proof that the [std::sort] model sorts, for a
      comparator that compares keys under a total order, a range of any
      size anywhere in the vector.  A weakest-precondition predicate [wp]
      over the monad, positions [at_], updates [upd], ranges [seg] and
      range permutations [segperm]; the median-of-three and the
      unguarded scans of the partition (the pivot and the median are the
      sentinels that keep them in range); the heap sort through a hole
      invariant ([hole_inv]) for [__adjust_heap] and [__push_heap], the
      heap order [hp] for [__make_heap], and the sorted suffix above the
      heap for [__sort_heap]; [__introsort_loop] leaves an element no
      other precedes in the first 16 positions ([min_front]), so the
      unguarded insertion sort of [__final_insertion_sort] stops in time
      and the whole is [calgo]'s insertion sort of a permutation of the
      range.  Theorems: [std::sort] never faults and returns a sorted
      permutation; on a totally ordered element type it puts in the range
      exactly the insertion sort of the range.
    - [IntrosortFuel]: the budget of every loop of the [std::sort] model
      is never what stops a run, whatever the comparator: with a
      weakest precondition [fwp] that allows every fault but [OutOfFuel],
      each loop is shown to stop or to access out of range within the
      length plus one rounds it is given.
    - [IntrosortPerm]: the other half of the [Sorter] contract, for any
      comparator: a partial weakest precondition [pwp] (a fault is
      allowed) and [keeps] (a run that returns leaves a permutation),
      proved routine by routine (swaps, and the holes of
      [__unguarded_linear_insert], [std::move_backward], [__push_heap]
      and [__adjust_heap], whose value is held aside).  Theorem: every run
      of [std::sort] that returns gives a permutation, no run exhausts its
      budget, and with a key comparator every run returns sorted
      ([std_sort_contract]);
      [std_sorter] is [std::sort] as a [Sorter], so that the theorems
      proved for any [Sorter] hold of it.
    - [Collection]: the state record, the read accessors, and the
      operations [emplace], [emplace_association], [inverse_assocations],
      [erase_if], [erase] by key and [compare_associations]; the well-formedness
      invariant (store strictly sorted by key, table sorted by key and
      foreign key, report a strictly sorted set) and referential
      integrity (every association names a stored key), and that each
      operation preserves them; the functional behaviour of [erase];
      [emplace_association_std], [emplace_association] as the code runs
      it (boost's [equal_range], then libstdc++'s [std::sort] on that
      range of the vector in place), which on a well-formed index never
      faults and is the model's [emplace_association] with the insertion
      sort, however long the key's range.
    - [EraseSet]: [erase(set)] in its three steps (cascading erase with
      the code's [count == 1] test, re-sort by the code's comparator,
      duplicate collapse), for any [Sorter], and [erase_set_std], the
      same with libstdc++'s [std::sort]; what each step does, that
      referential integrity survives, that collapsed elements are
      reported, and the counterexamples: an element that loses several
      associations at once is kept with none (spec I3), an element
      removed by step 1 is not reported (spec section 4.4), two
      survivors can keep equal association sets (spec I4; the
      comparator breaks ties on [std::get<1>] of the key and is not a
      strict weak order), the store is left unsorted, after which
      [emplace] admits a duplicate key (spec I1), and on 17 unlinked
      elements or more libstdc++'s sort reads past the end of the store;
      on at most 16 elements [erase_set_std] is [erase_set] with the
      insertion sort.
    - [Visit]: the merge-join [visit] as [set_intersection] with the
      code's overloaded comparator; on a well-formed state it calls the
      operation exactly on the elements that have the foreign key, in
      key order (equivalence with the naive scan); the first scenario of
      spec section 8 evaluated; after an [erase(set)] it can miss one.
    - [Protocol]: [emplace_associations] on two indices, the symmetry it
      keeps, and [main.cpp]: what [main] prints (the values written to
      [std::cout], with [k] and [ks] read when each line runs), evaluated
      end to end.
    - [Refinement] (Module [Spec]): an abstract specification of one
      index (a bag of elements with first write winning, a bag of links,
      a bag of contributors, a report set), its equivalence [≡] with
      [Proper] instances for its operations, the abstraction of the
      concrete record, and the simulation theorem: every sequence of
      [emplace], [emplace_association] and [erase(key)] on a well-formed
      index refines the specification.
    - [TaskQueue]: [task_queue.hpp], which the specification leaves out
      of scope but the repository ships: [notification_queue]'s member
      functions as atomic steps under its mutex, and [task_system] as a
      system of worker threads running [run(i)] and a client thread
      calling [async] and then the destructor, stepped by a scheduler's
      choice of thread, [try_lock] outcome and spurious wake-up.
      Theorems, for every interleaving: no task runs twice; after
      [join] every task has run; before it returns some thread can
      always move (no deadlock); with [count = 0] the first [async]
      divides by zero; [push], which does not notify, can leave a worker
      blocked on a queue that holds a task; every reachable state fits
      the code's [unsigned] types; when [count * k_bound] wraps to [0]
      the [try_push] loop of [async] is skipped.
    - [TaskTest]: [timer.hpp] and [task_algorithms.hpp]: each thread's
      effects in a state monad over the wall clock (read by
      [system_clock::now()], moved by [sleep_for] and by a drift the
      environment chooses at each reading) and the output; [task_test]'s
      single-threaded loop, its five tasks run by the task system of
      [TaskQueue], and their lines interleaved.  Theorems: with a steady
      clock the single-threaded part reports at least the 3ms it slept;
      [system_clock] can be set back, and then it reports a negative
      duration; once [task_test] returns, every number [0 .. 999] has
      been printed exactly twice, whatever the schedule and the
      interleaving.
    - [HasField]: [has_field_example.hpp]: the detection trait as a class,
      [fun] as the binary64 product of the Standard Library's
      [SpecFloat]; the square is never negative, is NaN exactly when the
      field is, and overflows to [+inf] from [2^512] on.

    Modelling choices.  Keys, foreign keys and contributors are types
    with an [Ord] instance (the templates' parameters); an element is
    any type with a [Keyed] instance, equal and ordered by its key as the
    element types of main.cpp are.  Each vector is a list, and the
    [reserve] calls have no semantic effect.  A map or set used only by
    its contract ([count], [equal_range], [erase(key)]) is modelled by
    that contract, which the binary searches meet on sorted storage.
    The [count] of step 1 of [erase(set)] runs on the vector while
    [std::remove_if] compacts it: the model gives boost's binary
    [equal_range] the vector as it is then (kept prefix, then the
    untouched original tail), which need not be sorted, and
    [step1_view_count_boost] shows its [== 1] verdict is that of the
    linear count of the entries of the key.  [std::sort] is a class
    parameter of [erase_set]: the comparator of [erase(set)] is not a
    strict weak order, so the theorems about [erase_set] hold for any
    permutation; the counterexamples use libstdc++'s insertion sort,
    which [erase_set_std_small] shows is what libstdc++'s [std::sort]
    computes on at most 16 elements, and [erase_set_std] runs the whole
    of libstdc++'s [std::sort] where the number of elements matters.
    [emplace_association] sorts the key's range with any [Sorter]:
    [std_sort_contract] shows libstdc++'s [std::sort] meets the [Sorter]
    contract (permutation for any comparator, sorted for a key
    comparator), and [collection_as_run_spec]
    that on the table's pairs it computes the insertion sort; the same
    theorem shows [compare_associations] and [inverse_assocations] run
    as written (the iterator pairs of boost's [equal_range] wrapped in
    [calgo::iterable], the report filled through [calgo::back_inserter])
    compute what the model computes with the entries of the key.  [visit]'s
    callback is a state-passing function: the model records the elements
    it is called on.

    The theorems.  The claims of the development are the theorems whose
    doc comment opens with an identifier [C<n>]: the behaviour of
    [erase(set)] and [visit] first, then [erase(key)], [emplace] and
    [emplace_association] with the invariants they keep, the refinement
    of the abstract specification, boost's [equal_range] and
    libstdc++'s [std::sort] under [erase(set)] and [emplace_association]
    and that it sorts, the two-index protocol
    and main.cpp,
    the task system, the timing driver, [fun], the [calgo] helpers, and
    the binary search with its fuel bound.  Each theorem with hypotheses
    has a companion [_witness] that instantiates it on a concrete input
    (an index built by [build], a fold of [emplace] and
    [emplace_association]; a schedule of the task system run by
    [run_schedule]), so that the hypotheses are seen to be satisfiable.  The counterexamples are
    closed statements evaluated by [vm_compute] on indices of two to
    four elements.

    Bounds and fuel.  The binary search runs with fuel equal to the
    vector's length, and [lower_bound_by_spec] shows any larger
    fuel gives the same position; [equal_range] has the same fuel, which
    its theorems show is enough (each round halves the window).
    Every loop of the [std::sort] model runs with a budget of the length
    plus one rounds ([OutOfFuel] past it): each round moves an index
    that an access checks, so no run needs more, whatever the comparator
    ([std_sort_contract], by [IntrosortFuel]); the faults of the model
    are exactly the accesses out of range of the code, and the theorems
    about it prove the result, not only a result when one exists; the
    recursion of [__introsort_loop] is structural on its depth limit.  The task system's [index] and loop
    counters are 32-bit [unsigned] values ([wrap32]); [k_bound] is a
    parameter ([48] in the default constructor), and [reachable_typed]
    shows every reachable state keeps them in range.  The timing driver's
    loops run [total = 1000] and [chunk_size = 200] rounds, their
    [Z.to_nat] bounds; [system_clock] is in nanoseconds and a [double] is
    binary64 ([prec = 53], [emax = 1024]).

    Not modelled: the compile-time traits [is_iterable] and
    [is_container] of container_algo.hpp, which only feed
    [static_assert] and have no run-time effect; the literal text [main] prints around the values and
    the layout of prettyprint.hpp, which is not part of the sources;
    whether libstdc++'s [std::sort] sorts under a strict weak order that
    does not come from a total order on keys (no source passes one; the
    comparator of [erase(set)] is not a strict weak order at all); tasks
    that themselves call [async]; the unused local [k_bound] of
    [task_test]. *)

From stdpp Require Export base list sorting sets.
From Stdlib Require Export ZArith Lia.

Declare Scope ac_scope.
Delimit Scope ac_scope with ac.
Open Scope ac_scope.

Create HintDb ac discriminated.

(** ** Strict total orders: the [operator<] of the code *)

Class Ord (A : Type) := {
  ltb : A -> A -> bool;
  ltb_irrefl : forall x, ltb x x = false;
  ltb_trans : forall x y z, ltb x y = true -> ltb y z = true -> ltb x z = true;
  ltb_total : forall x y, ltb x y = false -> ltb y x = false -> x = y
}.

Notation "x ≺ y" := (ltb x y = true) (at level 70) : ac_scope.

(** [!(y < x)]: the non-strict order the sorted vectors follow. *)
Definition leb {A} `{Ord A} (x y : A) : bool := negb (ltb y x).

(** Equivalence as the ordered containers see it: neither is smaller. *)
Definition equivb {A} `{Ord A} (x y : A) : bool := negb (ltb x y) && negb (ltb y x).

(** The [is_associatable] trait: an element exposes its [key] member. *)
Class Keyed (E K : Type) := key : E -> K.
Arguments key {_ _ _} _.

(** [std::pair]/[std::tuple] [operator<]: lexicographic. *)
Definition pair_ltb {A B} `{Ord A} `{Ord B} (p q : A * B) : bool :=
  ltb p.1 q.1 || (negb (ltb q.1 p.1) && ltb p.2 q.2).

Section OrdFacts.
Context {A : Type} `{Ord A}.

Lemma ltb_asym x y : ltb x y = true -> ltb y x = false.
Proof.
  intros Hxy. destruct (ltb y x) eqn:Hyx; [|done].
  rewrite <- (ltb_irrefl x). symmetry. eapply ltb_trans; eauto.
Qed.

Lemma equivb_eq x y : equivb x y = true <-> x = y.
Proof.
  unfold equivb. split.
  - intros [?%negb_true_iff ?%negb_true_iff]%andb_prop. by apply ltb_total.
  - intros ->. by rewrite ltb_irrefl.
Qed.

Lemma ltb_neq x y : ltb x y = true -> x <> y.
Proof. intros Hxy ->. by rewrite ltb_irrefl in Hxy. Qed.

Lemma leb_trans x y z : leb x y = true -> leb y z = true -> leb x z = true.
Proof.
  unfold leb. intros ?%negb_true_iff ?%negb_true_iff. apply negb_true_iff.
  destruct (ltb z x) eqn:Hzx; [|done].
  destruct (ltb y x) eqn:Hyx; [done|].
  destruct (ltb z y) eqn:Hzy; [done|].
  assert (y = z) as -> by (apply ltb_total; try done;
    destruct (ltb y z) eqn:E; [|done]; exfalso;
    pose proof (ltb_trans _ _ _ E Hzx); congruence).
  congruence.
Qed.

Lemma ltb_leb_trans x y z : ltb x y = true -> leb y z = true -> ltb x z = true.
Proof.
  unfold leb. intros Hxy Hzy%negb_true_iff.
  destruct (ltb x z) eqn:Hxz; [done|].
  destruct (ltb z x) eqn:Hzx.
  - pose proof (ltb_trans _ _ _ Hzx Hxy). congruence.
  - assert (x = z) as -> by (by apply ltb_total). congruence.
Qed.

Lemma leb_ltb_trans x y z : leb x y = true -> ltb y z = true -> ltb x z = true.
Proof.
  unfold leb. intros Hyx%negb_true_iff Hyz.
  destruct (ltb x z) eqn:Hxz; [done|].
  destruct (ltb z x) eqn:Hzx.
  - pose proof (ltb_trans _ _ _ Hyz Hzx). congruence.
  - assert (x = z) as -> by (by apply ltb_total). congruence.
Qed.

Lemma ltb_leb x y : ltb x y = true -> leb x y = true.
Proof. intros Hxy. unfold leb. by rewrite (ltb_asym _ _ Hxy). Qed.

Lemma leb_refl x : leb x x = true.
Proof. unfold leb. by rewrite ltb_irrefl. Qed.

Lemma leb_false x y : leb x y = false <-> ltb y x = true.
Proof. unfold leb. destruct (ltb y x); simpl; split; congruence. Qed.

Lemma ltb_false_leb x y : ltb x y = false -> leb y x = true.
Proof. intros E. unfold leb. by rewrite E. Qed.

Lemma leb_antisym x y : leb x y = true -> leb y x = true -> x = y.
Proof. unfold leb. intros ?%negb_true_iff ?%negb_true_iff. by apply ltb_total. Qed.

Lemma leb_neq_ltb x y : leb x y = true -> x <> y -> ltb x y = true.
Proof.
  unfold leb. intros Hyx%negb_true_iff Hne. destruct (ltb x y) eqn:Hxy; [done|].
  by pose proof (ltb_total _ _ Hxy Hyx).
Qed.

#[global] Instance ord_eq_dec : EqDecision A.
Proof.
  intros x y. destruct (equivb x y) eqn:E.
  - left. by apply equivb_eq.
  - right. intros ?%equivb_eq. congruence.
Defined.
End OrdFacts.

#[export] Hint Resolve ltb_irrefl ltb_leb leb_refl ltb_asym : ac.

(** ** Instances: the key types of main.cpp are tuples of integers *)

#[export] Program Instance Z_ord : Ord Z := {| ltb := Z.ltb |}.
Next Obligation. intros x. apply Z.ltb_irrefl. Qed.
Next Obligation. intros x y z. rewrite !Z.ltb_lt. lia. Qed.
Next Obligation. intros x y. rewrite !Z.ltb_ge. lia. Qed.

#[export] Program Instance nat_ord : Ord nat := {| ltb := Nat.ltb |}.
Next Obligation. intros x. apply Nat.ltb_irrefl. Qed.
Next Obligation. intros x y z. rewrite !Nat.ltb_lt. lia. Qed.
Next Obligation. intros x y. rewrite !Nat.ltb_ge. lia. Qed.

Section PairOrd.
Context {A B : Type} `{Ord A} `{Ord B}.

Lemma pair_ltb_irrefl (p : A * B) : pair_ltb p p = false.
Proof. unfold pair_ltb. by rewrite !ltb_irrefl. Qed.

Lemma pair_ltb_trans (p q r : A * B) :
  pair_ltb p q = true -> pair_ltb q r = true -> pair_ltb p r = true.
Proof.
  unfold pair_ltb. destruct p as [a1 b1], q as [a2 b2], r as [a3 b3]; simpl.
  intros [H1|[H1%negb_true_iff H1']%andb_prop]%orb_prop
         [H2|[H2%negb_true_iff H2']%andb_prop]%orb_prop; apply orb_true_iff.
  - left. eauto using ltb_trans.
  - left. eauto using ltb_leb_trans, ltb_false_leb.
  - left. eauto using leb_ltb_trans, ltb_false_leb.
  - right. apply andb_true_iff. split; [|eauto using ltb_trans].
    apply negb_true_iff. destruct (ltb a3 a1) eqn:E; [|done].
    pose proof (ltb_false_leb _ _ H2). pose proof (ltb_false_leb _ _ H1).
    assert (leb a1 a3 = true) as Hle by eauto using leb_trans.
    apply leb_false in E. congruence.
Qed.

Lemma pair_ltb_total (p q : A * B) :
  pair_ltb p q = false -> pair_ltb q p = false -> p = q.
Proof.
  unfold pair_ltb. destruct p as [a1 b1], q as [a2 b2]; simpl.
  intros [H1 H1']%orb_false_iff [H2 H2']%orb_false_iff.
  assert (a1 = a2) as -> by (by apply ltb_total).
  rewrite ltb_irrefl in H1', H2'. simpl in *. f_equal. by apply ltb_total.
Qed.
End PairOrd.

#[export] Instance prod_ord {A B} `{Ord A} `{Ord B} : Ord (A * B) :=
  {| ltb := @pair_ltb A B _ _; ltb_irrefl := @pair_ltb_irrefl A B _ _;
     ltb_trans := @pair_ltb_trans A B _ _; ltb_total := @pair_ltb_total A B _ _ |}.

Lemma pair_leb_fst {A B} `{Ord A} `{Ord B} (p q : A * B) :
  leb p q = true -> leb p.1 q.1 = true.
Proof.
  unfold leb. simpl. unfold pair_ltb. intros [Hq _]%negb_true_iff%orb_false_iff.
  by rewrite Hq.
Qed.

Lemma pair_ltb_fst {A B} `{Ord A} `{Ord B} (p q : A * B) :
  ltb p.1 q.1 = true -> ltb p q = true.
Proof. intros Hpq. simpl. unfold pair_ltb. by rewrite Hpq. Qed.

(** ** Shared arithmetic and list facts *)

Lemma half_bounds n : n / 2 <= n /\ (0 < n -> n / 2 < n) /\ n - (n / 2 + 1) < S n.
Proof.
  pose proof (Nat.div_mod n 2 ltac:(lia)). pose proof (Nat.mod_upper_bound n 2 ltac:(lia)).
  lia.
Qed.

Lemma filter_all {X} (P : X -> bool) (l : list X) :
  Forall (fun x => P x = true) l -> List.filter P l = l.
Proof. induction 1 as [|x l Hx _ IH]; simpl; [done|]. by rewrite Hx, IH. Qed.

Lemma filter_none {X} (P : X -> bool) (l : list X) :
  Forall (fun x => P x = false) l -> List.filter P l = [].
Proof. induction 1 as [|x l Hx _ IH]; simpl; [done|]. by rewrite Hx. Qed.

Lemma elem_of_filterb {X} (P : X -> bool) (l : list X) x :
  x ∈ List.filter P l <-> x ∈ l /\ P x = true.
Proof. rewrite !list_elem_of_In. apply filter_In. Qed.

Lemma StronglySorted_weaken {X} (R R' : X -> X -> Prop) (l : list X) :
  (forall a b, R a b -> R' a b) -> StronglySorted R l -> StronglySorted R' l.
Proof.
  intros HR. induction 1 as [|x l _ IH Hx]; constructor; [done|].
  eapply Forall_impl; [exact Hx|]. eauto.
Qed.

Lemma StronglySorted_filterb {X} (R : X -> X -> Prop) (P : X -> bool) (l : list X) :
  StronglySorted R l -> StronglySorted R (List.filter P l).
Proof.
  induction 1 as [|x l _ IH Hx]; simpl; [constructor|]. destruct (P x); [|done].
  constructor; [done|]. apply Forall_forall. intros y [Hy _]%elem_of_filterb.
  rewrite Forall_forall in Hx. auto.
Qed.

Lemma Permutation_filterb {X} (P : X -> bool) (l1 l2 : list X) :
  l1 ≡ₚ l2 -> List.filter P l1 ≡ₚ List.filter P l2.
Proof.
  induction 1 as [|x l l' _ IH|x y l|l l' l'' _ IH1 _ IH2]; simpl.
  - done.
  - destruct (P x); [by constructor|done].
  - destruct (P x), (P y); [apply perm_swap|done..].
  - by etrans.
Qed.

#[export] Hint Resolve StronglySorted_filterb : ac.

Lemma fold_left_map_fn {A B C} (f : A -> B -> A) (g : C -> B) (l : list C) (a : A) :
  fold_left f (map g l) a = fold_left (fun a c => f a (g c)) l a.
Proof. revert a. induction l as [|c l IH]; intros a; simpl; auto. Qed.

Lemma forallb_false_lookup {A} (p : A -> bool) (l : list A) :
  forallb p l = false -> exists i x, l !! i = Some x /\ p x = false.
Proof.
  induction l as [|x l IH]; simpl; [done|]. destruct (p x) eqn:Hx; simpl.
  - intros H. destruct (IH H) as (i & y & ? & ?). by exists (S i), y.
  - intros _. by exists 0, x.
Qed.

Lemma split3_take_drop {X} (m L M G : list X) :
  m = L ++ M ++ G ->
  take (length L) m = L /\ drop (length L) (take (length L + length M) m) = M /\
  drop (length L + length M) m = G.
Proof.
  intros ->. split_and!.
  - apply take_app_length.
  - rewrite app_assoc, take_app_length' by (by rewrite length_app). apply drop_app_length.
  - rewrite app_assoc. apply drop_app_length'. by rewrite length_app.
Qed.

Lemma NoDup_map_filterb {X Y} (f : X -> Y) (P : X -> bool) (l : list X) :
  NoDup (map f l) -> NoDup (map f (List.filter P l)).
Proof.
  induction l as [|x l IH]; simpl; [done|]. intros [Hx Hl]%NoDup_cons.
  destruct (P x); simpl; [|auto]. constructor; [|auto].
  intros Hin. apply Hx. apply list_elem_of_In in Hin. apply list_elem_of_In.
  apply in_map_iff in Hin as (y & <- & Hy).
  apply in_map. apply filter_In in Hy. tauto.
Qed.

Lemma sublist_filterb {X} (P : X -> bool) (l : list X) : List.filter P l `sublist_of` l.
Proof.
  induction l as [|x l IH]; simpl; [done|]. destruct (P x); [by apply sublist_skip|by apply sublist_cons].
Qed.

Lemma sublist_map {X Y} (f : X -> Y) (l1 l2 : list X) :
  l1 `sublist_of` l2 -> map f l1 `sublist_of` map f l2.
Proof. induction 1; simpl; by constructor. Qed.

Lemma app_snoc_cons {X} (l l' : list X) y : l ++ y :: l' = (l ++ [y]) ++ l'.
Proof. by rewrite <- app_assoc. Qed.

(** Filtering by membership in [b :: bs] is filtering by membership in
    [bs] when no element maps to [b]. *)
Lemma filter_elem_cons {X Y} `{EqDecision Y} (f : X -> Y) (b : Y) (bs : list Y) (l : list X) :
  (forall x, x ∈ l -> f x <> b) ->
  List.filter (fun x => bool_decide (f x ∈ b :: bs)) l = List.filter (fun x => bool_decide (f x ∈ bs)) l.
Proof.
  intros Hl. apply filter_ext_in. intros x Hx%list_elem_of_In.
  apply bool_decide_ext. rewrite elem_of_cons. specialize (Hl x Hx). tauto.
Qed.

(** Destruct the boolean tests of the goal, keeping their equations. *)
Ltac case_bool :=
  match goal with
  | |- context [if ?b then _ else _] =>
      lazymatch b with
      | context [if _ then _ else _] => fail
      | _ => let E := fresh "E" in destruct b eqn:E
      end
  end.
