(* ===== verification/FlatContainers.v ===== *)
(** * Boost flat containers as sorted vectors

    [boost::container::flat_set] and [flat_multimap], which
    [associated_collection.hpp] uses for [collection_], [keys_],
    [foreign_keys_], [associations_] and [contributors_], keep their
    elements in a vector sorted by the comparator.  The operations the
    collection calls are modelled on such a vector (a list):
    - the binary search of the flat tree ([lower_bound_by], the loop of
      [priv_lower_bound] for a monotone predicate), with the theorem that
      it returns the partition point on a partitioned vector and that a
      fuel of the vector's length is enough;
    - [flat_set::emplace] ([fs_insert]): binary search for the key, insert
      unless the element found is equivalent;
    - [flat_multimap::emplace] ([mm_insert]): insert at the upper bound of
      the key;
    - [equal_range], [count] and [erase(key)] of the multimap by their
      documented contract (the entries whose key is equivalent). *)

From S2P Require Import Prelude.

(** ** The binary search of the flat tree *)

Section BinarySearch.
Context {X : Type}.

(** The loop of [priv_lower_bound]: [below y] is [key_cmp(y, key)] for a
    lower bound and [!key_cmp(key, y)] for an upper bound.  [len] halves
    at each step; [fuel] bounds the iterations. *)
Fixpoint lower_bound_loop (below : X -> bool) (l : list X) (fuel first len : nat) : nat :=
  match fuel with
  | O => first
  | S fuel' =>
      if Nat.eqb len 0 then first else
      let step := len / 2 in
      let middle := first + step in
      match l !! middle with
      | Some y =>
          if below y then lower_bound_loop below l fuel' (S middle) (len - (step + 1))
          else lower_bound_loop below l fuel' first step
      | None => first
      end
  end.

Definition lower_bound_by (below : X -> bool) (l : list X) : nat :=
  lower_bound_loop below l (length l) 0 (length l).

(** The reference: the length of the longest prefix satisfying [below]. *)
Fixpoint count_while (below : X -> bool) (l : list X) : nat :=
  match l with
  | [] => 0
  | x :: l' => if below x then S (count_while below l') else 0
  end.

(** The precondition of a binary search: [below] holds exactly on a prefix. *)
Definition partitioned (below : X -> bool) (l : list X) (p : nat) : Prop :=
  forall i y, l !! i = Some y -> (below y = true <-> i < p).

Lemma lower_bound_loop_partition below l p fuel first len :
  partitioned below l p -> len <= fuel -> first + len <= length l ->
  first <= p <= first + len ->
  lower_bound_loop below l fuel first len = p.
Proof.
  intros Hpart. revert first len.
  induction fuel as [|fuel IH]; intros first len Hfuel Hlen Hp; cbn [lower_bound_loop]; [lia|].
  destruct (Nat.eqb_spec len 0) as [->|Hne]; [lia|].
  pose proof (half_bounds len) as (Hh1 & Hh2 & Hh3).
  destruct (lookup_lt_is_Some_2 l (first + len / 2)) as [y Hy]; [lia|].
  rewrite Hy. pose proof (Hpart _ _ Hy) as Hiff.
  destruct (below y) eqn:Hb.
  - apply IH; [lia|lia|]. apply proj1 in Hiff. specialize (Hiff eq_refl). lia.
  - apply IH; [lia|lia|]. destruct (decide (first + len / 2 < p)) as [Hlt|]; [|lia].
    apply Hiff in Hlt. congruence.
Qed.

Lemma lower_bound_loop_fuel below l fuel1 fuel2 first len :
  len <= fuel1 -> len <= fuel2 ->
  lower_bound_loop below l fuel1 first len = lower_bound_loop below l fuel2 first len.
Proof.
  revert fuel2 first len. induction fuel1 as [|fuel1 IH]; intros [|fuel2] first len H1 H2;
    cbn [lower_bound_loop]; try (replace len with 0 by lia; done).
  destruct (Nat.eqb_spec len 0); [done|]. pose proof (half_bounds len) as (? & ? & ?).
  destruct (l !! (first + len / 2)); [|done]. destruct (below x); apply IH; lia.
Qed.

(** C40: The binary search of the flat containers stops within [length l]
    rounds, so any larger budget gives the same position whatever the vector
    holds, and on a vector partitioned at [p] that position is [p]. *)
Lemma lower_bound_by_spec below l :
  (forall fuel, length l <= fuel -> lower_bound_loop below l fuel 0 (length l) = lower_bound_by below l) /\
  (forall p, partitioned below l p -> p <= length l -> lower_bound_by below l = p).
Proof.
  split; [intros fuel Hf; apply lower_bound_loop_fuel; lia|].
  intros p Hp Hl. apply lower_bound_loop_partition; auto with lia.
Qed.

Lemma count_while_partitioned below l1 l2 :
  Forall (fun x => below x = true) l1 -> Forall (fun x => below x = false) l2 ->
  partitioned below (l1 ++ l2) (length l1) /\ count_while below (l1 ++ l2) = length l1.
Proof.
  intros H1 H2. split.
  - intros i y Hy. destruct (decide (i < length l1)) as [Hi|Hi].
    + rewrite lookup_app_l in Hy by done. rewrite Forall_lookup in H1.
      split; [done|]. intros _. eauto.
    + rewrite lookup_app_r in Hy by lia. rewrite Forall_lookup in H2.
      rewrite (H2 _ _ Hy). split; [done|lia].
  - induction H1 as [|x l1 Hx _ IH]; simpl.
    + destruct H2 as [|x l2 Hx _]; simpl; [done|]. by rewrite Hx.
    + by rewrite Hx, IH.
Qed.

(** Equivalence of the binary search with the linear scan. *)
Lemma lower_bound_by_count_while below l1 l2 :
  Forall (fun x => below x = true) l1 -> Forall (fun x => below x = false) l2 ->
  lower_bound_by below (l1 ++ l2) = count_while below (l1 ++ l2).
Proof.
  intros H1 H2. destruct (count_while_partitioned below l1 l2 H1 H2) as [Hp ->].
  apply lower_bound_loop_partition; [done|lia|lia|]. rewrite length_app. lia.
Qed.

Definition insert_at (i : nat) (x : X) (l : list X) : list X :=
  take i l ++ x :: drop i l.

Lemma insert_at_perm i x l : insert_at i x l ≡ₚ x :: l.
Proof.
  unfold insert_at. rewrite <- Permutation_middle. by rewrite take_drop.
Qed.
End BinarySearch.

(** ** [flat_set] and [flat_multimap] insertion *)

Section FlatTree.
Context {X K : Type} `{Ord K} (kf : X -> K).

(** [flat_tree::insert_unique]: binary search for the first element not
    smaller than [x], insert unless that element is equivalent to [x]. *)
Definition fs_insert (x : X) (s : list X) : list X :=
  let pos := lower_bound_by (fun y => ltb (kf y) (kf x)) s in
  match s !! pos with
  | Some y => if ltb (kf x) (kf y) then insert_at pos x s else s
  | None => insert_at pos x s
  end.

(** [flat_tree::insert_equal]: insert at the upper bound of the key. *)
Definition mm_insert (x : X) (m : list X) : list X :=
  insert_at (lower_bound_by (fun y => negb (ltb (kf x) (kf y))) m) x m.

(** [equal_range(k)], [count(k)] and [erase(k)] by their contract. *)
Definition mm_range (k : K) (m : list X) : list X :=
  List.filter (fun y => equivb (kf y) k) m.

Definition mm_count (k : K) (m : list X) : nat := length (mm_range k m).

Definition mm_erase_key (k : K) (m : list X) : list X :=
  List.filter (fun y => negb (equivb (kf y) k)) m.

Lemma mm_range_elem k m y : y ∈ mm_range k m <-> y ∈ m /\ kf y = k.
Proof. unfold mm_range. by rewrite elem_of_filterb, equivb_eq. Qed.

Lemma mm_erase_key_elem k m y : y ∈ mm_erase_key k m <-> y ∈ m /\ kf y <> k.
Proof.
  unfold mm_erase_key. rewrite elem_of_filterb, negb_true_iff.
  split; intros [? Hy]; split; try done.
  - intros Hk%equivb_eq. congruence.
  - destruct (equivb (kf y) k) eqn:E; [|done]. by apply equivb_eq in E.
Qed.

Lemma mm_count_app k m1 m2 : mm_count k (m1 ++ m2) = mm_count k m1 + mm_count k m2.
Proof. unfold mm_count, mm_range. by rewrite List.filter_app, length_app. Qed.

Lemma mm_count_pos k m y : y ∈ m -> kf y = k -> 1 <= mm_count k m.
Proof.
  intros Hy Hk. unfold mm_count. destruct (mm_range k m) eqn:Hr; simpl; [|lia].
  assert (y ∈ mm_range k m) as Hin by (by apply mm_range_elem). rewrite Hr in Hin. set_solver.
Qed.

Lemma mm_count_zero k m : (forall y, y ∈ m -> kf y <> k) -> mm_count k m = 0.
Proof.
  intros Hm. unfold mm_count. destruct (mm_range k m) as [|y r] eqn:Hr; [done|].
  assert (y ∈ mm_range k m) as [Hy Hk]%mm_range_elem by (rewrite Hr; set_solver).
  by destruct (Hm y Hy).
Qed.

(** A key counted once names one entry. *)
Lemma mm_count_one k m y z :
  mm_count k m = 1 -> y ∈ m -> z ∈ m -> kf y = k -> kf z = k -> y = z.
Proof.
  unfold mm_count. intros Hc Hy Hz Hyk Hzk.
  assert (y ∈ mm_range k m) as Hy' by (by apply mm_range_elem).
  assert (z ∈ mm_range k m) as Hz' by (by apply mm_range_elem).
  destruct (mm_range k m) as [|a [|b r]]; simpl in Hc; try lia. set_solver.
Qed.

(** The sorted insertion a [flat_set] is specified by. *)
Fixpoint sorted_insert (x : X) (s : list X) : list X :=
  match s with
  | [] => [x]
  | y :: s' =>
      if ltb (kf y) (kf x) then y :: sorted_insert x s'
      else if ltb (kf x) (kf y) then x :: s else s
  end.

Definition key_lt (a b : X) : Prop := ltb (kf a) (kf b) = true.
Definition key_le (a b : X) : Prop := leb (kf a) (kf b) = true.
End FlatTree.

Section Partition.
Context {X : Type}.

(** A vector sorted by [R] is partitioned by any predicate closed downward
    along [R], at the length of its longest prefix satisfying it. *)
Lemma sorted_partition (R : X -> X -> Prop) (below : X -> bool) s :
  StronglySorted R s -> (forall a b, R a b -> below b = true -> below a = true) ->
  Forall (fun y => below y = true) (take (count_while below s) s) /\
  Forall (fun y => below y = false) (drop (count_while below s) s).
Proof.
  intros Hs Hmono. induction Hs as [|x s Hs IH Hx]; simpl; [done|].
  destruct (below x) eqn:Hb; simpl.
  - destruct IH as [IH1 IH2]. split; [constructor|]; done.
  - split; [done|]. constructor; [done|].
    rewrite Forall_forall in Hx |- *. intros y Hy.
    destruct (below y) eqn:E; [|done]. rewrite (Hmono x y (Hx y Hy) E) in Hb. done.
Qed.

Lemma sorted_lower_bound (R : X -> X -> Prop) (below : X -> bool) s :
  StronglySorted R s -> (forall a b, R a b -> below b = true -> below a = true) ->
  lower_bound_by below s = count_while below s.
Proof.
  intros Hs Hmono. destruct (sorted_partition R below s Hs Hmono) as [H1 H2].
  pose proof (lower_bound_by_count_while below _ _ H1 H2) as E.
  by rewrite take_drop in E.
Qed.
End Partition.

Section FlatTreeFacts.
Context {X K : Type} `{Ord K} (kf : X -> K).

Lemma sorted_insert_count_while x s :
  sorted_insert kf x s =
    let pos := count_while (fun y => ltb (kf y) (kf x)) s in
    match s !! pos with
    | Some y => if ltb (kf x) (kf y) then insert_at pos x s else s
    | None => insert_at pos x s
    end.
Proof.
  induction s as [|y s IH]; simpl; [done|].
  destruct (ltb (kf y) (kf x)) eqn:Hyx; simpl.
  - rewrite IH. simpl. destruct (s !! _); [case_bool|]; done.
  - unfold insert_at. simpl. by case_bool.
Qed.

(** On a strictly sorted vector, [flat_set::emplace] is the sorted
    insertion. *)
Lemma fs_insert_sorted_insert x s :
  StronglySorted (key_le kf) s -> fs_insert kf x s = sorted_insert kf x s.
Proof.
  intros Hs. rewrite sorted_insert_count_while. unfold fs_insert.
  rewrite (sorted_lower_bound (key_le kf)); [done..|].
  intros a b Hab Hb. exact (leb_ltb_trans _ _ _ Hab Hb).
Qed.

Lemma sorted_insert_in x s z : z ∈ sorted_insert kf x s -> z = x \/ z ∈ s.
Proof.
  induction s as [|y s IH]; simpl; [set_solver|].
  repeat case_bool; set_solver.
Qed.

Lemma sorted_insert_sorted x s :
  StronglySorted (key_lt kf) s -> StronglySorted (key_lt kf) (sorted_insert kf x s).
Proof.
  unfold key_lt. induction 1 as [|y s Hs IH Hy]; simpl; [repeat constructor|].
  rewrite Forall_forall in Hy.
  repeat case_bool; constructor; try done; try constructor; rewrite ?Forall_forall; eauto.
  - intros z [->|Hz]%sorted_insert_in; eauto.
  - intros z Hz. eapply ltb_trans; eauto.
Qed.

(** A key already present leaves the set unchanged ... *)
Lemma sorted_insert_present x s :
  StronglySorted (key_lt kf) s -> (exists z, z ∈ s /\ kf z = kf x) ->
  sorted_insert kf x s = s.
Proof.
  unfold key_lt. induction 1 as [|y s Hs IH Hy]; simpl; [set_solver|].
  intros (z & [->|Hz]%elem_of_cons & Hzx); rewrite Forall_forall in Hy.
  - by rewrite Hzx, ltb_irrefl.
  - pose proof (Hy z Hz) as Hyz. rewrite Hzx in Hyz. rewrite Hyz.
    f_equal. eauto.
Qed.

(** ... and a new key is added. *)
Lemma sorted_insert_absent x s :
  (forall z, z ∈ s -> kf z <> kf x) -> sorted_insert kf x s ≡ₚ x :: s.
Proof.
  induction s as [|y s IH]; simpl; intros Hnew; [done|].
  destruct (ltb (kf y) (kf x)) eqn:Hyx.
  - rewrite IH by set_solver. apply perm_swap.
  - destruct (ltb (kf x) (kf y)) eqn:Hxy; [done|].
    exfalso. apply (Hnew y); [set_solver|]. by apply ltb_total.
Qed.

Lemma sorted_insert_incl x s z : z ∈ s -> z ∈ sorted_insert kf x s.
Proof. induction s as [|y s IH]; simpl; [set_solver|]. repeat case_bool; set_solver. Qed.

Lemma sorted_insert_key x s : exists z, z ∈ sorted_insert kf x s /\ kf z = kf x.
Proof.
  induction s as [|y s IH]; simpl; [exists x; set_solver|].
  destruct IH as (z & Hz & Hzx). repeat case_bool.
  - exists z. set_solver.
  - exists x. set_solver.
  - exists y. split; [set_solver|]. by apply ltb_total.
Qed.

(** [flat_set::emplace] on a strictly sorted vector keeps it strictly
    sorted and adds exactly the elements of a new key. *)
Lemma fs_insert_sorted x s :
  StronglySorted (key_lt kf) s ->
  StronglySorted (key_lt kf) (fs_insert kf x s) /\
  (forall z, z ∈ s -> z ∈ fs_insert kf x s) /\
  (forall z, z ∈ fs_insert kf x s -> z = x \/ z ∈ s) /\
  (exists z, z ∈ fs_insert kf x s /\ kf z = kf x).
Proof.
  intros Hs. rewrite fs_insert_sorted_insert.
  - split_and!; auto using sorted_insert_sorted, sorted_insert_incl, sorted_insert_in,
      sorted_insert_key.
  - eapply StronglySorted_weaken; [|exact Hs]. unfold key_lt, key_le. intros a b.
    apply ltb_leb.
Qed.
End FlatTreeFacts.

(** ** The multimap on a vector sorted by key *)

Section MultimapFacts.
Context {X K : Type} `{Ord K} (kf : X -> K).

Definition key_below (k : K) (y : X) : bool := ltb (kf y) k.
Definition key_above (k : K) (y : X) : bool := ltb k (kf y).
Definition key_upto (k : K) (y : X) : bool := negb (ltb k (kf y)).

(** [equal_range(k)] of the flat tree: two binary searches. *)
Definition mm_lower (k : K) (m : list X) : nat := lower_bound_by (key_below k) m.
Definition mm_upper (k : K) (m : list X) : nat := lower_bound_by (key_upto k) m.

Lemma equivb_key_iff k y : equivb (kf y) k = true <-> kf y = k.
Proof. apply equivb_eq. Qed.

(** A vector sorted by key is the keys below [k], those equal to [k] and
    those above [k], in this order. *)
Lemma sorted_split3 k m :
  StronglySorted (key_le kf) m ->
  m = List.filter (key_below k) m ++ mm_range kf k m ++ List.filter (key_above k) m.
Proof.
  unfold key_le, key_below, key_above, mm_range.
  induction 1 as [|y m Hm IH Hy]; simpl; [done|].
  rewrite Forall_forall in Hy.
  destruct (ltb (kf y) k) eqn:Hyk.
  - rewrite (ltb_asym _ _ Hyk). assert (equivb (kf y) k = false) as ->.
    { unfold equivb. by rewrite Hyk. }
    simpl. by f_equal.
  - assert (List.filter (fun y => ltb (kf y) k) m = []) as Hnone.
    { apply filter_none, Forall_forall. intros z Hz. destruct (ltb (kf z) k) eqn:E; [|done].
      pose proof (leb_ltb_trans _ _ _ (Hy z Hz) E). congruence. }
    rewrite Hnone.
    destruct (ltb k (kf y)) eqn:Hky; simpl.
    + assert (equivb (kf y) k = false) as ->.
      { unfold equivb. by rewrite Hky, andb_false_r. }
      assert (forall z, z ∈ m -> ltb k (kf z) = true) as Habove
        by (intros z Hz; eapply ltb_leb_trans; eauto).
      rewrite (filter_none (fun y => equivb (kf y) k)), filter_all; [done|..];
        apply Forall_forall; intros z Hz;
        first [by apply Habove | unfold equivb; by rewrite (Habove z Hz), andb_false_r].
    + assert (equivb (kf y) k = true) as -> by (unfold equivb; by rewrite Hyk, Hky).
      simpl. f_equal. by rewrite IH at 1; rewrite Hnone.
Qed.

Lemma mm_bounds k m :
  StronglySorted (key_le kf) m ->
  mm_lower k m = length (List.filter (key_below k) m) /\
  mm_upper k m = length (List.filter (key_below k) m) + length (mm_range kf k m).
Proof.
  intros Hm. pose proof (sorted_split3 k m Hm) as Hsplit.
  assert (Forall (fun y => key_below k y = true) (List.filter (key_below k) m)) as HL.
  { apply Forall_forall. intros y [_ Hy]%elem_of_filterb. done. }
  assert (Forall (fun y => key_upto k y = true /\ key_below k y = false) (mm_range kf k m)) as HE.
  { apply Forall_forall. intros y [_ Hy]%elem_of_filterb.
    unfold key_upto, key_below. apply equivb_key_iff in Hy as <-. by rewrite ltb_irrefl. }
  assert (Forall (fun y => key_upto k y = false /\ key_below k y = false)
            (List.filter (key_above k) m)) as HG.
  { apply Forall_forall. intros y [_ Hy]%elem_of_filterb.
    unfold key_upto, key_below. unfold key_above in Hy. by rewrite Hy, (ltb_asym _ _ Hy). }
  set (L := List.filter (key_below k) m) in *. set (E := mm_range kf k m) in *.
  set (G := List.filter (key_above k) m) in *.
  unfold mm_lower, mm_upper. rewrite Hsplit. split.
  - assert (Forall (fun y => key_below k y = false) (E ++ G)) as HEG.
    { apply Forall_app. split; [eapply Forall_impl; [exact HE|]|eapply Forall_impl; [exact HG|]];
      naive_solver. }
    rewrite (lower_bound_by_count_while _ _ _ HL HEG).
    exact (proj2 (count_while_partitioned _ _ _ HL HEG)).
  - assert (Forall (fun y => key_upto k y = true) (L ++ E)) as HLE.
    { apply Forall_app. split; [|eapply Forall_impl; [exact HE|]; naive_solver].
      apply (Forall_impl _ _ _ HL). unfold key_below, key_upto. intros y Hy.
      by rewrite (ltb_asym _ _ Hy). }
    assert (Forall (fun y => key_upto k y = false) G) as HG'.
    { eapply Forall_impl; [exact HG|]. naive_solver. }
    rewrite app_assoc, (lower_bound_by_count_while _ _ _ HLE HG'),
      (proj2 (count_while_partitioned _ _ _ HLE HG')).
    by rewrite length_app.
Qed.

(** On a table sorted by key, [flat_multimap::emplace] inserts after the
    entries whose key is not above the new one. *)
Lemma mm_insert_split x m :
  StronglySorted (key_le kf) m ->
  let p := count_while (key_upto (kf x)) m in
  mm_insert kf x m = take p m ++ x :: drop p m /\
  Forall (fun y => key_upto (kf x) y = true) (take p m) /\
  Forall (fun y => key_upto (kf x) y = false) (drop p m).
Proof.
  intros Hm p. unfold mm_insert.
  assert (forall a b, key_le kf a b -> key_upto (kf x) b = true -> key_upto (kf x) a = true)
    as Hmono.
  { unfold key_le, key_upto. intros a b Hab Hb%negb_true_iff. apply negb_true_iff.
    destruct (ltb (kf x) (kf a)) eqn:E; [|done].
    pose proof (ltb_leb_trans _ _ _ E Hab). congruence. }
  change (fun y => negb (ltb (kf x) (kf y))) with (key_upto (kf x)).
  rewrite (sorted_lower_bound _ _ _ Hm Hmono).
  split; [done|]. exact (sorted_partition _ _ _ Hm Hmono).
Qed.

Lemma mm_insert_sorted x m :
  StronglySorted (key_le kf) m -> StronglySorted (key_le kf) (mm_insert kf x m).
Proof.
  intros Hm. destruct (mm_insert_split x m Hm) as (-> & HL & HG).
  rewrite <- (take_drop (count_while (key_upto (kf x)) m) m) in Hm.
  rewrite Forall_forall in HL, HG. unfold key_upto in HL, HG.
  apply StronglySorted_app_2.
  - intros a b Ha [->|Hb]%elem_of_cons.
    + apply HL in Ha. unfold key_le, leb. done.
    + exact (StronglySorted_app_1_elem_of _ _ _ _ _ Hm Ha Hb).
  - exact (StronglySorted_app_1_l _ _ _ Hm).
  - constructor; [exact (StronglySorted_app_1_r _ _ _ Hm)|].
    apply Forall_forall. intros b Hb. apply HG, negb_false_iff in Hb.
    by apply ltb_leb.
Qed.

Lemma mm_insert_perm x m : mm_insert kf x m ≡ₚ x :: m.
Proof. apply insert_at_perm. Qed.

(** The two binary searches of [equal_range] cut a table sorted by key
    into the keys below, the range of the key, and the keys above. *)
Lemma mm_equal_range_split k m :
  StronglySorted (key_le kf) m ->
  take (mm_lower k m) m = List.filter (key_below k) m /\
  drop (mm_lower k m) (take (mm_upper k m) m) = mm_range kf k m /\
  drop (mm_upper k m) m = List.filter (key_above k) m.
Proof.
  intros Hm. destruct (mm_bounds k m Hm) as [-> ->].
  exact (split3_take_drop _ _ _ _ (sorted_split3 k m Hm)).
Qed.
End MultimapFacts.

(** ** Concrete instances of the binary search lemmas *)

Lemma lower_bound_by_spec_witness :
  partitioned (fun x => Z.ltb x 5) [1; 3; 5; 7]%Z 2 /\
  lower_bound_loop (fun x => Z.ltb x 5) [1; 3; 5; 7]%Z 10 0 (length [1; 3; 5; 7]%Z) = 2.
Proof.
  assert (Hp : partitioned (fun x => Z.ltb x 5) [1; 3; 5; 7]%Z 2).
  { intros i y Hi. destruct i as [|[|[|[|i]]]]; simpl in Hi; simplify_eq; simpl;
      split; (done || lia). }
  split; [exact Hp|]. rewrite (proj1 (lower_bound_by_spec _ _) 10) by (simpl; lia).
  apply (proj2 (lower_bound_by_spec _ _) _ Hp). simpl; lia.
Defined.
