(* ===== verification/FlatHint.v ===== *)
(** * Insertion with a hint into a [flat_set], and [std::insert_iterator]

    [calgo::back_inserter] and [calgo::front_inserter] are
    [std::inserter(container, end())] and [std::inserter(container,
    begin())]: an [std::insert_iterator] whose assignment runs
    [iter = container.insert(iter, value); ++iter].  On a
    [boost::container::flat_set] the insertion with a hint is
    [flat_tree::insert_unique(hint, val)], which checks the hint against
    its neighbours (N1780) and falls back to a binary search on the side
    where the key belongs:
    - [priv_lower_bound_range] and [insert_unique_prepare_range]: the
      binary search on a sub-range [[b, e)] and its verdict;
    - [insert_unique_prepare]: the hint check;
    - [insert_unique_hint]: the new vector and the returned position;
    - [insert_iterator], [inserter] and [insert_assign]: the output
      iterator the [calgo] algorithms write through.
    The theorems: the binary search on a sub-range of a partitioned vector
    returns the partition point clamped to the range; on a strictly sorted
    vector the hinted insertion is the plain [fs_insert] whatever the
    (valid) hint, and returns the lower bound of the key; writing through
    an inserter keeps its hint valid (boost's [priv_in_range_or_end]
    assertion) and fills the set as [fs_insert] does. *)

From S2P Require Import Prelude FlatContainers.

(** ** The binary search on a sub-range *)

Section RangeSearch.
Context {X : Type}.

(** On a vector partitioned at [p], the search of [[first, first+len)]
    returns [p] clamped to the range. *)
Lemma lower_bound_loop_clamp below (l : list X) p fuel first len :
  partitioned below l p -> len <= fuel -> first + len <= length l ->
  lower_bound_loop below l fuel first len = Nat.max first (Nat.min p (first + len)).
Proof.
  intros Hpart. revert first len.
  induction fuel as [|fuel IH]; intros first len Hfuel Hlen; cbn [lower_bound_loop]; [lia|].
  destruct (Nat.eqb_spec len 0) as [->|Hne]; [lia|].
  pose proof (half_bounds len) as (Hh1 & Hh2 & Hh3).
  destruct (lookup_lt_is_Some_2 l (first + len / 2)) as [y Hy]; [lia|].
  rewrite Hy. pose proof (Hpart _ _ Hy) as Hiff.
  destruct (below y) eqn:Hb.
  - rewrite IH by lia. apply proj1 in Hiff. specialize (Hiff eq_refl). lia.
  - rewrite IH by lia. destruct (decide (first + len / 2 < p)) as [Hlt|]; [|lia].
    apply Hiff in Hlt. congruence.
Qed.

Lemma StronglySorted_lookup (R : X -> X -> Prop) (l : list X) i j a b :
  StronglySorted R l -> i < j -> l !! i = Some a -> l !! j = Some b -> R a b.
Proof.
  intros Hs. revert i j. induction Hs as [|x l Hs IH Hx]; intros i j Hij Ha Hb; [done|].
  rewrite Forall_lookup in Hx. destruct i as [|i], j as [|j]; simplify_eq/=; [lia|by apply (Hx j)|lia|].
  apply (IH i j); [lia|done..].
Qed.
End RangeSearch.

(** ** [flat_tree::insert_unique(hint, val)] *)

Section Hint.
Context {X K : Type} `{Ord K} (kf : X -> K).

(** [priv_lower_bound(b, e, k)]: the flat tree's binary search on
    [[b, e)]. *)
Definition priv_lower_bound_range (b e : nat) (k : K) (s : list X) : nat :=
  lower_bound_loop (fun y => ltb (kf y) k) s (e - b) b (e - b).

(** [priv_insert_unique_prepare(b, e, k, data)]: the position is the lower
    bound in [[b, e)]; the insertion goes ahead when it is [e] or holds a
    greater key.  (A position before [e] always holds an element; the
    [None] case is there for the type.) *)
Definition insert_unique_prepare_range (b e : nat) (k : K) (s : list X) : bool * nat :=
  let pos := priv_lower_bound_range b e k s in
  (Nat.eqb pos e || match s !! pos with Some y => ltb k (kf y) | None => true end, pos).

(** [priv_insert_unique_prepare(pos, k, data)]: if [k] goes before the
    hint, check the element before it: smaller, insert at the hint;
    equivalent, fail there; greater, search [[begin, prev)].  If [k] does
    not go before the hint, search [[pos, end)]. *)
Definition insert_unique_prepare (pos : nat) (k : K) (s : list X) : bool * nat :=
  if Nat.eqb pos (length s) || match s !! pos with Some y => ltb k (kf y) | None => false end then
    if Nat.eqb pos 0 then (true, pos) else
    match s !! (pos - 1) with
    | Some prev =>
        if ltb (kf prev) k then (true, pos)
        else if negb (ltb k (kf prev)) then (false, pos - 1)
        else insert_unique_prepare_range 0 (pos - 1) k s
    | None => (true, pos)
    end
  else insert_unique_prepare_range pos (length s) k s.

(** [insert_unique(hint, val)]: commit the insertion at the prepared
    position, or return the iterator to the equivalent element found. *)
Definition insert_unique_hint (hint : nat) (x : X) (s : list X) : list X * nat :=
  let '(ok, pos) := insert_unique_prepare hint (kf x) s in
  if ok then (insert_at pos x s, pos) else (s, pos).

(** ** [std::insert_iterator] on a [flat_set] *)

(** The container it writes to and its hint [iter]. *)
Record insert_iterator := { container : list X; iter : nat }.

(** [std::inserter(c, i)]. *)
Definition inserter (c : list X) (i : nat) : insert_iterator := {| container := c; iter := i |}.

(** [*out = value]: [iter = container.insert(iter, value); ++iter]. *)
Definition insert_assign (o : insert_iterator) (x : X) : insert_iterator :=
  let '(c', it) := insert_unique_hint (iter o) x (container o) in
  {| container := c'; iter := S it |}.
End Hint.

Arguments insert_iterator : clear implicits.

(** ** The hint does not change the result on a sorted vector *)

Section HintFacts.
Context {X K : Type} `{Ord K} (kf : X -> K) (k : K) (s : list X).
Hypothesis Hs : StronglySorted (key_lt kf) s.

(** The lower bound of [k]: the number of elements with a smaller key. *)
Local Abbreviation p := (count_while (fun y => ltb (kf y) k) s).

Lemma count_while_length {Y} (below : Y -> bool) (l : list Y) : count_while below l <= length l.
Proof. induction l as [|y l IH]; simpl; [lia|]. destruct (below y); simpl; lia. Qed.

Lemma hint_partitioned : partitioned (fun y => ltb (kf y) k) s p.
Proof.
  assert (Hle : StronglySorted (key_le kf) s).
  { apply (StronglySorted_weaken (key_lt kf)); [|done]. intros a b. apply ltb_leb. }
  destruct (sorted_partition (key_le kf) (fun y => ltb (kf y) k) s Hle) as [H1 H2].
  { intros a b Hab Hb. exact (leb_ltb_trans _ _ _ Hab Hb). }
  destruct (count_while_partitioned _ _ _ H1 H2) as [Hp _].
  rewrite take_drop, length_take in Hp. by rewrite Nat.min_l in Hp by apply count_while_length.
Qed.

(** An element with key [k] sits at the lower bound. *)
Lemma hint_at_key i y : s !! i = Some y -> kf y = k -> i = p.
Proof.
  intros Hy Hk. pose proof hint_partitioned as Hpart. unfold partitioned in Hpart.
  assert (p <= i).
  { destruct (decide (i < p)) as [Hi|]; [|lia]. apply (proj2 (Hpart _ _ Hy)) in Hi.
    rewrite Hk, ltb_irrefl in Hi. done. }
  destruct (decide (p < i)) as [Hpi|]; [|lia].
  destruct (lookup_lt_is_Some_2 s p) as [z Hz]; [apply lookup_lt_Some in Hy; lia|].
  pose proof (StronglySorted_lookup _ _ _ _ _ _ Hs Hpi Hz Hy) as Hzy.
  unfold key_lt in Hzy. rewrite Hk in Hzy. apply (proj1 (Hpart _ _ Hz)) in Hzy. lia.
Qed.

Lemma prepare_range_spec b e : b <= e <= length s ->
  insert_unique_prepare_range kf b e k s =
    (Nat.eqb (Nat.max b (Nat.min p e)) e ||
     match s !! Nat.max b (Nat.min p e) with Some y => ltb k (kf y) | None => true end,
     Nat.max b (Nat.min p e)).
Proof.
  intros Hbe. unfold insert_unique_prepare_range, priv_lower_bound_range.
  rewrite (lower_bound_loop_clamp _ _ p) by (apply hint_partitioned || lia).
  by replace (b + (e - b)) with e by lia.
Qed.

(** Whatever the hint in range or at the end, the preparation finds the
    lower bound, and allows the insertion unless it holds the key. *)
Lemma insert_unique_prepare_spec pos : pos <= length s ->
  insert_unique_prepare kf pos k s =
    (match s !! p with Some y => ltb k (kf y) | None => true end, p).
Proof.
  intros Hpos. pose proof hint_partitioned as Hpart. unfold partitioned in Hpart. pose proof (count_while_length (fun y => ltb (kf y) k) s).
  unfold insert_unique_prepare.
  destruct (Nat.eqb pos (length s) || _) eqn:Hbefore.
  - (* [k] goes before the hint: the lower bound is at most [pos] *)
    assert (Hv : match s !! pos with Some y => ltb k (kf y) | None => true end = true /\ p <= pos).
    { apply orb_prop in Hbefore as [Hend|Hlt].
      - apply Nat.eqb_eq in Hend. subst pos. by rewrite lookup_ge_None_2 by lia.
      - destruct (s !! pos) as [y|] eqn:Hy; [|done]. split; [done|].
        destruct (decide (pos < p)) as [Hi|]; [|lia]. apply (proj2 (Hpart _ _ Hy)) in Hi.
        by rewrite (ltb_asym _ _ Hlt) in Hi. }
    destruct Hv as [Hv Hp]. destruct (Nat.eqb_spec pos 0) as [->|Hne].
    { replace p with 0 by lia. by rewrite Hv. }
    destruct (lookup_lt_is_Some_2 s (pos - 1)) as [prev Hprev]; [lia|]. rewrite Hprev.
    destruct (ltb (kf prev) k) eqn:Hpk.
    { assert (pos - 1 < p) by (apply (proj1 (Hpart _ _ Hprev)) in Hpk; lia).
      replace p with pos by lia. by rewrite Hv. }
    destruct (ltb k (kf prev)) eqn:Hkp; simpl.
    + assert (p <= pos - 1).
      { destruct (decide (pos - 1 < p)) as [Hi|]; [|lia]. apply (proj2 (Hpart _ _ Hprev)) in Hi. congruence. }
      rewrite prepare_range_spec by lia. replace (Nat.max 0 (Nat.min p (pos - 1))) with p by lia.
      destruct (Nat.eqb_spec p (pos - 1)) as [->|]; simpl; [by rewrite Hprev, Hkp|done].
    + pose proof (ltb_total _ _ Hpk Hkp) as Hk. rewrite <- (hint_at_key _ _ Hprev Hk).
      by rewrite Hprev, Hkp.
  - (* [k] does not go before the hint: the lower bound is at least [pos] *)
    apply orb_false_elim in Hbefore as [Hend Hge]. apply Nat.eqb_neq in Hend.
    destruct (lookup_lt_is_Some_2 s pos) as [y Hy]; [lia|]. rewrite Hy in Hge.
    assert (pos <= p).
    { destruct (ltb (kf y) k) eqn:Hyk; [apply (proj1 (Hpart _ _ Hy)) in Hyk; lia|].
      pose proof (ltb_total _ _ Hyk Hge) as Hk. rewrite (hint_at_key _ _ Hy Hk). lia. }
    rewrite prepare_range_spec by lia. replace (Nat.max pos (Nat.min p (length s))) with p by lia.
    destruct (Nat.eqb_spec p (length s)) as [->|]; simpl; [|done].
    by rewrite lookup_ge_None_2 by lia.
Qed.
End HintFacts.

Section HintInsert.
Context {X K : Type} `{Ord K} (kf : X -> K).

Lemma sorted_lower_bound_key x s : StronglySorted (key_lt kf) s ->
  lower_bound_by (fun y => ltb (kf y) (kf x)) s = count_while (fun y => ltb (kf y) (kf x)) s.
Proof.
  intros Hs. apply (sorted_lower_bound (key_le kf)).
  - apply (StronglySorted_weaken (key_lt kf)); [|done]. intros a b. apply ltb_leb.
  - intros a b Hab Hb. exact (leb_ltb_trans _ _ _ Hab Hb).
Qed.

(** On a strictly sorted vector the hinted insertion is [fs_insert], and
    returns the lower bound of the key. *)
Lemma insert_unique_hint_eq hint x s :
  StronglySorted (key_lt kf) s -> hint <= length s ->
  insert_unique_hint kf hint x s = (fs_insert kf x s, count_while (fun y => ltb (kf y) (kf x)) s).
Proof.
  intros Hs Hh. unfold insert_unique_hint. rewrite insert_unique_prepare_spec by done.
  unfold fs_insert. rewrite sorted_lower_bound_key by done.
  by destruct (s !! _) as [y|]; [destruct (ltb (kf x) (kf y))|].
Qed.

(** The position returned holds the key: [x] itself or the element that
    made the insertion fail. *)
Lemma insert_unique_hint_at hint x s :
  StronglySorted (key_lt kf) s -> hint <= length s ->
  exists z, (insert_unique_hint kf hint x s).1 !! (insert_unique_hint kf hint x s).2 = Some z /\
            kf z = kf x.
Proof.
  intros Hs Hh. rewrite insert_unique_hint_eq by done. simpl. unfold fs_insert.
  rewrite sorted_lower_bound_key by done.
  pose proof (hint_partitioned kf (kf x) s Hs) as Hpart. unfold partitioned in Hpart.
  pose proof (count_while_length (fun y => ltb (kf y) (kf x)) s) as Hp.
  set (p := count_while _ s) in *.
  assert (Hins : exists z, insert_at p x s !! p = Some z /\ kf z = kf x).
  { exists x. split; [|done]. unfold insert_at. rewrite lookup_app_r by (rewrite length_take; lia).
    by rewrite length_take, Nat.min_l, Nat.sub_diag by lia. }
  destruct (s !! p) as [y|] eqn:Hy; [|done].
  destruct (ltb (kf x) (kf y)) eqn:Hxy; [done|]. exists y. split; [done|].
  apply ltb_total; [|done]. destruct (ltb (kf y) (kf x)) eqn:Hyx; [|done].
  apply (proj1 (Hpart _ _ Hy)) in Hyx. lia.
Qed.

(** An assignment through the inserter inserts as [fs_insert] and leaves
    the hint in range or at the end. *)
Lemma insert_assign_step (o : insert_iterator X) x :
  StronglySorted (key_lt kf) (container o) -> iter o <= length (container o) ->
  container (insert_assign kf o x) = fs_insert kf x (container o) /\
  iter (insert_assign kf o x) <= length (container (insert_assign kf o x)).
Proof.
  intros Hs Hh. unfold insert_assign.
  destruct (insert_unique_hint_at (iter o) x (container o) Hs Hh) as (z & Hz & _).
  destruct (insert_unique_hint kf (iter o) x (container o)) as [c' it] eqn:E. simpl in *.
  rewrite insert_unique_hint_eq in E by done. injection E as <- <-.
  split; [done|]. apply lookup_lt_Some in Hz. lia.
Qed.

(** Writing a sequence through [std::inserter(s, h)]: every hint stays
    valid and the set is filled as by [fs_insert] in turn. *)
Lemma inserter_fold (l : list X) s h :
  StronglySorted (key_lt kf) s -> h <= length s ->
  container (fold_left (insert_assign kf) l (inserter s h)) = fold_left (fun acc x => fs_insert kf x acc) l s /\
  iter (fold_left (insert_assign kf) l (inserter s h)) <= length (container (fold_left (insert_assign kf) l (inserter s h))).
Proof.
  revert s h. induction l as [|x l IH]; intros s h Hs Hh; simpl; [done|].
  destruct (insert_assign_step (inserter s h) x Hs Hh) as [Hc Hi].
  destruct (insert_assign kf (inserter s h) x) as [c' it] eqn:E. simpl in Hc, Hi. subst c'.
  apply IH; [|done]. by apply fs_insert_sorted.
Qed.
End HintInsert.

(** C18: [flat_set::insert(hint, value)] (boost's [insert_unique] with the
    N1780 hint check) on a strictly sorted vector, with a hint in range or
    at the end, inserts exactly as the unhinted [emplace] does, returns the
    lower bound of the key, and that position holds the value or the
    equivalent element that was already there: the hint only saves
    comparisons. *)
Theorem insert_unique_hint_spec {X K} `{Ord K} (kf : X -> K) hint x s :
  StronglySorted (key_lt kf) s -> hint <= length s ->
  (insert_unique_hint kf hint x s).1 = fs_insert kf x s /\
  (insert_unique_hint kf hint x s).2 = lower_bound_by (fun y => ltb (kf y) (kf x)) s /\
  exists z, (insert_unique_hint kf hint x s).1 !! (insert_unique_hint kf hint x s).2 = Some z /\
            kf z = kf x.
Proof.
  intros Hs Hh. split_and!; [by rewrite insert_unique_hint_eq..| |].
  - rewrite insert_unique_hint_eq, sorted_lower_bound_key by done. done.
  - by apply insert_unique_hint_at.
Qed.

(** The hint [begin()] on [[1; 3; 5; 7]]: inserting [5] finds it at 2
    through the search of [[begin, end)]; the hint [end()] with [3]
    checks [7], then searches [[begin, 3)]. *)
Lemma insert_unique_hint_spec_witness :
  (StronglySorted (key_lt id) [1; 3; 5; 7]%Z /\ 0 <= length [1; 3; 5; 7]%Z) /\
  (insert_unique_hint id 0 5%Z [1; 3; 5; 7]%Z).1 = fs_insert id 5%Z [1; 3; 5; 7]%Z /\
  (insert_unique_hint id 0 5%Z [1; 3; 5; 7]%Z).2 = lower_bound_by (fun y => ltb (id y) (id 5%Z)) [1; 3; 5; 7]%Z /\
  exists z, (insert_unique_hint id 0 5%Z [1; 3; 5; 7]%Z).1 !! (insert_unique_hint id 0 5%Z [1; 3; 5; 7]%Z).2 = Some z /\
            id z = id 5%Z.
Proof.
  assert (Hs : StronglySorted (key_lt id) [1; 3; 5; 7]%Z).
  { repeat constructor; repeat (constructor; [reflexivity|]); constructor. }
  split; [split; [exact Hs|simpl; lia]|].
  exact (insert_unique_hint_spec id 0 5%Z _ Hs ltac:(simpl; lia)).
Defined.
