(* ===== verification/EqualRange.v ===== *)
(** * Boost's [equal_range] and [count], and the count of step 1

    [flat_tree::count(k)] is the distance of [equal_range(k)], and
    [priv_equal_range] is a binary search of its own: it halves the
    window until the middle entry is equivalent to [k], then runs
    [priv_lower_bound] on the window's left part and [priv_upper_bound]
    on its right part ([equal_range_loop]; the two inner searches are
    the [lower_bound_loop] of [FlatContainers]).

    On a vector sorted by key the result is the contract range
    ([equal_range_three_way]).  Step 1 of [erase(set)] calls [count] on
    the table while [std::remove_if] compacts it, where the vector need
    not be sorted; two facts settle what the [== 1] test then sees:
    - whatever the vector, a count of one names an entry of key [k] whose
      neighbours are below and above [k] ([equal_range_loop_isolated]);
    - on the vectors step 1 passes to [count] the test agrees with the
      linear count of the entries of key [k] ([step1_view_count_boost]). *)

From S2P Require Import Prelude FlatContainers.

Section EqualRange.
Context {X K : Type} `{Ord K} (kf : X -> K).
Implicit Types (l : list X) (below : X -> bool) (k : K).

(** [priv_equal_range(first, first + len, k)]. *)
Fixpoint equal_range_loop (k : K) (l : list X) (fuel first len : nat) : nat * nat :=
  match fuel with
  | O => (first, first)
  | S fuel' =>
      if Nat.eqb len 0 then (first, first) else
      let step := len / 2 in
      let middle := first + step in
      match l !! middle with
      | None => (first, first)
      | Some y =>
          if ltb (kf y) k then equal_range_loop k l fuel' (S middle) (len - (step + 1))
          else if ltb k (kf y) then equal_range_loop k l fuel' first step
          else (lower_bound_loop (key_below kf k) l fuel' first step,
                lower_bound_loop (key_upto kf k) l fuel' (S middle) (len - (step + 1)))
      end
  end.

(** [flat_multimap::equal_range(k)] and [count(k)]. *)
Definition mm_equal_range (k : K) (l : list X) : nat * nat :=
  equal_range_loop k l (length l) 0 (length l).

Definition mm_count_boost (k : K) (l : list X) : nat :=
  let '(lo, hi) := mm_equal_range k l in hi - lo.

(** An entry of key [k] whose left neighbour is below [k] and whose right
    neighbour is above [k] (or which is at an end). *)
Definition isolated (k : K) (l : list X) (t : nat) : Prop :=
  (exists y, l !! t = Some y /\ kf y = k) /\
  (t = 0 \/ exists z, l !! (t - 1) = Some z /\ ltb (kf z) k = true) /\
  (S t = length l \/ exists z, l !! S t = Some z /\ ltb k (kf z) = true).

(** The vector is the entries below [k] (positions before [p]), those
    equivalent to [k], and those above [k] (from [q] on). *)
Definition three_way (k : K) (l : list X) (p q : nat) : Prop :=
  p <= q <= length l /\
  forall i y, l !! i = Some y -> (ltb (kf y) k = true <-> i < p) /\ (ltb k (kf y) = true <-> q <= i).

(** ** The two halves of [priv_lower_bound], on any vector *)

Lemma lower_bound_loop_left below l fuel first len :
  first <= lower_bound_loop below l fuel first len /\
  (lower_bound_loop below l fuel first len = first \/
   exists y, l !! (lower_bound_loop below l fuel first len - 1) = Some y /\ below y = true).
Proof.
  revert first len. induction fuel as [|fuel IH]; intros first len; cbn [lower_bound_loop]; [lia|].
  destruct (Nat.eqb len 0); [lia|]. destruct (l !! (first + len / 2)) as [y|] eqn:Hy; [|lia].
  destruct (below y) eqn:Hb; [|apply IH].
  destruct (IH (S (first + len / 2)) (len - (len / 2 + 1))) as [Hge [Heq|Hex]]; split; [lia| |lia|by right].
  right. exists y. rewrite Heq. by replace (S (first + len / 2) - 1) with (first + len / 2) by lia.
Qed.

Lemma lower_bound_loop_right below l fuel first len :
  len <= fuel -> first + len <= length l ->
  lower_bound_loop below l fuel first len <= first + len /\
  (lower_bound_loop below l fuel first len = first + len \/
   exists y, l !! lower_bound_loop below l fuel first len = Some y /\ below y = false).
Proof.
  revert first len. induction fuel as [|fuel IH]; intros first len Hf Hl; cbn [lower_bound_loop]; [lia|].
  destruct (Nat.eqb_spec len 0) as [->|Hne]; [lia|]. pose proof (half_bounds len) as (Hh1 & Hh2 & _).
  destruct (lookup_lt_is_Some_2 l (first + len / 2)) as [y Hy]; [lia|]. rewrite Hy.
  destruct (below y) eqn:Hb.
  - destruct (IH (S (first + len / 2)) (len - (len / 2 + 1))) as [Hle Hor]; [lia|lia|].
    split; [lia|]. destruct Hor as [->|Hex]; [left; lia|by right].
  - destruct (IH first (len / 2)) as [Hle [Heq|Hex]]; [lia|lia|split; [lia|]|split; [lia|by right]].
    right. exists y. by rewrite Heq.
Qed.

(** ** [equal_range] on any vector: a count of one is an isolated entry *)

Lemma equal_range_loop_isolated k l fuel first len :
  len <= fuel -> first + len <= length l ->
  (first = 0 \/ exists z, l !! (first - 1) = Some z /\ ltb (kf z) k = true) ->
  (first + len = length l \/ exists z, l !! (first + len) = Some z /\ ltb k (kf z) = true) ->
  (equal_range_loop k l fuel first len).2 - (equal_range_loop k l fuel first len).1 = 1 ->
  exists t, isolated k l t.
Proof.
  revert first len. induction fuel as [|fuel IH]; intros first len Hf Hl HL HR; cbn [equal_range_loop];
    [simpl; lia|].
  destruct (Nat.eqb_spec len 0) as [->|Hne]; [simpl; lia|].
  pose proof (half_bounds len) as (Hh1 & Hh2 & _). set (m := first + len / 2).
  destruct (lookup_lt_is_Some_2 l m) as [y Hy]; [lia|]. rewrite Hy.
  destruct (ltb (kf y) k) eqn:Hlt; [|destruct (ltb k (kf y)) eqn:Hgt].
  - apply IH; [lia|lia| |by replace (S m + (len - (len / 2 + 1))) with (first + len) by lia].
    right. exists y. by replace (S m - 1) with m by lia.
  - apply IH; [lia|lia|done|]. right. exists y. done.
  - cbn [fst snd]. intros Hc. pose proof (ltb_total _ _ Hlt Hgt) as Hyk.
    destruct (lower_bound_loop_left (key_upto kf k) l fuel (S m) (len - (len / 2 + 1)))
      as [Hhi1 _].
    destruct (lower_bound_loop_right (key_upto kf k) l fuel (S m) (len - (len / 2 + 1)))
      as [_ Hhi2]; [lia|lia|].
    destruct (lower_bound_loop_left (key_below kf k) l fuel first (len / 2)) as [_ Hlo1].
    destruct (lower_bound_loop_right (key_below kf k) l fuel first (len / 2)) as [Hlo2 _]; [lia|lia|].
    set (lo := lower_bound_loop (key_below kf k) l fuel first (len / 2)) in *.
    set (hi := lower_bound_loop (key_upto kf k) l fuel (S m) (len - (len / 2 + 1))) in *.
    assert (lo = m /\ hi = S m) as [Hlo Hhi] by lia. exists m. split_and!.
    + by exists y.
    + destruct Hlo1 as [Heq|(z & Hz & Hbz)]; [|right; exists z; by rewrite <- Hlo].
      replace m with first by lia. destruct HL as [->|Hex]; [by left|by right].
    + destruct Hhi2 as [Heq|(z & Hz & Hbz)].
      * replace (S m) with (first + len) by lia. destruct HR as [->|Hex]; [by left|by right].
      * right. exists z. rewrite <- Hhi. split; [done|]. unfold key_upto in Hbz.
        by apply negb_false_iff in Hbz.
Qed.

Lemma mm_count_boost_isolated k l : mm_count_boost k l = 1 -> exists t, isolated k l t.
Proof.
  unfold mm_count_boost, mm_equal_range.
  destruct (equal_range_loop k l (length l) 0 (length l)) as [lo hi] eqn:He. intros Hc.
  apply (equal_range_loop_isolated k l (length l) 0 (length l)); [lia|lia|by left|by left|].
  by rewrite He.
Qed.

(** ** [equal_range] on a vector partitioned around the key *)

Lemma equal_range_loop_three_way k l p q fuel first len :
  three_way k l p q -> len <= fuel -> first + len <= length l -> first <= p -> q <= first + len ->
  equal_range_loop k l fuel first len = (p, q).
Proof.
  intros [Hpq Hpart]. revert first len.
  assert (partitioned (key_below kf k) l p) as Hlow.
  { intros i y Hi. apply (Hpart i y Hi). }
  assert (partitioned (key_upto kf k) l q) as Hup.
  { intros i y Hi. unfold key_upto. rewrite negb_true_iff, <- not_true_iff_false.
    rewrite (proj2 (Hpart i y Hi)). lia. }
  induction fuel as [|fuel IH]; intros first len Hf Hl Hp Hq; cbn [equal_range_loop]; [f_equal; lia|].
  destruct (Nat.eqb_spec len 0) as [->|Hne]; [f_equal; lia|].
  pose proof (half_bounds len) as (Hh1 & Hh2 & _). set (m := first + len / 2).
  destruct (lookup_lt_is_Some_2 l m) as [y Hy]; [lia|]. rewrite Hy.
  destruct (Hpart m y Hy) as [Hb Ha].
  destruct (ltb (kf y) k) eqn:Hlt; [|destruct (ltb k (kf y)) eqn:Hgt].
  - apply IH; [lia|lia| |lia]. pose proof (proj1 Hb eq_refl). lia.
  - apply IH; [lia|lia|lia|]. pose proof (proj1 Ha eq_refl). lia.
  - assert (~ m < p) by (intros Hmp%Hb; done). assert (~ q <= m) by (intros Hmq%Ha; done).
    f_equal; apply lower_bound_loop_partition; auto with lia.
Qed.

Lemma equal_range_three_way k l p q : three_way k l p q -> mm_equal_range k l = (p, q).
Proof. intros [Hpq Hp]. apply equal_range_loop_three_way; [split|..]; (done || lia). Qed.

(** A vector of entries below [k], entries of key [k], entries above. *)
Lemma three_way_split k L E G :
  Forall (fun z => ltb (kf z) k = true) L -> Forall (fun z => kf z = k) E ->
  Forall (fun z => ltb k (kf z) = true) G ->
  three_way k (L ++ E ++ G) (length L) (length L + length E).
Proof.
  intros HL HE HG. split; [rewrite !length_app; lia|]. intros i z Hi.
  rewrite Forall_lookup in HL, HE, HG. destruct (decide (i < length L)).
  - rewrite lookup_app_l in Hi by done. pose proof (HL _ _ Hi) as Hz.
    rewrite Hz, (ltb_asym _ _ Hz). split; split; (done || lia).
  - rewrite lookup_app_r in Hi by lia. destruct (decide (i - length L < length E)).
    + rewrite lookup_app_l in Hi by done. rewrite (HE _ _ Hi), ltb_irrefl. split; split; (done || lia).
    + rewrite lookup_app_r in Hi by lia. pose proof (HG _ _ Hi) as Hz.
      rewrite Hz, (ltb_asym _ _ Hz). split; split; (done || lia).
Qed.

(** ** Sorted tables *)

Lemma sorted_lookup_le l i j a b :
  StronglySorted (key_le kf) l -> i < j -> l !! i = Some a -> l !! j = Some b -> leb (kf a) (kf b) = true.
Proof.
  intros Hs. revert i j. induction Hs as [|y l _ IH Hy]; intros i j Hij Ha Hb; [done|].
  destruct i as [|i], j as [|j]; simpl in *; try lia.
  - injection Ha as <-. rewrite Forall_forall in Hy. apply Hy. by eapply list_elem_of_lookup_2.
  - eapply IH; [|done..]. lia.
Qed.

Lemma count_zero_elem k l : mm_count kf k l = 0 -> forall y, y ∈ l -> kf y <> k.
Proof. intros Hc y Hy Hyk. pose proof (mm_count_pos kf k l y Hy Hyk). lia. Qed.

(** A sorted table whose last entry is below [k] is all below [k]. *)
Lemma all_below_sorted k l z :
  StronglySorted (key_le kf) l -> l !! (length l - 1) = Some z -> ltb (kf z) k = true ->
  forall y, y ∈ l -> ltb (kf y) k = true.
Proof.
  intros Hs Hz Hzk y [i Hi]%list_elem_of_lookup.
  pose proof (lookup_lt_Some _ _ _ Hi). destruct (decide (i = length l - 1)) as [->|Hne].
  - congruence.
  - eapply leb_ltb_trans; [|exact Hzk]. eapply (sorted_lookup_le l i (length l - 1)); [done|lia|done..].
Qed.

(** ** A vector cut around an entry of key [k] *)

Section Cut.
Context (k : K) (L : list X) (x : X) (G : list X).
Hypothesis HL : Forall (fun z => leb (kf z) k = true) L.
Hypothesis Hx : kf x = k.
Hypothesis HG : Forall (fun z => leb k (kf z) = true) G.

Lemma cut_lookup_le i z : i <= length L -> (L ++ x :: G) !! i = Some z -> leb (kf z) k = true.
Proof.
  intros Hi Hz. destruct (decide (i < length L)).
  - rewrite lookup_app_l in Hz by done. rewrite Forall_lookup in HL. by eapply HL.
  - rewrite lookup_app_r in Hz by lia. replace (i - length L) with 0 in Hz by lia. injection Hz as <-.
    rewrite Hx. apply leb_refl.
Qed.

Lemma cut_lookup_ge i z : length L <= i -> (L ++ x :: G) !! i = Some z -> leb k (kf z) = true.
Proof.
  intros Hi Hz. rewrite lookup_app_r in Hz by lia. destruct (i - length L) as [|j]; simpl in Hz.
  - injection Hz as <-. rewrite Hx. apply leb_refl.
  - rewrite Forall_lookup in HG. by eapply HG.
Qed.

(** The only entry that can be isolated is [x], at position [length L]. *)
Lemma cut_isolated t :
  isolated k (L ++ x :: G) t ->
  t = length L /\
  (L = [] \/ exists z, L !! (length L - 1) = Some z /\ ltb (kf z) k = true) /\
  (G = [] \/ exists z, G !! 0 = Some z /\ ltb k (kf z) = true).
Proof.
  intros (_ & Hleft & Hright). rewrite length_app in Hright. simpl in Hright.
  assert (t = length L) as ->.
  { destruct (decide (t < length L)) as [Hlt|Hge].
    - destruct Hright as [?|(z & Hz & Hkz)]; [lia|].
      pose proof (cut_lookup_le (S t) z ltac:(lia) Hz) as Hle. apply leb_false in Hkz. congruence.
    - destruct (decide (t = length L)) as [|Hne]; [done|]. destruct Hleft as [?|(z & Hz & Hzk)]; [lia|].
      pose proof (cut_lookup_ge (t - 1) z ltac:(lia) Hz) as Hle. apply leb_false in Hzk. congruence. }
  split; [done|split].
  - destruct Hleft as [Hl0|(z & Hz & Hzk)]; [left; by apply length_zero_iff_nil|].
    destruct L as [|a L'] eqn:EL; [by left|right]. exists z.
    rewrite lookup_app_l in Hz by (simpl; lia). done.
  - destruct Hright as [?|(z & Hz & Hkz)]; [left; apply length_zero_iff_nil; lia|right].
    exists z. rewrite lookup_app_r in Hz by lia. by replace (S (length L) - length L) with 1 in Hz by lia.
Qed.

(** When no entry of [L] or [G] has key [k], [equal_range] finds [x] alone. *)
Lemma cut_count_boost :
  mm_count kf k L = 0 -> mm_count kf k G = 0 -> mm_count_boost k (L ++ x :: G) = 1.
Proof.
  intros HcL HcG. unfold mm_count_boost.
  rewrite (equal_range_three_way k _ (length L) (length L + length [x])); [simpl; lia|].
  change (x :: G) with ([x] ++ G). apply three_way_split; [|by constructor|].
  - apply Forall_forall. intros z Hz. apply leb_neq_ltb; [by rewrite Forall_forall in HL; apply HL|].
    by apply (count_zero_elem k L).
  - apply Forall_forall. intros z Hz. apply leb_neq_ltb; [by rewrite Forall_forall in HG; apply HG|].
    intros Hkz. by apply (count_zero_elem k G HcG z).
Qed.
End Cut.

Lemma mm_count_single k y : kf y = k -> mm_count kf k [y] = 1.
Proof. intros <-. unfold mm_count, mm_range. simpl. by rewrite (proj2 (equivb_eq _ _) eq_refl). Qed.

Lemma sorted_head_above k z G :
  StronglySorted (key_le kf) (z :: G) -> ltb k (kf z) = true -> mm_count kf k (z :: G) = 0.
Proof.
  intros Hs Hkz. apply mm_count_zero. inversion Hs as [|? ? _ Hf]; subst.
  intros y [->|Hy]%elem_of_cons; [by apply not_eq_sym, ltb_neq|].
  rewrite Forall_forall in Hf. apply not_eq_sym, ltb_neq. eapply ltb_leb_trans; [done|by apply Hf].
Qed.

(** ** The vector step 1 counts on *)

(** The vector [count] reads while [std::remove_if] handles entry [x] of
    a table [pre ++ x :: rest] sorted by key: the entries kept so far (a
    subsequence of [pre]), then the table from that length on.  On it,
    boost's count is one exactly when the linear count is. *)
Lemma step1_view_count_boost (P : X -> bool) (pre rest : list X) x :
  StronglySorted (key_le kf) (pre ++ x :: rest) ->
  let view := List.filter P pre ++ drop (length (List.filter P pre)) (pre ++ x :: rest) in
  mm_count_boost (kf x) view = 1 <-> mm_count kf (kf x) view = 1.
Proof.
  intros Hs view. set (k := kf x). set (kept := List.filter P pre).
  assert (Hm : length kept <= length pre) by apply filter_length_le.
  set (D := drop (length kept) pre).
  assert (Hview : view = (kept ++ D) ++ x :: rest)
    by (unfold view, D; rewrite <- app_assoc; by rewrite drop_app_le).
  assert (Hspre : StronglySorted (key_le kf) pre) by (eapply StronglySorted_app_1_l; exact Hs).
  assert (Hsrest : StronglySorted (key_le kf) rest)
    by (apply StronglySorted_app_1_r in Hs; by inversion Hs).
  assert (Hpre : forall y, y ∈ pre -> leb (kf y) k = true).
  { intros y Hy. apply (StronglySorted_app_1_elem_of _ _ _ _ _ Hs Hy). set_solver. }
  assert (HsubL : forall y, y ∈ kept ++ D -> y ∈ pre).
  { intros y [[Hy _]%elem_of_filterb|Hy]%elem_of_app; [done|]. by apply (subseteq_drop (length kept)). }
  assert (HL : Forall (fun z => leb (kf z) k = true) (kept ++ D)) by (apply Forall_forall; auto).
  assert (HG : Forall (fun z => leb k (kf z) = true) rest).
  { apply StronglySorted_app_1_r in Hs. by inversion Hs. }
  assert (Hlen : length (kept ++ D) = length pre) by (unfold D; rewrite length_app, length_drop; lia).
  assert (Hcnt : mm_count kf k ((kept ++ D) ++ x :: rest) = mm_count kf k (kept ++ D) + 1 + mm_count kf k rest).
  { rewrite mm_count_app. change (x :: rest) with ([x] ++ rest).
    rewrite (mm_count_app kf k [x] rest), (mm_count_single k x eq_refl). lia. }
  rewrite Hview, Hcnt. split.
  - intros (t & Hiso)%mm_count_boost_isolated.
    destruct (cut_isolated k _ x rest HL eq_refl HG t Hiso) as (_ & Hleft & Hright).
    assert (mm_count kf k rest = 0) as ->.
    { destruct Hright as [->|(z & Hz & Hkz)]; [done|]. destruct rest; [done|].
      injection Hz as ->. by apply sorted_head_above. }
    assert (mm_count kf k (kept ++ D) = 0) as ->; [|lia].
    apply mm_count_zero. intros y Hy. apply ltb_neq.
    destruct Hleft as [Hnil|(z & Hz & Hzk)]; [rewrite Hnil in Hy; set_solver|].
    pose proof (lookup_lt_Some _ _ _ Hz) as Hzl. rewrite Hlen in Hz, Hzl.
    destruct (decide (length kept = length pre)) as [Heq|Hne].
    + rewrite lookup_app_l in Hz by lia. rewrite <- Heq in Hz.
      unfold D in Hy. rewrite Heq, drop_all, app_nil_r in Hy.
      apply (all_below_sorted k kept z); [by apply StronglySorted_filterb|done..].
    + rewrite lookup_app_r in Hz by lia. unfold D in Hz. rewrite lookup_drop in Hz.
      apply (all_below_sorted k pre z); [done|rewrite <- Hz; f_equal; lia|done|by apply HsubL].
  - intros Hc. apply cut_count_boost; [done|done|done| |]; lia.
Qed.

(** On a table sorted by key, boost's [equal_range] is the range of the
    entries of the key, and its count theirs. *)
Lemma mm_equal_range_sorted k l :
  StronglySorted (key_le kf) l ->
  mm_equal_range k l = (length (List.filter (key_below kf k) l),
                        length (List.filter (key_below kf k) l) + mm_count kf k l).
Proof.
  intros Hs. apply equal_range_three_way. unfold mm_count.
  rewrite (sorted_split3 kf k l Hs) at 1. apply three_way_split.
  - apply Forall_forall. by intros z [_ ?]%elem_of_filterb.
  - apply Forall_forall. by intros z [_ ?]%mm_range_elem.
  - apply Forall_forall. by intros z [_ ?]%elem_of_filterb.
Qed.

Lemma mm_count_boost_sorted k l :
  StronglySorted (key_le kf) l -> mm_count_boost k l = mm_count kf k l.
Proof. intros Hs. unfold mm_count_boost. rewrite mm_equal_range_sorted by done. lia. Qed.

(** C13: On a table sorted by key, boost's [equal_range], which narrows the
    window to an entry of the key before searching its two halves,
    returns the bounds of the two full binary searches [lower_bound] and
    [upper_bound], and [count] is the number of entries of the key. *)
Theorem equal_range_by_bounds k l :
  StronglySorted (key_le kf) l ->
  mm_equal_range k l = (mm_lower kf k l, mm_upper kf k l) /\ mm_count_boost k l = mm_count kf k l.
Proof.
  intros Hs. destruct (mm_bounds kf k l Hs) as [-> ->].
  split; [by apply mm_equal_range_sorted|by apply mm_count_boost_sorted].
Qed.
End EqualRange.

Definition sample_table : list (Z * Z) := [(1, 7); (2, 7); (2, 8); (2, 9); (3, 7); (5, 7)]%Z.

Lemma equal_range_by_bounds_witness :
  StronglySorted (key_le fst) sample_table /\
  mm_equal_range fst 2%Z sample_table = (mm_lower fst 2%Z sample_table, mm_upper fst 2%Z sample_table) /\
  mm_count_boost fst 2%Z sample_table = mm_count fst 2%Z sample_table.
Proof.
  assert (Hs : StronglySorted (key_le fst) sample_table) by (repeat constructor).
  split; [exact Hs|]. exact (equal_range_by_bounds fst 2%Z sample_table Hs).
Defined.
