(* ===== verification/ContainerAlgo.v ===== *)
(** * The [calgo] helpers of [container_algo.hpp]

    The helpers the collection calls, with the state their callbacks
    thread through:
    - [remove_if]/[erase_if]: the predicate runs while [std::remove_if]
      compacts the vector, and the collection's predicates read that
      vector; [remove_if_loop] hands the predicate the vector as it is at
      that moment (the kept prefix, then the original tail);
    - [erase_duplicates_if]: [std::unique] with a predicate that has side
      effects, called on (last kept element, next element);
    - [set_intersection] with a comparator called in both argument orders
      (the [overload] of two lambdas): the list of elements handed to the
      operation; [set_intersection_in], its overload on two containers;
    - [calgo::value] and [calgo::key], [std::get<1>] and [std::get<0>]
      ([TupleValue], [TupleKey]);
    - the counting, searching and erasing helpers ([distance],
      [equals_one], [find], [find_if], [contains], [remove], [erase_value],
      [erase_at], [erase_if_found], [equal], [equal_values]), iterators
      being indices and [end()] the length;
    - [unique_if] and [unique] (the vector and its new end) and, through
      them, [erase_duplicates_if] and [erase_duplicates];
      [unique_transform], [unique_copy] and [triangle_product];
    - [calgo::iterable] and the overloads of [equal] and [equal_values]
      on pairs of iterators; [calgo::overload] as the record of its two
      call operators;
    - [back_inserter] and [front_inserter] on a flat set ([std::inserter]
      with the hint [end()] or [begin()], see [FlatHint]) and
      [calgo::transform] writing through them; the [operator<] overloads
      of [set_intersection], and [erase(container, key)];
    - [std::sort] as the class [Sorter], whose instance [insertion_sorter]
      is the insertion sort libstdc++ runs on short ranges.
    The theorems relate the stateful loops to filters and folds, and give
    the behaviour of the helpers on every branch, [end()] included. *)

From S2P Require Import Prelude FlatContainers FlatHint.

(** The namespace [calgo]. *)
Module calgo.

(** ** Erasing a range *)

(** Lines 273-277: [container.erase(b, e)]. *)
Definition erase_range {X} (l : list X) (b e : nat) : list X := take b l ++ drop e l.

(** Lines 301-306. *)
Definition erase_to_end {X} (l : list X) (start : nat) : list X := erase_range l start (length l).

(** ** [remove_if] with a stateful predicate *)

Section RemoveIf.
Context {X S : Type}.

(** [pred phys s x] is the predicate called on [x] while the vector holds
    [phys]; it returns its verdict and the new state. *)
Fixpoint remove_if_loop (pred : list X -> S -> X -> bool * S)
    (orig kept rest : list X) (s : S) : list X * S :=
  match rest with
  | [] => (kept, s)
  | x :: rest' =>
      let phys := kept ++ drop (length kept) orig in
      let '(b, s') := pred phys s x in
      if b then remove_if_loop pred orig kept rest' s'
      else remove_if_loop pred orig (kept ++ [x]) rest' s'
  end.

(** [calgo::erase_if(container, pred)]: [erase_to_end(remove_if(...))]. *)
Definition erase_if (pred : list X -> S -> X -> bool * S) (l : list X) (s : S) : list X * S :=
  remove_if_loop pred l [] l s.

(** [std::unique] with a predicate called on (last kept, current). *)
Fixpoint unique_loop (pred : S -> X -> X -> bool * S) (last : X) (l : list X) (s : S)
    : list X * S :=
  match l with
  | [] => ([], s)
  | x :: l' =>
      let '(b, s') := pred s last x in
      if b then unique_loop pred last l' s'
      else let '(r, s'') := unique_loop pred x l' s' in (x :: r, s'')
  end.

(** Lines 193-197: [calgo::unique_if], [std::unique] with a predicate:
    the vector afterwards and the new end; the slots past the new end
    keep what they held. *)
Definition unique_if (pred : S -> X -> X -> bool * S) (l : list X) (s : S) : (list X * nat) * S :=
  match l with
  | [] => (([], 0), s)
  | x :: l' =>
      let '(r, s') := unique_loop pred x l' s in
      let kept := x :: r in ((kept ++ drop (length kept) l, length kept), s')
  end.

(** Lines 342-346: [calgo::erase_duplicates_if], that is
    [erase_to_end(container, unique_if(container, pred))]. *)
Definition erase_duplicates_if (pred : S -> X -> X -> bool * S) (l : list X) (s : S)
    : list X * S :=
  let '((l', e), s') := unique_if pred l s in (erase_to_end l' e, s').

Lemma erase_duplicates_if_kept pred l s :
  erase_duplicates_if pred l s =
    match l with
    | [] => ([], s)
    | x :: l' => let '(r, s') := unique_loop pred x l' s in (x :: r, s')
    end.
Proof.
  unfold erase_duplicates_if, unique_if, erase_to_end, erase_range.
  destruct l as [|x l]; [done|]. destruct (unique_loop pred x l s) as [r s'].
  by rewrite drop_all, app_nil_r, take_app_length.
Qed.
End RemoveIf.

(** ** [set_intersection] with a two-sided comparator *)

Section SetIntersection.
Context {A B : Type}.

(** [comp] called on an element of the first range and one of the second
    is [lt_ab], called the other way round it is [lt_ba]; the result lists the elements of the first range that the
    operation is called on, in order. *)
Fixpoint set_intersection (lt_ab : A -> B -> bool) (lt_ba : B -> A -> bool)
    (l1 : list A) (l2 : list B) : list A :=
  match l1 with
  | [] => []
  | a :: l1' =>
      (fix inner (l2 : list B) : list A :=
         match l2 with
         | [] => []
         | b :: l2' =>
             if lt_ab a b then set_intersection lt_ab lt_ba l1' l2
             else if negb (lt_ba b a) then a :: set_intersection lt_ab lt_ba l1' l2'
             else inner l2'
         end) l2
  end.
End SetIntersection.

Lemma set_intersection_cons {A B} (lt_ab : A -> B -> bool) (lt_ba : B -> A -> bool) a l1 b l2 :
  set_intersection lt_ab lt_ba (a :: l1) (b :: l2) =
    if lt_ab a b then set_intersection lt_ab lt_ba l1 (b :: l2)
    else if negb (lt_ba b a) then a :: set_intersection lt_ab lt_ba l1 l2
    else set_intersection lt_ab lt_ba (a :: l1) l2.
Proof. done. Qed.

(** Lines 41-42: [calgo::overload{f, g}] derives from both lambdas, so a
    call resolves to the one whose parameters fit: the comparator of the
    visit is called as [comp(element, entry)] and as [comp(entry, element)]. *)
Record overload (A B : Type) := { call_ab : A -> B -> bool; call_ba : B -> A -> bool }.
Arguments call_ab {_ _} _ _ _.
Arguments call_ba {_ _} _ _ _.

(** Lines 528-535: the container overload with a comparator passes
    [begin] and [end] of both containers to the iterator one. *)
Definition set_intersection_in {A B} (c1 : list A) (c2 : list B) (comp : overload A B) : list A :=
  set_intersection (call_ab comp) (call_ba comp) c1 c2.

(** Lines 488-501: the overload without a comparator compares with
    [operator<] both ways. *)
Definition set_intersection_lt {A} `{Ord A} (l1 l2 : list A) : list A :=
  set_intersection ltb ltb l1 l2.

(** Lines 520-526: its container overload. *)
Definition set_intersection_lt_in {A} `{Ord A} (c1 c2 : list A) : list A :=
  set_intersection_lt c1 c2.

(** On two strictly increasing ranges they call the operation on the
    elements of the first range that are in the second, in order. *)
Lemma set_intersection_lt_spec {A} `{Ord A} (l1 l2 : list A) :
  StronglySorted (fun a b => ltb a b = true) l1 -> StronglySorted (fun a b => ltb a b = true) l2 ->
  set_intersection_lt l1 l2 = List.filter (fun a => bool_decide (a ∈ l2)) l1.
Proof.
  unfold set_intersection_lt. revert l2. induction l1 as [|a l1 IH]; intros l2 Hs1 Hs2; [done|].
  inversion Hs1 as [|? ? Hs1' Ha]; subst. rewrite Forall_forall in Ha.
  induction Hs2 as [|b l2 Hs2 IHl2 Hb].
  { symmetry. apply filter_none, Forall_forall. intros x _. apply bool_decide_eq_false_2. set_solver. }
  rewrite Forall_forall in Hb. rewrite set_intersection_cons.
  destruct (ltb a b) eqn:Hab; [|destruct (ltb b a) eqn:Hba]; cbn -[set_intersection List.filter].
  - rewrite IH by (first [done | constructor; [done|by apply Forall_forall]]).
    cbn [List.filter]. rewrite bool_decide_eq_false_2; [done|].
    intros [->|Hin]%elem_of_cons; [by rewrite ltb_irrefl in Hab|].
    pose proof (ltb_trans _ _ _ Hab (Hb _ Hin)) as Hc. by rewrite ltb_irrefl in Hc.
  - rewrite IHl2. symmetry. apply (filter_elem_cons id).
    intros x Hx Hxb. unfold id in Hxb. subst x.
    apply elem_of_cons in Hx as [->|Hx]; [by rewrite ltb_irrefl in Hba|].
    pose proof (ltb_trans _ _ _ Hba (Ha _ Hx)) as Hc. by rewrite ltb_irrefl in Hc.
  - pose proof (ltb_total _ _ Hab Hba) as <-. rewrite IH by done.
    cbn [List.filter]. rewrite bool_decide_eq_true_2 by set_solver. f_equal. symmetry.
    apply (filter_elem_cons id). intros x Hx Hxa. unfold id in Hxa. subst x.
    specialize (Ha _ Hx). by rewrite ltb_irrefl in Ha.
Qed.

(** Lines 259-263: [calgo::erase(container, key)], the associative
    container's [erase(key)]. *)
Definition erase_by_key {X K} `{Ord K} (kf : X -> K) (l : list X) (key : K) : list X :=
  mm_erase_key kf key l.

(** ** Counting, searching and erasing *)

(** Lines 60-68: [calgo::distance] of a container or of an iterator pair. *)
Definition distance {X} (l : list X) : nat := length l.

(** Lines 70-77. *)
Definition equals_one (t : nat) : bool := Nat.eqb t 1.
Definition only_one_exists {X} (l : list X) : bool := equals_one (distance l).
Definition none_exists {X} (l : list X) : bool := Nat.eqb (distance l) 0.

(** Lines 114-118: [std::find_if]; the iterator is an index, [end()] is
    [length l]. *)
Fixpoint find_if {X} (predicate : X -> bool) (l : list X) : nat :=
  match l with
  | [] => 0
  | x :: l' => if predicate x then 0 else S (find_if predicate l')
  end.

(** Lines 108-112: [std::find] with the container's [operator==] against
    a value of another type. *)
Definition find {X V} (eq : X -> V -> bool) (l : list X) (value : V) : nat :=
  find_if (fun y => eq y value) l.

(** Lines 120-124. *)
Definition contains_if {X} (l : list X) (predicate : X -> bool) : bool :=
  negb (Nat.eqb (find_if predicate l) (length l)).

(** Lines 287-291: [container.erase(location)]; erasing at [end()] is
    undefined behaviour, [None] here. *)
Definition erase_at {X} (l : list X) (location : nat) : option (list X) :=
  if Nat.ltb location (length l) then Some (take location l ++ drop (S location) l) else None.

(** Lines 356-360. *)
Definition erase_if_found {X} (l : list X) (predicate : X -> bool) : option (list X) :=
  erase_at l (find_if predicate l).

(** Lines 165-169 and 150-154: [std::remove_if] with a predicate free of
    effects, and [std::remove]: the vector afterwards and the new end.  The
    kept elements are moved to the front; the slots past the new end keep
    what they held. *)
Definition remove_if {X} (l : list X) (predicate : X -> bool) : list X * nat :=
  let kept := List.filter (fun x => negb (predicate x)) l in
  (kept ++ drop (length kept) l, length kept).

Definition remove {X V} (eq : X -> V -> bool) (l : list X) (value : V) : list X * nat :=
  remove_if l (fun y => eq y value).

(** Lines 370-374. *)
Definition erase_value {X V} (eq : X -> V -> bool) (l : list X) (value : V) : list X :=
  let '(l', e) := remove eq l value in erase_to_end l' e.

(** Lines 449-455: the four-iterator [std::equal]. *)
Fixpoint equal {A B} (binary_predicate : A -> B -> bool) (l1 : list A) (l2 : list B) : bool :=
  match l1, l2 with
  | [], [] => true
  | a :: l1', b :: l2' => binary_predicate a b && equal binary_predicate l1' l2'
  | _, _ => false
  end.

(** ** Unique and its variants *)

(** Lines 199-219: [unique_transform]; [temp] is the last element written
    out, the output is the list of images written. *)
Fixpoint unique_transform_loop {X Y} (predicate : X -> X -> bool) (transform : X -> Y)
    (temp : X) (l : list X) : list Y :=
  match l with
  | [] => []
  | x :: l' =>
      if negb (predicate temp x) then transform x :: unique_transform_loop predicate transform x l'
      else unique_transform_loop predicate transform temp l'
  end.

Definition unique_transform {X Y} (predicate : X -> X -> bool) (transform : X -> Y)
    (l : list X) : list Y :=
  match l with
  | [] => []
  | x :: l' => transform x :: unique_transform_loop predicate transform x l'
  end.

(** Lines 229-234 and 245-249: with [std::equal_to], and the plain copy. *)
Definition unique_transform_eq {X Y} `{EqDecision X} (transform : X -> Y) (l : list X) : list Y :=
  unique_transform (fun a b => bool_decide (a = b)) transform l.
Definition unique_copy {X} `{EqDecision X} (l : list X) : list X := unique_transform_eq id l.

(** Lines 178-182: [calgo::unique], [std::unique] with [operator==]. *)
Definition unique {X} `{EqDecision X} (l : list X) : list X * nat :=
  (unique_if (fun (s : unit) a b => (bool_decide (a = b), s)) l tt).1.

(** Lines 328-332: [erase_duplicates], that is
    [erase_to_end(container, unique(container))]. *)
Definition erase_duplicates {X} `{EqDecision X} (l : list X) : list X :=
  let '(l', e) := unique l in erase_to_end l' e.

(** Lines 411-435: [triangle_product], the operation on every pair of
    positions [i < j] in order, threading the operation's state. *)
Fixpoint triangle_product {X S} (op : S -> X -> X -> S) (l : list X) (s : S) : S :=
  match l with
  | [] => s
  | x :: l' => triangle_product op l' (fold_left (fun s y => op s x y) l' s)
  end.

(** ** Small helpers *)

(** Lines 79-80: [calgo::value] is [std::get<1>] of a tuple-like value (a key of
    main.cpp is a [std::tuple] of two fields); [calgo::reverse] swaps a
    pair. *)
Class TupleValue (T V : Type) := tuple_value : T -> V.
#[export] Instance pair_tuple_value {A B} : TupleValue (A * B) B := snd.

(** Lines 82-83: [calgo::key] is [std::get<0>]. *)
Class TupleKey (T K : Type) := tuple_key : T -> K.
#[export] Instance pair_tuple_key {A B} : TupleKey (A * B) A := fst.
Definition reverse {A B} (t : A * B) : B * A := (t.2, t.1).

(** Lines 135-139: [calgo::contains], [find(...) != end]. *)
Definition contains {X} `{EqDecision X} (l : list X) (x : X) : bool :=
  negb (Nat.eqb (find (fun y v => bool_decide (y = v)) l x) (length l)).

(** Lines 457-464: [calgo::equal_values], [std::equal] comparing
    [calgo::value] of the entries. *)
Definition equal_values {K V} `{EqDecision V} (l1 l2 : list (K * V)) : bool :=
  equal (fun a b => bool_decide (tuple_value a = tuple_value b)) l1 l2.

(** ** Ranges given by a pair of iterators *)

(** Lines 44-58: [calgo::iterable], two iterators with [begin()] and
    [end()], built from a [std::pair] of them (what [equal_range] returns).
    The iterators are indices into the vector they point into. *)
Record iterable := { begin_ : nat; end_ : nat }.

Definition iterable_of_pair (p : nat * nat) : iterable := {| begin_ := p.1; end_ := p.2 |}.

(** The elements from [begin()] up to [end()] of the vector [v]. *)
Definition range_of {X} (v : list X) (r : iterable) : list X := drop (begin_ r) (take (end_ r) v).

(** Lines 466-469: [calgo::equal] on two pairs of iterators into [v1] and
    [v2]. *)
Definition equal_pairs {A B} (v1 : list A) (p1 : nat * nat) (v2 : list B) (p2 : nat * nat)
    (binary_predicate : A -> B -> bool) : bool :=
  equal binary_predicate (range_of v1 (iterable_of_pair p1)) (range_of v2 (iterable_of_pair p2)).

(** Lines 471-474: [calgo::equal_values] on two pairs of iterators. *)
Definition equal_values_pairs {K V} `{EqDecision V} (v1 : list (K * V)) (p1 : nat * nat)
    (v2 : list (K * V)) (p2 : nat * nat) : bool :=
  equal_values (range_of v1 (iterable_of_pair p1)) (range_of v2 (iterable_of_pair p2)).

(** Lines 476-480: [back_inserter] is [std::inserter(container, end())],
    an insert iterator on the container with the hint [end()].  The
    sources pass it a [flat_set], whose insertion with a hint is
    [insert_unique_hint] ([FlatHint]). *)
Definition back_inserter {Y} (s : list Y) : insert_iterator Y := inserter s (length s).

(** Lines 482-486: [front_inserter] is [std::inserter(container, begin())]. *)
Definition front_inserter {Y} (s : list Y) : insert_iterator Y := inserter s 0.

(** Lines 387-391: [calgo::transform] is [std::transform] into [out]:
    [*out = transform(x); ++out] for each element in turn ([++] on an insert
    iterator does nothing), returning [out]. *)
Definition transform {X Y O} (assign : O -> Y -> O) (f : X -> Y) (l : list X) (out : O) : O :=
  fold_left (fun o x => assign o (f x)) l out.

(** [calgo::transform(range, calgo::back_inserter(set), f)] on a
    [flat_set]: the set the inserter holds at the end. *)
Definition transform_into {X Y K} `{Ord K} (kf : Y -> K) (f : X -> Y) (l : list X) (s : list Y)
    : list Y :=
  container (transform (insert_assign kf) f l (back_inserter s)).

(** ** [std::sort] *)

(** The standard promises a permutation, sorted when the comparator is a
    strict weak order; the order it picks otherwise is unspecified. *)
Class Sorter := {
  sort_by : forall {X : Type}, (X -> X -> bool) -> list X -> list X;
  sort_by_perm : forall X (lt : X -> X -> bool) (l : list X), sort_by lt l ≡ₚ l;
  sort_by_sorted : forall X K `{Ord K} (kf : X -> K) (l : list X),
    StronglySorted (key_le kf) (sort_by (fun a b => ltb (kf a) (kf b)) l)
}.

(** libstdc++'s [__insertion_sort]: an element smaller than the first goes
    to the front; otherwise [__unguarded_linear_insert] walks back from the
    end of the sorted prefix while the element compares smaller.  The
    prefix is handled reversed, so the walk is a walk down the list. *)
Fixpoint unguarded_insert_rev {X} (lt : X -> X -> bool) (x : X) (r : list X) : list X :=
  match r with
  | [] => [x]
  | y :: r' => if lt x y then y :: unguarded_insert_rev lt x r' else x :: y :: r'
  end.

Definition insertion_step {X} (lt : X -> X -> bool) (prefix : list X) (x : X) : list X :=
  match prefix with
  | [] => [x]
  | y0 :: _ => if lt x y0 then x :: prefix else rev (unguarded_insert_rev lt x (rev prefix))
  end.

Definition insertion_sort {X} (lt : X -> X -> bool) (l : list X) : list X :=
  fold_left (insertion_step lt) l [].

(** ** Facts *)

Section RemoveIfFacts.
Context {X S : Type}.

Lemma remove_if_loop_pure (p : X -> bool) orig kept rest (s : S) :
  remove_if_loop (fun _ s x => (p x, s)) orig kept rest s =
    (kept ++ List.filter (fun x => negb (p x)) rest, s).
Proof.
  revert kept. induction rest as [|x rest IH]; intros kept; simpl.
  - by rewrite app_nil_r.
  - destruct (p x); simpl; rewrite IH; [done|]. by rewrite <- app_assoc.
Qed.

(** A predicate that reads neither the vector nor the state and whose
    effect is [g] on the removed elements: the kept elements are the
    filter, the effects run in order on the removed ones. *)
Lemma remove_if_loop_effect (p : X -> bool) (g : X -> S -> S) orig kept rest s :
  remove_if_loop (fun _ s x => if p x then (true, g x s) else (false, s)) orig kept rest s =
    (kept ++ List.filter (fun x => negb (p x)) rest,
     fold_left (fun s x => g x s) (List.filter p rest) s).
Proof.
  revert kept s. induction rest as [|x rest IH]; intros kept s; simpl.
  - by rewrite app_nil_r.
  - destruct (p x); simpl; rewrite IH; [done|]. by rewrite <- app_assoc.
Qed.

(** A verdict that depends on the element only, and an effect that may
    read the vector: if the effect on each removed element does not depend
    on the vector as it is then, [remove_if] is the filter plus the
    effects in order.  The vector handed over is the kept prefix followed
    by the original from that length on. *)
Lemma remove_if_loop_view (p : X -> bool) (g : list X -> X -> S -> S) (g' : X -> S -> S)
    orig pre rest s :
  orig = pre ++ rest ->
  (forall pre' x rest', orig = pre' ++ x :: rest' -> p x = true -> forall s,
     g (List.filter (fun y => negb (p y)) pre' ++
        drop (length (List.filter (fun y => negb (p y)) pre')) orig) x s = g' x s) ->
  remove_if_loop (fun phys s x => if p x then (true, g phys x s) else (false, s))
    orig (List.filter (fun y => negb (p y)) pre) rest s =
  (List.filter (fun y => negb (p y)) (pre ++ rest),
   fold_left (fun s x => g' x s) (List.filter p rest) s).
Proof.
  revert pre s. induction rest as [|x rest IH]; intros pre s Horig Hview; simpl.
  - by rewrite app_nil_r.
  - destruct (p x) eqn:Hpx; simpl.
    + rewrite (Hview pre x rest Horig Hpx s).
      replace (List.filter (fun y => negb (p y)) pre)
        with (List.filter (fun y => negb (p y)) (pre ++ [x]))
        by (by rewrite List.filter_app; simpl; rewrite Hpx, app_nil_r).
      rewrite IH; [by rewrite <- app_assoc|by rewrite Horig, <- app_assoc|exact Hview].
    + replace (List.filter (fun y => negb (p y)) pre ++ [x])
        with (List.filter (fun y => negb (p y)) (pre ++ [x]))
        by (by rewrite List.filter_app; simpl; rewrite Hpx).
      rewrite IH; [by rewrite <- app_assoc|by rewrite Horig, <- app_assoc|exact Hview].
Qed.

(** A predicate that reads neither the vector nor the state makes
    [erase_if] the filter of the kept elements. *)
Lemma erase_if_pure (p : X -> bool) l (s : S) :
  erase_if (fun _ s x => (p x, s)) l s = (List.filter (fun x => negb (p x)) l, s).
Proof. apply remove_if_loop_pure. Qed.

(** [std::unique] with a side-effecting predicate: the kept elements and
    the dropped ones make up the input, and the state is the effect run on
    the dropped ones in order. *)
Lemma unique_loop_effect (q : S -> X -> X -> bool) (g : X -> S -> S) last l s :
  exists d, l ≡ₚ (unique_loop (fun s a b => if q s a b then (true, g b s) else (false, s))
                    last l s).1 ++ d /\
    (unique_loop (fun s a b => if q s a b then (true, g b s) else (false, s)) last l s).2 =
      fold_left (fun s b => g b s) d s.
Proof.
  revert last s. induction l as [|x l IH]; intros last s; simpl; [by exists []|].
  destruct (q s last x).
  - destruct (IH last (g x s)) as (d & Hp & Hs). exists (x :: d). split; [|done].
    by rewrite <- Permutation_middle, <- Hp.
  - destruct (IH x s) as (d & Hp & Hs).
    destruct (unique_loop _ x l s) as [r s'] eqn:Hu. simpl in *. exists d. split; [|done].
    by rewrite Hp.
Qed.

Lemma erase_duplicates_if_effect (q : S -> X -> X -> bool) (g : X -> S -> S) l s :
  exists d, l ≡ₚ (erase_duplicates_if (fun s a b => if q s a b then (true, g b s) else (false, s))
                    l s).1 ++ d /\
    (erase_duplicates_if (fun s a b => if q s a b then (true, g b s) else (false, s)) l s).2 =
      fold_left (fun s b => g b s) d s.
Proof.
  rewrite erase_duplicates_if_kept. destruct l as [|x l]; simpl; [by exists []|].
  destruct (unique_loop_effect q g x l s) as (d & Hp & Hs).
  destruct (unique_loop _ x l s) as [r s'] eqn:Hu. simpl in *. exists d. split; [|done].
  by rewrite Hp.
Qed.
End RemoveIfFacts.

(** ** Searching and erasing *)

Section Search.
Context {X : Type}.
Implicit Types (p : X -> bool) (l : list X).

Lemma find_if_app_miss p pre l :
  Forall (fun y => p y = false) pre -> find_if p (pre ++ l) = length pre + find_if p l.
Proof. induction 1 as [|y pre Hy _ IH]; simpl; [done|]. by rewrite Hy, IH. Qed.

Lemma find_if_end p l : find_if p l = length l <-> Forall (fun y => p y = false) l.
Proof.
  induction l as [|x l IH]; simpl; [split; constructor|].
  rewrite Forall_cons. destruct (p x); [split; [done|intros [? _]; done]|]. rewrite <- IH. lia.
Qed.

(** [find_if] stops at the first element the predicate accepts. *)
Lemma find_if_first p pre x post :
  Forall (fun y => p y = false) pre -> p x = true -> find_if p (pre ++ x :: post) = length pre.
Proof. intros Hpre Hx. rewrite find_if_app_miss by done. simpl. rewrite Hx. lia. Qed.

Lemma erase_value_spec {V} (eq : X -> V -> bool) l v :
  erase_value eq l v = List.filter (fun y => negb (eq y v)) l.
Proof.
  unfold erase_value, remove, remove_if, erase_to_end, erase_range.
  rewrite take_app_length, drop_all, app_nil_r. done.
Qed.
End Search.

Lemma contains_spec {X} `{EqDecision X} (l : list X) x : contains l x = true <-> x ∈ l.
Proof.
  unfold contains, find. rewrite negb_true_iff, Nat.eqb_neq, find_if_end, Forall_forall.
  split; [|intros Hx Hall; specialize (Hall x Hx); by rewrite bool_decide_eq_true_2 in Hall].
  intros Hnot. apply dec_stable. intros Hx. apply Hnot. intros y Hy.
  apply bool_decide_eq_false_2. intros ->. done.
Qed.

Lemma equal_values_spec {K V} `{EqDecision V} (l1 l2 : list (K * V)) :
  equal_values l1 l2 = true <-> map snd l1 = map snd l2.
Proof.
  unfold equal_values. revert l2. induction l1 as [|a l1 IH]; intros [|b l2]; cbn [equal map]; try done.
  rewrite andb_true_iff, bool_decide_eq_true, IH. unfold tuple_value, pair_tuple_value. split; [intros [-> ->]|intros [=]]; done.
Qed.

(** ** Unique, and the pairs of [triangle_product] *)

Section Unique.
Context {X Y : Type}.

Lemma unique_transform_loop_unique (pred : X -> X -> bool) (f : X -> Y) temp l :
  unique_transform_loop pred f temp l =
    map f (unique_loop (fun (s : unit) a b => (pred a b, s)) temp l tt).1.
Proof.
  revert temp. induction l as [|x l IH]; intros temp; simpl; [done|].
  destruct (pred temp x); simpl; rewrite IH; [done|].
  by destruct (unique_loop _ x l tt).
Qed.

Context `{EqDecision X}.

(** No two neighbours equal. *)
Fixpoint adjacent_distinct (l : list X) : Prop :=
  match l with
  | x :: (y :: _) as l' => x <> y /\ adjacent_distinct l'
  | _ => True
  end.

Lemma unique_loop_eq_spec last l :
  let r := (unique_loop (fun (s : unit) a b => (bool_decide (a = b), s)) last l tt).1 in
  adjacent_distinct (last :: r) /\ (forall x, x ∈ last :: l <-> x ∈ last :: r).
Proof.
  revert last. induction l as [|x l IH]; intros last; simpl; [set_solver|].
  case_bool_decide as Hx.
  - subst x. destruct (IH last) as [H1 H2]. split; [done|]. set_solver.
  - destruct (IH x) as [H1 H2]. destruct (unique_loop _ x l tt) as [r u]. simpl in *.
    split; [done|]. set_solver.
Qed.
End Unique.

Section Triangle.
Context {X : Type}.

(** The pairs of positions [i < j], row by row. *)
Fixpoint pairs (l : list X) : list (X * X) :=
  match l with
  | [] => []
  | x :: l' => map (fun y => (x, y)) l' ++ pairs l'
  end.

Lemma pairs_length l : 2 * length (pairs l) = length l * (length l - 1).
Proof.
  induction l as [|x l IH]; cbn [pairs length]; [done|]. rewrite length_app, length_map.
  destruct (length l); simpl in *; nia.
Qed.

Lemma elem_of_pairs a b l :
  (a, b) ∈ pairs l <-> exists i j, i < j /\ l !! i = Some a /\ l !! j = Some b.
Proof.
  induction l as [|x l IH]; simpl.
  - split; [set_solver|]. intros (i & j & _ & Hi & _). done.
  - rewrite elem_of_app, IH, list_elem_of_fmap. split.
    + intros [(y & [=-> ->] & Hy)|(i & j & Hij & Hi & Hj)].
      * apply list_elem_of_lookup in Hy as [j Hj]. exists 0, (S j). split_and!; [lia|done..].
      * exists (S i), (S j). split_and!; [lia|done..].
    + intros ([|i] & [|j] & Hij & Hi & Hj); [lia| |lia|].
      * left. simpl in Hi. simplify_eq. exists b. split; [done|].
        simpl in Hj. by eapply list_elem_of_lookup_2.
      * right. exists i, j. split_and!; [lia|done..].
Qed.

Lemma triangle_product_pairs {S} (op : S -> X -> X -> S) l s :
  triangle_product op l s = fold_left (fun s p => op s p.1 p.2) (pairs l) s.
Proof.
  revert s. induction l as [|x l IH]; intros s; simpl; [done|].
  rewrite IH, fold_left_app, fold_left_map_fn. done.
Qed.
End Triangle.

Lemma erase_duplicates_unique {X} `{EqDecision X} (l : list X) :
  erase_duplicates l = (erase_duplicates_if (fun (s : unit) a b => (bool_decide (a = b), s)) l tt).1.
Proof.
  unfold erase_duplicates, unique, erase_duplicates_if.
  by destruct (unique_if _ l tt) as [[l' e] s'].
Qed.

(** C37: [erase_duplicates] leaves no two equal neighbours and loses no
    value; and [unique_transform], which compares each element with the
    last one written out as [std::unique] compares it with the last one
    kept, writes with the same predicate the images of exactly the
    elements [erase_duplicates_if] keeps. *)
Theorem erase_duplicates_spec {X} `{EqDecision X} (l : list X) :
  adjacent_distinct (erase_duplicates l) /\ (forall x, x ∈ l <-> x ∈ erase_duplicates l) /\
  (forall Y (pred : X -> X -> bool) (f : X -> Y),
     unique_transform pred f l = map f (erase_duplicates_if (fun (s : unit) a b => (pred a b, s)) l tt).1).
Proof.
  assert (adjacent_distinct (erase_duplicates l) /\ (forall x, x ∈ l <-> x ∈ erase_duplicates l))
    as [Ha Hm].
  { rewrite erase_duplicates_unique, erase_duplicates_if_kept.
    destruct l as [|x l]; simpl; [split; [done|set_solver]|].
    pose proof (unique_loop_eq_spec x l) as Hs. simpl in Hs. by destruct (unique_loop _ x l tt). }
  split_and!; [exact Ha|exact Hm|]. intros Y pred f. rewrite erase_duplicates_if_kept. destruct l as [|x l]; simpl; [done|].
  rewrite unique_transform_loop_unique. by destruct (unique_loop _ x l tt).
Qed.

(** C38: [triangle_product] calls the operation once on each pair of positions
    [i < j], [n (n - 1) / 2] calls in all, row by row. *)
Theorem triangle_product_trace {X} (l : list X) :
  let trace := triangle_product (fun tr a b => tr ++ [(a, b)]) l [] in
  2 * length trace = length l * (length l - 1) /\
  (forall a b, (a, b) ∈ trace <-> exists i j, i < j /\ l !! i = Some a /\ l !! j = Some b) /\
  trace = pairs l.
Proof.
  assert (Htr : triangle_product (fun tr a b => tr ++ [(a, b)]) l [] = pairs l).
  { rewrite triangle_product_pairs.
    assert (forall ps tr, fold_left (fun s (p : X * X) => s ++ [(p.1, p.2)]) ps tr = tr ++ ps)
      as Hf by (induction ps as [|[a b] ps IH]; intros tr; simpl;
                [by rewrite app_nil_r|by rewrite IH, <- app_assoc]).
    apply Hf. }
  simpl. rewrite Htr. split_and!; [apply pairs_length|intros a b; apply elem_of_pairs|done].
Qed.

(** C39: [erase_if_found] erases the first element the predicate accepts; when
    none is accepted it erases at [end()], which is undefined. *)
Theorem erase_if_found_spec {X} (p : X -> bool) (pre post : list X) x :
  Forall (fun y => p y = false) pre ->
  (p x = true -> erase_if_found (pre ++ x :: post) p = Some (pre ++ post)) /\
  (Forall (fun y => p y = false) (x :: post) -> erase_if_found (pre ++ x :: post) p = None).
Proof.
  intros Hpre. unfold erase_if_found, erase_at. split.
  - intros Hx. rewrite find_if_first by done.
    rewrite (proj2 (Nat.ltb_lt _ _)) by (rewrite length_app; simpl; lia).
    rewrite take_app_length, drop_app_ge by lia. by replace (S (length pre) - length pre) with 1 by lia.
  - intros Hpost. rewrite (proj2 (find_if_end p _)) by (apply Forall_app; by split).
    by rewrite Nat.ltb_irrefl.
Qed.

(** Inserting a batch of images into a flat set (the [foreign_keys_]
    report) keeps it a strictly sorted set holding the old elements and
    the images. *)
Lemma transform_inserter {X Y K} `{Ord K} (kf : Y -> K) (f : X -> Y) (l : list X) s h :
  StronglySorted (key_lt kf) s -> h <= length s ->
  container (transform (insert_assign kf) f l (inserter s h)) =
    fold_left (fun acc x => fs_insert kf (f x) acc) l s /\
  iter (transform (insert_assign kf) f l (inserter s h)) <=
    length (container (transform (insert_assign kf) f l (inserter s h))).
Proof.
  intros Hs Hh. unfold transform. rewrite <- !(fold_left_map_fn (insert_assign kf) f).
  rewrite <- (fold_left_map_fn (fun acc y => fs_insert kf y acc) f). by apply inserter_fold.
Qed.

Lemma transform_into_set {X Y} `{Ord Y} (f : X -> Y) (l : list X) (s : list Y) :
  StronglySorted (key_lt id) s ->
  StronglySorted (key_lt id) (transform_into id f l s) /\
  (forall z, z ∈ transform_into id f l s <-> z ∈ s \/ exists x, x ∈ l /\ z = f x).
Proof.
  intros Hs0. unfold transform_into, back_inserter.
  rewrite (proj1 (transform_inserter id f l s (length s) Hs0 (le_n _))).
  revert s Hs0. induction l as [|x l IH]; intros s Hs; simpl.
  - split; [done|]. set_solver.
  - destruct (fs_insert_sorted id (f x) s Hs) as (Hs' & Hincl & Hin & (z & Hz & Hzx)).
    destruct (IH _ Hs') as [IH1 IH2]. split; [done|]. intros y. rewrite IH2.
    unfold id in Hzx. subst z. split.
    + intros [[->|Hy]%Hin|(x' & Hx' & ->)]; [right; exists x; set_solver|by left|].
      right. exists x'. set_solver.
    + intros [Hy|(x' & [->|Hx']%elem_of_cons & ->)]; [left; auto|by left|].
      right. by exists x'.
Qed.

(** C19: [calgo::front_inserter] and [calgo::back_inserter] on a [flat_set]
    ([std::inserter] with the hint [begin()] or [end()], moved past each
    inserted value) fill the set alike: [calgo::transform] through either
    inserts the images as [emplace] does, one after the other, and the
    inserter's hint stays in range or at the end (boost's
    [priv_in_range_or_end] assertion) after every write. *)
Theorem inserters_fill_set {X Y K} `{Ord K} (kf : Y -> K) (f : X -> Y) (l : list X) (s : list Y) :
  StronglySorted (key_lt kf) s ->
  container (transform (insert_assign kf) f l (front_inserter s)) =
    fold_left (fun acc x => fs_insert kf (f x) acc) l s /\
  container (transform (insert_assign kf) f l (back_inserter s)) =
    fold_left (fun acc x => fs_insert kf (f x) acc) l s /\
  iter (transform (insert_assign kf) f l (front_inserter s)) <=
    length (container (transform (insert_assign kf) f l (front_inserter s))) /\
  iter (transform (insert_assign kf) f l (back_inserter s)) <=
    length (container (transform (insert_assign kf) f l (back_inserter s))).
Proof.
  intros Hs. unfold front_inserter, back_inserter.
  destruct (transform_inserter kf f l s 0 Hs ltac:(lia)) as [Hf1 Hf2].
  destruct (transform_inserter kf f l s (length s) Hs ltac:(lia)) as [Hb1 Hb2].
  by split_and!.
Qed.

Section InsertionSort.
Context {X : Type}.

Lemma unguarded_insert_rev_perm (lt : X -> X -> bool) x r :
  unguarded_insert_rev lt x r ≡ₚ x :: r.
Proof.
  induction r as [|y r IH]; simpl; [done|]. case_bool; [|done].
  rewrite IH. apply perm_swap.
Qed.

Lemma insertion_step_perm (lt : X -> X -> bool) p x : insertion_step lt p x ≡ₚ x :: p.
Proof.
  destruct p as [|y p]; unfold insertion_step; [done|]. case_bool; [done|].
  rewrite <- Permutation_rev, unguarded_insert_rev_perm. f_equiv. symmetry. apply Permutation_rev.
Qed.

Lemma insertion_sort_perm (lt : X -> X -> bool) l : insertion_sort lt l ≡ₚ l.
Proof.
  unfold insertion_sort. change l with ([] ++ l) at 2. generalize (@nil X) as p.
  induction l as [|x l IH]; intros p; simpl; [by rewrite app_nil_r|].
  rewrite IH, insertion_step_perm. by rewrite <- Permutation_middle.
Qed.

Lemma StronglySorted_rev (R : X -> X -> Prop) l :
  StronglySorted R l -> StronglySorted (flip R) (rev l).
Proof.
  induction 1 as [|x l Hl IH Hx]; simpl; [constructor|].
  apply StronglySorted_app_2; [|done|repeat constructor].
  intros a b Ha ->%list_elem_of_singleton. rewrite Forall_forall in Hx. apply Hx.
  by rewrite list_elem_of_In, in_rev, <- list_elem_of_In.
Qed.

Context {K : Type} `{Ord K} (kf : X -> K).
Local Abbreviation lt := (fun a b : X => ltb (kf a) (kf b)).

Lemma unguarded_insert_rev_sorted x r :
  StronglySorted (flip (key_le kf)) r ->
  StronglySorted (flip (key_le kf)) (unguarded_insert_rev lt x r).
Proof.
  unfold key_le, flip. induction 1 as [|y r Hr IH Hy]; simpl; [repeat constructor|].
  rewrite Forall_forall in Hy. case_bool.
  - constructor; [done|]. apply Forall_forall. intros z Hz.
    rewrite unguarded_insert_rev_perm in Hz.
    apply elem_of_cons in Hz as [->|Hz]; [by apply ltb_leb|by apply Hy].
  - constructor; [by constructor; [|apply Forall_forall]|].
    apply Forall_forall. intros z [->|Hz]%elem_of_cons; [by apply ltb_false_leb|].
    eapply leb_trans; [by apply Hy|by apply ltb_false_leb].
Qed.

Lemma insertion_step_sorted p x :
  StronglySorted (key_le kf) p -> StronglySorted (key_le kf) (insertion_step lt p x).
Proof.
  intros Hp. destruct p as [|y p]; unfold insertion_step; [repeat constructor|]. case_bool.
  - constructor; [done|]. apply Forall_forall. intros z [->|Hz]%elem_of_cons; unfold key_le.
    + by apply ltb_leb.
    + inversion Hp as [|? ? _ Hy]; subst. rewrite Forall_forall in Hy.
      eapply leb_trans; [by apply ltb_leb|by apply Hy].
  - apply StronglySorted_rev in Hp. apply (unguarded_insert_rev_sorted x) in Hp.
    apply StronglySorted_rev in Hp. exact Hp.
Qed.

Lemma insertion_sort_sorted l : StronglySorted (key_le kf) (insertion_sort lt l).
Proof.
  unfold insertion_sort. assert (StronglySorted (key_le kf) []) as Hnil by constructor.
  revert Hnil. generalize (@nil X) as p.
  induction l as [|x l IH]; intros p Hp; simpl; [done|].
  apply IH. by apply insertion_step_sorted.
Qed.
End InsertionSort.

(** libstdc++'s [std::sort] on ranges of at most 16 elements. *)
#[export] Instance insertion_sorter : Sorter := {|
  sort_by := @insertion_sort;
  sort_by_perm := @insertion_sort_perm;
  sort_by_sorted X K _ kf l := insertion_sort_sorted kf l
|}.

(** For a strict total order every [Sorter] returns the one sorted
    permutation: the result depends on the multiset only. *)
Lemma sort_by_canonical `{Sorter} {X} `{Ord X} (l1 l2 : list X) :
  l1 ≡ₚ l2 -> sort_by ltb l1 = sort_by ltb l2.
Proof.
  intros Hp. apply (StronglySorted_unique_strong (key_le id)).
  - intros a b _ _ Hab Hba. by apply leb_antisym.
  - exact (sort_by_sorted X X id l1).
  - exact (sort_by_sorted X X id l2).
  - by rewrite !sort_by_perm.
Qed.

(** ** Concrete instances *)

Lemma erase_if_found_spec_witness :
  Forall (fun y => Z.even y = false) [1; 3]%Z /\
  (Z.even 4 = true -> erase_if_found ([1; 3] ++ 4 :: [5])%Z Z.even = Some ([1; 3] ++ [5])%Z) /\
  (Forall (fun y => Z.even y = false) (4 :: [5])%Z ->
     erase_if_found ([1; 3] ++ 4 :: [5])%Z Z.even = None).
Proof.
  assert (Hpre : Forall (fun y => Z.even y = false) [1; 3]%Z) by (repeat constructor).
  split; [exact Hpre|]. apply (erase_if_found_spec Z.even [1; 3]%Z [5]%Z 4%Z Hpre).
Defined.

(** Doubling [[3; 1; 3]] into the set [[2; 4]] through either inserter
    gives [[2; 4; 6]]. *)
Lemma inserters_fill_set_witness :
  StronglySorted (key_lt id) [2; 4]%Z /\
  container (transform (insert_assign id) (fun z => 2 * z)%Z [3; 1; 3]%Z (front_inserter [2; 4]%Z)) =
    fold_left (fun acc x => fs_insert id (2 * x)%Z acc) [3; 1; 3]%Z [2; 4]%Z /\
  container (transform (insert_assign id) (fun z => 2 * z)%Z [3; 1; 3]%Z (back_inserter [2; 4]%Z)) =
    fold_left (fun acc x => fs_insert id (2 * x)%Z acc) [3; 1; 3]%Z [2; 4]%Z /\
  iter (transform (insert_assign id) (fun z => 2 * z)%Z [3; 1; 3]%Z (front_inserter [2; 4]%Z)) <=
    length (container (transform (insert_assign id) (fun z => 2 * z)%Z [3; 1; 3]%Z (front_inserter [2; 4]%Z))) /\
  iter (transform (insert_assign id) (fun z => 2 * z)%Z [3; 1; 3]%Z (back_inserter [2; 4]%Z)) <=
    length (container (transform (insert_assign id) (fun z => 2 * z)%Z [3; 1; 3]%Z (back_inserter [2; 4]%Z))).
Proof.
  assert (Hs : StronglySorted (key_lt id) [2; 4]%Z) by (repeat constructor).
  split; [exact Hs|]. exact (inserters_fill_set id (fun z => 2 * z)%Z [3; 1; 3]%Z _ Hs).
Defined.

End calgo.
