(* ===== verification/Introsort.v ===== *)
(** * libstdc++'s [std::sort], on a vector with bounds

    [calgo::sort(container, pred)] (container_algo.hpp lines 443-447) is
    [std::sort(begin, end, pred)].  The model follows libstdc++'s
    [bits/stl_algo.h] and [bits/stl_heap.h] routine by routine: the
    introsort loop with its depth limit [2 * __lg(n)] and its threshold of
    16 elements, the median-of-three pivot and the unguarded partition,
    the heap sort it falls back on, and the final insertion sort.

    Iterators are [Z] offsets into the vector and every access goes
    through [rd] and [wr], which fail with [ReadOut i] / [WriteOut i] when
    [i] is not an index of the vector: the unguarded loops of libstdc++
    rely on the comparator being a strict weak order to stay in bounds,
    and the model makes the access past the end an error value instead of
    undefined behaviour.  The state is the vector; [M] is a state and
    error monad over it.  Loops that are not structural take a fuel that
    [std_sort] sets to the length of the vector plus one, more than any of
    them iterates on an in-bounds run (each iteration moves an index that
    is checked by an access); running out gives [OutOfFuel]. *)

From S2P Require Import Prelude ContainerAlgo.

Module Introsort.

Inductive fault := ReadOut (i : Z) | WriteOut (i : Z) | OutOfFuel.

Section Monad.
Context {X : Type}.

Definition M (A : Type) : Type := list X -> fault + (A * list X).

#[export] Instance M_ret : MRet M := fun A a v => inr (a, v).
#[export] Instance M_bind : MBind M := fun A B k m v =>
  match m v with inl f => inl f | inr (a, v') => k a v' end.

Definition fail {A} (f : fault) : M A := fun _ => inl f.

(** [*(first + i)]. *)
Definition rd (i : Z) : M X := fun v =>
  match (if Z.ltb i 0 then None else v !! Z.to_nat i) with
  | Some x => inr (x, v)
  | None => inl (ReadOut i)
  end.

(** [*(first + i) = x]. *)
Definition wr (i : Z) (x : X) : M unit := fun v =>
  if (0 <=? i)%Z && (i <? Z.of_nat (length v))%Z then inr (tt, <[Z.to_nat i := x]> v)
  else inl (WriteOut i).

(** [std::iter_swap(a, b)]. *)
Definition iter_swap (a b : Z) : M unit :=
  x ← rd a; y ← rd b; wr a y;; wr b x.
End Monad.

Arguments M : clear implicits.

Section Sort.
Context {X : Type} (comp : X -> X -> bool).
(** The budget of every loop: [n] below counts the iterations left. *)
Context (fuel : nat).
Local Open Scope Z_scope.
Local Abbreviation M := (M X).

(** ** Insertion sort ([stl_algo.h]) *)

(** [std::move_backward(first, last, d_last)]. *)
Fixpoint move_backward_loop (n : nat) (first last d_last : Z) : M unit :=
  match n with
  | O => fail OutOfFuel
  | S n' =>
      if first =? last then mret tt
      else x ← rd (last - 1); wr (d_last - 1) x;; move_backward_loop n' first (last - 1) (d_last - 1)
  end.

Definition move_backward (first last d_last : Z) : M unit := move_backward_loop fuel first last d_last.

(** The loop of [__unguarded_linear_insert]: [next] is [last - 1]. *)
Fixpoint unguarded_linear_insert_loop (n : nat) (val : X) (last : Z) : M unit :=
  match n with
  | O => fail OutOfFuel
  | S n' =>
      y ← rd (last - 1);
      if comp val y then wr last y;; unguarded_linear_insert_loop n' val (last - 1)
      else wr last val
  end.

Definition unguarded_linear_insert (last : Z) : M unit :=
  val ← rd last; unguarded_linear_insert_loop fuel val last.

(** The loop of [__insertion_sort], from [i] to [last]. *)
Fixpoint insertion_sort_loop (n : nat) (first i last : Z) : M unit :=
  match n with
  | O => fail OutOfFuel
  | S n' =>
      if i =? last then mret tt
      else
        a ← rd i; b ← rd first;
        (if comp a b then move_backward first i (i + 1);; wr first a
         else unguarded_linear_insert i);;
        insertion_sort_loop n' first (i + 1) last
  end.

Definition insertion_sort (first last : Z) : M unit :=
  if first =? last then mret tt else insertion_sort_loop fuel first (first + 1) last.

(** [__unguarded_insertion_sort]. *)
Fixpoint unguarded_insertion_sort_loop (n : nat) (i last : Z) : M unit :=
  match n with
  | O => fail OutOfFuel
  | S n' => if i =? last then mret tt
            else unguarded_linear_insert i;; unguarded_insertion_sort_loop n' (i + 1) last
  end.

Definition unguarded_insertion_sort (first last : Z) : M unit :=
  unguarded_insertion_sort_loop fuel first last.

(** [_S_threshold]. *)
Definition threshold : Z := 16.

(** [__final_insertion_sort]. *)
Definition final_insertion_sort (first last : Z) : M unit :=
  if threshold <? last - first then
    insertion_sort first (first + threshold);;
    unguarded_insertion_sort (first + threshold) last
  else insertion_sort first last.

(** ** Heap sort ([stl_heap.h]) *)

(** The loop of [__push_heap]: the hole climbs while its parent is smaller. *)
Fixpoint push_heap_loop (n : nat) (first hole top : Z) (value : X) : M Z :=
  match n with
  | O => fail OutOfFuel
  | S n' =>
      let parent := Z.quot (hole - 1) 2 in
      if top <? hole then
        p ← rd (first + parent);
        if comp p value then wr (first + hole) p;; push_heap_loop n' first parent top value
        else mret hole
      else mret hole
  end.

Definition push_heap (first hole top : Z) (value : X) : M unit :=
  hole' ← push_heap_loop fuel first hole top value; wr (first + hole') value.

(** The loop of [__adjust_heap]: the hole goes down to the larger child;
    the result is the hole and the last child index. *)
Fixpoint adjust_heap_loop (n : nat) (first hole second len : Z) : M (Z * Z) :=
  match n with
  | O => fail OutOfFuel
  | S n' =>
      if second <? Z.quot (len - 1) 2 then
        let second := 2 * (second + 1) in
        a ← rd (first + second); b ← rd (first + (second - 1));
        let second := if comp a b then second - 1 else second in
        c ← rd (first + second); wr (first + hole) c;;
        adjust_heap_loop n' first second second len
      else mret (hole, second)
  end.

Definition adjust_heap (first hole len : Z) (value : X) : M unit :=
  '(hole', second) ← adjust_heap_loop fuel first hole hole len;
  (if (Z.land len 1 =? 0) && (second =? Z.quot (len - 2) 2) then
     let second := 2 * (second + 1) in
     c ← rd (first + (second - 1)); wr (first + hole') c;; mret (second - 1)
   else mret hole') ≫= fun hole'' =>
  push_heap first hole'' hole value.

(** [__make_heap]: sift down every parent, from the last one to the root. *)
Fixpoint make_heap_loop (n : nat) (first parent len : Z) : M unit :=
  match n with
  | O => fail OutOfFuel
  | S n' =>
      value ← rd (first + parent); adjust_heap first parent len value;;
      if parent =? 0 then mret tt else make_heap_loop n' first (parent - 1) len
  end.

Definition make_heap (first last : Z) : M unit :=
  if last - first <? 2 then mret tt
  else make_heap_loop fuel first (Z.quot (last - first - 2) 2) (last - first).

(** [__pop_heap(first, last, result)]. *)
Definition pop_heap (first last result : Z) : M unit :=
  value ← rd result; x ← rd first; wr result x;; adjust_heap first 0 (last - first) value.

(** [__heap_select]: the loop from [middle] to [last]. *)
Fixpoint heap_select_loop (n : nat) (first middle i last : Z) : M unit :=
  match n with
  | O => fail OutOfFuel
  | S n' =>
      if i <? last then
        a ← rd i; b ← rd first;
        (if comp a b then pop_heap first middle i else mret tt);;
        heap_select_loop n' first middle (i + 1) last
      else mret tt
  end.

Definition heap_select (first middle last : Z) : M unit :=
  make_heap first middle;; heap_select_loop fuel first middle middle last.

(** [__sort_heap]. *)
Fixpoint sort_heap_loop (n : nat) (first last : Z) : M unit :=
  match n with
  | O => fail OutOfFuel
  | S n' => if 1 <? last - first then pop_heap first (last - 1) (last - 1);; sort_heap_loop n' first (last - 1)
            else mret tt
  end.

Definition sort_heap (first last : Z) : M unit := sort_heap_loop fuel first last.

(** [__partial_sort]. *)
Definition partial_sort (first middle last : Z) : M unit :=
  heap_select first middle last;; sort_heap first middle.

(** ** Introsort ([stl_algo.h]) *)

(** [__move_median_to_first(result, a, b, c)]. *)
Definition move_median_to_first (result a b c : Z) : M unit :=
  xa ← rd a; xb ← rd b; xc ← rd c;
  if comp xa xb then
    if comp xb xc then iter_swap result b
    else if comp xa xc then iter_swap result c
    else iter_swap result a
  else if comp xa xc then iter_swap result a
  else if comp xb xc then iter_swap result c
  else iter_swap result b.

(** [while (comp(first, pivot)) ++first;] *)
Fixpoint scan_up (n : nat) (i pivot : Z) : M Z :=
  match n with
  | O => fail OutOfFuel
  | S n' => a ← rd i; p ← rd pivot; if comp a p then scan_up n' (i + 1) pivot else mret i
  end.

(** [while (comp(pivot, last)) --last;] *)
Fixpoint scan_down (n : nat) (j pivot : Z) : M Z :=
  match n with
  | O => fail OutOfFuel
  | S n' => p ← rd pivot; b ← rd j; if comp p b then scan_down n' (j - 1) pivot else mret j
  end.

(** The loop of [__unguarded_partition(first, last, pivot)]. *)
Fixpoint unguarded_partition_loop (n : nat) (first last pivot : Z) : M Z :=
  match n with
  | O => fail OutOfFuel
  | S n' =>
      first' ← scan_up fuel first pivot;
      last' ← scan_down fuel (last - 1) pivot;
      if negb (first' <? last') then mret first'
      else iter_swap first' last';; unguarded_partition_loop n' (first' + 1) last' pivot
  end.

Definition unguarded_partition (first last pivot : Z) : M Z :=
  unguarded_partition_loop fuel first last pivot.

(** [__unguarded_partition_pivot]. *)
Definition unguarded_partition_pivot (first last : Z) : M Z :=
  let mid := first + (last - first) / 2 in
  move_median_to_first first (first + 1) mid (last - 1);;
  unguarded_partition (first + 1) last first.

(** [__introsort_loop]: the [while] loop continues on [[first, cut)]
    with the decremented depth, so each iteration is a call at depth
    [d]; the depth limit bounds the recursion. *)
Fixpoint introsort_loop (depth : nat) (first last : Z) : M unit :=
  if threshold <? last - first then
    match depth with
    | O => partial_sort first last last
    | S d =>
        cut ← unguarded_partition_pivot first last;
        introsort_loop d cut last;;
        introsort_loop d first cut
    end
  else mret tt.

(** [std::__lg(n)]. *)
Definition lg (n : Z) : Z := Z.log2 n.

(** [std::__sort]. *)
Definition sort (first last : Z) : M unit :=
  if first =? last then mret tt
  else introsort_loop (Z.to_nat (lg (last - first) * 2)) first last;;
       final_insertion_sort first last.
End Sort.

(** [std::sort(begin, end, comp)] on a whole vector, every loop with a
    budget of one iteration more than the vector has elements. *)
Definition std_sort {X} (comp : X -> X -> bool) (v : list X) : fault + list X :=
  match sort comp (S (length v)) 0 (Z.of_nat (length v)) v with
  | inl f => inl f
  | inr (_, v') => inr v'
  end.


(** ** The monad *)

Section MonadFacts.
Context {X : Type}.
Implicit Types (v : list X) (x y : X).
Local Open Scope Z_scope.

Lemma bind_ok {A B} (m : M X A) (k : A -> M X B) v a v' :
  m v = inr (a, v') -> (m ≫= k) v = k a v'.
Proof. intros Hm. unfold mbind, M_bind. by rewrite Hm. Qed.

Lemma bind_err {A B} (m : M X A) (k : A -> M X B) v f :
  m v = inl f -> (m ≫= k) v = inl f.
Proof. intros Hm. unfold mbind, M_bind. by rewrite Hm. Qed.

Lemma rd_mid (l1 l2 : list X) x i : i = Z.of_nat (length l1) -> rd i (l1 ++ x :: l2) = inr (x, l1 ++ x :: l2).
Proof.
  intros ->. unfold rd. rewrite (proj2 (Z.ltb_ge _ _)) by lia.
  by rewrite Nat2Z.id, list_lookup_middle.
Qed.

Lemma rd_out v i : Z.of_nat (length v) <= i -> rd i v = inl (ReadOut i).
Proof.
  intros Hi. unfold rd. rewrite (proj2 (Z.ltb_ge _ _)) by lia.
  by rewrite lookup_ge_None_2 by lia.
Qed.

Lemma wr_mid (l1 l2 : list X) x y i : i = Z.of_nat (length l1) -> wr i y (l1 ++ x :: l2) = inr (tt, l1 ++ y :: l2).
Proof.
  intros ->. unfold wr. rewrite length_app. simpl.
  rewrite (proj2 (Z.leb_le _ _)), (proj2 (Z.ltb_lt _ _)) by lia. simpl.
  rewrite Nat2Z.id. by rewrite <- (Nat.add_0_r (length l1)), insert_app_r.
Qed.
Lemma rd_ok v i x : 0 <= i -> v !! Z.to_nat i = Some x -> rd i v = inr (x, v).
Proof. intros Hi Hx. unfold rd. rewrite (proj2 (Z.ltb_ge _ _)) by lia. by rewrite Hx. Qed.

Lemma wr_ok v i x :
  0 <= i -> (Z.to_nat i < length v)%nat -> wr i x v = inr (tt, <[Z.to_nat i := x]> v).
Proof.
  intros Hi Hl. unfold wr. by rewrite (proj2 (Z.leb_le _ _)), (proj2 (Z.ltb_lt _ _)) by lia.
Qed.
End MonadFacts.


(** ** Insertion sort: the vector is the functional [calgo.insertion_sort] *)

Section InsertionFacts.
Context {X : Type} (comp : X -> X -> bool) (fuel : nat).
Local Open Scope Z_scope.

(** [std::move_backward(first, i, i + 1)] shifts the range right by one
    and leaves its first element in place. *)
Lemma move_backward_shift n (pre q rest : list X) z first last :
  first = Z.of_nat (length pre) -> last = Z.of_nat (length pre + length q) -> (length q < n)%nat ->
  move_backward_loop n first last (last + 1) (pre ++ q ++ z :: rest) =
    inr (tt, pre ++ take 1 (q ++ [z]) ++ q ++ rest).
Proof.
  revert n z last rest. induction q as [|y q IH] using rev_ind; intros n z last rest Hf Hl Hn.
  - destruct n; [lia|]. cbn [move_backward_loop]. simpl in Hl. rewrite (proj2 (Z.eqb_eq _ _)) by lia. done.
  - destruct n as [|n]; [lia|]. cbn [move_backward_loop].
    rewrite length_app in Hl, Hn; simpl in Hl, Hn.
    rewrite (proj2 (Z.eqb_neq _ _)) by lia.
    replace (pre ++ (q ++ [y]) ++ z :: rest) with ((pre ++ q) ++ y :: z :: rest) by (by rewrite <- !app_assoc).
    erewrite bind_ok by (apply rd_mid; rewrite length_app; lia).
    replace ((pre ++ q) ++ y :: z :: rest) with ((pre ++ q ++ [y]) ++ z :: rest) by (by rewrite <- !app_assoc).
    erewrite bind_ok by (apply wr_mid; rewrite !length_app; simpl; lia).
    replace (last + 1 - 1) with ((last - 1) + 1) by lia.
    replace ((pre ++ q ++ [y]) ++ y :: rest) with (pre ++ q ++ y :: y :: rest) by (by rewrite <- !app_assoc).
    rewrite (IH n y (last - 1) (y :: rest)) by lia.
    destruct q as [|a q]; simpl; [done|]. by rewrite <- app_assoc.
Qed.

Lemma unguarded_linear_insert_loop_spec n val (pre r rest : list X) z y0 j :
  j = Z.of_nat (length pre + length r) -> (length r < n)%nat -> last r = Some y0 -> comp val y0 = false ->
  unguarded_linear_insert_loop comp n val j (pre ++ rev r ++ z :: rest) =
    inr (tt, pre ++ rev (calgo.unguarded_insert_rev comp val r) ++ rest).
Proof.
  revert n z j rest. induction r as [|y r IH]; intros n z j rest Hl Hn Hlast Hc; [done|].
  destruct n as [|n]; [simpl in Hn; lia|]. cbn [unguarded_linear_insert_loop calgo.unguarded_insert_rev].
  simpl in Hl, Hn. cbn [rev]. rewrite <- app_assoc. cbn [app]. rewrite app_assoc.
  erewrite bind_ok by (apply rd_mid; rewrite length_app, length_rev; lia).
  destruct (comp val y) eqn:Hy.
  - destruct r as [|y' r]; [simpl in Hlast; congruence|].
    rewrite (app_snoc_cons (pre ++ rev (y' :: r)) _ y).
    erewrite bind_ok by (apply wr_mid; rewrite !length_app, length_rev; simpl in *; lia).
    rewrite <- app_snoc_cons, <- app_assoc, (IH n y (j - 1) (y :: rest)); [|simpl in *; lia..|done|done].
    simpl. by rewrite <- app_assoc.
  - rewrite (app_snoc_cons (pre ++ rev r) _ y).
    erewrite wr_mid by (rewrite !length_app, length_rev; simpl; lia). simpl. by rewrite <- !app_assoc.
Qed.

(** [__unguarded_linear_insert] at the end of a non-empty range whose first
    element the new one does not precede. *)
Lemma unguarded_linear_insert_spec (pre p rest : list X) x y0 i :
  i = Z.of_nat (length pre + length p) -> (length p < fuel)%nat -> head p = Some y0 -> comp x y0 = false ->
  unguarded_linear_insert comp fuel i (pre ++ p ++ x :: rest) =
    inr (tt, pre ++ rev (calgo.unguarded_insert_rev comp x (rev p)) ++ rest).
Proof.
  intros Hi Hf Hh Hc. unfold unguarded_linear_insert.
  rewrite app_assoc. erewrite bind_ok by (apply rd_mid; rewrite length_app; lia). rewrite <- app_assoc.
  rewrite <- (rev_involutive p) at 1.
  apply (unguarded_linear_insert_loop_spec _ _ _ _ _ _ y0); [by rewrite length_rev|by rewrite length_rev| |done].
  destruct p as [|a p]; [done|]. simpl in Hh. injection Hh as ->. simpl. apply last_snoc.
Qed.

Lemma insert_rev_length (p : list X) x : length (rev (calgo.unguarded_insert_rev comp x (rev p))) = S (length p).
Proof. rewrite length_rev, (Permutation_length (calgo.unguarded_insert_rev_perm comp x _)). simpl. by rewrite length_rev. Qed.

Lemma insertion_sort_loop_spec n (pre p rest post : list X) first i last :
  p <> [] -> first = Z.of_nat (length pre) -> i = Z.of_nat (length pre + length p) ->
  last = Z.of_nat (length pre + length p + length rest) ->
  (length rest < n)%nat -> (length p + length rest < fuel)%nat ->
  insertion_sort_loop comp fuel n first i last (pre ++ p ++ rest ++ post) =
    inr (tt, pre ++ fold_left (calgo.insertion_step comp) rest p ++ post).
Proof.
  revert n p i. induction rest as [|x rest IH]; intros n p i Hp Hfi Hi Hl Hn Hf;
    destruct n as [|n]; simpl in Hn; try lia; cbn [insertion_sort_loop fold_left app]; simpl in Hl, Hf.
  - by rewrite (proj2 (Z.eqb_eq _ _)) by lia.
  - rewrite (proj2 (Z.eqb_neq _ _)) by lia.
    rewrite (app_assoc pre). erewrite bind_ok by (apply rd_mid; rewrite length_app; lia).
    rewrite <- (app_assoc pre). destruct p as [|y0 p']; [done|].
    erewrite bind_ok by (apply (rd_mid pre (p' ++ x :: rest ++ post)); lia).
    unfold calgo.insertion_step at 2. destruct (comp x y0) eqn:Hx.
    + unfold move_backward.
      erewrite bind_ok; [|erewrite bind_ok by (apply (move_backward_shift fuel pre (y0 :: p') (rest ++ post) x); simpl in *; lia);
                         simpl; apply (wr_mid pre); done].
      apply (IH n (x :: y0 :: p')); simpl in *; (done || lia).
    + erewrite bind_ok by (apply (unguarded_linear_insert_spec pre (y0 :: p') (rest ++ post) x y0 i);
        simpl in *; (done || lia)).
      apply IH; [intros Hnil%(f_equal length); by rewrite insert_rev_length in Hnil|..];
        rewrite ?insert_rev_length; simpl in *; lia.
Qed.

(** An element that does not precede the first one is inserted behind it. *)
Lemma insertion_step_head (p : list X) x y0 :
  head p = Some y0 -> comp x y0 = false -> head (calgo.insertion_step comp p x) = Some y0.
Proof.
  destruct p as [|y p]; intros Hh Hc; [done|]. simpl in Hh. injection Hh as ->.
  unfold calgo.insertion_step. rewrite Hc. cbn [rev].
  assert (Hl : forall r, last (calgo.unguarded_insert_rev comp x (r ++ [y0])) = Some y0).
  { induction r as [|z r IH]; cbn [app calgo.unguarded_insert_rev].
    - by rewrite Hc.
    - destruct (comp x z); [by rewrite last_cons, IH|].
      change (x :: z :: r ++ [y0]) with ((x :: z :: r) ++ [y0]). apply last_snoc. }
  specialize (Hl (rev p)). destruct (calgo.unguarded_insert_rev comp x (rev p ++ [y0])) as [|a l] using rev_ind;
    [done|]. rewrite last_snoc in Hl. injection Hl as ->. by rewrite rev_unit.
Qed.

(** [__unguarded_insertion_sort] behind a prefix whose first element no
    later element precedes is the insertion sort's loop. *)
Lemma unguarded_insertion_sort_loop_spec n (pre p rest post : list X) y0 i last :
  head p = Some y0 -> Forall (fun x => comp x y0 = false) rest -> i = Z.of_nat (length pre + length p) ->
  last = Z.of_nat (length pre + length p + length rest) -> (length rest < n)%nat ->
  (length p + length rest < fuel)%nat ->
  unguarded_insertion_sort_loop comp fuel n i last (pre ++ p ++ rest ++ post) =
    inr (tt, pre ++ fold_left (calgo.insertion_step comp) rest p ++ post).
Proof.
  revert n p i. induction rest as [|x rest IH]; intros n p i Hh Hall Hi Hl Hn Hf;
    destruct n as [|n]; simpl in Hn; try lia; cbn [unguarded_insertion_sort_loop fold_left app]; simpl in Hl, Hf.
  - by rewrite (proj2 (Z.eqb_eq _ _)) by lia.
  - rewrite (proj2 (Z.eqb_neq _ _)) by lia. apply Forall_cons in Hall as [Hx Hall].
    erewrite bind_ok by (apply (unguarded_linear_insert_spec pre p (rest ++ post) x y0); (done || lia)).
    pose proof (insertion_step_head p x y0 Hh Hx) as Hh'.
    destruct p as [|y p]; [done|]. simpl in Hh. injection Hh as ->.
    unfold calgo.insertion_step in Hh' |- * at 2. rewrite Hx in Hh' |- *.
    apply IH; rewrite ?insert_rev_length; simpl in *; (done || lia).
Qed.

Lemma introsort_loop_short d first last (v : list X) :
  last - first <= threshold -> introsort_loop comp fuel d first last v = inr (tt, v).
Proof. intros Hs. destruct d; simpl; by rewrite (proj2 (Z.ltb_ge _ _)) by (unfold threshold in *; lia). Qed.
End InsertionFacts.

Lemma std_sort_short {X} (comp : X -> X -> bool) (v : list X) :
  (length v <= 16)%nat -> std_sort comp v = inr (calgo.insertion_sort comp v).
Proof.
  intros Hv. unfold std_sort, sort. destruct v as [|x0 rest]; [done|]. cbn [length] in *.
  rewrite (proj2 (Z.eqb_neq _ _)) by lia.
  erewrite bind_ok by (apply introsort_loop_short; unfold threshold; lia).
  unfold final_insertion_sort, threshold. rewrite (proj2 (Z.ltb_ge _ _)) by lia.
  unfold Introsort.insertion_sort. rewrite (proj2 (Z.eqb_neq _ _)) by lia.
  assert (Hv' : x0 :: rest = [] ++ [x0] ++ rest ++ []) by (by rewrite app_nil_r). rewrite Hv' at 1.
  rewrite (insertion_sort_loop_spec comp _ _ [] [x0] rest []), app_nil_r; simpl; (done || lia).
Qed.

Section Always.
Context {X : Type} (comp : X -> X -> bool) (P : X -> Prop).
Hypothesis Hcomp : forall a b, P a -> P b -> comp a b = true.
Local Open Scope Z_scope.

Lemma rd_in (v : list X) i :
  Forall P v -> 0 <= i < Z.of_nat (length v) -> exists x, P x /\ rd i v = inr (x, v).
Proof.
  intros HP Hi. destruct (lookup_lt_is_Some_2 v (Z.to_nat i)) as [x Hx]; [lia|].
  exists x. split; [by eapply Forall_lookup_1|apply rd_ok; [lia|done]].
Qed.

Lemma wr_in (v : list X) i x :
  Forall P v -> P x -> 0 <= i < Z.of_nat (length v) ->
  exists v', Forall P v' /\ length v' = length v /\ wr i x v = inr (tt, v').
Proof.
  intros HP Hx Hi. exists (<[Z.to_nat i := x]> v).
  split_and!; [by apply Forall_insert|apply length_insert|apply wr_ok; lia].
Qed.

Lemma iter_swap_in (v : list X) i j :
  Forall P v -> 0 <= i < Z.of_nat (length v) -> 0 <= j < Z.of_nat (length v) ->
  exists v', Forall P v' /\ length v' = length v /\ iter_swap i j v = inr (tt, v').
Proof.
  intros HP Hi Hj. unfold iter_swap.
  destruct (rd_in v i HP Hi) as (x & Hx & Hrx). erewrite bind_ok by exact Hrx.
  destruct (rd_in v j HP Hj) as (y & Hy & Hry). erewrite bind_ok by exact Hry.
  destruct (wr_in v i y HP Hy Hi) as (v1 & HP1 & Hl1 & Hw1). erewrite bind_ok by exact Hw1.
  destruct (wr_in v1 j x HP1 Hx ltac:(lia)) as (v2 & HP2 & Hl2 & Hw2). exists v2. split_and!; [done|lia|done].
Qed.

Lemma move_median_in (v : list X) result a b c :
  Forall P v -> Forall (fun i => 0 <= i < Z.of_nat (length v)) [result; a; b; c] ->
  exists v', Forall P v' /\ length v' = length v /\ move_median_to_first comp result a b c v = inr (tt, v').
Proof.
  intros HP Hin. repeat setoid_rewrite Forall_cons in Hin. destruct Hin as (Hr & Ha & Hb & Hc & _).
  unfold move_median_to_first.
  destruct (rd_in v a HP Ha) as (xa & Pa & Ea). erewrite bind_ok by exact Ea.
  destruct (rd_in v b HP Hb) as (xb & Pb & Eb). erewrite bind_ok by exact Eb.
  destruct (rd_in v c HP Hc) as (xc & Pc & Ec). erewrite bind_ok by exact Ec.
  repeat case_match; by apply iter_swap_in.
Qed.

Lemma scan_up_past_end k (v : list X) i pivot :
  Forall P v -> 0 <= pivot < Z.of_nat (length v) -> 0 <= i <= Z.of_nat (length v) ->
  Z.of_nat (length v) - i < Z.of_nat k ->
  scan_up comp k i pivot v = inl (ReadOut (Z.of_nat (length v))).
Proof.
  intros HP Hp. revert i. induction k as [|k IH]; intros i Hi Hk; [lia|]. cbn [scan_up].
  destruct (decide (i = Z.of_nat (length v))) as [->|Hne].
  - apply bind_err, rd_out. lia.
  - destruct (rd_in v i HP ltac:(lia)) as (x & Px & Ex). erewrite bind_ok by exact Ex.
    destruct (rd_in v pivot HP Hp) as (y & Py & Ey). erewrite bind_ok by exact Ey.
    rewrite Hcomp by done. apply IH; lia.
Qed.

(** With a comparator that holds of every pair, the left scan of the
    partition never stops inside the vector. *)
Lemma std_sort_past_end (v : list X) :
  Forall P v -> (17 <= length v)%nat -> std_sort comp v = inl (ReadOut (Z.of_nat (length v))).
Proof.
  intros HP Hn. unfold std_sort, sort. set (n := Z.of_nat (length v)).
  rewrite (proj2 (Z.eqb_neq _ _)) by lia. cbv iota.
  assert (Hlg : 4 <= lg (n - 0)).
  { unfold lg. replace 4 with (Z.log2 16) by reflexivity. apply Z.log2_le_mono. lia. }
  destruct (Z.to_nat (lg (n - 0) * 2)) as [|d] eqn:Hd; [lia|].
  rewrite (bind_err _ _ _ (ReadOut n)); [done|]. cbn [introsort_loop]. unfold threshold.
  rewrite (proj2 (Z.ltb_lt _ _)) by lia. cbv iota. apply bind_err. unfold unguarded_partition_pivot.
  destruct (move_median_in v 0 (0 + 1) (0 + (n - 0) / 2) (n - 1) HP) as (v' & HP' & Hl' & E).
  { unfold n in *. rewrite Z.sub_0_r. set (m := Z.of_nat (length v)).
    assert (0 <= m / 2 < m) by (split; [apply Z.div_pos|apply Z.div_lt]; lia).
    rewrite !Forall_cons. split_and!; (lia || constructor). }
  erewrite bind_ok by exact E. unfold unguarded_partition. cbn [unguarded_partition_loop].
  apply bind_err. unfold n. rewrite <- Hl'. apply scan_up_past_end; [done|lia..].
Qed.
End Always.

End Introsort.
