(* ===== verification/IntrosortSorts.v ===== *)
(** * libstdc++'s [std::sort] sorts, for a comparator on keys

    The routines of [Introsort] are proved against a weakest-precondition
    predicate [wp] of the state and error monad: [wp m v Q] says that [m]
    run on the vector [v] makes no access out of range, does not run out
    of its budget, and ends in a state satisfying [Q].  A routine that
    works on the range [[a, b)] permutes the range and leaves the rest of
    the vector alone ([segperm]).

    The argument follows libstdc++'s own: the partition's unguarded scans
    stop at the sentinels the median of three and the previous swaps
    leave; the heap sort fallback sorts its range; after the introsort
    loop the smallest element lies in the first 16 positions, so the
    final insertion sort, guarded on those and unguarded after, is the
    insertion sort of the whole range ([sort_spec]).  [std_sort_sorts]
    is the contract of [std::sort] on a whole vector; [sort_total], that
    on a totally ordered type the range ends up as its own insertion
    sort, is what [Collection] uses for [emplace_association]. *)

From S2P Require Import Prelude FlatContainers ContainerAlgo Introsort.
Import Introsort.

(** ** Positions, segments and the [wp] of the monad *)

Section Wp.
Context {X : Type}.
Implicit Types (v : list X) (x y : X).
Local Open Scope Z_scope.

(** The element at position [i], if [i] is a position of [v]. *)
Definition at_ v (i : Z) : option X := if i <? 0 then None else v !! Z.to_nat i.

Definition upd v (i : Z) x : list X := <[Z.to_nat i := x]> v.

(** The positions [[a, b)] of [v]. *)
Definition seg v (a b : Z) : list X := take (Z.to_nat b - Z.to_nat a) (drop (Z.to_nat a) v).

(** [v'] is [v] with the range [[a, b)] permuted. *)
Definition segperm v v' (a b : Z) : Prop :=
  length v' = length v /\ (forall i, i < a \/ b <= i -> at_ v' i = at_ v i) /\
  seg v' a b ≡ₚ seg v a b.

Definition wp {A} (m : M X A) v (Q : A -> list X -> Prop) : Prop :=
  match m v with inr (a, v') => Q a v' | inl _ => False end.

Lemma wp_ret {A} (a : A) v Q : Q a v -> wp (mret a) v Q.
Proof. done. Qed.

Lemma wp_bind {A B} (m : M X A) (k : A -> M X B) v Q :
  wp m v (fun a v' => wp (k a) v' Q) -> wp (m ≫= k) v Q.
Proof. unfold wp, mbind, M_bind. by destruct (m v) as [|[a v']]. Qed.

Lemma wp_mono {A} (m : M X A) v (Q Q' : A -> list X -> Prop) :
  wp m v Q -> (forall a v', Q a v' -> Q' a v') -> wp m v Q'.
Proof. unfold wp. destruct (m v) as [|[a v']]; auto. Qed.

Lemma wp_run {A} (m : M X A) v Q : wp m v Q -> exists a v', m v = inr (a, v') /\ Q a v'.
Proof. unfold wp. destruct (m v) as [|[a v']]; [done|eauto]. Qed.

Lemma wp_eq {A} (m : M X A) v a v' Q : m v = inr (a, v') -> Q a v' -> wp m v Q.
Proof. unfold wp. by intros ->. Qed.

Lemma wp_rd i v x Q : at_ v i = Some x -> Q x v -> wp (rd i) v Q.
Proof. unfold wp, rd, at_. intros ->. done. Qed.

Lemma wp_wr i x v Q : 0 <= i < Z.of_nat (length v) -> Q tt (upd v i x) -> wp (wr i x) v Q.
Proof.
  intros Hi HQ. unfold wp, wr. by rewrite (proj2 (Z.leb_le _ _)), (proj2 (Z.ltb_lt _ _)) by lia.
Qed.

(** ** Positions *)

Lemma at_range v i x : at_ v i = Some x -> 0 <= i < Z.of_nat (length v).
Proof.
  unfold at_. destruct (Z.ltb_spec i 0); [done|]. intros Hx%lookup_lt_Some. lia.
Qed.

Lemma at_in_range v i : 0 <= i < Z.of_nat (length v) -> exists x, at_ v i = Some x.
Proof.
  intros Hi. unfold at_. rewrite (proj2 (Z.ltb_ge _ _)) by lia. apply lookup_lt_is_Some_2. lia.
Qed.

Lemma length_upd v i x : length (upd v i x) = length v.
Proof. apply length_insert. Qed.

Lemma at_upd v i j x :
  0 <= i < Z.of_nat (length v) -> at_ (upd v i x) j = if decide (i = j) then Some x else at_ v j.
Proof.
  intros Hi. unfold at_, upd. destruct (decide (i = j)) as [<-|Hne].
  - rewrite (proj2 (Z.ltb_ge _ _)) by lia. apply list_lookup_insert_eq. lia.
  - destruct (Z.ltb_spec j 0); [done|]. apply list_lookup_insert_ne. lia.
Qed.

Lemma at_elem v i x : at_ v i = Some x -> x ∈ v.
Proof. unfold at_. case_match; [done|]. apply list_elem_of_lookup_2. Qed.

(** ** Segments *)

Lemma length_seg v a b :
  0 <= a <= b -> b <= Z.of_nat (length v) -> Z.of_nat (length (seg v a b)) = b - a.
Proof. intros Hab Hb. unfold seg. rewrite length_take, length_drop. lia. Qed.

Lemma seg_lookup v a b i :
  0 <= a <= i -> i < b -> b <= Z.of_nat (length v) -> seg v a b !! Z.to_nat (i - a) = at_ v i.
Proof.
  intros Ha Hi Hb. unfold seg, at_. rewrite (proj2 (Z.ltb_ge _ _)) by lia.
  rewrite lookup_take_lt by lia. rewrite lookup_drop. f_equal. lia.
Qed.

Lemma seg_split v a m b :
  0 <= a <= m -> m <= b -> seg v a b = seg v a m ++ seg v m b.
Proof.
  intros Ham Hmb. unfold seg.
  replace (Z.to_nat b - Z.to_nat a)%nat with ((Z.to_nat m - Z.to_nat a) + (Z.to_nat b - Z.to_nat m))%nat
    by lia.
  rewrite <- take_take_drop, drop_drop.
  by replace (Z.to_nat a + (Z.to_nat m - Z.to_nat a))%nat with (Z.to_nat m) by lia.
Qed.

Lemma seg_ext v v' a b :
  0 <= a <= b -> b <= Z.of_nat (length v) -> length v' = length v ->
  (forall i, a <= i < b -> at_ v' i = at_ v i) -> seg v' a b = seg v a b.
Proof.
  intros Hab Hb Hl Heq. apply list_eq. intros k.
  destruct (decide (k < Z.to_nat b - Z.to_nat a)%nat) as [Hk|Hk].
  - replace k with (Z.to_nat ((a + Z.of_nat k) - a)) by lia.
    rewrite !seg_lookup by lia. apply Heq. lia.
  - unfold seg. rewrite !lookup_take_ge by lia. done.
Qed.

Lemma at_mid pre w post k :
  (k < length w)%nat -> at_ (pre ++ w ++ post) (Z.of_nat (length pre + k)) = w !! k.
Proof.
  intros Hk. unfold at_. rewrite (proj2 (Z.ltb_ge _ _)) by lia.
  rewrite Nat2Z.id, lookup_app_r by lia. rewrite lookup_app_l by lia. f_equal. lia.
Qed.

(** The vector around a range. *)
Lemma seg_frame v a b :
  0 <= a <= b -> b <= Z.of_nat (length v) -> v = take (Z.to_nat a) v ++ seg v a b ++ drop (Z.to_nat b) v.
Proof.
  intros Hab Hb. unfold seg. rewrite <- (take_drop (Z.to_nat a) v) at 1. f_equal.
  rewrite <- (take_drop (Z.to_nat b - Z.to_nat a) (drop (Z.to_nat a) v)) at 1.
  rewrite drop_drop. do 2 f_equal. lia.
Qed.

Lemma seg_all v : seg v 0 (Z.of_nat (length v)) = v.
Proof. unfold seg. rewrite Nat2Z.id. simpl. apply take_ge. lia. Qed.

Lemma seg_elem v a b x :
  0 <= a -> b <= Z.of_nat (length v) -> x ∈ seg v a b <-> exists i, a <= i < b /\ at_ v i = Some x.
Proof.
  intros Ha Hb. split.
  - intros [k Hk]%list_elem_of_lookup.
    pose proof (lookup_lt_Some _ _ _ Hk) as Hlt. unfold seg in Hlt.
    rewrite length_take, length_drop in Hlt.
    exists (a + Z.of_nat k). split; [lia|]. rewrite <- (seg_lookup v a b) by lia.
    by replace (Z.to_nat (a + Z.of_nat k - a)) with k by lia.
  - intros (i & Hi & Hx). rewrite <- (seg_lookup v a b) in Hx by lia. by eapply list_elem_of_lookup_2.
Qed.

(** ** Permutations of a range *)

Lemma segperm_refl v a b : segperm v v a b.
Proof. done. Qed.

Lemma segperm_trans v1 v2 v3 a b : segperm v1 v2 a b -> segperm v2 v3 a b -> segperm v1 v3 a b.
Proof.
  intros (L1 & O1 & P1) (L2 & O2 & P2). split_and!; [lia| |by etrans].
  intros i Hi. by rewrite O2, O1.
Qed.

(** A permutation of a sub-range permutes the range. *)
Lemma segperm_widen v v' a a' b' b :
  0 <= a <= a' -> a' <= b' <= b -> b <= Z.of_nat (length v) ->
  segperm v v' a' b' -> segperm v v' a b.
Proof.
  intros Ha Hb Hl (L & O & P). split_and!; [done| |].
  - intros i Hi. apply O. lia.
  - rewrite (seg_split v' a a' b), (seg_split v' a' b' b), (seg_split v a a' b), (seg_split v a' b' b)
      by lia.
    rewrite (seg_ext v v' a a'), (seg_ext v v' b' b) by (done || lia || (intros; apply O; lia)).
    by rewrite P.
Qed.

(** Two elements of the range exchanged. *)
Lemma segperm_swap v a b i j x y :
  a <= i < b -> a <= j < b -> 0 <= a -> b <= Z.of_nat (length v) ->
  at_ v i = Some x -> at_ v j = Some y -> segperm v (upd (upd v i y) j x) a b.
Proof.
  intros Hi Hj Ha Hb Hx Hy.
  assert (Hl : length (upd (upd v i y) j x) = length v) by by rewrite !length_upd.
  split_and!; [done| |].
  - intros k Hk. rewrite !at_upd by (rewrite ?length_upd; lia).
    by rewrite !decide_False by lia.
  - assert (Hv : upd (upd v i y) j x ≡ₚ v).
    { unfold upd, at_ in *. rewrite (proj2 (Z.ltb_ge i 0)) in Hx by lia. rewrite (proj2 (Z.ltb_ge j 0)) in Hy by lia.
      by apply Permutation_insert_swap. }
    set (w := upd (upd v i y) j x) in *.
    assert (Hv' : seg w 0 (Z.of_nat (length v)) ≡ₚ seg v 0 (Z.of_nat (length v)))
      by (rewrite <- Hl at 1; by rewrite !seg_all).
    clear Hv. rename Hv' into Hv.
    rewrite (seg_split w 0 a), (seg_split w a b), (seg_split v 0 a), (seg_split v a b) in Hv by lia.
    rewrite (seg_ext v w 0 a), (seg_ext v w b) in Hv by (done || lia || (intros k Hk; unfold w;
      rewrite !at_upd by (rewrite ?length_upd; lia); by rewrite !decide_False by lia)).
    by apply Permutation_app_inv_l, Permutation_app_inv_r in Hv.
Qed.

(** The whole vector permuted. *)
(** Outside its range, a range permutation leaves the vector as it was. *)
Lemma segperm_frame v v' a b :
  0 <= a <= b -> segperm v v' a b ->
  take (Z.to_nat a) v' = take (Z.to_nat a) v /\ drop (Z.to_nat b) v' = drop (Z.to_nat b) v.
Proof.
  intros Hab (L & O & _). split; apply list_eq; intros k.
  - destruct (decide (k < Z.to_nat a)%nat); [|by rewrite !lookup_take_ge by lia].
    rewrite !lookup_take_lt by lia. pose proof (O (Z.of_nat k) ltac:(lia)) as E.
    unfold at_ in E. rewrite (proj2 (Z.ltb_ge _ _)), Nat2Z.id in E by lia. exact E.
  - rewrite !lookup_drop. pose proof (O (Z.of_nat (Z.to_nat b + k)) ltac:(lia)) as E.
    unfold at_ in E. rewrite (proj2 (Z.ltb_ge _ _)), Nat2Z.id in E by lia. exact E.
Qed.

Lemma segperm_all v v' : segperm v v' 0 (Z.of_nat (length v)) -> v' ≡ₚ v.
Proof.
  intros (L & _ & P). rewrite <- (seg_all v), <- (seg_all v'), L. exact P.
Qed.

(** What holds of every element of a range holds of it after a permutation. *)
Lemma segperm_forall v v' a b (P : X -> Prop) :
  0 <= a <= b -> b <= Z.of_nat (length v) -> segperm v v' a b ->
  (forall i x, a <= i < b -> at_ v i = Some x -> P x) ->
  forall i x, a <= i < b -> at_ v' i = Some x -> P x.
Proof.
  intros Hab Hb (L & _ & Pm) HP i x Hi Hx.
  assert (Hin : x ∈ seg v' a b) by (apply seg_elem; [lia|lia|eauto]).
  rewrite Pm in Hin. apply seg_elem in Hin as (k & Hk & Hkx); [|lia|lia]. eauto.
Qed.
End Wp.

(** ** The comparator on keys *)

Section Partition.
Context {X K : Type} `{Ord K} (kf : X -> K) (fuel : nat).
Local Open Scope Z_scope.
Local Abbreviation comp := (fun a b : X => ltb (kf a) (kf b)).
Local Abbreviation le a b := (leb (kf a) (kf b) = true).
Implicit Types (v : list X).

Lemma comp_false_le a b : comp a b = false <-> le b a.
Proof. unfold leb. by rewrite negb_true_iff. Qed.

Lemma comp_true_le a b : comp a b = true -> le a b.
Proof. apply ltb_leb. Qed.

Lemma le_comp_false a b : le b a -> comp a b = false.
Proof. by intros ?%comp_false_le. Qed.

Lemma wp_iter_swap v i j x y (Q : unit -> list X -> Prop) :
  at_ v i = Some x -> at_ v j = Some y -> Q tt (upd (upd v i y) j x) -> wp (iter_swap i j) v Q.
Proof.
  intros Hx Hy HQ. unfold iter_swap.
  pose proof (at_range _ _ _ Hx). pose proof (at_range _ _ _ Hy).
  apply wp_bind, (wp_rd _ _ x); [done|]. apply wp_bind, (wp_rd _ _ y); [done|].
  apply wp_bind, wp_wr; [lia|]. apply wp_wr; [rewrite length_upd; lia|done].
Qed.

(** [while (comp(first, pivot)) ++first;] stops at the first element
    not below the pivot, which a sentinel at [j] guarantees. *)
Lemma scan_up_spec n v i piv p j q :
  at_ v piv = Some p -> 0 <= i <= j -> at_ v j = Some q -> le p q -> j - i < Z.of_nat n ->
  wp (scan_up comp n i piv) v (fun i' v' => v' = v /\ i <= i' <= j /\
    (exists x, at_ v i' = Some x /\ le p x) /\
    forall t x, i <= t < i' -> at_ v t = Some x -> comp x p = true).
Proof.
  intros Hp. pose proof (at_range _ _ _ Hp). revert i.
  induction n as [|n IH]; intros i Hi Hq Hpq Hn; [lia|]. cbn [scan_up].
  destruct (at_in_range v i) as [a Ha]; [pose proof (at_range _ _ _ Hq); lia|].
  apply wp_bind, (wp_rd _ _ a); [done|]. apply wp_bind, (wp_rd _ _ p); [done|]. cbv beta.
  destruct (ltb (kf a) (kf p)) eqn:Hap.
  - assert (i <> j) by (intros ->; rewrite Hq in Ha; injection Ha as ->;
      apply comp_false_le in Hpq; congruence).
    eapply wp_mono; [apply IH; (done || lia)|]. intros i' v' (-> & Hi' & Hx & Ht).
    split_and!; [done|lia|lia|done|]. intros t x Ht' Hx'.
    destruct (decide (t = i)) as [->|]; [congruence|]. apply (Ht t); [lia|done].
  - apply wp_ret. split_and!; [done|lia|lia| |lia]. exists a. split; [done|]. by apply comp_false_le.
Qed.

(** [while (comp(pivot, last)) --last;] stops at the pivot at the latest. *)
Lemma scan_down_spec n v j piv p :
  at_ v piv = Some p -> 0 <= piv <= j -> j < Z.of_nat (length v) -> j - piv < Z.of_nat n ->
  wp (scan_down comp n j piv) v (fun j' v' => v' = v /\ piv <= j' <= j /\
    (exists x, at_ v j' = Some x /\ le x p) /\
    forall t x, j' < t <= j -> at_ v t = Some x -> comp p x = true).
Proof.
  intros Hp. revert j.
  induction n as [|n IH]; intros j Hj Hjl Hn; [lia|]. cbn [scan_down].
  destruct (at_in_range v j) as [b Hb]; [lia|].
  apply wp_bind, (wp_rd _ _ p); [done|]. apply wp_bind, (wp_rd _ _ b); [done|]. cbv beta.
  destruct (ltb (kf p) (kf b)) eqn:Hpb.
  - assert (j <> piv) by (intros ->; rewrite Hp in Hb; injection Hb as ->; by rewrite ltb_irrefl in Hpb).
    eapply wp_mono; [apply IH; lia|]. intros j' v' (-> & Hj' & Hx & Ht).
    split_and!; [done|lia|lia|done|]. intros t x Ht' Hx'.
    destruct (decide (t = j)) as [->|]; [congruence|]. apply (Ht t); [lia|done].
  - apply wp_ret. split_and!; [done|lia|lia| |lia]. exists b. split; [done|]. by apply comp_false_le.
Qed.

Lemma at_swap v i j x y t :
  at_ v i = Some x -> at_ v j = Some y ->
  at_ (upd (upd v i y) j x) t = if decide (t = j) then Some x else if decide (t = i) then Some y else at_ v t.
Proof.
  intros Hx Hy. pose proof (at_range _ _ _ Hx). pose proof (at_range _ _ _ Hy).
  rewrite at_upd by (rewrite length_upd; lia). rewrite at_upd by lia.
  destruct (decide (j = t)), (decide (t = j)), (decide (i = t)), (decide (t = i)); subst; try done; congruence.
Qed.

(** The loop of [__unguarded_partition]: the positions between the pivot
    and [first] hold elements not above it, those from [last] to the end
    elements not below it, and a sentinel not below it lies at or after
    [first]. *)
Lemma partition_loop_spec n v first last piv p e :
  at_ v piv = Some p -> 0 <= piv < first -> first <= last <= e -> e <= Z.of_nat (length v) ->
  (forall t x, piv < t < first -> at_ v t = Some x -> le x p) ->
  (forall t x, last <= t < e -> at_ v t = Some x -> le p x) ->
  (exists j q, first <= j < e /\ at_ v j = Some q /\ le p q) ->
  e - first < Z.of_nat n -> Z.of_nat (length v) < Z.of_nat fuel ->
  wp (unguarded_partition_loop comp fuel n first last piv) v (fun cut v' =>
    segperm v v' first e /\ first <= cut < e /\ at_ v' piv = Some p /\
    (forall t x, piv < t < cut -> at_ v' t = Some x -> le x p) /\
    (forall t x, cut <= t < e -> at_ v' t = Some x -> le p x)).
Proof.
  revert v first last. induction n as [|n IH];
    intros v first last Hp Hpiv Hfl He HL HR (j & q & Hj & Hq & Hpq) Hn Hfuel; [lia|].
  cbn [unguarded_partition_loop].
  apply wp_bind. eapply wp_mono; [apply (scan_up_spec _ v first piv p j q); (done || lia)|].
  intros f' ? (-> & Hf' & (x & Hx & Hpx) & Hup).
  apply wp_bind. eapply wp_mono; [apply (scan_down_spec _ v (last - 1) piv p); (done || lia)|].
  intros l' ? (-> & Hl' & (y & Hy & Hyp) & Hdown). cbv beta.
  destruct (Z.ltb_spec f' l') as [Hlt|Hge]; cbn [negb].
  - apply wp_bind, (wp_iter_swap _ _ _ x y); [done|done|]. cbv beta.
    assert (Hv1 : segperm v (upd (upd v f' y) l' x) first e)
      by (apply (segperm_swap _ _ _ _ _ x y); (done || lia)).
    eapply wp_mono; [apply IH|].
    + rewrite at_swap by done. by rewrite !decide_False by lia.
    + lia.
    + lia.
    + by rewrite length_upd, length_upd.
    + intros t z Ht Hz. rewrite at_swap in Hz by done. rewrite decide_False in Hz by lia.
      destruct (decide (t = f')) as [->|]; [congruence|].
      destruct (decide (t < first)); [apply (HL t); [lia|done]|]. apply comp_true_le, (Hup t); [lia|done].
    + intros t z Ht Hz. rewrite at_swap in Hz by done.
      destruct (decide (t = l')) as [->|]; [congruence|]. rewrite decide_False in Hz by lia.
      destruct (decide (last <= t)); [apply (HR t); [lia|done]|]. apply comp_true_le, (Hdown t); [lia|done].
    + exists l', x. split; [lia|]. rewrite at_swap by done. by rewrite decide_True.
    + lia.
    + by rewrite !length_upd.
    + intros cut v' (Hs & Hc & Hpv & HL2 & HR2). split_and!; try done; try lia.
      eapply segperm_trans; [exact Hv1|]. eapply segperm_widen; [| |rewrite !length_upd; exact He|exact Hs]; lia.
  - apply wp_ret. split_and!; [apply segperm_refl|lia|lia|done| |].
    + intros t z Ht Hz. destruct (decide (t < first)); [apply (HL t); [lia|done]|].
      apply comp_true_le, (Hup t); [lia|done].
    + intros t z Ht Hz. destruct (decide (last <= t)); [apply (HR t); [lia|done]|].
      destruct (decide (l' < t)); [apply comp_true_le, (Hdown t); [lia|done]|].
      assert (t = f') as -> by lia. rewrite Hx in Hz. by injection Hz as <-.
Qed.

(** The swap [__move_median_to_first] ends with: the median [xm] goes to
    [f], and an element [xs] not below it stays at [s]. *)
Lemma median_swap v f m s e xm xs (Q : unit -> list X -> Prop) :
  0 <= f < m -> m < e -> f < s < e -> s <> m -> e <= Z.of_nat (length v) ->
  at_ v m = Some xm -> at_ v s = Some xs -> le xm xs ->
  (forall v', segperm v v' f e -> (exists p s q, at_ v' f = Some p /\ f < s < e /\ at_ v' s = Some q /\ le p q) ->
     Q tt v') ->
  wp (iter_swap f m) v Q.
Proof.
  intros Hfm Hm Hs Hsm He Hxm Hxs Hle HQ.
  destruct (at_in_range v f) as [xf Hxf]; [lia|].
  apply (wp_iter_swap _ _ _ xf xm); [done|done|]. apply HQ.
  - apply (segperm_swap _ _ _ _ _ xf xm); (done || lia).
  - exists xm, s, xs. rewrite !at_swap by done. rewrite decide_False, decide_True by lia.
    rewrite !decide_False by lia. split_and!; (done || lia).
Qed.

Lemma move_median_spec v f a b c e :
  0 <= f < a -> a < b -> b < c -> c < e -> e <= Z.of_nat (length v) ->
  wp (move_median_to_first comp f a b c) v (fun _ v' => segperm v v' f e /\
    exists p s q, at_ v' f = Some p /\ f < s < e /\ at_ v' s = Some q /\ le p q).
Proof.
  intros Hf Hab Hbc Hc He. unfold move_median_to_first.
  destruct (at_in_range v a) as [xa Ha]; [lia|]. destruct (at_in_range v b) as [xb Hb]; [lia|].
  destruct (at_in_range v c) as [xc Hc']; [lia|].
  apply wp_bind, (wp_rd _ _ xa); [done|]. apply wp_bind, (wp_rd _ _ xb); [done|].
  apply wp_bind, (wp_rd _ _ xc); [done|]. cbv beta.
  destruct (ltb (kf xa) (kf xb)) eqn:Eab; [destruct (ltb (kf xb) (kf xc)) eqn:Ebc;
    [|destruct (ltb (kf xa) (kf xc)) eqn:Eac]|destruct (ltb (kf xa) (kf xc)) eqn:Eac;
    [|destruct (ltb (kf xb) (kf xc)) eqn:Ebc]].
  - apply (median_swap _ _ b c e xb xc); (done || lia || by apply comp_true_le || naive_solver).
  - apply (median_swap _ _ c b e xc xb); (done || lia || by apply comp_false_le || naive_solver).
  - apply (median_swap _ _ a b e xa xb); (done || lia || by apply comp_true_le || naive_solver).
  - apply (median_swap _ _ a c e xa xc); (done || lia || by apply comp_true_le || naive_solver).
  - apply (median_swap _ _ c a e xc xa); (done || lia || by apply comp_false_le || naive_solver).
  - apply (median_swap _ _ b a e xb xa); (done || lia || by apply comp_false_le || naive_solver).
Qed.

Lemma half_facts (d : Z) : 17 <= d -> 8 <= d / 2 /\ d / 2 + 2 <= d - 1.
Proof. intros Hd. pose proof (Z.div_mod d 2 ltac:(lia)). pose proof (Z.mod_pos_bound d 2 ltac:(lia)). lia. Qed.

(** [__unguarded_partition_pivot] on a range of more than 16 elements
    cuts it in two non-empty parts, each element of the first not above
    each element of the second. *)
Lemma partition_pivot_spec v first last :
  0 <= first -> 16 < last - first -> last <= Z.of_nat (length v) -> Z.of_nat (length v) < Z.of_nat fuel ->
  wp (unguarded_partition_pivot comp fuel first last) v (fun cut v' =>
    segperm v v' first last /\ first < cut < last /\
    forall i j x y, first <= i < cut -> cut <= j < last -> at_ v' i = Some x -> at_ v' j = Some y -> le x y).
Proof.
  intros Hf Hn Hl Hfuel. unfold unguarded_partition_pivot. pose proof (half_facts (last - first) ltac:(lia)).
  apply wp_bind. eapply wp_mono; [apply (move_median_spec _ _ (first + 1) _ (last - 1) last); lia|].
  intros [] v1 (Hv1 & p & s & q & Hp & Hs & Hq & Hpq). cbv beta. unfold unguarded_partition.
  destruct Hv1 as (L1 & O1 & P1).
  eapply wp_mono; [apply (partition_loop_spec _ _ _ _ _ p last); try (done || lia)|].
  - exists s, q. split_and!; (done || lia).
  - intros cut v2 (Hv2 & Hc & Hp2 & HL & HR). split_and!; [|lia|lia|].
    + eapply segperm_trans; [split_and!; eassumption|].
      eapply segperm_widen; [| |rewrite L1; exact Hl|exact Hv2]; lia.
    + intros i j x y Hi Hj Hx Hy. destruct (decide (i = first)) as [->|].
      * rewrite Hp2 in Hx. injection Hx as <-. by apply (HR j).
      * eapply leb_trans; [apply (HL i); [lia|done]|by apply (HR j)].
Qed.
End Partition.

(** ** Binary heaps in a range *)

Section HeapShape.
Local Open Scope Z_scope.

(** The parent of node [c] ([(c - 1) / 2] in [stl_heap.h]). *)
Definition par (c : Z) : Z := (c - 1) / 2.

(** The nodes of the subtree rooted at [top]. *)
Inductive desc (top : Z) : Z -> Prop :=
| desc_refl : desc top top
| desc_l h : desc top h -> desc top (2 * h + 1)
| desc_r h : desc top h -> desc top (2 * h + 2).

Lemma par_child_l h : 0 <= h -> par (2 * h + 1) = h.
Proof. intros. unfold par. replace (2 * h + 1 - 1) with (h * 2) by lia. by rewrite Z.div_mul. Qed.

Lemma par_child_r h : 0 <= h -> par (2 * h + 2) = h.
Proof.
  intros. unfold par. replace (2 * h + 2 - 1) with (1 + h * 2) by lia.
  rewrite Z.div_add by lia. done.
Qed.

Lemma par_bounds c : 1 <= c -> 0 <= par c < c.
Proof. intros. unfold par. split; [apply Z.div_pos; lia|apply Z.div_lt_upper_bound; lia]. Qed.

Lemma child_par c : 1 <= c -> c = 2 * par c + 1 \/ c = 2 * par c + 2.
Proof.
  intros. unfold par. pose proof (Z.div_mod (c - 1) 2 ltac:(lia)).
  pose proof (Z.mod_pos_bound (c - 1) 2 ltac:(lia)). lia.
Qed.

Lemma par_mono c d : 1 <= c <= d -> par c <= par d.
Proof. intros. unfold par. apply Z.div_le_mono; lia. Qed.

Lemma desc_ge top h : 0 <= top -> desc top h -> top <= h.
Proof. intros Ht. induction 1; lia. Qed.

Lemma desc_par top h : 0 <= top -> desc top h -> h <> top -> desc top (par h).
Proof.
  intros Ht. induction 1 as [|h Hd IH|h Hd IH]; intros Hne; [done| |];
    pose proof (desc_ge _ _ Ht Hd); [rewrite par_child_l|rewrite par_child_r]; (done || lia).
Qed.

(** A node with a parent in the subtree of [top] is in it, or is [top]. *)
Lemma desc_child top h c : 0 <= h -> desc top h -> 1 <= c -> par c = h -> desc top c.
Proof.
  intros Hh Hd Hc Hp. destruct (child_par c Hc) as [->| ->]; rewrite Hp; by constructor.
Qed.
End HeapShape.

Section Heap.
Context {X K : Type} `{Ord K} (kf : X -> K) (fuel : nat).
Local Open Scope Z_scope.
Local Abbreviation comp := (fun a b : X => ltb (kf a) (kf b)).
Local Abbreviation le a b := (leb (kf a) (kf b) = true).
Implicit Types (v : list X).

(** Node [i] of the heap based at [b] holds an element not below node [j]'s. *)
Definition hrel v (b i j : Z) : Prop :=
  forall x y, at_ v (b + i) = Some x -> at_ v (b + j) = Some y -> le y x.

(** The heap order on the [len] first nodes, for the parents from [lo] on. *)
Definition hp v (b len lo : Z) : Prop :=
  forall c, 1 <= c < len -> lo <= par c -> hrel v b (par c) c.

(** While [__adjust_heap] moves the hole [h] down from [top] and
    [__push_heap] moves it back up, the heap order holds around the hole,
    and the hole's children are not above its parent. *)
Definition hole_inv v (b len top h : Z) : Prop :=
  desc top h /\ h < len /\
  (forall c, 1 <= c < len -> top <= par c -> par c <> h -> c <> h -> hrel v b (par c) c) /\
  (h <> top -> forall c, 1 <= c < len -> par c = h -> hrel v b (par h) c).

Lemma at_upd_other v i j x : 0 <= i < Z.of_nat (length v) -> i <> j -> at_ (upd v i x) j = at_ v j.
Proof. intros Hi Hne. rewrite at_upd by done. by rewrite decide_False. Qed.

Lemma at_upd_same v i x : 0 <= i < Z.of_nat (length v) -> at_ (upd v i x) i = Some x.
Proof. intros Hi. rewrite at_upd by done. by rewrite decide_True. Qed.

Lemma upd_upd_same v i x y : upd (upd v i x) i y = upd v i y.
Proof. apply list_insert_insert_eq. Qed.

(** The hole moves to the child [s], not below its sibling. *)
Lemma descend_step v b len top h s xs :
  0 <= b -> 0 <= top -> b + len <= Z.of_nat (length v) -> hole_inv v b len top h ->
  1 <= s < len -> par s = h -> at_ v (b + s) = Some xs ->
  (forall c y, 1 <= c < len -> par c = h -> c <> s -> at_ v (b + c) = Some y -> le y xs) ->
  hole_inv (upd v (b + h) xs) b len top s.
Proof.
  intros Hb Ht Hl (Hd & Hh & I1 & I2) Hs Hps Hxs Hbig.
  pose proof (desc_ge _ _ Ht Hd). pose proof (par_bounds s (proj1 Hs)).
  assert (Hbh : 0 <= b + h < Z.of_nat (length v)) by lia.
  split_and!; [apply (desc_child _ h); (done || lia)|lia| |].
  - intros c Hc Htc Hpc Hcs x y Hx Hy. pose proof (par_bounds c (proj1 Hc)).
    destruct (decide (par c = h)) as [Ech|Nch].
    + rewrite Ech, at_upd_same in Hx by done. injection Hx as <-.
      rewrite at_upd_other in Hy by (done || lia). apply (Hbig c); (done || lia).
    + rewrite at_upd_other in Hx by (done || lia).
      destruct (decide (c = h)) as [->|Nc].
      * rewrite at_upd_same in Hy by done. injection Hy as <-.
        assert (h <> top) by (intros ->; lia).
        apply (I2 ltac:(done) s); (done || lia).
      * rewrite at_upd_other in Hy by (done || lia). apply (I1 c); (done || lia).
  - intros _ c Hc Hpc x y Hx Hy. rewrite Hps, at_upd_same in Hx by done. injection Hx as <-.
    pose proof (par_bounds c (proj1 Hc)).
    rewrite at_upd_other in Hy by (done || lia). apply (I1 c); [done| | |lia|rewrite Hpc|]; (done || lia).
Qed.

(** The hole moves up to its parent [xp], which is below the value. *)
Lemma push_step v b len top h xp value :
  0 <= b -> 0 <= top -> b + len <= Z.of_nat (length v) -> hole_inv v b len top h -> h <> top ->
  at_ v (b + par h) = Some xp -> comp xp value = true ->
  (forall c y, 1 <= c < len -> par c = h -> at_ v (b + c) = Some y -> le y value) ->
  hole_inv (upd v (b + h) xp) b len top (par h) /\
  (forall c y, 1 <= c < len -> par c = par h -> at_ (upd v (b + h) xp) (b + c) = Some y -> le y value).
Proof.
  intros Hb Ht Hl (Hd & Hh & I1 & I2) Hne Hxp Hc J3.
  pose proof (desc_ge _ _ Ht Hd). pose proof (par_bounds h ltac:(lia)).
  assert (Hbh : 0 <= b + h < Z.of_nat (length v)) by lia.
  assert (Hdp : desc top (par h)) by (apply desc_par; done).
  pose proof (desc_ge _ _ Ht Hdp).
  assert (Hpp : par h <> top -> top <= par (par h) /\ hrel v b (par (par h)) (par h)).
  { intros Hpt. pose proof (desc_ge _ _ Ht (desc_par _ _ Ht Hdp Hpt)).
    pose proof (par_bounds (par h) ltac:(lia)). split; [done|]. apply I1; lia. }
  split; [split_and!; [done|lia| |]|].
  - intros c Hc1 Htc Hpc Hch x y Hx Hy. pose proof (par_bounds c (proj1 Hc1)).
    destruct (decide (par c = h)) as [E|N].
    + rewrite E, at_upd_same in Hx by done. injection Hx as <-.
      rewrite at_upd_other in Hy by (done || lia). apply (I2 Hne c); (done || lia).
    + rewrite at_upd_other in Hx by (done || lia).
      destruct (decide (c = h)) as [->|Nc]; [done|].
      rewrite at_upd_other in Hy by (done || lia). apply (I1 c); (done || lia).
  - intros Hpt c Hc1 Hpc x y Hx Hy. destruct (Hpp Hpt) as [Hpp1 Hpp2].
    pose proof (par_bounds (par h) ltac:(lia)).
    rewrite at_upd_other in Hx by (done || lia).
    destruct (decide (c = h)) as [->|Nc].
    + rewrite at_upd_same in Hy by done. injection Hy as <-. by apply Hpp2.
    + rewrite at_upd_other in Hy by (done || lia).
      destruct (at_in_range v (b + par h)) as [z Hz]; [lia|].
      apply (leb_trans _ (kf z)); [apply (I1 c); [lia|lia|lia|done|by rewrite Hpc|done]|].
      by apply Hpp2.
  - intros c y Hc1 Hpc Hy. destruct (decide (c = h)) as [->|Nc].
    + rewrite at_upd_same in Hy by done. injection Hy as <-. by apply comp_true_le.
    + rewrite at_upd_other in Hy by (done || lia).
      eapply leb_trans; [apply (I1 c); [done|pose proof (desc_ge _ _ Ht Hdp); lia|lia|done|by rewrite Hpc|done]|].
      by apply comp_true_le.
Qed.

(** The value goes into the hole once its parent is not below it. *)
Lemma push_stop v b len top h value :
  0 <= b -> 0 <= top -> b + len <= Z.of_nat (length v) -> hole_inv v b len top h ->
  (h = top \/ exists xp, at_ v (b + par h) = Some xp /\ comp xp value = false) ->
  (forall c y, 1 <= c < len -> par c = h -> at_ v (b + c) = Some y -> le y value) ->
  hp (upd v (b + h) value) b len top.
Proof.
  intros Hb Ht Hl (Hd & Hh & I1 & I2) Hstop J3 c Hc Htc x y Hx Hy.
  pose proof (desc_ge _ _ Ht Hd). pose proof (par_bounds c (proj1 Hc)).
  assert (Hbh : 0 <= b + h < Z.of_nat (length v)) by lia.
  destruct (decide (par c = h)) as [E|N].
  - rewrite E, at_upd_same in Hx by done. injection Hx as <-.
    rewrite at_upd_other in Hy by (done || lia). apply (J3 c); (done || lia).
  - rewrite at_upd_other in Hx by (done || lia). destruct (decide (c = h)) as [->|Nc].
    + rewrite at_upd_same in Hy by done. injection Hy as <-.
      destruct Hstop as [->|(xp & Hxp & Hc')]; [lia|]. rewrite Hxp in Hx. injection Hx as <-.
      by apply comp_false_le.
    + rewrite at_upd_other in Hy by (done || lia). apply (I1 c); (done || lia).
Qed.

(** Moving the hole: the element [y] at [j] goes to the hole [i]. *)
Lemma segperm_hole v0 v i j x0 y a e :
  a <= i < e -> a <= j < e -> 0 <= a -> e <= Z.of_nat (length v) -> i <> j ->
  segperm v0 (upd v i x0) a e -> at_ v j = Some y -> segperm v0 (upd (upd v i y) j x0) a e.
Proof.
  intros Hi Hj Ha He Hne Hp Hy. eapply segperm_trans; [exact Hp|].
  rewrite <- (upd_upd_same v i x0 y).
  apply (segperm_swap _ _ _ _ _ x0 y); [lia|lia|lia|rewrite length_upd; lia| |].
  - apply at_upd_same. lia.
  - rewrite at_upd_other by lia. done.
Qed.

Lemma quot_par h : 1 <= h -> Z.quot (h - 1) 2 = par h.
Proof. intros. unfold par. apply Z.quot_div_nonneg; lia. Qed.

(** The loop of [__push_heap]. *)
Lemma push_loop_spec n v v0 b top h len value :
  0 <= b -> 0 <= top -> b + len <= Z.of_nat (length v) -> hole_inv v b len top h ->
  (forall c y, 1 <= c < len -> par c = h -> at_ v (b + c) = Some y -> le y value) ->
  segperm v0 (upd v (b + h) value) (b + top) (b + len) -> h - top < Z.of_nat n ->
  wp (push_heap_loop comp n b h top value) v (fun h' v' => top <= h' < len /\
    hp (upd v' (b + h') value) b len top /\ segperm v0 (upd v' (b + h') value) (b + top) (b + len)).
Proof.
  revert v h. induction n as [|n IH]; intros v h Hb Ht Hl Hinv J3 Hp Hn;
    pose proof (desc_ge _ _ Ht (proj1 Hinv)); pose proof (proj1 (proj2 Hinv)); [lia|].
  cbn [push_heap_loop]. cbv zeta. destruct (Z.ltb_spec top h) as [Hlt|Hge].
  - rewrite quot_par by lia. pose proof (par_bounds h ltac:(lia)).
    pose proof (desc_ge _ _ Ht (desc_par _ _ Ht (proj1 Hinv) ltac:(lia))).
    destruct (at_in_range v (b + par h) ltac:(lia)) as [xp Hxp].
    apply wp_bind, (wp_rd _ _ xp); [done|]. cbv beta.
    destruct (ltb (kf xp) (kf value)) eqn:Ec.
    + apply wp_bind, wp_wr; [lia|]. cbv beta.
      destruct (push_step v b len top h xp value) as [Hinv' J3']; try (done || lia).
      apply IH; try (done || lia).
      * by rewrite length_upd.
      * apply (segperm_hole _ _ _ _ _ xp); (done || lia).
    + apply wp_ret. split_and!; [lia|lia| |done].
      apply push_stop; try (done || lia). right. by exists xp.
  - apply wp_ret. split_and!; [lia|lia| |done]. apply push_stop; try (done || lia); left; lia.
Qed.

(** The loop of [__adjust_heap]: the hole goes down to the larger child
    until it has at most one child. *)
Lemma adjust_loop_spec n v v0 b top h len value :
  0 <= b -> 0 <= top -> b + len <= Z.of_nat (length v) -> hole_inv v b len top h ->
  segperm v0 (upd v (b + h) value) (b + top) (b + len) -> len - h < Z.of_nat n ->
  wp (adjust_heap_loop comp n b h h len) v (fun hs v' => hs.2 = hs.1 /\
    (len - 1) / 2 <= hs.1 /\ hole_inv v' b len top hs.1 /\
    segperm v0 (upd v' (b + hs.1) value) (b + top) (b + len)).
Proof.
  revert v h. induction n as [|n IH]; intros v h Hb Ht Hl Hinv Hp Hn;
    pose proof (desc_ge _ _ Ht (proj1 Hinv)); pose proof (proj1 (proj2 Hinv)); [lia|].
  cbn [adjust_heap_loop]. rewrite Z.quot_div_nonneg by lia.
  destruct (Z.ltb_spec h ((len - 1) / 2)) as [Hlt|Hge]; [|by apply wp_ret].
  cbv zeta. pose proof (Z.mul_div_le (len - 1) 2 ltac:(lia)).
  replace (2 * (h + 1)) with (2 * h + 2) by lia. replace (2 * h + 2 - 1) with (2 * h + 1) by lia.
  destruct (at_in_range v (b + (2 * h + 2)) ltac:(lia)) as [xa Hxa].
  destruct (at_in_range v (b + (2 * h + 1)) ltac:(lia)) as [xb Hxb].
  apply wp_bind, (wp_rd _ _ xa); [done|]. apply wp_bind, (wp_rd _ _ xb); [done|]. cbv beta.
  assert (Hnext : forall s xs xo, s = 2 * h + 1 \/ s = 2 * h + 2 -> at_ v (b + s) = Some xs ->
    at_ v (b + (4 * h + 3 - s)) = Some xo -> le xo xs ->
    wp (c ← rd (b + s); wr (b + h) c;; adjust_heap_loop comp n b s s len) v (fun hs v' => hs.2 = hs.1 /\
      (len - 1) / 2 <= hs.1 /\ hole_inv v' b len top hs.1 /\
      segperm v0 (upd v' (b + hs.1) value) (b + top) (b + len))).
  { intros s xs xo Hs Hxs Hxo Hle.
    apply wp_bind, (wp_rd _ _ xs); [done|]. apply wp_bind, wp_wr; [lia|]. cbv beta.
    apply IH; [lia|lia|by rewrite length_upd| |by apply (segperm_hole _ _ _ _ _ xs); (done || lia)|lia].
    apply descend_step; [lia|lia|lia|done|lia|by destruct Hs as [-> | ->]; rewrite ?par_child_l, ?par_child_r by lia|done|].
    intros c y Hc Hpc Hcs Hy. assert (c = 4 * h + 3 - s) as ->.
    { destruct (child_par c) as [Ec'|Ec']; lia. }
    congruence. }
  destruct (ltb (kf xa) (kf xb)) eqn:Ec.
  - apply (Hnext _ xb xa); [lia|done|by replace (4 * h + 3 - (2 * h + 1)) with (2 * h + 2) by lia|].
    by apply comp_true_le.
  - apply (Hnext _ xa xb); [lia|done|by replace (4 * h + 3 - (2 * h + 2)) with (2 * h + 1) by lia|].
    by apply comp_false_le.
Qed.

Lemma hole_inv_top v b len top : 0 <= top < len -> hp v b len (top + 1) -> hole_inv v b len top top.
Proof.
  intros Ht Hhp. split_and!; [constructor|lia| |done].
  intros c Hc Hpc Hne _. apply Hhp; lia.
Qed.

(** [__push_heap] from a hole without children. *)
Lemma push_heap_leaf_spec v v0 b top h len value :
  0 <= b -> 0 <= top -> b + len <= Z.of_nat (length v) -> len < Z.of_nat fuel ->
  hole_inv v b len top h -> len <= 2 * h + 1 ->
  segperm v0 (upd v (b + h) value) (b + top) (b + len) ->
  wp (push_heap comp fuel b h top value) v (fun _ v' => hp v' b len top /\ segperm v0 v' (b + top) (b + len)).
Proof.
  intros Hb Ht Hl Hf Hinv Hleaf Hp. pose proof (desc_ge _ _ Ht (proj1 Hinv)). pose proof (proj1 (proj2 Hinv)).
  unfold push_heap. apply wp_bind. eapply wp_mono; [apply push_loop_spec; try (done || lia)|].
  - intros c y Hc Hpc. pose proof (child_par c (proj1 Hc)). lia.
  - intros h' v' (Hh' & Hhp & Hp'). pose proof (proj1 Hp). pose proof (proj1 Hp').
    apply wp_wr; [rewrite length_upd in *; lia|done].
Qed.

(** [__adjust_heap]: [value] put at [top] is sifted down into the heap
    below [top]. *)
Lemma adjust_heap_spec v b top len value :
  0 <= b -> 0 <= top < len -> b + len <= Z.of_nat (length v) -> len < Z.of_nat fuel ->
  hp v b len (top + 1) ->
  wp (adjust_heap comp fuel b top len value) v
    (fun _ v' => hp v' b len top /\ segperm (upd v (b + top) value) v' (b + top) (b + len)).
Proof.
  intros Hb Ht Hl Hf Hhp. unfold adjust_heap. apply wp_bind.
  eapply wp_mono; [apply (adjust_loop_spec _ _ (upd v (b + top) value) b top top len value); [lia|lia|lia| |done|lia]|].
  { by apply hole_inv_top. }
  intros [h s] v1 (Hs & Hge & Hinv & Hp). cbn [fst snd] in *. subst s.
  pose proof (desc_ge _ _ (proj1 Ht) (proj1 Hinv)). pose proof (proj1 (proj2 Hinv)).
  assert (length v1 = length v) by (pose proof (proj1 Hp); rewrite !length_upd in *; lia).
  assert (Z.land len 1 = len mod 2) as -> by (apply (Z.land_ones len 1); lia).
  pose proof (Z.div_mod (len - 1) 2 ltac:(lia)). pose proof (Z.mod_pos_bound (len - 1) 2 ltac:(lia)).
  pose proof (Z.div_mod len 2 ltac:(lia)). pose proof (Z.mod_pos_bound len 2 ltac:(lia)).
  destruct (Z.eqb_spec (len mod 2) 0) as [Ev|Od];
    [destruct (Z.eqb_spec h (Z.quot (len - 2) 2)) as [Eh|Nh]|]; cbn [andb].
  - rewrite Z.quot_div_nonneg in Eh by lia. cbv zeta.
    pose proof (Z.div_mod (len - 2) 2 ltac:(lia)). pose proof (Z.mod_pos_bound (len - 2) 2 ltac:(lia)).
    replace (2 * (h + 1) - 1) with (2 * h + 1) by lia.
    destruct (at_in_range v1 (b + (2 * h + 1)) ltac:(lia)) as [xs Hxs].
    apply wp_bind. apply wp_bind, (wp_rd _ _ xs); [done|]. apply wp_bind, wp_wr; [lia|]. cbv beta. apply wp_ret.
    apply push_heap_leaf_spec; [lia|lia|rewrite length_upd; lia|lia| |lia|].
    + apply descend_step; try (done || lia); [by rewrite par_child_l by lia|].
      intros c y Hc Hpc Hne _. pose proof (child_par c (proj1 Hc)). lia.
    + apply (segperm_hole _ _ _ _ _ xs); (done || lia).
  - rewrite Z.quot_div_nonneg in Nh by lia.
    pose proof (Z.div_mod (len - 2) 2 ltac:(lia)). pose proof (Z.mod_pos_bound (len - 2) 2 ltac:(lia)).
    apply wp_bind, wp_ret. apply push_heap_leaf_spec; (done || lia).
  - apply wp_bind, wp_ret. apply push_heap_leaf_spec; (done || lia).
Qed.

(** ** [__make_heap] *)

Lemma upd_id v i x : at_ v i = Some x -> upd v i x = v.
Proof. unfold at_, upd. case_match; [done|]. apply list_insert_id. Qed.

Lemma par_le_last c len : 1 <= c < len -> par c <= (len - 2) / 2.
Proof. intros Hc. unfold par. apply Z.div_le_mono; lia. Qed.

Lemma make_loop_spec n v b p len :
  0 <= b -> 0 <= p < len -> b + len <= Z.of_nat (length v) -> len < Z.of_nat fuel ->
  hp v b len (p + 1) -> p < Z.of_nat n ->
  wp (make_heap_loop comp fuel n b p len) v (fun _ v' => hp v' b len 0 /\ segperm v v' b (b + len)).
Proof.
  revert v p. induction n as [|n IH]; intros v p Hb Hp Hl Hf Hhp Hn; [lia|]. cbn [make_heap_loop].
  destruct (at_in_range v (b + p) ltac:(lia)) as [x Hx].
  apply wp_bind, (wp_rd _ _ x); [done|]. apply wp_bind.
  eapply wp_mono; [apply adjust_heap_spec; (done || lia)|]. intros _ v1 [Hhp1 Hp1].
  rewrite (upd_id _ _ _ Hx) in Hp1. apply (segperm_widen _ _ b _ _ (b + len)) in Hp1; [|lia..].
  destruct (Z.eqb_spec p 0) as [->|Hne]; [by apply wp_ret|]. pose proof (proj1 Hp1).
  eapply wp_mono; [apply IH; try (done || lia); by replace (p - 1 + 1) with p by lia|].
  intros _ v' [Hhp' Hp']. split; [done|]. by apply (segperm_trans _ v1).
Qed.

(** [__make_heap] turns the range into a heap, permuting it. *)
Lemma make_heap_spec v b len :
  0 <= b -> 0 <= len -> b + len <= Z.of_nat (length v) -> len < Z.of_nat fuel ->
  wp (make_heap comp fuel b (b + len)) v (fun _ v' => hp v' b len 0 /\ segperm v v' b (b + len)).
Proof.
  intros Hb Hlen Hl Hf. unfold make_heap. replace (b + len - b) with len by lia.
  destruct (Z.ltb_spec len 2).
  - apply wp_ret. split; [intros c Hc; lia|apply segperm_refl].
  - rewrite Z.quot_div_nonneg by lia. pose proof (Z.div_pos (len - 2) 2 ltac:(lia) ltac:(lia)).
    assert ((len - 2) / 2 < len) by (apply Z.div_lt_upper_bound; lia).
    eapply wp_mono; [apply make_loop_spec; try (done || lia)|].
    + intros c Hc Hpc. pose proof (par_le_last c len Hc). lia.
    + done.
Qed.

(** ** The root of a heap is its largest element *)

Lemma desc_all i : 0 <= i -> desc 0 i.
Proof.
  intros Hi. remember (Z.to_nat i) as k eqn:Hk. revert i Hi Hk.
  induction k as [k IH] using lt_wf_ind. intros i Hi ->.
  destruct (Z.eq_dec i 0) as [->|Hne]; [constructor|].
  pose proof (par_bounds i ltac:(lia)).
  assert (desc 0 (par i)) by (apply (IH (Z.to_nat (par i))); lia).
  destruct (child_par i ltac:(lia)) as [E|E]; rewrite E; by constructor.
Qed.

Lemma root_max v b len x y i :
  0 <= b -> b + len <= Z.of_nat (length v) -> hp v b len 0 -> 0 <= i < len ->
  at_ v b = Some x -> at_ v (b + i) = Some y -> le y x.
Proof.
  intros Hb Hl Hhp Hi Hx. pose proof (desc_all i (proj1 Hi)) as Hd. revert y Hi.
  induction Hd as [|h Hd IH|h Hd IH]; intros y Hi Hy.
  { rewrite Z.add_0_r, Hx in Hy. injection Hy as <-. apply leb_refl. }
  all: pose proof (desc_ge 0 h ltac:(lia) Hd);
    destruct (at_in_range v (b + h) ltac:(lia)) as [z Hz];
    apply (leb_trans _ (kf z)); [|apply IH; (done || lia)].
  - apply (Hhp (2 * h + 1)); rewrite ?par_child_l; (done || lia).
  - apply (Hhp (2 * h + 2)); rewrite ?par_child_r; (done || lia).
Qed.

(** ** [__sort_heap] and [__partial_sort] *)

(** The range [[a, e)] is sorted. *)
Definition ssorted v (a e : Z) : Prop :=
  forall i j x y, a <= i <= j -> j < e -> at_ v i = Some x -> at_ v j = Some y -> le x y.

(** No element of [[a, m)] is above an element of [[m, e)]. *)
Definition cross v (a m e : Z) : Prop :=
  forall i j x y, a <= i < m -> m <= j < e -> at_ v i = Some x -> at_ v j = Some y -> le x y.

Lemma hp_agree v v' b len lo :
  (forall i, 0 <= i < len -> at_ v' (b + i) = at_ v (b + i)) -> hp v b len lo -> hp v' b len lo.
Proof.
  intros Hag Hhp c Hc Hlo x y Hx Hy. pose proof (par_bounds c (proj1 Hc)).
  rewrite Hag in Hx, Hy by lia. by apply (Hhp c).
Qed.

Lemma hp_shrink v b len len' lo lo' : len' <= len -> lo <= lo' -> hp v b len lo -> hp v b len' lo'.
Proof. intros Hl Hlo Hhp c Hc Hpc. apply Hhp; lia. Qed.

Lemma ssorted_agree v v' a e : (forall i, a <= i < e -> at_ v' i = at_ v i) -> ssorted v a e -> ssorted v' a e.
Proof. intros Hag Hs i j x y Hij Hj Hx Hy. rewrite Hag in Hx, Hy by lia. by apply (Hs i j). Qed.

(** An element not above the sorted range [[m, e)] extends it to the left. *)
Lemma ssorted_grow v m e x :
  ssorted v m e -> at_ v (m - 1) = Some x -> (forall j y, m <= j < e -> at_ v j = Some y -> le x y) ->
  ssorted v (m - 1) e.
Proof.
  intros Hs Hm Hx i j a c Hij Hj Ha Hc. destruct (Z.eq_dec i (m - 1)) as [->|Hi].
  - rewrite Hm in Ha. injection Ha as <-. destruct (Z.eq_dec j (m - 1)) as [->|Hj'].
    + rewrite Hm in Hc. injection Hc as <-. apply leb_refl.
    + apply (Hx j); (done || lia).
  - apply (Hs i j); (done || lia).
Qed.

(** [__pop_heap(first, last - 1, last - 1)]: the root goes behind the heap. *)
Lemma pop_heap_spec v b e E :
  0 <= b -> 1 < e - b -> e <= E -> E <= Z.of_nat (length v) -> Z.of_nat (length v) < Z.of_nat fuel ->
  hp v b (e - b) 0 -> ssorted v e E -> cross v b e E ->
  wp (pop_heap comp fuel b (e - 1) (e - 1)) v (fun _ v' =>
    hp v' b (e - 1 - b) 0 /\ ssorted v' (e - 1) E /\ cross v' b (e - 1) E /\ segperm v v' b e).
Proof.
  intros Hb He HE Hl Hf Hhp Hs Hc. unfold pop_heap.
  destruct (at_in_range v (e - 1) ltac:(lia)) as [value Hval].
  destruct (at_in_range v b ltac:(lia)) as [x Hx].
  apply wp_bind, (wp_rd _ _ value); [done|]. apply wp_bind, (wp_rd _ _ x); [done|].
  apply wp_bind, wp_wr; [lia|]. cbv beta. replace (e - 1 - b) with (e - b - 1) by lia.
  set (v1 := upd v (e - 1) x).
  assert (Hag : forall i, i <> e - 1 -> at_ v1 i = at_ v i) by (intros; apply at_upd_other; lia).
  assert (Hv1 : at_ v1 (e - 1) = Some x) by (apply at_upd_same; lia).
  assert (L1 : length v1 = length v) by apply length_upd.
  eapply wp_mono; [apply adjust_heap_spec; try (done || lia)|].
  { apply (hp_agree v); [intros; apply Hag; lia|]. apply (hp_shrink _ _ (e - b) _ 0); (done || lia). }
  intros _ v2 [Hhp2 Hp2]. rewrite !Z.add_0_r in Hp2. replace (b + (e - b - 1)) with (e - 1) in Hp2 by lia.
  assert (Hout : forall j, e - 1 <= j -> at_ v2 j = at_ v1 j).
  { intros j Hj. rewrite (proj1 (proj2 Hp2)) by lia. apply at_upd_other; [rewrite L1; lia|lia]. }
  assert (Hsrc : forall i w, b <= i < e - 1 -> at_ v2 i = Some w -> exists k, b <= k < e /\ at_ v k = Some w).
  { apply (segperm_forall (upd v1 b value) v2 b (e - 1) (fun w => exists k, b <= k < e /\ at_ v k = Some w));
      [lia|rewrite length_upd; lia|done|].
    intros i w Hi Hw. rewrite at_upd in Hw by lia. destruct (decide (b = i)) as [<-|Hne].
    - injection Hw as <-. exists (e - 1). split; [lia|done].
    - exists i. rewrite Hag in Hw by lia. split; [lia|done]. }
  split_and!; [done| | |].
  - apply (ssorted_grow _ _ _ x); [|by rewrite Hout by lia|].
    + apply (ssorted_agree v); [|done]. intros i Hi. rewrite Hout, Hag by lia. done.
    + intros j y Hj Hy. rewrite Hout, Hag in Hy by lia. apply (Hc b j); (done || lia).
  - intros i j w z Hi Hj Hw Hz. destruct (Hsrc i w Hi Hw) as (k & Hk & Hkw).
    destruct (Z.eq_dec j (e - 1)) as [->|Hne].
    + rewrite Hout, Hv1 in Hz by lia. injection Hz as <-.
      apply (root_max v b (e - b) _ _ (k - b)); [lia|lia|done|lia|done|by replace (b + (k - b)) with k by lia].
    + rewrite Hout, Hag in Hz by lia. apply (Hc k j); (done || lia).
  - apply (segperm_trans _ (upd v1 b value)).
    + apply (segperm_swap _ _ _ _ _ value x); (done || lia).
    + apply (segperm_widen _ _ _ b (e - 1)); rewrite ?length_upd; (done || lia).
Qed.

Lemma sort_heap_loop_spec n v b e E :
  0 <= b <= e -> e <= E -> E <= Z.of_nat (length v) -> Z.of_nat (length v) < Z.of_nat fuel ->
  hp v b (e - b) 0 -> ssorted v e E -> cross v b e E -> e - b < Z.of_nat n ->
  wp (sort_heap_loop comp fuel n b e) v (fun _ v' => ssorted v' b E /\ segperm v v' b e).
Proof.
  revert v e. induction n as [|n IH]; intros v e Hb HE Hl Hf Hhp Hs Hc Hn; [lia|]. cbn [sort_heap_loop].
  destruct (Z.ltb_spec 1 (e - b)).
  - apply wp_bind. eapply wp_mono; [apply pop_heap_spec; (done || lia)|].
    intros _ v1 (Hhp1 & Hs1 & Hc1 & Hp1). pose proof (proj1 Hp1).
    eapply wp_mono; [apply IH; (done || lia)|]. intros _ v' [Hs' Hp']. split; [done|].
    apply (segperm_trans _ v1); [done|]. apply (segperm_widen _ _ _ b (e - 1)); (done || lia).
  - apply wp_ret. split; [|apply segperm_refl]. destruct (Z.eq_dec e b) as [->|Hne]; [done|].
    destruct (at_in_range v b ltac:(lia)) as [x Hx]. replace b with (e - 1) in * by lia.
    apply (ssorted_grow _ _ _ x); [done|done|]. intros j y Hj Hy. apply (Hc (e - 1) j); (done || lia).
Qed.

(** [__partial_sort(first, last, last)], the heap sort of [__introsort_loop],
    sorts the range and permutes it. *)
Lemma partial_sort_spec v b e :
  0 <= b <= e -> e <= Z.of_nat (length v) -> Z.of_nat (length v) < Z.of_nat fuel ->
  wp (partial_sort comp fuel b e e) v (fun _ v' => ssorted v' b e /\ segperm v v' b e).
Proof.
  intros Hb Hl Hf. unfold partial_sort, heap_select. apply wp_bind, wp_bind.
  pose proof (make_heap_spec v b (e - b)) as Hm. replace (b + (e - b)) with e in Hm by lia.
  eapply wp_mono; [apply Hm; lia|]. intros _ v1 [Hhp1 Hp1]. pose proof (proj1 Hp1).
  apply (wp_eq _ _ tt v1).
  { destruct fuel; [lia|]. cbn [heap_select_loop]. by rewrite Z.ltb_irrefl. }
  unfold sort_heap. eapply wp_mono; [apply (sort_heap_loop_spec _ _ _ _ e); try (done || lia)|].
  - intros i j x y Hij Hj. lia.
  - intros i j x y Hi Hj. lia.
  - intros _ v' [Hs Hp]. split; [done|]. by apply (segperm_trans _ v1).
Qed.
End Heap.

(** * [__introsort_loop]: the smallest element ends up in the first 16 *)

Section Loop.
Context {X K : Type} `{Ord K} (kf : X -> K) (fuel : nat).
Local Open Scope Z_scope.
Local Abbreviation comp := (fun a b : X => ltb (kf a) (kf b)).
Local Abbreviation le a b := (leb (kf a) (kf b) = true).
Implicit Types (v : list X).

(** Some position of the first [16] of [[a, e)] holds an element not above
    any element of the range. *)
Definition min_front v (a e : Z) : Prop :=
  exists i x, a <= i < a + threshold /\ at_ v i = Some x /\
    forall j y, a <= j < e -> at_ v j = Some y -> le x y.

(** A non-empty range has a smallest element. *)
Lemma seg_min v a e :
  0 <= a < e -> e <= Z.of_nat (length v) ->
  exists i x, a <= i < e /\ at_ v i = Some x /\ forall j y, a <= j < e -> at_ v j = Some y -> le x y.
Proof.
  intros Ha He. remember (Z.to_nat (e - a - 1)) as k eqn:Hk. revert e Ha He Hk.
  induction k as [|k IH]; intros e Ha He Hk.
  - destruct (at_in_range v a ltac:(lia)) as [x Hx]. exists a, x. split; [lia|split; [done|]].
    intros j y Hj Hy. replace j with a in Hy by lia. rewrite Hx in Hy. injection Hy as <-. apply leb_refl.
  - destruct (IH (e - 1)) as (i & x & Hi & Hx & Hmin); [lia|lia|lia|].
    destruct (at_in_range v (e - 1) ltac:(lia)) as [z Hz].
    destruct (leb (kf x) (kf z)) eqn:Exz.
    + exists i, x. split; [lia|split; [done|]]. intros j y Hj Hy.
      destruct (Z.eq_dec j (e - 1)) as [->|Hne]; [congruence|apply (Hmin j); (done || lia)].
    + apply leb_false in Exz. exists (e - 1), z. split; [lia|split; [done|]]. intros j y Hj Hy.
      destruct (Z.eq_dec j (e - 1)) as [->|Hne].
      * rewrite Hz in Hy. injection Hy as <-. apply leb_refl.
      * apply (leb_trans _ (kf x)); [by apply ltb_leb|apply (Hmin j); (done || lia)].
Qed.

(** Permuting either side keeps the two sides ordered. *)
Lemma cross_perm_left v v' a m e :
  0 <= a <= m -> m <= e -> m <= Z.of_nat (length v) -> segperm v v' a m -> cross kf v a m e -> cross kf v' a m e.
Proof.
  intros Ha Hm Hl Hp Hc i j x y Hi Hj Hx Hy. rewrite (proj1 (proj2 Hp)) in Hy by lia.
  exact (segperm_forall v v' a m (fun x => le x y) ltac:(lia) ltac:(lia) Hp
    (fun i' x' Hi' Hx' => Hc i' j x' y Hi' Hj Hx' Hy) i x Hi Hx).
Qed.

Lemma cross_perm_right v v' a m e :
  0 <= m <= e -> e <= Z.of_nat (length v) -> segperm v v' m e -> cross kf v a m e -> cross kf v' a m e.
Proof.
  intros Hm Hl Hp Hc i j x y Hi Hj Hx Hy. rewrite (proj1 (proj2 Hp)) in Hx by lia.
  exact (segperm_forall v v' m e (fun y => le x y) ltac:(lia) ltac:(lia) Hp
    (fun j' y' Hj' Hy' => Hc i j' x y' Hi Hj' Hx Hy') j y Hj Hy).
Qed.

(** Any element of [[a, e)] is bounded below by an element of the first
    [16] positions that is the smallest of [[a, m)], when [[a, m)] is
    below [[m, e)]. *)
Lemma min_front_cross v a m e i x :
  cross kf v a m e -> a <= i < m -> at_ v i = Some x -> i < a + threshold ->
  (forall j y, a <= j < m -> at_ v j = Some y -> le x y) -> min_front v a e.
Proof.
  intros Hc Hi Hx Ht Hmin. exists i, x. split; [lia|split; [done|]]. intros j y Hj Hy.
  destruct (Z.lt_ge_cases j m); [apply (Hmin j); (done || lia)|apply (Hc i j); (done || lia)].
Qed.

(** [__introsort_loop] permutes its range and leaves in the first [16]
    positions an element that no element of the range precedes. *)
Lemma introsort_loop_spec d v first last :
  0 <= first <= last -> last <= Z.of_nat (length v) -> Z.of_nat (length v) < Z.of_nat fuel ->
  wp (introsort_loop comp fuel d first last) v
    (fun _ v' => segperm v v' first last /\ (threshold < last - first -> min_front v' first last)).
Proof.
  revert v first last. induction d as [|d IH]; intros v first last Hf Hl Hfuel; cbn [introsort_loop];
    (destruct (Z.ltb_spec threshold (last - first)) as [Hn|Hn]; [|apply wp_ret; split; [apply segperm_refl|lia]]).
  - eapply wp_mono; [apply partial_sort_spec; lia|]. intros _ v' [Hs Hp]. split; [done|]. intros _.
    unfold threshold in *. pose proof (proj1 Hp). destruct (at_in_range v' first ltac:(lia)) as [x Hx].
    exists first, x. split; [unfold threshold; lia|split; [done|]].
    intros j y Hj Hy. apply (Hs first j); (done || lia).
  - unfold threshold in Hn. apply wp_bind. eapply wp_mono; [apply partition_pivot_spec; lia|].
    intros cut v1 (Hp1 & Hcut & Hc1). pose proof (proj1 Hp1).
    apply wp_bind. eapply wp_mono; [apply IH; lia|]. intros _ v2 [Hp2 _]. pose proof (proj1 Hp2).
    eapply wp_mono; [apply IH; lia|]. intros _ v3 [Hp3 Hm3]. pose proof (proj1 Hp3). split.
    + apply (segperm_trans _ v1); [done|]. apply (segperm_trans _ v2);
        [apply (segperm_widen _ _ _ cut last)|apply (segperm_widen _ _ _ first cut)]; (done || lia).
    + intros _. assert (Hc3 : cross kf v3 first cut last).
      { apply (cross_perm_left v2); try (done || lia). apply (cross_perm_right v1); (done || lia). }
      destruct (Z.ltb_spec threshold (cut - first)) as [Hl3|Hs3].
      * destruct (Hm3 Hl3) as (i & x & Hi & Hx & Hmin). unfold threshold in *.
        apply (min_front_cross _ _ cut _ i x); unfold threshold in *; (done || lia).
      * destruct (seg_min v3 first cut) as (i & x & Hi & Hx & Hmin); [lia|lia|]. unfold threshold in *.
        apply (min_front_cross _ _ cut _ i x); unfold threshold in *; (done || lia).
Qed.

(** The insertion sort's result starts with an element not above [m] when
    [m] is one of the sorted elements. *)
Lemma insertion_sort_head_le (l : list X) m :
  m ∈ l -> exists y0 s, calgo.insertion_sort comp l = y0 :: s /\ le y0 m.
Proof.
  intros Hm. pose proof (calgo.insertion_sort_sorted kf l) as Hs.
  rewrite <- (calgo.insertion_sort_perm comp l) in Hm.
  destruct (calgo.insertion_sort comp l) as [|y0 s]; [by apply not_elem_of_nil in Hm|].
  exists y0, s. split; [done|]. apply elem_of_cons in Hm as [->|Hm]; [apply leb_refl|].
  apply StronglySorted_inv in Hs as [_ Hs]. rewrite Forall_forall in Hs. by apply Hs.
Qed.

(** [__final_insertion_sort] on a range of more than [16] elements, after
    [__introsort_loop]: the guarded insertion sort of the first [16] puts
    the smallest element first, so the unguarded one stops in time and the
    whole is the insertion sort of the range. *)
Lemma final_insertion_sort_spec pre w post :
  (16 < length w)%nat -> (length w < fuel)%nat ->
  min_front (pre ++ w ++ post) (Z.of_nat (length pre)) (Z.of_nat (length pre + length w)) ->
  final_insertion_sort comp fuel (Z.of_nat (length pre)) (Z.of_nat (length pre + length w)) (pre ++ w ++ post) =
    inr (tt, pre ++ calgo.insertion_sort comp w ++ post).
Proof.
  intros Hn Hf (i & m & Hi & Hm & Hmin). unfold threshold in Hi.
  assert (Hall : forall y, y ∈ w -> le m y).
  { intros y [k Hk]%list_elem_of_lookup. pose proof (lookup_lt_Some _ _ _ Hk).
    apply (Hmin (Z.of_nat (length pre + k))); [lia|]. by rewrite at_mid. }
  assert (Hmp : m ∈ take 16 w).
  { replace i with (Z.of_nat (length pre + (Z.to_nat i - length pre))) in Hm by lia.
    rewrite at_mid in Hm by lia. apply list_elem_of_lookup.
    exists (Z.to_nat i - length pre)%nat. rewrite lookup_take_lt; [done|lia]. }
  pose proof (take_drop 16 w) as Hv.
  assert (Hlp : length (take 16 w) = 16%nat) by (rewrite length_take; lia).
  destruct (take 16 w) as [|x0 p15] eqn:Ep; [simpl in Hlp; lia|]. set (rest := drop 16 w) in *.
  destruct (insertion_sort_head_le (x0 :: p15) m Hmp) as (y0 & s & Hs & Hy0).
  clearbody rest. subst w. rewrite length_app in Hn, Hf |- *. cbn [length] in Hlp, Hn, Hf |- *.
  unfold final_insertion_sort, threshold. rewrite (proj2 (Z.ltb_lt _ _)) by lia.
  unfold Introsort.insertion_sort. rewrite (proj2 (Z.eqb_neq _ _)) by lia.
  replace (pre ++ ((x0 :: p15) ++ rest) ++ post) with (pre ++ [x0] ++ p15 ++ rest ++ post)
    by (by rewrite <- app_assoc).
  erewrite bind_ok by (apply insertion_sort_loop_spec; simpl; (done || lia)).
  change (fold_left (calgo.insertion_step comp) p15 [x0]) with (calgo.insertion_sort comp (x0 :: p15)).
  assert (Hls : S (length s) = 16%nat).
  { rewrite <- Hlp. apply (Permutation_length (l := y0 :: s) (l' := x0 :: p15)). rewrite <- Hs.
    apply calgo.insertion_sort_perm. }
  rewrite Hs. unfold unguarded_insertion_sort.
  rewrite (unguarded_insertion_sort_loop_spec _ _ _ _ _ _ _ y0); [|done| |simpl; lia..].
  - unfold calgo.insertion_sort. by rewrite fold_left_app, <- Hs.
  - apply Forall_forall. intros x Hx. apply le_comp_false, (leb_trans _ (kf m)); [done|].
    apply Hall. apply elem_of_app. by right.
Qed.

(** [std::__sort(first, last)] on a range of the vector leaves the rest of
    the vector alone and puts in the range the insertion sort of a
    permutation of it. *)
Lemma sort_spec v first last :
  0 <= first <= last -> last <= Z.of_nat (length v) -> (length v < fuel)%nat ->
  exists w, w ≡ₚ seg v first last /\
    sort comp fuel first last v =
      inr (tt, take (Z.to_nat first) v ++ calgo.insertion_sort comp w ++ drop (Z.to_nat last) v).
Proof.
  intros Hfl Hl Hf. unfold sort. destruct (Z.eqb_spec first last) as [<-|Hne].
  { exists []. split; [unfold seg; by rewrite Nat.sub_diag|]. by rewrite app_nil_l, take_drop. }
  assert (Hlen : length (take (Z.to_nat first) v) = Z.to_nat first) by (rewrite length_take; lia).
  destruct (decide (last - first <= threshold)) as [Hs|Hb].
  - erewrite bind_ok by (apply introsort_loop_short; lia). exists (seg v first last). split; [done|].
    unfold final_insertion_sort. rewrite (proj2 (Z.ltb_ge _ _)) by lia.
    unfold Introsort.insertion_sort. rewrite (proj2 (Z.eqb_neq _ _)) by lia.
    pose proof (length_seg v first last ltac:(lia) ltac:(lia)) as Hw.
    rewrite (seg_frame v first last) at 1 by lia.
    destruct (seg v first last) as [|x0 rest]; [simpl in Hw; lia|]. simpl in Hw.
    apply (insertion_sort_loop_spec _ _ _ _ [x0] rest); simpl; (done || lia).
  - unfold threshold in Hb.
    destruct (wp_run _ _ _ (introsort_loop_spec (Z.to_nat (lg (last - first) * 2)) v first last
      ltac:(lia) ltac:(lia) ltac:(lia))) as ([] & v1 & Heq & Hp & Hmf).
    erewrite bind_ok by exact Heq. exists (seg v1 first last). split; [apply Hp|].
    destruct (segperm_frame v v1 first last ltac:(lia) Hp) as [Ht Hd].
    pose proof (proj1 Hp) as L1. pose proof (length_seg v1 first last ltac:(lia) ltac:(lia)) as Hw.
    rewrite <- Ht, <- Hd. rewrite <- Ht in Hlen.
    assert (Ev : v1 = take (Z.to_nat first) v1 ++ seg v1 first last ++ drop (Z.to_nat last) v1)
      by (apply seg_frame; lia).
    set (pre := take (Z.to_nat first) v1) in *. set (w := seg v1 first last) in *.
    set (post := drop (Z.to_nat last) v1) in *. rewrite Ev in Hmf. rewrite Ev at 1.
    replace first with (Z.of_nat (length pre)) in Hmf |- * by lia.
    replace last with (Z.of_nat (length pre + length w)) in Hmf |- * by lia.
    apply final_insertion_sort_spec; [lia|lia|]. apply Hmf. unfold threshold. lia.
Qed.
End Loop.

(** * [std::sort] sorts *)

Section StdSort.
Context {X K : Type} `{Ord K} (kf : X -> K).

(** [std::sort] with a comparator that compares keys under a total order
    sorts every vector, of any size: it neither faults nor runs out of its
    budget, and returns a permutation of the vector sorted by key. *)
Theorem std_sort_sorts (v : list X) :
  exists v', std_sort (fun a b => ltb (kf a) (kf b)) v = inr v' /\ v' ≡ₚ v /\ StronglySorted (key_le kf) v'.
Proof.
  unfold std_sort. destruct (sort_spec kf (S (length v)) v 0 (Z.of_nat (length v))) as (w & Hw & ->); [lia..|].
  rewrite Nat2Z.id, drop_all, app_nil_r. eexists. split; [done|].
  split; [|apply calgo.insertion_sort_sorted]. by rewrite calgo.insertion_sort_perm, Hw, seg_all.
Qed.
End StdSort.

Section Total.
Context {A : Type} `{Ord A}.
Local Open Scope Z_scope.

(** On a type under a total order (the [(key, field)] pairs of the
    associations), [std::__sort] puts in the range exactly its insertion
    sort: the sorted permutation is unique. *)
Lemma sort_total (l : list A) (fuel : nat) (first last : Z) :
  0 <= first <= last -> last <= Z.of_nat (length l) -> (length l < fuel)%nat ->
  sort ltb fuel first last l =
    inr (tt, take (Z.to_nat first) l ++ calgo.insertion_sort ltb (seg l first last) ++ drop (Z.to_nat last) l).
Proof.
  intros Hfl Hl Hf. change (@ltb A _) with (fun a b : A => ltb (id a) (id b)).
  destruct (sort_spec id fuel l first last Hfl Hl Hf) as (w & Hw & ->).
  do 4 f_equal. exact (@calgo.sort_by_canonical calgo.insertion_sorter A _ w _ Hw).
Qed.
End Total.
