(* ===== verification/IntrosortFuel.v ===== *)
(** * The budget of the [std::sort] model never runs out

    Each loop of [Introsort] runs with the budget [fuel] (the vector's
    length plus one in [std_sort]) and fails with [OutOfFuel] past it.
    This file shows the budget is never what stops a run, whatever the
    comparator: every loop moves an index that it reads, writes or
    compares with a bound, so within [length v + 1] rounds it either
    stops or makes an access out of range, which is the fault the C++
    code has as undefined behaviour.  The faults of the model are thus
    exactly the out-of-range accesses of the code.

    The predicate [fwp] is a weakest precondition in which a fault other
    than [OutOfFuel] is allowed.  Its postconditions record what the
    callers need: the vector keeps its length, and the index a scan or a
    partition returns is one it read. *)

From S2P Require Import Prelude FlatContainers ContainerAlgo Introsort IntrosortSorts.
Import Introsort.

Section FuelWp.
Context {X : Type}.
Implicit Types (v : list X).
Local Open Scope Z_scope.

(** [m] run on [v] does not run out of its budget; if it returns, its
    result satisfies [Q]. *)
Definition fwp {A} (m : M X A) v (Q : A -> list X -> Prop) : Prop :=
  match m v with inr (a, v') => Q a v' | inl OutOfFuel => False | inl _ => True end.

Lemma fwp_ret {A} (a : A) v Q : Q a v -> fwp (mret a) v Q.
Proof. done. Qed.

Lemma fwp_bind {A B} (m : M X A) (k : A -> M X B) v Q :
  fwp m v (fun a v' => fwp (k a) v' Q) -> fwp (m ≫= k) v Q.
Proof. unfold fwp, mbind, M_bind. by destruct (m v) as [[]|[a v']]. Qed.

Lemma fwp_mono {A} (m : M X A) v (Q Q' : A -> list X -> Prop) :
  fwp m v Q -> (forall a v', Q a v' -> Q' a v') -> fwp m v Q'.
Proof. unfold fwp. destruct (m v) as [[]|[a v']]; auto. Qed.

Lemma fwp_rd i v Q : (forall x, at_ v i = Some x -> Q x v) -> fwp (rd i) v Q.
Proof. unfold fwp, rd, at_. intros HQ. destruct (_ : option X) eqn:E; [by apply HQ|done]. Qed.

Lemma fwp_wr i x v Q : (0 <= i < Z.of_nat (length v) -> Q tt (upd v i x)) -> fwp (wr i x) v Q.
Proof.
  intros HQ. unfold fwp, wr. destruct (Z.leb_spec 0 i), (Z.ltb_spec i (Z.of_nat (length v)));
    simpl; [apply HQ; lia|done..].
Qed.

(** A run that does not run out of its budget. *)
Lemma fwp_no_fuel_fault {A} (m : M X A) v Q : fwp m v Q -> m v <> inl OutOfFuel.
Proof. unfold fwp. intros H E. by rewrite E in H. Qed.
End FuelWp.

(** The routines without loops: the vector keeps its length. *)
Section Straight.
Context {X : Type} (comp : X -> X -> bool).
Implicit Types (v : list X).
Local Open Scope Z_scope.

Lemma fwp_iter_swap i j v : fwp (iter_swap i j) v (fun _ v' => length v' = length v).
Proof.
  unfold iter_swap. apply fwp_bind, fwp_rd. intros x _. apply fwp_bind, fwp_rd. intros y _.
  apply fwp_bind, fwp_wr. intros _. apply fwp_wr. intros _. by rewrite !length_upd.
Qed.

Lemma fwp_move_median result a b c v :
  fwp (move_median_to_first comp result a b c) v (fun _ v' => length v' = length v).
Proof.
  unfold move_median_to_first. apply fwp_bind, fwp_rd. intros xa _. apply fwp_bind, fwp_rd. intros xb _.
  apply fwp_bind, fwp_rd. intros xc _. repeat case_match; apply fwp_iter_swap.
Qed.
End Straight.

(** ** The partition *)

Section Partition.
Context {X : Type} (comp : X -> X -> bool) (fuel : nat).
Implicit Types (v : list X).
Local Open Scope Z_scope.

(** The left scan reads upwards from [i]: it stops at a position it read,
    or reads past the end, within [length v - i + 1] rounds. *)
Lemma fwp_scan_up n i p v :
  0 <= i <= Z.of_nat (length v) -> Z.of_nat (length v) - i < Z.of_nat n ->
  fwp (scan_up comp n i p) v (fun i' v' => v' = v /\ i <= i' < Z.of_nat (length v)).
Proof.
  revert i. induction n as [|n IH]; intros i Hi Hn; [lia|]. cbn [scan_up].
  apply fwp_bind, fwp_rd. intros a Ha. pose proof (at_range _ _ _ Ha).
  apply fwp_bind, fwp_rd. intros b _. destruct (comp a b).
  - eapply fwp_mono; [apply IH; lia|]. intros i' v' [-> Hi']. split; [done|lia].
  - apply fwp_ret. split; [done|lia].
Qed.

(** The right scan reads downwards from [j]: it stops at a position it
    read, or reads at [-1], within [j + 2] rounds. *)
Lemma fwp_scan_down n j p v :
  -1 <= j -> j + 1 < Z.of_nat n ->
  fwp (scan_down comp n j p) v (fun j' v' => v' = v /\ 0 <= j' <= j).
Proof.
  revert j. induction n as [|n IH]; intros j Hj Hn; [lia|]. cbn [scan_down].
  apply fwp_bind, fwp_rd. intros a _. apply fwp_bind, fwp_rd. intros b Hb. pose proof (at_range _ _ _ Hb).
  destruct (comp a b).
  - eapply fwp_mono; [apply IH; lia|]. intros j' v' [-> Hj']. split; [done|lia].
  - apply fwp_ret. split; [done|lia].
Qed.

(** Each round of [__unguarded_partition] starts its left scan one past
    the last position the previous one stopped at. *)
Lemma fwp_partition_loop n first last pivot v :
  0 <= first <= Z.of_nat (length v) -> 0 <= last <= Z.of_nat (length v) ->
  Z.of_nat (length v) < Z.of_nat fuel -> Z.of_nat (length v) - first < Z.of_nat n ->
  fwp (unguarded_partition_loop comp fuel n first last pivot) v
    (fun c v' => length v' = length v /\ 0 <= c < Z.of_nat (length v)).
Proof.
  revert first last v. induction n as [|n IH]; intros first last v Hf Hl Hfuel Hn; [lia|].
  cbn [unguarded_partition_loop]. apply fwp_bind. eapply fwp_mono; [apply fwp_scan_up; lia|].
  intros f v1 [-> Hf']. apply fwp_bind. eapply fwp_mono; [apply fwp_scan_down; lia|].
  intros l v2 [-> Hl']. destruct (negb (f <? l)); [apply fwp_ret; split; [done|lia]|].
  apply fwp_bind. eapply fwp_mono; [apply fwp_iter_swap|]. intros [] v3 L3.
  eapply fwp_mono; [apply IH; rewrite L3; lia|]. intros c v4 [L4 Hc]. rewrite L4, L3 in *. split; [done|lia].
Qed.

Lemma fwp_partition_pivot first last v :
  0 <= first < last -> last <= Z.of_nat (length v) -> Z.of_nat (length v) < Z.of_nat fuel ->
  fwp (unguarded_partition_pivot comp fuel first last) v
    (fun c v' => length v' = length v /\ 0 <= c < Z.of_nat (length v)).
Proof.
  intros Hfl Hl Hfuel. unfold unguarded_partition_pivot, unguarded_partition. cbv zeta.
  apply fwp_bind. eapply fwp_mono; [apply fwp_move_median|]. intros [] v1 L1.
  eapply fwp_mono; [apply fwp_partition_loop; rewrite L1; lia|]. intros c v2 [L2 Hc].
  rewrite L2, L1 in *. split; [done|lia].
Qed.
End Partition.

(** ** The heap *)

Section Heap.
Context {X : Type} (comp : X -> X -> bool) (fuel : nat).
Implicit Types (v : list X).
Local Open Scope Z_scope.

(** [second < (len - 1) / 2] leaves room for both children. *)
Lemma quot_room s m : 0 <= s -> s < Z.quot m 2 -> 2 * s + 2 <= m.
Proof.
  intros Hs Hq. destruct (Z.le_gt_cases 0 m).
  - rewrite Z.quot_div_nonneg in Hq by lia. pose proof (Z.mul_div_le m 2 ltac:(lia)). lia.
  - assert (Z.quot m 2 = - Z.quot (- m) 2) as E.
    { rewrite Z.quot_opp_l by lia. lia. }
    pose proof (Z.quot_pos (- m) 2 ltac:(lia) ltac:(lia)). lia.
Qed.

Lemma fwp_push_loop n first hole top value v :
  0 <= top -> hole - top < Z.of_nat n -> (0 < n)%nat ->
  fwp (push_heap_loop comp n first hole top value) v (fun _ v' => length v' = length v).
Proof.
  revert hole v. induction n as [|n IH]; intros hole v Ht Hn Hpos; [lia|]. cbn [push_heap_loop]. cbv zeta.
  destruct (Z.ltb_spec top hole); [|by apply fwp_ret].
  rewrite quot_par by lia. pose proof (par_bounds hole ltac:(lia)).
  apply fwp_bind, fwp_rd. intros p _. destruct (comp p value); [|by apply fwp_ret].
  apply fwp_bind, fwp_wr. intros _. eapply fwp_mono; [apply IH; lia|]. intros _ v' ->. apply length_upd.
Qed.

Lemma fwp_push_heap first hole top value v :
  0 <= top -> hole - top < Z.of_nat fuel -> (0 < fuel)%nat ->
  fwp (push_heap comp fuel first hole top value) v (fun _ v' => length v' = length v).
Proof.
  intros. unfold push_heap. apply fwp_bind. eapply fwp_mono; [by apply fwp_push_loop|].
  intros h v' L'. apply fwp_wr. intros _. by rewrite length_upd.
Qed.

(** The hole goes down to a child at each round. *)
Lemma fwp_adjust_loop n first hole second len v :
  0 <= first -> 0 <= second -> len - second < Z.of_nat n -> (0 < n)%nat ->
  fwp (adjust_heap_loop comp n first hole second len) v
    (fun hs v' => length v' = length v /\ (hs.1 = hole \/ hs.1 < Z.of_nat (length v))).
Proof.
  revert hole second v. induction n as [|n IH]; intros hole second v Hf Hs Hn Hpos; [lia|].
  cbn [adjust_heap_loop]. destruct (Z.ltb_spec second (Z.quot (len - 1) 2)) as [Hq|];
    [|apply fwp_ret; split; [done|by left]].
  pose proof (quot_room _ _ Hs Hq). cbv zeta.
  apply fwp_bind, fwp_rd. intros a _. apply fwp_bind, fwp_rd. intros b _.
  set (s := if comp a b then 2 * (second + 1) - 1 else 2 * (second + 1)).
  assert (2 * second + 1 <= s <= 2 * second + 2) by (subst s; case_match; lia).
  apply fwp_bind, fwp_rd. intros c Hc. pose proof (at_range _ _ _ Hc).
  apply fwp_bind, fwp_wr. intros _. eapply fwp_mono; [apply IH; lia|].
  intros hs v' [L' Hh]. rewrite L', length_upd in *. split; [done|]. right. destruct Hh; lia.
Qed.

Lemma fwp_adjust_heap first hole len value v :
  0 <= first -> 0 <= hole < len -> first + len <= Z.of_nat (length v) ->
  Z.of_nat (length v) < Z.of_nat fuel ->
  fwp (adjust_heap comp fuel first hole len value) v (fun _ v' => length v' = length v).
Proof.
  intros Hf Hh Hl Hfuel. unfold adjust_heap. apply fwp_bind.
  eapply fwp_mono; [apply fwp_adjust_loop; lia|]. intros [h s] v1 [L1 Hh1]. cbn [fst] in Hh1.
  apply fwp_bind. destruct (_ && _).
  - cbv zeta. apply fwp_bind, fwp_rd. intros c Hc. pose proof (at_range _ _ _ Hc).
    apply fwp_bind, fwp_wr. intros _. apply fwp_ret.
    eapply fwp_mono; [apply fwp_push_heap; lia|]. intros _ v' ->. by rewrite length_upd.
  - apply fwp_ret. eapply fwp_mono; [apply fwp_push_heap; destruct Hh1; lia|]. intros _ v' ->. done.
Qed.

Lemma fwp_make_loop n first p len v :
  0 <= first -> 0 <= p < len -> first + len <= Z.of_nat (length v) -> Z.of_nat (length v) < Z.of_nat fuel ->
  p < Z.of_nat n -> fwp (make_heap_loop comp fuel n first p len) v (fun _ v' => length v' = length v).
Proof.
  revert p v. induction n as [|n IH]; intros p v Hf Hp Hl Hfuel Hn; [lia|]. cbn [make_heap_loop].
  apply fwp_bind, fwp_rd. intros value _. apply fwp_bind.
  eapply fwp_mono; [apply fwp_adjust_heap; lia|]. intros [] v1 L1.
  destruct (Z.eqb_spec p 0); [by apply fwp_ret|].
  eapply fwp_mono; [apply IH; rewrite ?L1; lia|]. intros _ v2 ->. done.
Qed.

Lemma fwp_make_heap first last v :
  0 <= first <= last -> last <= Z.of_nat (length v) -> Z.of_nat (length v) < Z.of_nat fuel ->
  fwp (make_heap comp fuel first last) v (fun _ v' => length v' = length v).
Proof.
  intros Hfl Hl Hfuel. unfold make_heap. destruct (Z.ltb_spec (last - first) 2); [by apply fwp_ret|].
  rewrite Z.quot_div_nonneg by lia. pose proof (Z.div_pos (last - first - 2) 2 ltac:(lia) ltac:(lia)).
  assert ((last - first - 2) / 2 < last - first) by (apply Z.div_lt_upper_bound; lia).
  apply fwp_make_loop; lia.
Qed.

Lemma fwp_pop_heap first last result v :
  0 <= first < last -> last <= Z.of_nat (length v) -> Z.of_nat (length v) < Z.of_nat fuel ->
  fwp (pop_heap comp fuel first last result) v (fun _ v' => length v' = length v).
Proof.
  intros Hfl Hl Hfuel. unfold pop_heap. apply fwp_bind, fwp_rd. intros value _.
  apply fwp_bind, fwp_rd. intros x _. apply fwp_bind, fwp_wr. intros _.
  eapply fwp_mono; [apply fwp_adjust_heap; rewrite ?length_upd; lia|]. intros _ v' ->. apply length_upd.
Qed.

Lemma fwp_sort_heap_loop n first last v :
  0 <= first <= last -> last <= Z.of_nat (length v) -> Z.of_nat (length v) < Z.of_nat fuel ->
  last - first < Z.of_nat n -> fwp (sort_heap_loop comp fuel n first last) v (fun _ v' => length v' = length v).
Proof.
  revert last v. induction n as [|n IH]; intros last v Hfl Hl Hfuel Hn; [lia|]. cbn [sort_heap_loop].
  destruct (Z.ltb_spec 1 (last - first)); [|by apply fwp_ret].
  apply fwp_bind. eapply fwp_mono; [apply fwp_pop_heap; lia|]. intros [] v1 L1.
  eapply fwp_mono; [apply IH; rewrite ?L1; lia|]. intros _ v2 ->. done.
Qed.

(** [__partial_sort(first, last, last)], the heap sort of
    [__introsort_loop]: [__heap_select] runs no round of its loop. *)
Lemma fwp_partial_sort first last v :
  0 <= first < last -> last <= Z.of_nat (length v) -> Z.of_nat (length v) < Z.of_nat fuel ->
  fwp (partial_sort comp fuel first last last) v (fun _ v' => length v' = length v).
Proof.
  intros Hfl Hl Hfuel. unfold partial_sort, heap_select, sort_heap. apply fwp_bind, fwp_bind.
  eapply fwp_mono; [apply fwp_make_heap; lia|]. intros [] v1 L1.
  assert (Hsel : heap_select_loop comp fuel fuel first last last last v1 = inr (tt, v1)).
  { destruct fuel; [lia|]. cbn [heap_select_loop]. by rewrite Z.ltb_irrefl. }
  unfold fwp at 1. rewrite Hsel. eapply fwp_mono; [apply fwp_sort_heap_loop; rewrite ?L1; lia|].
  intros _ v2 ->. done.
Qed.
End Heap.

(** ** Insertion sort and the whole sort *)

Section Sort.
Context {X : Type} (comp : X -> X -> bool) (fuel : nat).
Implicit Types (v : list X).
Local Open Scope Z_scope.

Lemma fwp_move_backward n first last d v :
  first <= last -> last - first < Z.of_nat n ->
  fwp (move_backward_loop n first last d) v (fun _ v' => length v' = length v).
Proof.
  revert last d v. induction n as [|n IH]; intros last d v Hfl Hn; [lia|]. cbn [move_backward_loop].
  destruct (Z.eqb_spec first last); [by apply fwp_ret|].
  apply fwp_bind, fwp_rd. intros x _. apply fwp_bind, fwp_wr. intros _.
  eapply fwp_mono; [apply IH; lia|]. intros _ v' ->. apply length_upd.
Qed.

(** The walk of [__unguarded_linear_insert] reads one position lower at
    each round, so it reads at [-1] at the latest. *)
Lemma fwp_linear_loop n val j v :
  0 <= j < Z.of_nat n -> fwp (unguarded_linear_insert_loop comp n val j) v (fun _ v' => length v' = length v).
Proof.
  revert j v. induction n as [|n IH]; intros j v Hj; [lia|]. cbn [unguarded_linear_insert_loop].
  apply fwp_bind, fwp_rd. intros y Hy. pose proof (at_range _ _ _ Hy). destruct (comp val y).
  - apply fwp_bind, fwp_wr. intros _. eapply fwp_mono; [apply IH; lia|]. intros _ v' ->. apply length_upd.
  - apply fwp_wr. intros _. apply length_upd.
Qed.

Lemma fwp_linear_insert last v :
  Z.of_nat (length v) < Z.of_nat fuel ->
  fwp (unguarded_linear_insert comp fuel last) v (fun _ v' => length v' = length v).
Proof.
  intros Hf. unfold unguarded_linear_insert. apply fwp_bind, fwp_rd. intros val Hval.
  pose proof (at_range _ _ _ Hval). apply fwp_linear_loop. lia.
Qed.

Lemma fwp_insertion_loop n first i last v :
  0 <= first < i -> i <= last -> last <= Z.of_nat (length v) -> Z.of_nat (length v) < Z.of_nat fuel ->
  last - i < Z.of_nat n ->
  fwp (insertion_sort_loop comp fuel n first i last) v (fun _ v' => length v' = length v).
Proof.
  revert i v. induction n as [|n IH]; intros i v Hfi Hil Hl Hf Hn; [lia|]. cbn [insertion_sort_loop].
  destruct (Z.eqb_spec i last); [by apply fwp_ret|].
  apply fwp_bind, fwp_rd. intros a _. apply fwp_bind, fwp_rd. intros b _. apply fwp_bind.
  apply (fwp_mono _ _ (fun _ v' => length v' = length v)).
  - destruct (comp a b); [|by apply fwp_linear_insert].
    apply fwp_bind. eapply fwp_mono; [apply fwp_move_backward; lia|]. intros [] v1 L1.
    apply fwp_wr. intros _. by rewrite length_upd.
  - intros [] v1 L1. eapply fwp_mono; [apply IH; rewrite ?L1; lia|]. intros _ v2 ->. done.
Qed.

Lemma fwp_unguarded_loop n i last v :
  i <= last -> last <= Z.of_nat (length v) -> Z.of_nat (length v) < Z.of_nat fuel -> last - i < Z.of_nat n ->
  fwp (unguarded_insertion_sort_loop comp fuel n i last) v (fun _ v' => length v' = length v).
Proof.
  revert i v. induction n as [|n IH]; intros i v Hil Hl Hf Hn; [lia|]. cbn [unguarded_insertion_sort_loop].
  destruct (Z.eqb_spec i last); [by apply fwp_ret|]. apply fwp_bind.
  eapply fwp_mono; [by apply fwp_linear_insert|]. intros [] v1 L1.
  eapply fwp_mono; [apply IH; rewrite ?L1; lia|]. intros _ v2 ->. done.
Qed.

Lemma fwp_final_insertion_sort first last v :
  0 <= first <= last -> last <= Z.of_nat (length v) -> Z.of_nat (length v) < Z.of_nat fuel ->
  fwp (final_insertion_sort comp fuel first last) v (fun _ v' => length v' = length v).
Proof.
  intros Hfl Hl Hf. unfold final_insertion_sort, Introsort.insertion_sort, threshold.
  destruct (Z.ltb_spec 16 (last - first)).
  - rewrite (proj2 (Z.eqb_neq _ _)) by lia. apply fwp_bind.
    eapply fwp_mono; [apply fwp_insertion_loop; lia|]. intros [] v1 L1.
    eapply fwp_mono; [apply fwp_unguarded_loop; rewrite ?L1; lia|]. intros _ v2 ->. done.
  - destruct (Z.eqb_spec first last); [by apply fwp_ret|].
    apply fwp_insertion_loop; lia.
Qed.

Lemma fwp_introsort_loop d first last v :
  0 <= first -> last <= Z.of_nat (length v) -> Z.of_nat (length v) < Z.of_nat fuel ->
  fwp (introsort_loop comp fuel d first last) v (fun _ v' => length v' = length v).
Proof.
  revert first last v. induction d as [|d IH]; intros first last v Hf Hl Hfuel; cbn [introsort_loop];
    (destruct (Z.ltb_spec threshold (last - first)) as [Hn|]; [unfold threshold in Hn|by apply fwp_ret]).
  - apply fwp_partial_sort; lia.
  - apply fwp_bind. eapply fwp_mono; [apply fwp_partition_pivot; lia|]. intros cut v1 [L1 Hc].
    apply fwp_bind. eapply fwp_mono; [apply IH; rewrite ?L1; lia|]. intros [] v2 L2.
    eapply fwp_mono; [apply IH; rewrite ?L2, ?L1; lia|]. intros _ v3 ->. congruence.
Qed.

Lemma fwp_sort first last v :
  0 <= first <= last -> last <= Z.of_nat (length v) -> Z.of_nat (length v) < Z.of_nat fuel ->
  fwp (sort comp fuel first last) v (fun _ v' => length v' = length v).
Proof.
  intros Hfl Hl Hf. unfold sort. destruct (first =? last); [by apply fwp_ret|]. apply fwp_bind.
  eapply fwp_mono; [apply fwp_introsort_loop; lia|]. intros [] v1 L1.
  eapply fwp_mono; [apply fwp_final_insertion_sort; rewrite ?L1; lia|]. intros _ v2 ->. done.
Qed.
End Sort.

(** [std::sort] with its budget of the length plus one rounds per loop
    never runs out of it, whatever the comparator. *)
Lemma std_sort_no_fuel_fault {X} (comp : X -> X -> bool) (v : list X) : std_sort comp v <> inl OutOfFuel.
Proof.
  pose proof (fwp_no_fuel_fault _ _ _ (fwp_sort comp (S (length v)) 0 (Z.of_nat (length v)) v
    ltac:(lia) ltac:(lia) ltac:(lia))) as H.
  unfold std_sort. destruct (sort _ _ _ _ v) as [f|[? v']]; [|done]. intros [= ->]. by apply H.
Qed.
