(* ===== verification/IntrosortPerm.v ===== *)
(** * libstdc++'s [std::sort] permutes, whatever the comparator

    The [Sorter] class asks of [std::sort] a permutation for any
    comparator, and a sorted one for a strict weak order.  The second
    half is [std_sort_sorts] of [IntrosortSorts]; this file proves the
    first for the [Introsort] model: whenever it returns (it may read out
    of range with a comparator that is not a strict weak order, see
    [std_sort_past_end]) its result is a permutation of its input.

    The proofs use a partial weakest precondition [pwp], which holds of
    a faulting run.  Every write of the routines either swaps two
    positions or moves the hole of [__unguarded_linear_insert],
    [__push_heap] or [__adjust_heap], whose value is held aside; writing
    the held value back into the hole gives a permutation of the input at
    every step ([perm_hole]).  The indices the routines touch depend on
    the comparator only through which branch is taken, and a read that
    succeeds shows its index is in range, so no hypothesis on the
    comparator is needed.  From this and [std_sort_sorts], [std_sorter]
    is libstdc++'s [std::sort] as a [Sorter]. *)

From S2P Require Import Prelude FlatContainers ContainerAlgo Introsort IntrosortSorts IntrosortFuel.
Import Introsort.

Section PartialWp.
Context {X : Type}.
Implicit Types (v : list X) (x y : X).
Local Open Scope Z_scope.

(** [m] run on [v] faults, or ends in a state satisfying [Q]. *)
Definition pwp {A} (m : M X A) v (Q : A -> list X -> Prop) : Prop :=
  match m v with inr (a, v') => Q a v' | inl _ => True end.

Lemma pwp_ret {A} (a : A) v Q : Q a v -> pwp (mret a) v Q.
Proof. done. Qed.

Lemma pwp_fail {A} f v (Q : A -> list X -> Prop) : pwp (fail f) v Q.
Proof. done. Qed.

Lemma pwp_bind {A B} (m : M X A) (k : A -> M X B) v Q :
  pwp m v (fun a v' => pwp (k a) v' Q) -> pwp (m ≫= k) v Q.
Proof. unfold pwp, mbind, M_bind. by destruct (m v) as [|[a v']]. Qed.

Lemma pwp_mono {A} (m : M X A) v (Q Q' : A -> list X -> Prop) :
  pwp m v Q -> (forall a v', Q a v' -> Q' a v') -> pwp m v Q'.
Proof. unfold pwp. destruct (m v) as [|[a v']]; auto. Qed.

Lemma pwp_rd i v Q : (forall x, at_ v i = Some x -> Q x v) -> pwp (rd i) v Q.
Proof. unfold pwp, rd, at_. intros HQ. destruct (_ : option X) eqn:E; [by apply HQ|done]. Qed.

Lemma pwp_wr i x v Q : (0 <= i < Z.of_nat (length v) -> Q tt (upd v i x)) -> pwp (wr i x) v Q.
Proof.
  intros HQ. unfold pwp, wr. destruct (Z.leb_spec 0 i), (Z.ltb_spec i (Z.of_nat (length v)));
    simpl; [apply HQ; lia|done..].
Qed.

(** Swapping two positions permutes the vector. *)
Lemma perm_swap v i j x y : at_ v i = Some x -> at_ v j = Some y -> upd (upd v i y) j x ≡ₚ v.
Proof.
  intros Hx Hy. pose proof (at_range _ _ _ Hx). pose proof (at_range _ _ _ Hy).
  apply segperm_all, segperm_swap; (done || lia).
Qed.

(** Moving the hole [i], which holds [x0] aside, to [j]: the element [y]
    at [j] is written into the hole. *)
Lemma perm_hole v v0 i j x0 y :
  0 <= i < Z.of_nat (length v) -> upd v i x0 ≡ₚ v0 -> at_ v j = Some y -> upd (upd v i y) j x0 ≡ₚ v0.
Proof.
  intros Hi Hp Hy. destruct (decide (i = j)) as [<-|Hne]; [by rewrite upd_upd_same|].
  rewrite <- (upd_upd_same v i x0 y). etrans; [|exact Hp].
  apply perm_swap; [by apply at_upd_same|by rewrite at_upd_other].
Qed.

Lemma perm_length v v' : v' ≡ₚ v -> length v' = length v.
Proof. apply Permutation_length. Qed.
End PartialWp.

(** ** Routines that keep the vector a permutation of the input *)

Create HintDb keeps.

Section Keeps.
Context {X : Type} (comp : X -> X -> bool) (fuel : nat).
Implicit Types (v : list X).
Local Open Scope Z_scope.

(** [m] run on a permutation of [v0] faults or leaves one. *)
Definition keeps {A} (m : M X A) : Prop :=
  forall v0 v, v ≡ₚ v0 -> pwp m v (fun _ v' => v' ≡ₚ v0).

Lemma keeps_ret {A} (a : A) : keeps (mret a).
Proof. intros v0 v Hv. by apply pwp_ret. Qed.

Lemma keeps_fail {A} f : keeps (A:=A) (fail f).
Proof. intros v0 v _. apply pwp_fail. Qed.

Lemma keeps_rd i : keeps (rd i).
Proof. intros v0 v Hv. by apply pwp_rd. Qed.

Lemma keeps_bind {A B} (m : M X A) (k : A -> M X B) :
  keeps m -> (forall a, keeps (k a)) -> keeps (m ≫= k).
Proof.
  intros Hm Hk v0 v Hv. apply pwp_bind. eapply pwp_mono; [by apply Hm|]. intros a v' Hv'. by apply Hk.
Qed.

Lemma keeps_if {A} (b : bool) (m1 m2 : M X A) : keeps m1 -> keeps m2 -> keeps (if b then m1 else m2).
Proof. by destruct b. Qed.

Lemma keeps_iter_swap i j : keeps (iter_swap i j).
Proof.
  intros v0 v Hv. unfold iter_swap. apply pwp_bind, pwp_rd. intros x Hx.
  apply pwp_bind, pwp_rd. intros y Hy. apply pwp_bind, pwp_wr. intros _. apply pwp_wr. intros _.
  etrans; [|exact Hv]. by apply perm_swap.
Qed.

#[local] Hint Resolve keeps_ret keeps_fail keeps_rd keeps_bind keeps_if keeps_iter_swap : keeps.

(** A routine built from reads, swaps and routines that keep the
    permutation keeps it. *)
Ltac keeps_auto :=
  repeat first [solve [eauto with keeps] | apply keeps_bind; [|intros ?] | apply keeps_if].

Lemma keeps_move_median result a b c : keeps (move_median_to_first comp result a b c).
Proof. unfold move_median_to_first. keeps_auto. Qed.

Lemma keeps_scan_up n i p : keeps (scan_up comp n i p).
Proof. revert i. induction n; intros i; cbn [scan_up]; keeps_auto. Qed.

Lemma keeps_scan_down n j p : keeps (scan_down comp n j p).
Proof. revert j. induction n; intros j; cbn [scan_down]; keeps_auto. Qed.

#[local] Hint Resolve keeps_move_median keeps_scan_up keeps_scan_down : keeps.

Lemma keeps_partition_loop n first last pivot : keeps (unguarded_partition_loop comp fuel n first last pivot).
Proof. revert first last. induction n; intros first last; cbn [unguarded_partition_loop]; keeps_auto. Qed.

Lemma keeps_partition_pivot first last : keeps (unguarded_partition_pivot comp fuel first last).
Proof. unfold unguarded_partition_pivot, unguarded_partition. keeps_auto. apply keeps_partition_loop. Qed.

(** ** The holes of insertion *)

(** [std::move_backward(first, last, last + 1)] with the element at
    [last] held aside moves the hole down to [first]. *)
Lemma hole_move_backward n first last a v v0 :
  0 <= last < Z.of_nat (length v) -> upd v last a ≡ₚ v0 ->
  pwp (move_backward_loop n first last (last + 1)) v
    (fun _ v' => 0 <= first < Z.of_nat (length v') /\ upd v' first a ≡ₚ v0).
Proof.
  revert last v. induction n as [|n IH]; intros last v Hl Hp; cbn [move_backward_loop]; [apply pwp_fail|].
  destruct (Z.eqb_spec first last) as [->|Hne]; [by apply pwp_ret|].
  apply pwp_bind, pwp_rd. intros y Hy. pose proof (at_range _ _ _ Hy).
  replace (last + 1 - 1) with last by lia. apply pwp_bind, pwp_wr. intros _.
  pose proof (IH (last - 1) (upd v last y)) as IH'. replace (last - 1 + 1) with last in IH' by lia.
  apply IH'; [rewrite length_upd; lia|by apply perm_hole].
Qed.

(** The loop of [__unguarded_linear_insert] moves the hole of [val] down. *)
Lemma hole_linear_loop n val j v v0 :
  0 <= j < Z.of_nat (length v) -> upd v j val ≡ₚ v0 ->
  pwp (unguarded_linear_insert_loop comp n val j) v (fun _ v' => v' ≡ₚ v0).
Proof.
  revert j v. induction n as [|n IH]; intros j v Hj Hp; cbn [unguarded_linear_insert_loop]; [apply pwp_fail|].
  apply pwp_bind, pwp_rd. intros y Hy. pose proof (at_range _ _ _ Hy). destruct (comp val y).
  - apply pwp_bind, pwp_wr. intros _. apply IH; [rewrite length_upd; lia|by apply perm_hole].
  - by apply pwp_wr.
Qed.

Lemma keeps_linear_insert last : keeps (unguarded_linear_insert comp fuel last).
Proof.
  intros v0 v Hv. unfold unguarded_linear_insert. apply pwp_bind, pwp_rd. intros val Hval.
  apply hole_linear_loop; [by apply at_range in Hval|by rewrite (upd_id _ _ _ Hval)].
Qed.

#[local] Hint Resolve keeps_linear_insert : keeps.

Lemma keeps_insertion_loop n first i last : keeps (insertion_sort_loop comp fuel n first i last).
Proof.
  revert i. induction n as [|n IH]; intros i v0 v Hv; cbn [insertion_sort_loop]; [apply pwp_fail|].
  destruct (i =? last); [by apply pwp_ret|].
  apply pwp_bind, pwp_rd. intros a Ha. apply pwp_bind, pwp_rd. intros b _. apply pwp_bind.
  apply (pwp_mono _ _ (fun _ v' => v' ≡ₚ v0)); [|intros _ v' Hv'; by apply IH].
  destruct (comp a b); [|by apply keeps_linear_insert].
  unfold move_backward. apply pwp_bind. eapply pwp_mono.
  - apply hole_move_backward; [by apply at_range in Ha|by rewrite (upd_id _ _ _ Ha)].
  - intros _ v1 [Hf Hp]. by apply pwp_wr.
Qed.

#[local] Hint Resolve keeps_insertion_loop : keeps.

Lemma keeps_final_insertion_sort first last : keeps (final_insertion_sort comp fuel first last).
Proof.
  assert (forall n i, keeps (unguarded_insertion_sort_loop comp fuel n i last)).
  { intros n. induction n as [|n IH]; intros i; cbn [unguarded_insertion_sort_loop]; keeps_auto. }
  unfold final_insertion_sort, Introsort.insertion_sort, unguarded_insertion_sort. keeps_auto.
Qed.

(** ** The holes of the heap *)

Lemma hole_push_loop n first hole top value v v0 :
  0 <= first + hole < Z.of_nat (length v) -> upd v (first + hole) value ≡ₚ v0 ->
  pwp (push_heap_loop comp n first hole top value) v
    (fun h v' => 0 <= first + h < Z.of_nat (length v') /\ upd v' (first + h) value ≡ₚ v0).
Proof.
  revert hole v. induction n as [|n IH]; intros hole v Hh Hp; cbn [push_heap_loop]; [apply pwp_fail|].
  cbv zeta. destruct (top <? hole); [|by apply pwp_ret].
  apply pwp_bind, pwp_rd. intros p Hpar. pose proof (at_range _ _ _ Hpar). destruct (comp p value).
  - apply pwp_bind, pwp_wr. intros _. apply IH; [rewrite length_upd; lia|by apply perm_hole].
  - by apply pwp_ret.
Qed.

Lemma hole_push_heap first hole top value v v0 :
  0 <= first + hole < Z.of_nat (length v) -> upd v (first + hole) value ≡ₚ v0 ->
  pwp (push_heap comp fuel first hole top value) v (fun _ v' => v' ≡ₚ v0).
Proof.
  intros Hh Hp. unfold push_heap. apply pwp_bind. eapply pwp_mono; [by apply hole_push_loop|].
  intros h v' [_ Hp']. by apply pwp_wr.
Qed.

Lemma hole_adjust_loop n first hole second len value v v0 :
  0 <= first + hole < Z.of_nat (length v) -> upd v (first + hole) value ≡ₚ v0 ->
  pwp (adjust_heap_loop comp n first hole second len) v
    (fun hs v' => 0 <= first + hs.1 < Z.of_nat (length v') /\ upd v' (first + hs.1) value ≡ₚ v0).
Proof.
  revert hole second v. induction n as [|n IH]; intros hole second v Hh Hp; cbn [adjust_heap_loop];
    [apply pwp_fail|].
  destruct (second <? Z.quot (len - 1) 2); [|by apply pwp_ret]. cbv zeta.
  apply pwp_bind, pwp_rd. intros a _. apply pwp_bind, pwp_rd. intros b _.
  apply pwp_bind, pwp_rd. intros c Hc. pose proof (at_range _ _ _ Hc).
  apply pwp_bind, pwp_wr. intros _. apply IH; [rewrite length_upd; lia|by apply perm_hole].
Qed.

(** [__adjust_heap] with [value] held aside for the hole [hole]. *)
Lemma hole_adjust_heap first hole len value v v0 :
  0 <= first + hole < Z.of_nat (length v) -> upd v (first + hole) value ≡ₚ v0 ->
  pwp (adjust_heap comp fuel first hole len value) v (fun _ v' => v' ≡ₚ v0).
Proof.
  intros Hh Hp. unfold adjust_heap. apply pwp_bind. eapply pwp_mono; [by apply hole_adjust_loop|].
  intros [h second] v1 [Hh1 Hp1]. cbn [fst] in Hh1, Hp1. apply pwp_bind.
  destruct (_ && _).
  - cbv zeta. apply pwp_bind, pwp_rd. intros c Hc. pose proof (at_range _ _ _ Hc).
    apply pwp_bind, pwp_wr. intros _. apply pwp_ret. apply hole_push_heap; [rewrite length_upd; lia|].
    by apply perm_hole.
  - apply pwp_ret. by apply hole_push_heap.
Qed.

Lemma keeps_pop_heap first last result : keeps (pop_heap comp fuel first last result).
Proof.
  intros v0 v Hv. unfold pop_heap. apply pwp_bind, pwp_rd. intros value Hval.
  apply pwp_bind, pwp_rd. intros x Hx. pose proof (at_range _ _ _ Hx).
  apply pwp_bind, pwp_wr. intros _. apply hole_adjust_heap; [rewrite length_upd; lia|].
  rewrite Z.add_0_r. etrans; [|exact Hv]. by apply perm_swap.
Qed.

Lemma keeps_make_heap first last : keeps (make_heap comp fuel first last).
Proof.
  assert (forall n parent len, keeps (make_heap_loop comp fuel n first parent len)) as Hloop.
  { intros n. induction n as [|n IH]; intros parent len v0 v Hv; cbn [make_heap_loop]; [apply pwp_fail|].
    apply pwp_bind, pwp_rd. intros value Hval. apply pwp_bind.
    eapply pwp_mono; [apply hole_adjust_heap; [by apply at_range in Hval|by rewrite (upd_id _ _ _ Hval)]|].
    intros [] v' Hv'. destruct (parent =? 0); [by apply pwp_ret|by apply IH]. }
  unfold make_heap. keeps_auto.
Qed.

#[local] Hint Resolve keeps_pop_heap keeps_make_heap : keeps.

Lemma keeps_partial_sort first middle last : keeps (partial_sort comp fuel first middle last).
Proof.
  assert (forall n i, keeps (heap_select_loop comp fuel n first middle i last)).
  { intros n. induction n as [|n IH]; intros i; cbn [heap_select_loop]; keeps_auto. }
  assert (forall n last', keeps (sort_heap_loop comp fuel n first last')).
  { intros n. induction n as [|n IH]; intros last'; cbn [sort_heap_loop]; keeps_auto. }
  unfold partial_sort, heap_select, sort_heap. keeps_auto.
Qed.

#[local] Hint Resolve keeps_partition_pivot keeps_partial_sort keeps_final_insertion_sort : keeps.

Lemma keeps_introsort_loop d first last : keeps (introsort_loop comp fuel d first last).
Proof. revert first last. induction d as [|d IH]; intros first last; cbn [introsort_loop]; keeps_auto. Qed.

Lemma keeps_sort first last : keeps (sort comp fuel first last).
Proof. unfold sort. keeps_auto. apply keeps_introsort_loop. Qed.
End Keeps.

(** * [std::sort] as a [Sorter] *)

Lemma std_sort_perm {X} (comp : X -> X -> bool) (v v' : list X) : std_sort comp v = inr v' -> v' ≡ₚ v.
Proof.
  pose proof (keeps_sort comp (S (length v)) 0 (Z.of_nat (length v)) v v ltac:(done)) as Hk.
  unfold pwp in Hk. unfold std_sort. destruct (sort _ _ _ _ v) as [|[[] v1]]; [done|]. by intros [= <-].
Qed.

(** [std::sort] where it is defined; a run that faults is undefined
    behaviour in C++, and leaves the vector as it was here. *)
Definition std_sort_by {X} (lt : X -> X -> bool) (v : list X) : list X :=
  match std_sort lt v with inr v' => v' | inl _ => v end.

Lemma std_sort_by_perm X (lt : X -> X -> bool) (v : list X) : std_sort_by lt v ≡ₚ v.
Proof. unfold std_sort_by. destruct (std_sort lt v) eqn:E; [done|]. by apply std_sort_perm in E. Qed.

Lemma std_sort_by_sorted X K `{Ord K} (kf : X -> K) (v : list X) :
  StronglySorted (key_le kf) (std_sort_by (fun a b => ltb (kf a) (kf b)) v).
Proof. unfold std_sort_by. destruct (std_sort_sorts kf v) as (v' & -> & _ & Hs). exact Hs. Qed.

(** libstdc++'s [std::sort] as an instance of the [Sorter] contract the
    theorems about [erase_set] and [emplace_association] assume, so that
    they hold of it.  It is not declared as an instance: the witnesses of
    the other files compute with [calgo.insertion_sorter]. *)
Definition std_sorter : calgo.Sorter := {|
  calgo.sort_by := @std_sort_by;
  calgo.sort_by_perm := std_sort_by_perm;
  calgo.sort_by_sorted := std_sort_by_sorted
|}.

(** C14: libstdc++'s [std::sort] meets the contract the [Sorter] class
    states.  Whatever the comparator, a run never exhausts its budget (its
    only faults are accesses out of range, undefined behaviour in C++, as
    [std_sort_past_end] shows with a comparator that is not a strict weak
    order); [std::__sort] on any range, with any budget, keeps the vector
    a permutation of what it was ([keeps]), so a run that returns gives a
    permutation of the vector.  With a comparator on keys under a total
    order every run returns, and its result is sorted by key. *)
Theorem std_sort_contract {X : Type} :
  (forall (comp : X -> X -> bool) v, std_sort comp v <> inl OutOfFuel) /\
  (forall (comp : X -> X -> bool) fuel first last, keeps (sort comp fuel first last)) /\
  (forall (comp : X -> X -> bool) v v', std_sort comp v = inr v' -> v' ≡ₚ v) /\
  (forall K `{Ord K} (kf : X -> K) v, exists v',
     std_sort (fun a b => ltb (kf a) (kf b)) v = inr v' /\ v' ≡ₚ v /\ StronglySorted (key_le kf) v').
Proof.
  split_and!; [apply std_sort_no_fuel_fault|apply keeps_sort|apply std_sort_perm|].
  intros K HK kf v. apply std_sort_sorts.
Qed.

(** A comparator that is not a strict weak order (it compares a residue
    modulo 5 with one modulo 3) on 20 elements: [std::sort] returns a
    permutation that is not sorted. *)
Lemma std_sort_contract_witness :
  let comp := fun a b : Z => Z.ltb (a mod 5) (b mod 3) in
  let v := [19; 3; 7; 12; 0; 5; 18; 2; 11; 9; 14; 1; 16; 4; 8; 13; 6; 17; 10; 15]%Z in
  exists v', std_sort comp v = inr v' /\ v' ≡ₚ v.
Proof.
  intros comp v. destruct (std_sort comp v) as [f|v'] eqn:E; [vm_compute in E; discriminate|].
  exists v'. split; [done|]. exact (proj1 (proj2 (proj2 std_sort_contract)) comp v v' E).
Defined.
