(* ===== verification/Collection.v ===== *)
(** * The state of [associated_collection] and its single-key operations

    [Module Collection] holds the state record (the five private members of
    the class), the read accessors, the operations [reserve], [emplace], [emplace_association],
    [compare_associations], the private [inverse_assocations] and
    [erase_if], and [erase(key)]; the well-formedness invariant [wf] (the
    order each container keeps), referential integrity [ri] (every
    association names a stored element), their preservation, and the
    functional behaviour of [erase(key)]. *)

From S2P Require Import Prelude FlatContainers FlatHint EqualRange ContainerAlgo Introsort IntrosortSorts.
Import calgo.

Module Collection.

(** The private members of [associated_collection<Element, Foreign_key,
    Key, Contributors>] (lines 65-70). *)
Record t (E K F C : Type) := mk {
  collection_ : list E;
  associations_ : list (K * F);
  contributors_ : list (K * C);
  keys_ : list K;
  foreign_keys_ : list (F * K)
}.
Arguments mk {E K F C} _ _ _ _ _.
Arguments collection_ {E K F C} _.
Arguments associations_ {E K F C} _.
Arguments contributors_ {E K F C} _.
Arguments keys_ {E K F C} _.
Arguments foreign_keys_ {E K F C} _.

Section Ops.
Context {E K F C : Type} `{Keyed E K} `{Ord K} `{Ord F} `{Sorter}.
Local Notation state := (t E K F C).

Definition empty : state := mk [] [] [] [] [].

Definition set_collection (c : list E) (st : state) : state :=
  mk c (associations_ st) (contributors_ st) (keys_ st) (foreign_keys_ st).
Definition set_associations (a : list (K * F)) (st : state) : state :=
  mk (collection_ st) a (contributors_ st) (keys_ st) (foreign_keys_ st).
Definition set_contributors (c : list (K * C)) (st : state) : state :=
  mk (collection_ st) (associations_ st) c (keys_ st) (foreign_keys_ st).
Definition set_foreign_keys (r : list (F * K)) (st : state) : state :=
  mk (collection_ st) (associations_ st) (contributors_ st) (keys_ st) r.

(** [reserve]: capacity only. *)
Definition reserve (new_capacity : nat) (st : state) : state := st.

(** [emplace]: [collection_.emplace(...)], a [flat_set] insertion ordered
    by the element's [operator<], that is by key. *)
Definition emplace (e : E) (st : state) : state :=
  set_collection (fs_insert key e (collection_ st)) st.

(** [emplace_association(k, f)]: insert at the upper bound of [k], then
    [std::sort] the [equal_range] of [k] by [std::pair]'s [operator<]. *)
Definition emplace_association (k : K) (f : F) (st : state) : state :=
  let m := mm_insert fst (k, f) (associations_ st) in
  let lo := mm_lower fst k m in
  let hi := mm_upper fst k m in
  set_associations (take lo m ++ sort_by ltb (drop lo (take hi m)) ++ drop hi m) st.

(** [compare_associations(a, b)]: [equal_values] of the two ranges. *)
Definition compare_associations (a b : K) (st : state) : bool :=
  equal_values (mm_range fst a (associations_ st)) (mm_range fst b (associations_ st)).

(** [inverse_assocations(key)]: append the reversed range of [key] to
    [foreign_keys_] and return the range. *)
Definition inverse_assocations (k : K) (st : state) : list (K * F) * state :=
  let range := mm_range fst k (associations_ st) in
  (range, set_foreign_keys (transform_into id reverse range (foreign_keys_ st)) st).

(** The body run for a removed element in [erase_if] (lines 182-185) and
    for a collapsed one in [erase(set)] (lines 135-137): report its range,
    erase the range and its contributors. *)
Definition drop_key (k : K) (st : state) : state :=
  let st' := (inverse_assocations k st).2 in
  set_contributors (mm_erase_key fst k (contributors_ st'))
    (set_associations (mm_erase_key fst k (associations_ st')) st').

(** The private [erase_if(predicate)]: [calgo::erase_if] over
    [collection_] with a lambda that drops the removed element's key. *)
Definition erase_if_pred (predicate : E -> bool) : list E -> state -> E -> bool * state :=
  fun _ st e => if predicate e then (true, drop_key (key e) st) else (false, st).

Definition erase_if (predicate : E -> bool) (st : state) : state :=
  let '(kept, st') := calgo.erase_if (erase_if_pred predicate) (collection_ st) st in
  set_collection kept st'.

(** [erase(k)]: [erase_if] on [e == k]; the caller gets [foreign_keys_]. *)
Definition erase_key (k : K) (st : state) : state :=
  erase_if (fun e => bool_decide (key e = k)) st.

(** The read accessors (lines 74-83); [begin()] and [end()] iterate
    over [collection_], so the elements in store order are what a range
    loop over the index sees. *)
Definition contributors (st : state) : list (K * C) := contributors_ st.
Definition associations (st : state) : list (K * F) := associations_ st.
Definition keys (st : state) : list K := keys_ st.
Definition foreign_keys (st : state) : list (F * K) := foreign_keys_ st.
Definition borrow_keys (st : state) : list K := keys_ st.
Definition size (st : state) : nat := length (collection_ st).
Definition elements (st : state) : list E := collection_ st.

(** ** Invariants *)

(** Well-formedness: the order each flat container keeps.  The store is
    strictly sorted by key (at most one element per key, spec I1 and I5),
    the table sorted by key then foreign key (I5), the report a strictly
    sorted set, the contributors sorted by key. *)
Definition wf (st : state) : Prop :=
  StronglySorted (key_lt key) (collection_ st) /\
  StronglySorted (key_le id) (associations_ st) /\
  StronglySorted (key_lt id) (foreign_keys_ st) /\
  StronglySorted (key_le fst) (contributors_ st).

(** Referential integrity (spec I2): every association names an element. *)
Definition ri (st : state) : Prop :=
  forall p, p ∈ associations_ st -> exists e, e ∈ collection_ st /\ key e = p.1.
End Ops.

(** ** Properties of the single-key operations *)

Section Props.
Context {E K F C : Type} `{Keyed E K} `{Ord K} `{Ord F} `{Sorter}.
Local Notation state := (t E K F C).
Implicit Types st : state.

Lemma set_collection_id st : set_collection (collection_ st) st = st.
Proof. by destruct st. Qed.

(** In a store strictly sorted by key, a key names one element. *)
Lemma sorted_key_unique (l : list E) e1 e2 :
  StronglySorted (key_lt key) l -> e1 ∈ l -> e2 ∈ l -> key e1 = key e2 -> e1 = e2.
Proof.
  unfold key_lt. induction 1 as [|x l _ IH Hx]; [set_solver|].
  rewrite Forall_forall in Hx.
  intros [->|Hm1]%elem_of_cons [->|Hm2]%elem_of_cons Hk; auto;
    [pose proof (Hx _ Hm2)|pose proof (Hx _ Hm1)]; rewrite Hk in *; by rewrite ltb_irrefl in *.
Qed.

Lemma filter_key_present (l : list E) e k :
  StronglySorted (key_lt key) l -> e ∈ l -> key e = k ->
  List.filter (fun e => bool_decide (key e = k)) l = [e].
Proof.
  intros Hl He Hk. induction Hl as [|x l Hl IH Hx]; [set_solver|]. simpl.
  rewrite Forall_forall in Hx. apply elem_of_cons in He as [->|He].
  - rewrite bool_decide_eq_true_2 by done. f_equal. apply filter_none, Forall_forall.
    intros y Hy. apply bool_decide_eq_false_2. intros <-.
    pose proof (Hx _ Hy) as Hlt. unfold key_lt in Hlt. by rewrite Hk, ltb_irrefl in Hlt.
  - rewrite bool_decide_eq_false_2; [by apply IH|]. intros Hxk.
    pose proof (Hx _ He) as Hlt. unfold key_lt in Hlt. by rewrite Hxk, Hk, ltb_irrefl in Hlt.
Qed.

Lemma sorted_nodup_keys (l : list E) : StronglySorted (key_lt key) l -> NoDup (map key l).
Proof.
  induction 1 as [|x l _ IH Hx]; simpl; constructor; [|done].
  rewrite Forall_forall in Hx. intros Hin. apply list_elem_of_In, in_map_iff in Hin as (y & Hy & Hyl).
  apply list_elem_of_In, Hx in Hyl. unfold key_lt in Hyl. by rewrite Hy, ltb_irrefl in Hyl.
Qed.

Lemma drop_key_collection k st : collection_ (drop_key k st) = collection_ st.
Proof. done. Qed.

(** [erase_if] keeps the elements the predicate rejects and runs the
    cleanup of each removed element in store order. *)
Lemma erase_if_spec predicate st :
  erase_if predicate st =
    set_collection (List.filter (fun e => negb (predicate e)) (collection_ st))
      (fold_left (fun s e => drop_key (key e) s) (List.filter predicate (collection_ st)) st).
Proof.
  unfold erase_if, calgo.erase_if, erase_if_pred.
  by rewrite (remove_if_loop_effect predicate (fun e s => drop_key (key e) s)).
Qed.

Lemma erase_if_collection predicate st :
  collection_ (erase_if predicate st) = List.filter (fun e => negb (predicate e)) (collection_ st).
Proof. by rewrite erase_if_spec. Qed.

(** [erase(k)] on a stored key removes that element, reports and erases
    its associations and its contributors. *)
Lemma erase_key_present k e st :
  wf st -> e ∈ collection_ st -> key e = k ->
  erase_key k st =
    set_collection (List.filter (fun e => negb (bool_decide (key e = k))) (collection_ st))
      (drop_key k st).
Proof.
  intros (Hc & _) He Hk. unfold erase_key. rewrite erase_if_spec.
  by rewrite (filter_key_present _ e k Hc He Hk), <- Hk.
Qed.

Lemma erase_if_none predicate st :
  (forall e, e ∈ collection_ st -> predicate e = false) -> erase_if predicate st = st.
Proof.
  intros Hnone. rewrite erase_if_spec.
  rewrite (filter_none predicate), (filter_all (fun e => negb (predicate e)));
    [apply set_collection_id|..]; apply Forall_forall; intros e He; by rewrite Hnone.
Qed.

(** [erase(k)] on an absent key changes nothing. *)
Lemma erase_key_absent k st :
  (forall e, e ∈ collection_ st -> key e <> k) -> erase_key k st = st.
Proof. intros Habs. apply erase_if_none. intros e He. by apply bool_decide_eq_false_2, Habs. Qed.

(** What [drop_key] adds to the report: the reversed pairs of the key. *)
Lemma drop_key_report k st z :
  StronglySorted (key_lt id) (foreign_keys_ st) ->
  z ∈ foreign_keys_ (drop_key k st) <->
    z ∈ foreign_keys_ st \/ exists f, (k, f) ∈ associations_ st /\ z = (f, k).
Proof.
  intros Hs. simpl. rewrite (proj2 (transform_into_set _ _ _ Hs)).
  apply or_iff_compat_l. split.
  - intros ([k' f] & [Hp Hk]%mm_range_elem & ->). simpl in Hk. subst k'. by exists f.
  - intros (f & Hp & ->). exists (k, f). by rewrite mm_range_elem.
Qed.

(** C16: [erase(k)] on a well-formed index.  On a stored key the element
    goes, every association and contributor of [k] goes, the other
    entries stay, and the returned report holds what it held plus the
    reversed pairs of [k].  On an absent key it is a silent no-op: it
    changes nothing and reports nothing (spec section 7).  Deleting twice
    is deleting once (spec section 8). *)
Theorem erase_key_spec k st :
  wf st ->
  ((exists e, e ∈ collection_ st /\ key e = k) ->
   (forall e', e' ∈ collection_ (erase_key k st) <-> e' ∈ collection_ st /\ key e' <> k) /\
   associations_ (erase_key k st) = mm_erase_key fst k (associations_ st) /\
   contributors_ (erase_key k st) = mm_erase_key fst k (contributors_ st) /\
   (forall z, z ∈ foreign_keys_ (erase_key k st) <->
      z ∈ foreign_keys_ st \/ exists f, (k, f) ∈ associations_ st /\ z = (f, k))) /\
  ((forall e, e ∈ collection_ st -> key e <> k) -> erase_key k st = st) /\
  erase_key k (erase_key k st) = erase_key k st.
Proof.
  intros Hwf. split_and!; [|apply erase_key_absent|].
  - intros (e & He & Hk). rewrite (erase_key_present k e st Hwf He Hk). split_and!; try done.
    + intros e'. simpl. rewrite elem_of_filterb, negb_true_iff, bool_decide_eq_false. done.
    + intros z. apply drop_key_report, Hwf.
  - apply erase_key_absent. unfold erase_key. rewrite erase_if_collection.
    intros e [_ He]%elem_of_filterb. by apply negb_true_iff, bool_decide_eq_false in He.
Qed.

Lemma drop_key_wf k st : wf st -> wf (drop_key k st).
Proof.
  intros (Hc & Ha & Hf & Hk). unfold wf. simpl. split_and!; try done.
  - by apply StronglySorted_filterb.
  - by apply (transform_into_set reverse).
  - by apply StronglySorted_filterb.
Qed.

Lemma fold_drop_key_wf (l : list E) st :
  wf st -> wf (fold_left (fun s e => drop_key (key e) s) l st).
Proof. revert st. induction l; simpl; auto using drop_key_wf. Qed.

Lemma fold_drop_key_collection (l : list E) st :
  collection_ (fold_left (fun s e => drop_key (key e) s) l st) = collection_ st.
Proof. revert st. induction l; simpl; [done|]. intros st. by rewrite IHl. Qed.

Lemma fold_drop_key_assoc (l : list E) st p :
  p ∈ associations_ (fold_left (fun s e => drop_key (key e) s) l st) <->
    p ∈ associations_ st /\ forall e, e ∈ l -> p.1 <> key e.
Proof.
  revert st. induction l as [|e l IH]; intros st; simpl; [set_solver|].
  rewrite IH. simpl. rewrite mm_erase_key_elem. set_solver.
Qed.

Lemma drop_key_fk_sorted k st :
  StronglySorted (key_lt id) (foreign_keys_ st) ->
  StronglySorted (key_lt id) (foreign_keys_ (drop_key k st)).
Proof. intros Hs. by apply (transform_into_set reverse). Qed.

(** Running the cleanup of elements with distinct keys reports every
    association they had and keeps what was reported before. *)
Lemma fold_drop_key_report (d : list E) st :
  StronglySorted (key_lt id) (foreign_keys_ st) -> NoDup (map key d) ->
  (forall z, z ∈ foreign_keys_ st ->
     z ∈ foreign_keys_ (fold_left (fun s e => drop_key (key e) s) d st)) /\
  (forall b f, b ∈ d -> (key b, f) ∈ associations_ st ->
     (f, key b) ∈ foreign_keys_ (fold_left (fun s e => drop_key (key e) s) d st)).
Proof.
  revert st. induction d as [|b0 d IH]; intros st Hs Hnd; simpl; [set_solver|].
  apply NoDup_cons in Hnd as [Hb0 Hnd].
  destruct (IH (drop_key (key b0) st) (drop_key_fk_sorted _ _ Hs) Hnd) as [IH1 IH2].
  split.
  - intros z Hz. apply IH1, drop_key_report; auto.
  - intros b f [->|Hb]%elem_of_cons Hbf.
    + apply IH1, drop_key_report; [done|]. right. by exists f.
    + apply IH2; [done|]. simpl. apply mm_erase_key_elem. split; [done|]. simpl.
      intros Heq. apply Hb0. rewrite <- Heq. apply list_elem_of_In, in_map, list_elem_of_In, Hb.
Qed.

(** Cascading delete keeps the store and the three tables sorted. *)
Lemma erase_if_wf predicate st : wf st -> wf (erase_if predicate st).
Proof.
  intros Hwf. rewrite erase_if_spec.
  destruct (fold_drop_key_wf (List.filter predicate (collection_ st)) st Hwf)
    as (_ & Ha & Hf & Hk).
  split_and!; try done. simpl. apply StronglySorted_filterb. apply Hwf.
Qed.

(** Cascading delete keeps every association attached to an element. *)
Lemma erase_if_ri predicate st : ri st -> ri (erase_if predicate st).
Proof.
  intros Hri p. rewrite erase_if_spec. simpl.
  intros [Hp Hkeep]%fold_drop_key_assoc. destruct (Hri p Hp) as (e & He & Hek).
  exists e. split; [|done]. apply elem_of_filterb. split; [done|].
  destruct (predicate e) eqn:Hpe; [|done]. exfalso. apply (Hkeep e); [|done].
  by apply elem_of_filterb.
Qed.

(** C21: The private [erase_if] keeps both invariants: on a well-formed
    index the store and the three tables stay sorted, and every
    association left names an element that is left (spec I2, I5). *)
Theorem erase_if_invariants predicate st :
  (wf st -> wf (erase_if predicate st)) /\ (ri st -> ri (erase_if predicate st)).
Proof. split; [apply erase_if_wf|apply erase_if_ri]. Qed.

Lemma emplace_wf e st : wf st -> wf (emplace e st).
Proof.
  intros (Hc & Ha & Hf & Hk). split_and!; try done. simpl. by apply fs_insert_sorted.
Qed.

(** Inserting an element whose key is stored is a silent no-op. *)
Lemma emplace_present e st :
  wf st -> (exists e', e' ∈ collection_ st /\ key e' = key e) -> emplace e st = st.
Proof.
  intros (Hc & _) Hex. unfold emplace.
  rewrite fs_insert_sorted_insert, sorted_insert_present; [apply set_collection_id|done..|].
  eapply StronglySorted_weaken; [|exact Hc]. intros a b. apply ltb_leb.
Qed.

(** Inserting an element of a new key adds it. *)
Lemma emplace_absent e st :
  wf st -> (forall e', e' ∈ collection_ st -> key e' <> key e) ->
  collection_ (emplace e st) ≡ₚ e :: collection_ st.
Proof.
  intros (Hc & _) Hnew. simpl. rewrite fs_insert_sorted_insert.
  - by apply sorted_insert_absent.
  - eapply StronglySorted_weaken; [|exact Hc]. intros a b. apply ltb_leb.
Qed.

(** C17: [emplace] on a well-formed index (spec section 7, first write
    wins): an element whose key is stored changes nothing; an element of a
    new key is added; either way the store stays strictly sorted, so no
    two elements share a key (spec I1). *)
Theorem emplace_spec e st :
  wf st ->
  ((exists e', e' ∈ collection_ st /\ key e' = key e) -> emplace e st = st) /\
  ((forall e', e' ∈ collection_ st -> key e' <> key e) ->
     collection_ (emplace e st) ≡ₚ e :: collection_ st) /\
  wf (emplace e st) /\
  NoDup (map key (collection_ (emplace e st))).
Proof.
  intros Hwf. split_and!; [by apply emplace_present|by apply emplace_absent|by apply emplace_wf|].
  apply sorted_nodup_keys, emplace_wf, Hwf.
Qed.

Lemma emplace_ri e st : wf st -> ri st -> ri (emplace e st).
Proof.
  intros (Hc & _) Hri p Hp. destruct (Hri p Hp) as (e' & He' & Hk).
  exists e'. split; [|done]. simpl. by apply fs_insert_sorted.
Qed.

(** ** [emplace_association] *)

Lemma lex_sorted_key_sorted (A : list (K * F)) :
  StronglySorted (key_le id) A -> StronglySorted (key_le fst) A.
Proof. apply StronglySorted_weaken. unfold key_le, id. intros a b. apply pair_leb_fst. Qed.

Lemma lex_le_of_fst_lt (a b : K * F) : ltb a.1 b.1 = true -> key_le id a b.
Proof. intros Hab. unfold key_le, id. apply ltb_leb. by apply pair_ltb_fst. Qed.

Lemma sort_by_elem (l : list (K * F)) z : z ∈ sort_by ltb l <-> z ∈ l.
Proof. by rewrite sort_by_perm. Qed.

Lemma mm_insert_outside k f (A : list (K * F)) :
  StronglySorted (key_le fst) A ->
  List.filter (key_below fst k) (mm_insert fst (k, f) A) = List.filter (key_below fst k) A /\
  List.filter (key_above fst k) (mm_insert fst (k, f) A) = List.filter (key_above fst k) A.
Proof.
  intros HA. destruct (mm_insert_split fst (k, f) A HA) as (-> & _ & _).
  rewrite !List.filter_app. simpl. unfold key_below, key_above. simpl. rewrite ltb_irrefl.
  by rewrite <- !List.filter_app, !take_drop.
Qed.

(** [emplace_association(k, f)] in closed form: the entries below [k],
    the range of [k] with [(k, f)] added and sorted, the entries above. *)
Lemma emplace_association_spec k f st :
  StronglySorted (key_le id) (associations_ st) ->
  associations_ (emplace_association k f st) =
    List.filter (key_below fst k) (associations_ st) ++
    sort_by ltb ((k, f) :: mm_range fst k (associations_ st)) ++
    List.filter (key_above fst k) (associations_ st).
Proof.
  intros HA. pose proof (lex_sorted_key_sorted _ HA) as HAk.
  pose proof (mm_insert_sorted fst (k, f) _ HAk) as Hm.
  destruct (mm_equal_range_split fst k _ Hm) as (E1 & E2 & E3).
  destruct (mm_insert_outside k f _ HAk) as [B1 B3].
  unfold emplace_association, set_associations. cbn [associations_].
  rewrite E1, E2, E3, B1, B3. do 2 f_equal.
  apply sort_by_canonical. unfold mm_range.
  etrans; [apply Permutation_filterb, mm_insert_perm|]. simpl.
  by rewrite (proj2 (equivb_eq k k) eq_refl).
Qed.

Lemma emplace_association_perm k f st :
  StronglySorted (key_le id) (associations_ st) ->
  associations_ (emplace_association k f st) ≡ₚ (k, f) :: associations_ st.
Proof.
  intros HA. rewrite emplace_association_spec by done. rewrite sort_by_perm.
  pose proof (sorted_split3 fst k _ (lex_sorted_key_sorted _ HA)) as Hs.
  cbn [app]. rewrite <- Permutation_middle. f_equiv. by rewrite <- Hs.
Qed.

Lemma emplace_association_wf k f st : wf st -> wf (emplace_association k f st).
Proof.
  intros (Hc & HA & Hf & Hk). split_and!; try done. rewrite emplace_association_spec by done.
  assert (forall z, z ∈ sort_by ltb ((k, f) :: mm_range fst k (associations_ st)) -> z.1 = k)
    as Hmid.
  { intros z [->|[_ Hz]%mm_range_elem]%sort_by_elem%elem_of_cons; done. }
  apply StronglySorted_app_2; [|by apply StronglySorted_filterb|apply StronglySorted_app_2].
  - intros a b [_ Ha]%elem_of_filterb Hb. apply lex_le_of_fst_lt.
    apply elem_of_app in Hb as [Hb%Hmid|[_ Hb]%elem_of_filterb]; unfold key_below in Ha.
    + by rewrite Hb.
    + unfold key_above in Hb. eauto using ltb_trans.
  - intros a b Ha%Hmid [_ Hb]%elem_of_filterb. apply lex_le_of_fst_lt. by rewrite Ha.
  - exact (sort_by_sorted (K * F) (K * F) id _).
  - by apply StronglySorted_filterb.
Qed.

Lemma range_none k' (l : list (K * F)) :
  (forall z, z ∈ l -> z.1 <> k') -> List.filter (fun y => equivb y.1 k') l = [].
Proof.
  intros Hl. apply filter_none, Forall_forall. intros z Hz.
  destruct (equivb z.1 k') eqn:Heq; [|done]. apply equivb_eq in Heq. by destruct (Hl z Hz).
Qed.

Lemma range_all k' (l : list (K * F)) :
  (forall z, z ∈ l -> z.1 = k') -> List.filter (fun y => equivb y.1 k') l = l.
Proof. intros Hl. apply filter_all, Forall_forall. intros z Hz. by apply equivb_eq, Hl. Qed.

(** After [emplace_association(k, f)] the range of [k] is its old range
    with [f] added, in sorted order; every other key keeps its range. *)
Lemma emplace_association_range k f k' st :
  StronglySorted (key_le id) (associations_ st) ->
  mm_range fst k' (associations_ (emplace_association k f st)) =
    if bool_decide (k' = k) then sort_by ltb ((k, f) :: mm_range fst k (associations_ st))
    else mm_range fst k' (associations_ st).
Proof.
  intros HA. rewrite emplace_association_spec by done.
  set (S := sort_by ltb ((k, f) :: mm_range fst k (associations_ st))).
  assert (forall z, z ∈ S -> z.1 = k) as Hmid.
  { intros z [->|[_ Hz]%mm_range_elem]%sort_by_elem%elem_of_cons; done. }
  assert (forall z, z ∈ List.filter (key_below fst k) (associations_ st) ++
                         List.filter (key_above fst k) (associations_ st) -> z.1 <> k) as Hout.
  { intros z [[_ Hz]%elem_of_filterb|[_ Hz]%elem_of_filterb]%elem_of_app Hzk;
      unfold key_below, key_above in Hz; rewrite Hzk, ltb_irrefl in Hz; done. }
  unfold mm_range at 1 2. rewrite !List.filter_app.
  case_bool_decide as Hk; [subst k'|].
  - rewrite (range_all k S Hmid), !range_none by (intros z Hz; apply Hout; set_solver).
    by rewrite app_nil_r.
  - rewrite (range_none k' S) by (intros z Hz%Hmid; congruence).
    rewrite (sorted_split3 fst k (associations_ st)) at 3 by (by apply lex_sorted_key_sorted).
    rewrite !List.filter_app, (range_none k' (mm_range fst k _)); [done|].
    intros z [_ Hz]%mm_range_elem. congruence.
Qed.

(** C20: [emplace_association(k, f)] on a well-formed index adds exactly
    the entry [(k, f)] (a second copy if it is there already) and keeps
    the table sorted by key then foreign key; the range of [k] is its old
    range with [f] added, in sorted order, and every other key keeps its
    range. *)
Theorem emplace_association_table k f st :
  wf st ->
  associations_ (emplace_association k f st) ≡ₚ (k, f) :: associations_ st /\
  StronglySorted (key_le id) (associations_ (emplace_association k f st)) /\
  (forall k', mm_range fst k' (associations_ (emplace_association k f st)) =
     if bool_decide (k' = k) then sort_by ltb ((k, f) :: mm_range fst k (associations_ st))
     else mm_range fst k' (associations_ st)).
Proof.
  intros Hwf. split_and!; [apply emplace_association_perm, Hwf|apply emplace_association_wf, Hwf|].
  intros k'. apply emplace_association_range, Hwf.
Qed.

End Props.

(** ** Building an index through the API *)

Section Build.
Context {E K F C : Type} `{Keyed E K} `{Ord K} `{Ord F} `{Sorter}.
Local Notation state := (t E K F C).

(** Emplace the elements, then link each pair: the calls main.cpp makes
    on one index (lines 50-53 and 60-65). *)
Definition build (es : list E) (links : list (K * F)) : state :=
  fold_left (fun st p => emplace_association p.1 p.2 st) links
    (fold_left (fun st e => emplace e st) es empty).

Lemma empty_wf : wf (empty : state).
Proof. repeat split; constructor. Qed.

Lemma build_wf es links : wf (build es links).
Proof.
  unfold build. assert (wf (fold_left (fun st e => emplace e st) es (empty : state))) as Hw.
  { generalize (empty : state) empty_wf. induction es; simpl; auto using emplace_wf. }
  revert Hw. generalize (fold_left (fun st e => emplace e st) es (empty : state)).
  induction links; simpl; auto using emplace_association_wf.
Qed.

(** Referential integrity, decided. *)
Definition ri_b (st : state) : bool :=
  forallb (fun p => existsb (fun e => bool_decide (key e = p.1)) (collection_ st))
    (associations_ st).

Lemma ri_b_spec st : ri_b st = true <-> ri st.
Proof.
  unfold ri_b, ri. rewrite forallb_forall. setoid_rewrite <- list_elem_of_In.
  setoid_rewrite existsb_exists. setoid_rewrite <- list_elem_of_In.
  setoid_rewrite bool_decide_eq_true. done.
Qed.
End Build.

(** ** The element types of main.cpp *)

(** ** [emplace_association] as the code runs it

    The insertion, boost's [equal_range] loop on the key just inserted, and
    libstdc++'s [std::sort] on that range of the vector, in place. *)

Section StdSort.
Context {E K F C : Type} `{Keyed E K} `{Ord K} `{Ord F}.
Local Notation state := (t E K F C).

Definition emplace_association_std (k : K) (f : F) (st : state) : Introsort.fault + state :=
  let m := mm_insert fst (k, f) (associations_ st) in
  let '(lo, hi) := mm_equal_range fst k m in
  match Introsort.sort ltb (S (length m)) (Z.of_nat lo) (Z.of_nat hi) m with
  | inl e => inl e
  | inr (_, m') => inr (set_associations m' st)
  end.

(** [compare_associations(a, b)] as the code runs it: [equal_range] of
    each key, a pair of iterators into [associations_], handed to
    [calgo::equal_values], which wraps each in a [calgo::iterable]. *)
Definition compare_associations_boost (a b : K) (st : state) : bool :=
  let m := associations_ st in
  equal_values_pairs m (mm_equal_range fst a m) m (mm_equal_range fst b m).

(** [inverse_assocations(key)] as the code runs it: the pair of iterators
    [equal_range] returns, its entries reversed into [foreign_keys_]
    through [calgo::back_inserter], an insert iterator on the flat set
    with the hint [end()]; the pair is returned. *)
Definition inverse_assocations_boost (k : K) (st : state) : (nat * nat) * state :=
  let m := associations_ st in
  let range := mm_equal_range fst k m in
  (range, set_foreign_keys
            (container (transform (insert_assign id) reverse (range_of m (iterable_of_pair range))
                          (back_inserter (foreign_keys_ st)))) st).

(** On a table sorted by key, the [calgo::iterable] of boost's
    [equal_range] holds the entries of the key. *)
Lemma range_of_equal_range (k : K) (m : list (K * F)) :
  StronglySorted (key_le id) m -> range_of m (iterable_of_pair (mm_equal_range fst k m)) = mm_range fst k m.
Proof.
  intros Hm%lex_sorted_key_sorted. rewrite (mm_equal_range_sorted fst k m Hm).
  destruct (mm_bounds fst k m Hm) as [E1 E2]. unfold mm_count. rewrite <- E2, <- E1.
  exact (proj1 (proj2 (mm_equal_range_split fst k m Hm))).
Qed.

Lemma emplace_association_std_eq k f (st : state) :
  wf st -> emplace_association_std k f st = inr (emplace_association k f st).
Proof.
  intros (_ & HA & _). pose proof (mm_insert_sorted fst (k, f) _ (lex_sorted_key_sorted _ HA)) as Hm.
  unfold emplace_association_std, emplace_association.
  set (m := mm_insert fst (k, f) (associations_ st)) in *.
  rewrite (mm_equal_range_sorted fst k m Hm). destruct (mm_bounds fst k m Hm) as [-> ->].
  pose proof (f_equal length (sorted_split3 fst k m Hm)) as Hl. rewrite !length_app in Hl.
  unfold mm_count. rewrite sort_total by lia. rewrite !Nat2Z.id. do 3 f_equal.
  unfold seg. rewrite !Nat2Z.id, take_drop_commute.
  assert (Hx : forall a r : nat, (a + (a + r - a) = a + r)%nat) by lia. by rewrite Hx.
Qed.

(** C15: On a well-formed index, the table operations as the code runs
    them, with boost's binary [equal_range], [calgo::iterable],
    [std::inserter] on the flat set and libstdc++'s [std::sort] of a range
    in place, compute what the model computes: [emplace_association] never
    faults and sorts the key's range as the insertion sort does, whatever
    its size; [compare_associations] compares the two keys' entries; and
    [inverse_assocations] returns the iterators of the key's entries and
    reports them reversed. *)
Theorem collection_as_run_spec k f a b (st : state) :
  wf st ->
  emplace_association_std k f st = inr (emplace_association k f st) /\
  compare_associations_boost a b st = compare_associations a b st /\
  range_of (associations_ st) (iterable_of_pair (inverse_assocations_boost k st).1) =
    (inverse_assocations k st).1 /\
  (inverse_assocations_boost k st).2 = (inverse_assocations k st).2.
Proof.
  intros Hwf. pose proof Hwf as (_ & HA & _).
  split_and!; [by apply emplace_association_std_eq| |by apply range_of_equal_range|].
  - unfold compare_associations_boost, compare_associations, equal_values_pairs.
    by rewrite !range_of_equal_range.
  - unfold inverse_assocations_boost, inverse_assocations, transform_into. simpl.
    by rewrite range_of_equal_range.
Qed.
End StdSort.

(** [using dog_key = std::tuple<int, float>]: the floats main.cpp uses
    ([0.f], [1.f]) are whole numbers, modelled by [Z]. *)
Definition dog_key : Type := Z * Z.
(** [struct dog { dog_key key; ... }], equal and ordered by its key. *)
Record dog := mk_dog { dkey : dog_key }.
#[export] Instance dog_keyed : Keyed dog dog_key := dkey.

(** [using cat_key = std::tuple<char, int>]: a [char] by its code. *)
Definition cat_key : Type := Z * Z.
Record cat := mk_cat { ckey : cat_key }.
#[export] Instance cat_keyed : Keyed cat cat_key := ckey.

(** ** Concrete instances of the theorems above *)

Section Witnesses.
Local Open Scope Z_scope.
Local Notation dogs := (Collection.t dog dog_key cat_key cat_key).

Definition pets : dogs := build [mk_dog (1, 0); mk_dog (2, 0)] [((1, 0), (97, 0)); ((2, 0), (98, 0))].

Lemma pets_d1 : mk_dog (1, 0) ∈ collection_ pets.
Proof. apply list_elem_of_In. vm_compute. auto. Qed.

Lemma erase_key_spec_witness :
  wf pets /\
  ((exists e, e ∈ collection_ pets /\ key e = (1, 0)) ->
   (forall e', e' ∈ collection_ (erase_key (1, 0) pets) <-> e' ∈ collection_ pets /\ key e' <> (1, 0)) /\
   associations_ (erase_key (1, 0) pets) = mm_erase_key fst (1, 0) (associations_ pets) /\
   contributors_ (erase_key (1, 0) pets) = mm_erase_key fst (1, 0) (contributors_ pets) /\
   (forall z, z ∈ foreign_keys_ (erase_key (1, 0) pets) <->
      z ∈ foreign_keys_ pets \/ exists f, ((1, 0), f) ∈ associations_ pets /\ z = (f, (1, 0)))) /\
  ((forall e, e ∈ collection_ pets -> key e <> (1, 0)) -> erase_key (1, 0) pets = pets) /\
  erase_key (1, 0) (erase_key (1, 0) pets) = erase_key (1, 0) pets.
Proof. split; [apply build_wf|]. exact (erase_key_spec (1, 0) pets (build_wf _ _)). Defined.

Lemma emplace_spec_witness :
  wf pets /\
  ((exists e', e' ∈ collection_ pets /\ key e' = key (mk_dog (3, 0))) ->
     emplace (mk_dog (3, 0)) pets = pets) /\
  ((forall e', e' ∈ collection_ pets -> key e' <> key (mk_dog (3, 0))) ->
     collection_ (emplace (mk_dog (3, 0)) pets) ≡ₚ mk_dog (3, 0) :: collection_ pets) /\
  wf (emplace (mk_dog (3, 0)) pets) /\
  NoDup (map key (collection_ (emplace (mk_dog (3, 0)) pets))).
Proof. split; [apply build_wf|]. apply (emplace_spec _ _ (build_wf _ _)). Defined.

Lemma emplace_association_table_witness :
  wf pets /\
  associations_ (emplace_association (2, 0) (97, 0) pets) ≡ₚ
    ((2, 0), (97, 0)) :: associations_ pets /\
  StronglySorted (key_le id) (associations_ (emplace_association (2, 0) (97, 0) pets)) /\
  (forall k', mm_range fst k' (associations_ (emplace_association (2, 0) (97, 0) pets)) =
     if bool_decide (k' = (2, 0)) then sort_by ltb (((2, 0), (97, 0)) :: mm_range fst (2, 0) (associations_ pets))
     else mm_range fst k' (associations_ pets)).
Proof. split; [apply build_wf|]. apply (emplace_association_table _ _ _ (build_wf _ _)). Defined.


Lemma collection_as_run_spec_witness :
  wf pets /\
  emplace_association_std (2, 0) (97, 0) pets = inr (emplace_association (2, 0) (97, 0) pets) /\
  compare_associations_boost (1, 0) (2, 0) pets = compare_associations (1, 0) (2, 0) pets /\
  range_of (associations_ pets) (iterable_of_pair (inverse_assocations_boost (2, 0) pets).1) =
    (inverse_assocations (2, 0) pets).1 /\
  (inverse_assocations_boost (2, 0) pets).2 = (inverse_assocations (2, 0) pets).2.
Proof. split; [apply build_wf|]. apply (collection_as_run_spec _ _ _ _ _ (build_wf _ _)). Defined.
End Witnesses.

End Collection.
