(* ===== verification/EraseSet.v ===== *)
(** * [associated_collection::erase(set_of_assocations)]

    Delete-by-association-set (lines 115-142 of associated_collection.hpp),
    in its three steps:
    - step 1 ([erase_step1]): [calgo::erase_if] over [associations_]; an
      entry in the set is removed, and when [associations_.count(key)] is
      one the element of that key and its contributors go too.  The count
      runs on the vector [std::remove_if] is compacting;
    - step 2: [calgo::sort] of [collection_] with the comparator
      [resort_cmp]: equal association sets first, else [std::get<1>] of the
      keys;
    - step 3: [calgo::erase_duplicates_if] with [collapse_pred]: an element
      whose association set equals the last kept one is dropped, its range
      reported and erased.
    The theorems give what each step does, that referential integrity
    survives, and the ways the result departs from the specification. *)

From S2P Require Import Prelude FlatContainers EqualRange ContainerAlgo Introsort IntrosortPerm Collection.
Import calgo.
Import Collection.

Module EraseSet.

Section Defs.
Context {E K V F C : Type} `{Keyed E K} `{Ord K} `{TupleValue K V} `{Ord V} `{Ord F}
  `{Sorter}.
Local Notation state := (Collection.t E K F C).

(** Lines 119-120: [calgo::erase_value(collection_, value.first)], with
    the element's [operator==] against a key, then [contributors_.erase]. *)
Definition remove_owner (k : K) (st : state) : state :=
  set_contributors (mm_erase_key fst k (contributors_ st))
    (set_collection (erase_value (fun e k => bool_decide (key e = k)) (collection_ st) k) st).

(** Lines 118-121: what the lambda of step 1 does to an entry of the set;
    [phys] is the vector [associations_.count] reads, with boost's
    binary [equal_range]. *)
Definition step1_effect (phys : list (K * F)) (value : K * F) (st : state) : state :=
  if equals_one (mm_count_boost fst value.1 phys) then remove_owner value.1 st else st.

(** Lines 116-125: the lambda of step 1. *)
Definition step1_pred (set_of_assocations : list (K * F))
    : list (K * F) -> state -> K * F -> bool * state :=
  fun phys st value =>
    if contains set_of_assocations value then (true, step1_effect phys value st)
    else (false, st).

Definition erase_step1 (set_of_assocations : list (K * F)) (st : state) : state :=
  let '(kept, st') :=
    calgo.erase_if (step1_pred set_of_assocations) (associations_ st) st in
  set_associations kept st'.

(** Lines 127-130: the comparator of the re-sort. *)
Definition resort_cmp (st : state) (a b : E) : bool :=
  if compare_associations (key a) (key b) st then true
  else ltb (tuple_value (key a)) (tuple_value (key b)).

(** Lines 132-140: the predicate of the collapse. *)
Definition collapse_pred (st : state) (a b : E) : bool * state :=
  if compare_associations (key a) (key b) st then (true, drop_key (key b) st)
  else (false, st).

Definition erase_set (set_of_assocations : list (K * F)) (st : state) : state :=
  let st1 := erase_step1 set_of_assocations st in
  let sorted := sort_by (resort_cmp st1) (collection_ st1) in
  let '(kept, st3) := erase_duplicates_if collapse_pred sorted st1 in
  set_collection kept st3.

(** The same, with libstdc++'s [std::sort] (file [Introsort]) in place of
    the sort the [Sorter] class abstracts: an access it makes out of the
    vector is the error. *)
Definition erase_set_std (set_of_assocations : list (K * F)) (st : state)
    : Introsort.fault + state :=
  let st1 := erase_step1 set_of_assocations st in
  match Introsort.std_sort (resort_cmp st1) (collection_ st1) with
  | inl f => inl f
  | inr sorted =>
      let '(kept, st3) := erase_duplicates_if collapse_pred sorted st1 in
      inr (set_collection kept st3)
  end.
End Defs.

(** ** Step 1 *)

Section Step1.
Context {E K V F C : Type} `{Keyed E K} `{Ord K} `{TupleValue K V} `{Ord V} `{Ord F}
  `{Sorter}.
Local Notation state := (Collection.t E K F C).
Implicit Types st : state.

(** The vector [count] reads while [std::remove_if] handles entry [x]:
    the entries kept so far, then the original from that length on. *)
Definition step1_view (S A pre : list (K * F)) : list (K * F) :=
  List.filter (fun y => negb (contains S y)) pre ++
  drop (length (List.filter (fun y => negb (contains S y)) pre)) A.

(** On a table sorted by key, the count on that vector is the count on
    the table, or both are at least two. *)
Lemma mm_count_drop k n (l : list (K * F)) :
  mm_count fst k l = 0 -> mm_count fst k (drop n l) = 0.
Proof. rewrite <- (take_drop n l) at 1. rewrite mm_count_app. lia. Qed.

Lemma step1_view_count S A pre x rest :
  StronglySorted (key_le fst) A -> A = pre ++ x :: rest ->
  mm_count fst x.1 (step1_view S A pre) = mm_count fst x.1 A \/
  (2 <= mm_count fst x.1 (step1_view S A pre) /\ 2 <= mm_count fst x.1 A).
Proof.
  intros HA ->. set (k := x.1). unfold step1_view.
  assert (Hpre : forall y, y ∈ pre -> key_le fst y x)
    by (intros y Hy; eapply StronglySorted_app_1_elem_of; [exact HA|done|set_solver]).
  assert (Hsplit : pre = List.filter (key_below fst k) pre ++ mm_range fst k pre).
  { rewrite (sorted_split3 fst k pre) at 1 by (eapply StronglySorted_app_1_l; exact HA).
    rewrite (filter_none (key_above fst k)); [by rewrite app_nil_r|].
    apply Forall_forall. intros y Hy. unfold key_above. apply Hpre in Hy.
    unfold key_le, leb in Hy. by apply negb_true_iff in Hy. }
  assert (HPL : forall y, y ∈ List.filter (key_below fst k) pre -> y.1 <> k).
  { intros y [_ Hy]%elem_of_filterb. unfold key_below in Hy. by apply ltb_neq. }
  assert (HPK : forall y, y ∈ mm_range fst k pre -> y.1 = k) by (intros y [_ ?]%mm_range_elem; done).
  assert (Hcx : 1 <= mm_count fst k (x :: rest)) by (apply (mm_count_pos _ _ _ x); set_solver).
  revert HPL HPK Hsplit. generalize (List.filter (key_below fst k) pre) as PL.
  generalize (mm_range fst k pre) as PK. intros PK PL HPL HPK ->. clear Hpre HA.
  set (notS := fun y => negb (contains S y)).
  assert (Hlen : length (List.filter notS (PL ++ PK)) <= length (PL ++ PK))
    by apply filter_length_le.
  rewrite (drop_app_le (PL ++ PK) (x :: rest)) by lia.
  assert (HcPL : mm_count fst k PL = 0) by (by apply mm_count_zero).
  rewrite List.filter_app in *. destruct (List.filter notS PK) as [|y ys] eqn:HK.
  - left. rewrite app_nil_r in *. pose proof (filter_length_le notS PL).
    rewrite (drop_app_le PL PK) by lia. rewrite !mm_count_app.
    rewrite (mm_count_zero fst k (List.filter notS PL)), (mm_count_drop k _ PL HcPL);
      [lia|]. intros z [Hz _]%elem_of_filterb. by apply HPL.
  - assert (y ∈ PK) as HyK by (eapply (proj1 (elem_of_filterb notS PK y)); rewrite HK; set_solver).
    right. rewrite !mm_count_app.
    pose proof (mm_count_pos fst k (List.filter notS PL ++ y :: ys) y ltac:(set_solver) (HPK y HyK)).
    pose proof (mm_count_pos fst k PK y HyK (HPK y HyK)).
    pose proof (mm_count_pos fst k (drop (length (List.filter notS PL ++ y :: ys)) (PL ++ PK) ++ x :: rest) x
                  ltac:(set_solver) eq_refl).
    rewrite mm_count_app in *. lia.
Qed.

(** Step 1 in closed form, on a table sorted by key: the entries of the
    set leave the table, and each of them runs the [count == 1] cleanup
    with the count taken on the whole table. *)
Lemma erase_step1_spec S st :
  StronglySorted (key_le fst) (associations_ st) ->
  erase_step1 S st =
    set_associations (List.filter (fun y => negb (contains S y)) (associations_ st))
      (fold_left (fun (s : state) x => step1_effect (associations_ st) x s)
         (List.filter (contains S) (associations_ st)) st).
Proof.
  intros HA. set (A := associations_ st).
  assert (Hview : forall pre x rest, A = pre ++ x :: rest -> contains S x = true -> forall s : state,
    step1_effect (step1_view S A pre) x s = step1_effect A x s).
  { intros pre x rest HAx _ s. unfold step1_effect, equals_one.
    rewrite (mm_count_boost_sorted fst x.1 A HA).
    enough ((mm_count_boost fst x.1 (step1_view S A pre) =? 1) = (mm_count fst x.1 A =? 1)) as ->
      by done.
    pose proof (step1_view_count S A pre x rest HA HAx) as Hc.
    pose proof (step1_view_count_boost fst (fun y => negb (contains S y)) pre rest x) as Hb.
    rewrite <- HAx in Hb. specialize (Hb HA). cbv zeta in Hb. unfold step1_view in Hc |- *.
    apply Bool.eq_iff_eq_true. rewrite !Nat.eqb_eq, Hb. destruct Hc as [->|[? ?]]; [done|lia]. }
  pose proof (remove_if_loop_view (contains S) step1_effect (fun x (s : state) => step1_effect A x s)
                A [] A st eq_refl Hview) as Hl.
  cbn [List.filter app] in Hl. unfold erase_step1, calgo.erase_if, step1_pred.
  fold A. rewrite Hl. done.
Qed.

Lemma step1_fold_fields A (L : list (K * F)) st :
  StronglySorted (key_le fst) A ->
  foreign_keys_ (fold_left (fun (s : state) x => step1_effect A x s) L st) = foreign_keys_ st /\
  associations_ (fold_left (fun (s : state) x => step1_effect A x s) L st) = associations_ st /\
  (forall e, e ∈ collection_ (fold_left (fun (s : state) x => step1_effect A x s) L st) <->
     e ∈ collection_ st /\ forall x, x ∈ L -> mm_count fst x.1 A = 1 -> key e <> x.1).
Proof.
  intros HA. revert st. induction L as [|x L IH]; intros st; simpl; [set_solver|].
  destruct (IH (step1_effect A x st)) as (IH1 & IH2 & IH3). rewrite IH1, IH2.
  assert (foreign_keys_ (step1_effect A x st) = foreign_keys_ st /\
          associations_ (step1_effect A x st) = associations_ st /\
          forall e, e ∈ collection_ (step1_effect A x st) <->
            e ∈ collection_ st /\ (mm_count fst x.1 A = 1 -> key e <> x.1)) as (E1 & E2 & E3).
  { unfold step1_effect, equals_one. rewrite mm_count_boost_sorted by done.
    destruct (Nat.eqb_spec (mm_count fst x.1 A) 1) as [Hc|Hc]; split_and!; try done;
      intros e; simpl; [rewrite erase_value_spec, elem_of_filterb, negb_true_iff,
                          bool_decide_eq_false|]; naive_solver. }
  split_and!; [done|done|]. intros e. rewrite IH3, E3. set_solver.
Qed.

(** C1: Step 1 removes the element of a key exactly when the table holds a
    single association for that key and the set severs it. *)
Theorem erase_step1_owner S st e :
  StronglySorted (key_le fst) (associations_ st) ->
  e ∈ collection_ (erase_step1 S st) <->
    e ∈ collection_ st /\
    ~ (exists x, x ∈ associations_ st /\ x ∈ S /\ x.1 = key e /\
                 mm_count fst (key e) (associations_ st) = 1).
Proof.
  intros HA. rewrite erase_step1_spec by done. simpl.
  rewrite (proj2 (proj2 (step1_fold_fields _ _ _ HA))). apply and_iff_compat_l. split.
  - intros Hall (x & HxA & HxS & Hxk & Hc). apply (Hall x); [|by rewrite Hxk|done].
    apply elem_of_filterb. by rewrite contains_spec.
  - intros Hnot x [HxA HxS%contains_spec]%elem_of_filterb Hc Hxk.
    apply Hnot. exists x. rewrite Hxk. done.
Qed.

(** Step 1 reports nothing: [foreign_keys_] is not touched. *)
Theorem erase_step1_report S st :
  StronglySorted (key_le fst) (associations_ st) ->
  foreign_keys_ (erase_step1 S st) = foreign_keys_ st.
Proof. intros HA. rewrite erase_step1_spec by done. by apply step1_fold_fields. Qed.

Lemma erase_step1_associations S st :
  StronglySorted (key_le fst) (associations_ st) ->
  associations_ (erase_step1 S st) = List.filter (fun y => negb (contains S y)) (associations_ st).
Proof. intros HA. by rewrite erase_step1_spec. Qed.

Lemma erase_step1_ri S st :
  StronglySorted (key_le fst) (associations_ st) -> ri st -> ri (erase_step1 S st).
Proof.
  intros HA Hri p. rewrite erase_step1_associations by done.
  intros [Hp HpS]%elem_of_filterb. destruct (Hri p Hp) as (e & He & Hek).
  exists e. split; [|done]. rewrite erase_step1_spec by done. simpl.
  apply (proj2 (proj2 (step1_fold_fields _ _ _ HA))). split; [done|].
  intros x [HxA HxS]%elem_of_filterb Hc Hxk. rewrite Hek in Hxk. symmetry in Hxk.
  rewrite Hxk in Hc. rewrite (mm_count_one fst p.1 _ x p Hc HxA Hp Hxk eq_refl) in HxS.
  by rewrite HxS in HpS.
Qed.
End Step1.

(** ** Steps 2 and 3, and the whole operation *)

Section Whole.
Context {E K V F C : Type} `{Keyed E K} `{Ord K} `{TupleValue K V} `{Ord V} `{Ord F}
  `{Sorter}.
Local Notation state := (Collection.t E K F C).
Implicit Types st : state.

(** Whatever order [std::sort] picks, the survivors and the dropped
    elements make up the store left by step 1, and the state is the
    cleanup of the dropped elements run in order. *)
Lemma erase_set_effect S st :
  exists d, collection_ (erase_step1 S st) ≡ₚ collection_ (erase_set S st) ++ d /\
    erase_set S st =
      set_collection (collection_ (erase_set S st))
        (fold_left (fun s b => drop_key (key b) s) d (erase_step1 S st)).
Proof.
  unfold erase_set. set (st1 := erase_step1 S st).
  set (sorted := sort_by (resort_cmp st1) (collection_ st1)).
  destruct (erase_duplicates_if_effect (fun s a b => compare_associations (key a) (key b) s)
              (fun b s => drop_key (key b) s) sorted st1) as (d & Hp & Hs).
  change (fun s a b => if compare_associations (key a) (key b) s
                       then (true, drop_key (key b) s) else (false, s)) with
    (@collapse_pred E K F C _ _ _) in Hp, Hs.
  destruct (erase_duplicates_if collapse_pred sorted st1) as [kept st3]. simpl in *.
  exists d. split; [|by rewrite Hs]. rewrite <- Hp. symmetry. apply sort_by_perm.
Qed.

(** C8: Referential integrity survives [erase(set)] (spec I2). *)
Theorem erase_set_ri S st :
  StronglySorted (key_le fst) (associations_ st) -> ri st -> ri (erase_set S st).
Proof.
  intros HA Hri. pose proof (erase_step1_ri S st HA Hri) as Hri1.
  destruct (erase_set_effect S st) as (d & Hp & Heq). rewrite Heq.
  intros p Hp'. simpl in Hp'. apply fold_drop_key_assoc in Hp' as [Hp1 Hnd].
  destruct (Hri1 p Hp1) as (e & He & Hek). exists e. split; [|done]. simpl.
  rewrite Hp in He. apply elem_of_app in He as [He|He]; [done|].
  by destruct (Hnd e He).
Qed.

(** Step 1 only removes elements from the store. *)
Lemma erase_step1_sublist S st :
  StronglySorted (key_le fst) (associations_ st) ->
  collection_ (erase_step1 S st) `sublist_of` collection_ st.
Proof.
  intros HA. rewrite erase_step1_spec by done. simpl.
  generalize (List.filter (contains S) (associations_ st)) as L. intros L.
  enough (forall s0 : state, collection_ (fold_left (fun s x => step1_effect (associations_ st) x s) L s0)
            `sublist_of` collection_ s0) by done.
  induction L as [|x L IH]; intros s0; simpl; [done|]. etrans; [apply IH|].
  unfold step1_effect. case_match; [|done]. simpl. rewrite erase_value_spec. apply sublist_filterb.
Qed.

Lemma erase_step1_nodup S st :
  StronglySorted (key_le fst) (associations_ st) -> NoDup (map key (collection_ st)) ->
  NoDup (map key (collection_ (erase_step1 S st))).
Proof.
  intros HA Hnd. eapply sublist_NoDup; [exact Hnd|]. by apply sublist_map, erase_step1_sublist.
Qed.

(** C9: The report after [erase(set)] keeps what it held and holds the
    reversed pairs of every element the collapse dropped (spec section
    8), and no association of a dropped element is left. *)
Theorem erase_set_reports_collapsed S st :
  wf st ->
  exists d, collection_ (erase_step1 S st) ≡ₚ collection_ (erase_set S st) ++ d /\
    (forall z, z ∈ foreign_keys_ st -> z ∈ foreign_keys_ (erase_set S st)) /\
    (forall b f, b ∈ d -> (key b, f) ∈ associations_ (erase_step1 S st) ->
       (f, key b) ∈ foreign_keys_ (erase_set S st)) /\
    (forall b p, b ∈ d -> p ∈ associations_ (erase_set S st) -> p.1 <> key b).
Proof.
  intros (Hc & HA & Hf & _). pose proof (lex_sorted_key_sorted _ HA) as HAk.
  destruct (erase_set_effect S st) as (d & Hp & Heq). exists d. rewrite Heq. simpl.
  assert (Hnd : NoDup (map key d)).
  { pose proof (erase_step1_nodup S st HAk (sorted_nodup_keys _ Hc)) as Hn.
    rewrite Hp, map_app in Hn. by apply NoDup_app in Hn as (_ & _ & ?). }
  assert (Hf1 : StronglySorted (key_lt id) (foreign_keys_ (erase_step1 S st)))
    by (by rewrite erase_step1_report).
  destruct (fold_drop_key_report d _ Hf1 Hnd) as [R1 R2]. split_and!; [done| |done|].
  - intros z Hz. apply R1. by rewrite erase_step1_report.
  - intros b p Hb [_ Hnb]%fold_drop_key_assoc. by apply Hnb.
Qed.
End Whole.

(** ** Step 2 with libstdc++'s [std::sort]

    The comparator of lines 127-130 answers [true] for two elements whose
    association ranges are equal, so it is not a strict weak order: it
    answers [true] for an element compared with itself.  libstdc++'s
    partition relies on that order to stop its scans inside the vector. *)

Section StdSort.
Context {E K V F C : Type} `{Keyed E K} `{Ord K} `{TupleValue K V} `{Ord V} `{Ord F}.
Local Notation state := (Collection.t E K F C).
Implicit Types st : state.

Lemma erase_step1_unlinked S st : associations_ st = [] -> erase_step1 S st = set_associations [] st.
Proof. intros HA. unfold erase_step1, calgo.erase_if. by rewrite HA. Qed.

(** Two elements of an index with no association compare equal, and the
    comparator then answers [true]. *)
Lemma resort_cmp_unlinked st a b : associations_ st = [] -> resort_cmp st a b = true.
Proof. intros HA. unfold resort_cmp, compare_associations. by rewrite HA. Qed.

(** C11: [erase(set)] on an index of at least 17 elements none of which is
    linked: libstdc++'s [std::sort], called by step 2, reads the element
    one past the end of the store, which is undefined behaviour. *)
Theorem erase_set_std_reads_past_end S st :
  associations_ st = [] -> (17 <= length (collection_ st))%nat ->
  erase_set_std S st = inl (Introsort.ReadOut (Z.of_nat (length (collection_ st)))).
Proof.
  intros HA Hn. unfold erase_set_std. rewrite erase_step1_unlinked by done.
  rewrite (Introsort.std_sort_past_end _ (fun _ => True)); [done| |by apply Forall_true|done].
  intros a b _ _. by apply resort_cmp_unlinked.
Qed.

(** C12: [erase(set)] with libstdc++'s [std::sort] is [erase_set] with
    [std_sorter], [std::sort] as a [Sorter], whenever it does not fault, so
    every theorem of this file for any [Sorter] holds of it; on a
    well-formed index of at most 16 elements it never faults and is
    [erase_set] with the insertion sort of [calgo], the [Sorter] the
    examples of this file compute with. *)
Theorem erase_set_std_small S st :
  (forall st', erase_set_std S st = inr st' -> st' = @erase_set _ _ _ _ _ _ _ _ _ _ std_sorter S st) /\
  (wf st -> (length (collection_ st) <= 16)%nat -> erase_set_std S st = inr (erase_set S st)).
Proof.
  split.
  - intros st'. unfold erase_set_std, erase_set. cbn [sort_by std_sorter]. unfold std_sort_by.
    destruct (Introsort.std_sort _ _); [done|]. destruct (erase_duplicates_if _ _ _). by intros [= <-].
  - intros (_ & HA & _) Hn. unfold erase_set_std, erase_set.
    rewrite Introsort.std_sort_short; [cbv beta iota; cbn [sort_by insertion_sorter];
      by destruct (erase_duplicates_if _ _ _)|].
    pose proof (sublist_length _ _ (erase_step1_sublist S st (lex_sorted_key_sorted _ HA))). lia.
Qed.
End StdSort.

(** ** Where [erase(set)] departs from the specification

    Indices of dogs linked to cat keys, built through the API from an
    empty index, with [std::sort] as libstdc++ runs it on short ranges. *)

Section Counterexamples.
Local Open Scope Z_scope.
Local Notation dogs := (Collection.t dog dog_key cat_key cat_key).

Definition d1 : dog := mk_dog (1, 0).
Definition d2 : dog := mk_dog (2, 0).
Definition d3 : dog := mk_dog (3, 0).
Definition d4 : dog := mk_dog (4, 0).
Definition cA : cat_key := (97, 0).
Definition cB : cat_key := (98, 0).
Definition cC : cat_key := (99, 0).

Definition two_links : dogs := build [d1; d2] [(dkey d1, cA); (dkey d1, cB); (dkey d2, cA)].
Definition interleaved : dogs :=
  build [d1; d2; d3; d4] [(dkey d1, cB); (dkey d2, cA); (dkey d3, cC); (dkey d4, cA)].
Definition split_pair : dogs := build [d1; d2; d3] [(dkey d1, cA); (dkey d2, cB); (dkey d3, cA)].
Definition twins : dogs := build [d1; d2] [(dkey d1, cA); (dkey d1, cB); (dkey d2, cA); (dkey d2, cB)].





Definition two_singles : dogs := build [d1; d2] [(dkey d1, cA); (dkey d2, cB)].

Lemma two_links_sorted : StronglySorted (key_le fst) (associations_ two_links).
Proof. apply lex_sorted_key_sorted, build_wf. Qed.

Lemma erase_step1_owner_witness :
  StronglySorted (key_le fst) (associations_ two_links) /\
  (d2 ∈ collection_ (erase_step1 [(dkey d2, cA)] two_links) <->
    d2 ∈ collection_ two_links /\
    ~ (exists x, x ∈ associations_ two_links /\ x ∈ [(dkey d2, cA)] /\ x.1 = key d2 /\
                 mm_count fst (key d2) (associations_ two_links) = 1%nat)).
Proof. split; [exact two_links_sorted|]. apply (erase_step1_owner _ _ _ two_links_sorted). Defined.

Lemma erase_set_ri_witness :
  StronglySorted (key_le fst) (associations_ two_links) /\ ri two_links /\
  ri (erase_set [(dkey d1, cA)] two_links).
Proof.
  assert (Hri : ri two_links) by (apply ri_b_spec; vm_compute; reflexivity).
  split; [exact two_links_sorted|]. split; [exact Hri|].
  apply (erase_set_ri _ _ two_links_sorted Hri).
Defined.

Lemma erase_set_reports_collapsed_witness :
  wf twins /\
  exists d, collection_ (erase_step1 [] twins) ≡ₚ collection_ (erase_set [] twins) ++ d /\
    (forall z, z ∈ foreign_keys_ twins -> z ∈ foreign_keys_ (erase_set [] twins)) /\
    (forall b f, b ∈ d -> (key b, f) ∈ associations_ (erase_step1 [] twins) ->
       (f, key b) ∈ foreign_keys_ (erase_set [] twins)) /\
    (forall b p, b ∈ d -> p ∈ associations_ (erase_set [] twins) -> p.1 <> key b).
Proof. split; [apply build_wf|]. apply (erase_set_reports_collapsed _ _ (build_wf _ _)). Defined.
Definition pack : dogs := build (map (fun i => mk_dog (i, 0)) (seqZ 1 17)) [].

Lemma erase_set_std_reads_past_end_witness :
  associations_ pack = [] /\ (17 <= length (collection_ pack))%nat /\
  erase_set_std [] pack = inl (Introsort.ReadOut (Z.of_nat (length (collection_ pack)))).
Proof.
  assert (HA : associations_ pack = []) by reflexivity.
  assert (Hn : (17 <= length (collection_ pack))%nat) by (vm_compute; lia).
  split; [done|]. split; [done|]. exact (erase_set_std_reads_past_end [] pack HA Hn).
Defined.

Lemma erase_set_std_small_witness :
  wf two_links /\ (length (collection_ two_links) <= 16)%nat /\
  erase_set_std [(dkey d1, cA)] two_links = inr (erase_set [(dkey d1, cA)] two_links).
Proof.
  assert (Hn : (length (collection_ two_links) <= 16)%nat) by (vm_compute; lia).
  split; [apply build_wf|]. split; [done|].
  exact (proj2 (erase_set_std_small _ two_links) (build_wf _ _) Hn).
Defined.
End Counterexamples.

End EraseSet.
