(* ===== verification/Visit.v ===== *)
(** * [associated_collection::visit]: the merge-join

    [visit(foreign_key, operation)] (lines 144-163) runs
    [calgo::set_intersection] over [collection_] and [associations_] with
    an overloaded comparator: an entry [(k, f)] with [f == foreign_key] and
    [k == a] compares equal to element [a], any other entry compares by key.
    [visit_trace] lists the elements the operation is called on, [visit]
    threads the operation's state through those calls.  On a well-formed
    index the trace is the naive scan ([visit_reference]); after an
    [erase(set)] that left the store unsorted, it can miss an element. *)

From S2P Require Import Prelude FlatContainers ContainerAlgo Collection EraseSet.
Import calgo.
Import Collection.

Module Visit.

Section Defs.
Context {E K F C : Type} `{Keyed E K} `{Ord K} `{Ord F}.
Local Notation state := (Collection.t E K F C).

(** Lines 148-154: [comp(element, entry)], with [calgo::value] and
    [calgo::key] of the entry. *)
Definition visit_lt_ab (foreign_key : F) (a : E) (b : K * F) : bool :=
  if bool_decide (tuple_value b = foreign_key) && bool_decide (tuple_key b = key a) then false
  else ltb (key a) (tuple_key b).

(** Lines 155-161: [comp(entry, element)]. *)
Definition visit_lt_ba (foreign_key : F) (b : K * F) (a : E) : bool :=
  if bool_decide (tuple_value b = foreign_key) && bool_decide (tuple_key b = key a) then false
  else negb (ltb (key a) (tuple_key b)).

(** Line 147: the container overload of [calgo::set_intersection], with
    the overloaded comparator. *)
Definition visit_trace (foreign_key : F) (st : state) : list E :=
  set_intersection_in (collection_ st) (associations_ st)
    {| call_ab := visit_lt_ab foreign_key; call_ba := visit_lt_ba foreign_key |}.

(** [visit]: the operation, a function of its captured state and the
    element, called on each element of the trace in turn. *)
Definition visit {S} (foreign_key : F) (operation : S -> E -> S) (st : state) (s : S) : S :=
  fold_left operation (visit_trace foreign_key st) s.

(** The contract of section 4.5 of the specification: the elements whose
    association range holds the foreign key, in store order. *)
Definition visit_reference (foreign_key : F) (st : state) : list E :=
  List.filter (fun e => bool_decide ((key e, foreign_key) ∈ associations_ st)) (collection_ st).
End Defs.

Section Correctness.
Context {E K F C : Type} `{Keyed E K} `{Ord K} `{Ord F}.
Local Notation state := (Collection.t E K F C).

Lemma visit_lt_ab_pair fk (a : E) (b : K * F) :
  visit_lt_ab fk a b = if bool_decide (b.2 = fk) && bool_decide (b.1 = key a) then false else ltb (key a) b.1.
Proof. done. Qed.

Lemma visit_lt_ba_pair fk (b : K * F) (a : E) :
  visit_lt_ba fk b a =
    if bool_decide (b.2 = fk) && bool_decide (b.1 = key a) then false else negb (ltb (key a) b.1).
Proof. done. Qed.

(** The merge-join over a store strictly sorted by key and a table sorted
    by key calls the operation on exactly the elements linked to the
    foreign key, in store order. *)
Lemma set_intersection_visit fk (es : list E) (bs : list (K * F)) :
  StronglySorted (key_lt key) es -> StronglySorted (key_le fst) bs ->
  set_intersection (visit_lt_ab fk) (visit_lt_ba fk) es bs =
    List.filter (fun e => bool_decide ((key e, fk) ∈ bs)) es.
Proof.
  revert bs. induction es as [|e es IHes]; intros bs Hes Hbs; [done|].
  inversion Hes as [|? ? Hes' He]; subst. rewrite Forall_forall in He. unfold key_lt in He.
  induction Hbs as [|b bs Hbs IHbs Hb].
  - symmetry. apply filter_none, Forall_forall. intros x _.
    apply bool_decide_eq_false_2. set_solver.
  - rewrite Forall_forall in Hb. unfold key_le in Hb.
    assert (Hes_b : forall x, x ∈ es -> leb b.1 (key e) = true -> (key x, fk) <> b).
    { intros x Hx Hle <-. simpl in Hle. pose proof (leb_ltb_trans _ _ _ Hle (He x Hx)) as Hlt.
      simpl in Hlt. by rewrite ltb_irrefl in Hlt. }
    rewrite set_intersection_cons. rewrite (visit_lt_ab_pair fk e b), (visit_lt_ba_pair fk b e).
    destruct (bool_decide (b.2 = fk) && bool_decide (b.1 = key e)) eqn:Hm;
      cbn -[set_intersection List.filter]; fold (visit_lt_ab fk) (visit_lt_ba fk).
    + apply andb_true_iff in Hm as [Hf%bool_decide_eq_true Hk%bool_decide_eq_true].
      destruct b as [bk bf]; simpl in Hf, Hk; subst bk bf.
      cbn [List.filter]. rewrite bool_decide_eq_true_2 by set_solver.
      rewrite IHes by done. f_equal. symmetry. apply (filter_elem_cons (fun e => (key e, fk))).
      intros x Hx. apply Hes_b; [done|]. simpl. apply leb_refl.
    + destruct (ltb (key e) b.1) eqn:Hlt; cbn -[set_intersection List.filter];
        fold (visit_lt_ab fk) (visit_lt_ba fk).
      * rewrite IHes by (first [done | constructor; [done|by apply Forall_forall]]).
        cbn [List.filter]. rewrite bool_decide_eq_false_2; [done|]. intros [Heb|Hin]%elem_of_cons.
        -- subst b. simpl in Hlt. by rewrite ltb_irrefl in Hlt.
        -- pose proof (Hb _ Hin) as Hle. simpl in Hle.
           pose proof (ltb_leb_trans _ _ _ Hlt Hle) as Hc. by rewrite ltb_irrefl in Hc.
      * rewrite IHbs. symmetry. apply (filter_elem_cons (fun e => (key e, fk))).
        intros x [->|Hx]%elem_of_cons Heq.
        -- subst b. simpl in Hm. rewrite !bool_decide_eq_true_2 in Hm by done. done.
        -- apply (Hes_b x Hx); [|done]. by apply ltb_false_leb.
Qed.

(** C2 (spec section 4.5 and 8, merge-join correctness): on a well-formed
    index, [visit] calls the operation once on each element linked to the
    foreign key and on no other, in key order: it is the naive scan. *)
Theorem visit_trace_reference fk (st : state) :
  wf st -> visit_trace fk st = visit_reference fk st.
Proof.
  intros (Hc & HA & _). apply set_intersection_visit; [done|].
  by apply lex_sorted_key_sorted.
Qed.
End Correctness.

Section Scenarios.


Lemma visit_trace_reference_witness :
  wf EraseSet.split_pair /\
  visit_trace EraseSet.cA EraseSet.split_pair = visit_reference EraseSet.cA EraseSet.split_pair.
Proof. split; [apply build_wf|apply visit_trace_reference, build_wf]. Defined.
End Scenarios.

End Visit.
