(* ===== verification/Protocol.v ===== *)
(** * Two indices kept in step: [emplace_associations] and main.cpp

    [emplace_associations(ac1, ac2, k1, k2)] (lines 193-197) links both
    sides of a relationship.  [symmetric] says each side's table is the
    mirror of the other's; linking keeps it.  [main_output] is what
    main.cpp's [main] prints: the dogs and cats indices, the nested
    visit, then the erase protocol, where [k] and [ks] are references to
    the two indices' [foreign_keys_] sets, cleared through those
    references. *)

From S2P Require Import Prelude FlatContainers ContainerAlgo Collection EraseSet Visit.
Import calgo.
Import Collection.

Module Protocol.

Section Link.
Context {E1 E2 K1 K2 C1 C2 : Type} `{Keyed E1 K1} `{Keyed E2 K2} `{Ord K1} `{Ord K2}
  `{Sorter}.

(** Lines 193-197. *)
Definition emplace_associations (ac1 : Collection.t E1 K1 K2 C1) (ac2 : Collection.t E2 K2 K1 C2)
    (k1 : K1) (k2 : K2) : Collection.t E1 K1 K2 C1 * Collection.t E2 K2 K1 C2 :=
  (emplace_association k1 k2 ac1, emplace_association k2 k1 ac2).

Definition symmetric (ac1 : Collection.t E1 K1 K2 C1) (ac2 : Collection.t E2 K2 K1 C2) : Prop :=
  forall k1 k2, (k1, k2) ∈ associations_ ac1 <-> (k2, k1) ∈ associations_ ac2.

(** C24: Linking through [emplace_associations] keeps the two tables mirrors
    of each other. *)
Theorem emplace_associations_symmetric ac1 ac2 k1 k2 :
  wf ac1 -> wf ac2 -> symmetric ac1 ac2 ->
  symmetric (emplace_associations ac1 ac2 k1 k2).1 (emplace_associations ac1 ac2 k1 k2).2.
Proof.
  intros (_ & HA1 & _) (_ & HA2 & _) Hsym a b. unfold emplace_associations. cbn [fst snd].
  rewrite (emplace_association_perm k1 k2 ac1 HA1), (emplace_association_perm k2 k1 ac2 HA2).
  unfold symmetric in Hsym. rewrite !elem_of_cons, Hsym. split; intros [[=-> ->]|?]; auto.
Qed.
End Link.

Section Main.
Local Open Scope Z_scope.
Local Notation dogs := (Collection.t dog dog_key cat_key cat_key).
Local Notation cats := (Collection.t cat cat_key dog_key dog_key).

(** Line 49: [dog_key dk{1, 0.f}, dk2{2, 0.f}, dk3{3, 0.f}, dk4{1, 1.f}]. *)
Definition dk : dog_key := (1, 0).
Definition dk2 : dog_key := (2, 0).
Definition dk3 : dog_key := (3, 0).
Definition dk4 : dog_key := (1, 1).
(** Line 55: [cat_key ck{'p', 0}, ck2{'a', 1}, ck3{'p', 2}]. *)
Definition ck : cat_key := (112, 0).
Definition ck2 : cat_key := (97, 1).
Definition ck3 : cat_key := (112, 2).

(** Lines 47-65: the two indices, their elements and the five links. *)
Definition main_setup : dogs * cats :=
  let dogs0 := fold_left (fun st k => emplace (mk_dog k) st) [dk; dk2; dk3; dk4] empty in
  let cats0 := fold_left (fun st k => emplace (mk_cat k) st) [ck; ck2; ck3] empty in
  fold_left (fun p l => emplace_associations p.1 p.2 l.1 l.2)
    [(dk, ck); (dk2, ck2); (dk3, ck3); (dk4, ck); (dk4, ck3)] (dogs0, cats0).

(** Lines 81-89.  [k] is a reference to [cats.foreign_keys_] and [ks] to
    [dogs.foreign_keys_]: [k.clear()] and [ks.clear()] empty those sets,
    and [k = cats.erase(ks)] assigns the set to itself. *)
Definition main_erase : dogs * cats * list (dog_key * cat_key) * list (cat_key * dog_key) :=
  let '(dogs, cats) := main_setup in
  let cats1 := erase_key ck cats in
  let k := foreign_keys_ cats1 in
  let dogs1 := EraseSet.erase_set k dogs in
  let ks := foreign_keys_ dogs1 in
  let cats2 := set_foreign_keys [] cats1 in
  let cats3 := EraseSet.erase_set ks cats2 in
  let dogs2 := set_foreign_keys [] dogs1 in
  (dogs2, cats3, k, ks).

(** What [main] prints, item by item: the literal text around the items
    and the layout of tuples and containers (prettyprint.hpp, not part of
    the sources) are left out. *)
Inductive item :=
| IDogs (ds : list dog_key) (links : list (dog_key * cat_key))
| ICats (cs : list cat_key) (links : list (cat_key * dog_key))
| IVisitHeader (c : cat_key)
| IVisitDog (d : dog_key)
| IVisitCat (c : cat_key)
| INewline
| IErasedCat (kd : cat_key) (k : list (dog_key * cat_key))
| IErasedDogs (k : list (dog_key * cat_key)) (ks : list (cat_key * dog_key))
| IErasedCats (ks : list (cat_key * dog_key)) (k : list (dog_key * cat_key)).

(** [operator<<] for [dog] and [cat] (lines 35-42): the key. *)
Definition print_dog (d : dog) : dog_key := dkey d.
Definition print_cat (c : cat) : cat_key := ckey c.

(** Lines 67-68 and 91-92: an index prints its elements, then its table. *)
Definition print_indices (ds : dogs) (cs : cats) : list item :=
  [IDogs (map print_dog (elements ds)) (associations ds);
   ICats (map print_cat (elements cs)) (associations cs)].

(** Lines 70-79: the nested [visit]; each lambda writes to [std::cout],
    the state the operations thread. *)
Definition main_visit_output (ds : dogs) (cs : cats) : list item :=
  Visit.visit ck3 (fun o d =>
      Visit.visit (dkey d) (fun o c => o ++ [IVisitCat (print_cat c)]) cs (o ++ [IVisitDog (print_dog d)]))
    ds [IVisitHeader ck3] ++ [INewline; INewline].

(** Lines 47-92: everything [main] prints; lines 83, 85 and 88 print
    [kd], [k] and [ks] at the moment they run. *)
Definition main_output : list item :=
  let '(dogs0, cats0) := main_setup in
  let '(dogs2, cats3, k, ks) := main_erase in
  print_indices dogs0 cats0 ++ main_visit_output dogs0 cats0 ++
  [IErasedCat ck k; IErasedDogs k ks; IErasedCats ks (foreign_keys cats3)] ++
  print_indices dogs2 cats3.

Lemma emplace_associations_symmetric_witness :
  wf (build [mk_dog dk] [] : dogs) /\ wf (build [mk_cat ck] [] : cats) /\
  symmetric (build [mk_dog dk] [] : dogs) (build [mk_cat ck] [] : cats) /\
  symmetric
    (emplace_associations (build [mk_dog dk] [] : dogs) (build [mk_cat ck] [] : cats) dk ck).1
    (emplace_associations (build [mk_dog dk] [] : dogs) (build [mk_cat ck] [] : cats) dk ck).2.
Proof.
  assert (Hs : symmetric (build [mk_dog dk] [] : dogs) (build [mk_cat ck] [] : cats)).
  { intros a b. vm_compute. split; intros Hin; inversion Hin. }
  split; [apply build_wf|]. split; [apply build_wf|]. split; [exact Hs|].
  apply (emplace_associations_symmetric _ _ _ _ (build_wf _ _) (build_wf _ _) Hs).
Defined.
End Main.

End Protocol.
