(* ===== verification/Refinement.v ===== *)
(** * An abstract specification of one index, and its refinement

    [Module Spec] states what the single-index API of
    associated_collection.hpp promises (spec sections 4.1 to 4.4 and 7),
    with no order and no vectors: an index is a bag of elements, a bag of
    [(key, foreign key)] links, a bag of contributors and the set of
    [(foreign key, key)] pairs reported so far.  [a_insert], [a_link] and
    [a_erase] are the contracts of [emplace], [emplace_association] and
    [erase(key)]: first write wins, a link is added even when it is there
    already, and erasing a stored key drops its element, links and
    contributors and reports the reversed links, while erasing an absent
    key is silent.  Abstract states are compared by [aequiv]
    (permutation of the bags, same members in the report), for which the
    operations are [Proper]: the simulation is proved by setoid rewriting
    under them.  [abs] forgets the order of the concrete vectors (and the
    unused [keys_]); [crun_refines] shows that on a well-formed index
    every sequence of the three operations is simulated by the
    specification. *)

From S2P Require Import Prelude FlatContainers ContainerAlgo Collection.
Import calgo.
Import Collection.

Module Spec.

Record astate (E K F C : Type) := amk {
  a_elems : list E;
  a_links : list (K * F);
  a_contribs : list (K * C);
  a_report : list (F * K)
}.
Arguments amk {E K F C} _ _ _ _.
Arguments a_elems {E K F C} _.
Arguments a_links {E K F C} _.
Arguments a_contribs {E K F C} _.
Arguments a_report {E K F C} _.

Section Abstract.
Context {E K F C : Type} `{Keyed E K} `{Ord K}.
Local Notation astate := (astate E K F C).
Implicit Types a b : astate.

(** Some element of the index has key [k]. *)
Definition has_key (k : K) a : bool :=
  existsb (fun e => bool_decide (key e = k)) (a_elems a).

Definition a_insert (e : E) a : astate :=
  if has_key (key e) a then a
  else amk (e :: a_elems a) (a_links a) (a_contribs a) (a_report a).

Definition a_link (k : K) (f : F) a : astate :=
  amk (a_elems a) ((k, f) :: a_links a) (a_contribs a) (a_report a).

Definition a_erase (k : K) a : astate :=
  if has_key k a then
    amk (List.filter (fun e => bool_decide (key e <> k)) (a_elems a))
      (List.filter (fun p => bool_decide (p.1 <> k)) (a_links a))
      (List.filter (fun p => bool_decide (p.1 <> k)) (a_contribs a))
      (a_report a ++ map (fun p => (p.2, p.1))
                        (List.filter (fun p => bool_decide (p.1 = k)) (a_links a)))
  else a.

(** Equality of abstract indices: the same bags, the same report set. *)
Definition aequiv a b : Prop :=
  a_elems a ≡ₚ a_elems b /\ a_links a ≡ₚ a_links b /\
  a_contribs a ≡ₚ a_contribs b /\ (forall z, z ∈ a_report a <-> z ∈ a_report b).

#[export] Instance astate_equiv : Equiv astate := aequiv.

End Abstract.

(** Unfold [≡] on two abstract indices into its four components. *)
Ltac aequiv_split :=
  unfold equiv, astate_equiv, aequiv; cbn [a_elems a_links a_contribs a_report]; split_and!.

Section AbstractProps.
Context {E K F C : Type} `{Keyed E K} `{Ord K}.
Local Notation astate := (astate E K F C).
Implicit Types a b : astate.

#[export] Instance astate_equivalence : Equivalence (≡@{astate}).
Proof.
  split.
  - intros a. aequiv_split; done.
  - intros a b (? & ? & ? & Hr). aequiv_split; try done; intros z; by rewrite Hr.
  - intros a b c (? & ? & ? & Hr1) (? & ? & ? & Hr2).
    aequiv_split; try (by etrans); intros z; by rewrite Hr1, Hr2.
Qed.

Lemma has_key_spec k a : has_key k a = true <-> exists e, e ∈ a_elems a /\ key e = k.
Proof.
  unfold has_key. rewrite existsb_exists. setoid_rewrite <- list_elem_of_In.
  by setoid_rewrite bool_decide_eq_true.
Qed.

#[export] Instance has_key_proper k : Proper ((≡) ==> (=)) (has_key k : astate -> bool).
Proof.
  intros a b (He & _). apply Bool.eq_iff_eq_true. rewrite !has_key_spec.
  by setoid_rewrite He.
Qed.

#[export] Instance a_insert_proper e : Proper ((≡) ==> (≡)) (a_insert e : astate -> astate).
Proof.
  intros a b Hab. unfold a_insert. rewrite Hab.
  destruct (has_key _ b); [done|]. destruct Hab as (? & ? & ? & ?). aequiv_split; first [done|by apply perm_skip].
Qed.

#[export] Instance a_link_proper k f : Proper ((≡) ==> (≡)) (a_link k f : astate -> astate).
Proof. intros a b (? & ? & ? & ?). aequiv_split; first [done|by apply perm_skip]. Qed.

#[export] Instance a_erase_proper k : Proper ((≡) ==> (≡)) (a_erase k : astate -> astate).
Proof.
  intros a b Hab. unfold a_erase. rewrite Hab. destruct (has_key k b); [|done].
  destruct Hab as (He & Hl & Hc & Hr). aequiv_split; cbn; try by apply Permutation_filterb.
  intros z. rewrite !elem_of_app, Hr. apply or_iff_compat_l.
  by rewrite (Permutation_filterb _ _ _ Hl).
Qed.
End AbstractProps.

(** ** The concrete index and its abstraction *)

Section Refine.
Context {E K F C : Type} `{Keyed E K} `{Ord K} `{Ord F} `{Sorter}.
Local Notation state := (Collection.t E K F C).
Local Notation astate := (astate E K F C).
Implicit Types st : state.

Definition abs st : astate :=
  amk (collection_ st) (associations_ st) (contributors_ st) (foreign_keys_ st).

(** The calls a client of one index makes. *)
Inductive op :=
| OEmplace (e : E)
| OLink (k : K) (f : F)
| OErase (k : K).

Definition cstep (o : op) st : state :=
  match o with
  | OEmplace e => emplace e st
  | OLink k f => emplace_association k f st
  | OErase k => erase_key k st
  end.

Definition astep (o : op) (a : astate) : astate :=
  match o with
  | OEmplace e => a_insert e a
  | OLink k f => a_link k f a
  | OErase k => a_erase k a
  end.

Definition crun (ops : list op) st : state := fold_left (fun st o => cstep o st) ops st.
Definition arun (ops : list op) (a : astate) : astate := fold_left (fun a o => astep o a) ops a.

#[export] Instance astep_proper o : Proper ((≡) ==> (≡)) (astep o).
Proof. destruct o; simpl; apply _. Qed.

#[export] Instance arun_proper ops : Proper ((≡) ==> (≡)) (arun ops).
Proof. induction ops as [|o ops IH]; intros a b Hab; simpl; [done|]. apply IH. by f_equiv. Qed.

Lemma cstep_wf o st : wf st -> wf (cstep o st).
Proof.
  destruct o; simpl; [apply emplace_wf|apply emplace_association_wf|apply erase_if_wf].
Qed.

Lemma filter_key_ne {X} (kf : X -> K) k (l : list X) :
  List.filter (fun y => negb (equivb (kf y) k)) l = List.filter (fun y => bool_decide (kf y <> k)) l.
Proof.
  apply filter_ext. intros y. destruct (equivb (kf y) k) eqn:Hq; simpl.
  - apply equivb_eq in Hq. by rewrite bool_decide_eq_false_2 by tauto.
  - rewrite bool_decide_eq_true_2; [done|]. intros Hk%equivb_eq. congruence.
Qed.

Lemma emplace_refines e st : wf st -> abs (emplace e st) ≡ a_insert e (abs st).
Proof.
  intros Hwf. unfold a_insert. destruct (has_key (key e) (abs st)) eqn:Hk.
  - apply has_key_spec in Hk. by rewrite emplace_present.
  - assert (forall e', e' ∈ collection_ st -> key e' <> key e) as Hnew.
    { intros e' He' Heq. apply not_true_iff_false in Hk. apply Hk, has_key_spec. by exists e'. }
    aequiv_split; try done. by apply emplace_absent.
Qed.

Lemma link_refines k f st : wf st -> abs (emplace_association k f st) ≡ a_link k f (abs st).
Proof. intros (_ & HA & _). aequiv_split; try done. by apply emplace_association_perm. Qed.

Lemma erase_refines k st : wf st -> abs (erase_key k st) ≡ a_erase k (abs st).
Proof.
  intros Hwf. unfold a_erase. destruct (has_key k (abs st)) eqn:Hk.
  - apply has_key_spec in Hk as (e & He & Hek).
    rewrite (erase_key_present k e st Hwf He Hek). aequiv_split; cbn.
    + apply reflexive_eq, filter_ext. intros x. by rewrite bool_decide_not.
    + unfold mm_erase_key. by rewrite filter_key_ne.
    + unfold mm_erase_key. by rewrite filter_key_ne.
    + intros z. rewrite (drop_key_report k st z (proj1 (proj2 (proj2 Hwf)))), elem_of_app.
      apply or_iff_compat_l. rewrite list_elem_of_In, in_map_iff. setoid_rewrite <- list_elem_of_In.
      setoid_rewrite elem_of_filterb. setoid_rewrite bool_decide_eq_true. split.
      * intros (f & Hf & ->). by exists (k, f).
      * intros ([k' f] & <- & Hf & Hk'). simpl in *. subst k'. by exists f.
  - rewrite erase_key_absent; [done|]. intros e He Hek.
    apply not_true_iff_false in Hk. apply Hk, has_key_spec. by exists e.
Qed.

Lemma cstep_refines o st : wf st -> abs (cstep o st) ≡ astep o (abs st).
Proof. destruct o; simpl; [apply emplace_refines|apply link_refines|apply erase_refines]. Qed.

(** C23: Refinement of the specification (spec sections 4.1 to 4.4 and 7):
    from a well-formed index, any sequence of [emplace],
    [emplace_association] and [erase(key)] ends in an index whose
    contents, forgetting the order of the vectors, are those the abstract
    specification computes. *)
Theorem crun_refines ops st : wf st -> abs (crun ops st) ≡ arun ops (abs st).
Proof.
  revert st. induction ops as [|o ops IH]; intros st Hwf; simpl; [done|].
  rewrite (IH _ (cstep_wf o st Hwf)). f_equiv. by apply cstep_refines.
Qed.
End Refine.

Section Witnesses.
Local Open Scope Z_scope.
Local Notation dogs := (Collection.t dog dog_key cat_key cat_key).

Definition session : list (op (E:=dog) (K:=dog_key) (F:=cat_key)) :=
  [OEmplace (mk_dog (1, 0)); OEmplace (mk_dog (2, 0)); OLink (1, 0) (97, 0);
   OLink (2, 0) (97, 0); OEmplace (mk_dog (1, 0)); OLink (2, 0) (98, 0); OErase (2, 0);
   OErase (5, 0)].

Lemma crun_refines_witness :
  wf (empty : dogs) /\ abs (crun session (empty : dogs)) ≡ arun session (abs (empty : dogs)).
Proof. split; [apply empty_wf|]. apply (crun_refines session empty empty_wf). Defined.
End Witnesses.

End Spec.
