(* ===== verification/TaskQueue.v ===== *)
(** * [task_queue.hpp]: notification queues and the task system

    [notification_queue] (lines 16-97) is a deque of tasks, a mutex, a
    condition variable [ready] and a [finished] flag.  Each member
    function runs under the mutex, so each is one atomic step here;
    [std::mutex::try_lock] may fail even when the mutex is free, so its
    outcome is a choice ([acquired]).  The threads blocked in
    [ready.wait] are the [waiting] list; [notify_one] wakes the first,
    [notify_all] all of them, and a blocked thread may also wake
    spuriously, as the standard allows.

    [task_system] (lines 100-178) is [count] queues, [count] worker
    threads running [run(i)], an [unsigned] atomic [index] and the bound
    [k_bound].  The system is a state with one program counter per
    worker and one for the client thread, which calls [async] on each
    task and then runs the destructor ([done] on every queue, then
    [join]).  [sys_step] makes the step a chosen thread takes; the
    reachable states are its closure.  A task is a number and running it
    appends it to [executed].

    The theorems: every step keeps each task in exactly one place (not
    yet submitted, queued, running or run), so no task runs twice; once
    [join] has returned, every submitted task has run; before that,
    some thread can always move without a spurious wake-up (no
    deadlock); with [count = 0] ([hardware_concurrency()] may return 0)
    [async] reaches the division by zero of [i % count]; [push] wakes
    no waiting thread, so a worker can stay blocked on a queue that
    holds a task; every reachable state keeps [index] and the counters
    of [async] within [unsigned] and the scans within [count]; when the
    [unsigned] product [count * k_bound] wraps to [0], [async] skips its
    [try_push] loop. *)

From S2P Require Import Prelude.
From stdpp Require Import relations.

Module TaskQueue.

Definition task := nat.

(** [unsigned] arithmetic: 32 bits. *)
Definition wrap32 (z : Z) : Z := z mod 2 ^ 32.

(** ** [notification_queue] *)

Record nqueue := mk_nq {
  queue : list task;
  finished : bool;
  waiting : list nat
}.

Definition empty_nq : nqueue := mk_nq [] false [].

Definition set_queue (l : list task) (q : nqueue) : nqueue := mk_nq l (finished q) (waiting q).

(** [ready.notify_one()]: the first blocked thread is woken. *)
Definition notify_one (q : nqueue) : nqueue := mk_nq (queue q) (finished q) (tail (waiting q)).

(** Lines 36-46: [try_pop]. *)
Definition try_pop (acquired : bool) (q : nqueue) : option task * nqueue :=
  if negb acquired then (None, q)
  else match queue q with
       | [] => (None, q)
       | f :: rest => (Some f, set_queue rest q)
       end.

(** Lines 51-65: one pass of [pop] by thread [tid] under the lock: take
    the front, return [false] on a finished empty queue, or block in
    [ready.wait]. *)
Inductive pop_result := Popped (f : task) | Closed | Blocked.

Definition pop (tid : nat) (q : nqueue) : pop_result * nqueue :=
  match queue q with
  | f :: rest => (Popped f, set_queue rest q)
  | [] => if finished q then (Closed, q) else (Blocked, mk_nq [] (finished q) (waiting q ++ [tid]))
  end.

(** Lines 68-82: [try_push]. *)
Definition try_push (acquired : bool) (f : task) (q : nqueue) : bool * nqueue :=
  if negb acquired then (false, q) else (true, notify_one (set_queue (queue q ++ [f]) q)).

(** Lines 84-88: [push]. *)
Definition push (f : task) (q : nqueue) : nqueue := set_queue (queue q ++ [f]) q.

(** Lines 90-96: [done]. *)
Definition done (q : nqueue) : nqueue := mk_nq (queue q) true [].

(** ** [task_system] *)

(** [run(i)] (lines 114-131): scanning the queues from [i] with
    [try_pop], waiting in [pop] on its own queue, running a task, or
    gone. *)
Inductive wpc := Scan (n : nat) | PopOwn | WaitOn | Exec (f : task) | Exited.

(** The client: [async] on each task (lines 168-177; [CTry w ws i n] is
    the loop at iteration [n] for the index [i] it drew), then the
    destructor (lines 157-160): [done] on queue [j], then [join].
    [CUndefined] is the division by zero of [% count]. *)
Inductive cpc :=
  | CAsync (ws : list task)
  | CTry (w : task) (ws : list task) (i n : Z)
  | CShutdown (j : nat)
  | CJoin
  | CFinished
  | CUndefined.

Record sys := mk_sys {
  queues : list nqueue;
  workers : list wpc;
  client : cpc;
  index : Z;
  executed : list task
}.

Definition set_q (j : nat) (q : nqueue) (s : sys) : sys :=
  mk_sys (<[j := q]> (queues s)) (workers s) (client s) (index s) (executed s).
Definition set_worker (tid : nat) (pc : wpc) (s : sys) : sys :=
  mk_sys (queues s) (<[tid := pc]> (workers s)) (client s) (index s) (executed s).
Definition set_client (c : cpc) (s : sys) : sys :=
  mk_sys (queues s) (workers s) c (index s) (executed s).

(** [notifications[(i + n) % count]] with [unsigned] operands. *)
Definition slot (i n : Z) (count : nat) : nat := Z.to_nat (wrap32 (i + n) mod Z.of_nat count).

(** One step of worker [tid]; [None] when it cannot move. *)
Definition worker_step (acquired spurious : bool) (tid : nat) (s : sys) : option sys :=
  let count := length (queues s) in
  match workers s !! tid with
  | None | Some Exited => None
  | Some (Scan n) =>
      if Nat.eqb n count then Some (set_worker tid PopOwn s)
      else
        let j := slot (Z.of_nat tid) (Z.of_nat n) count in
        match queues s !! j with
        | None => None
        | Some q =>
            let '(r, q') := try_pop acquired q in
            Some (set_worker tid (match r with Some f => Exec f | None => Scan (S n) end) (set_q j q' s))
        end
  | Some PopOwn =>
      match queues s !! tid with
      | None => None
      | Some q =>
          let '(r, q') := pop tid q in
          Some (set_worker tid (match r with Popped f => Exec f | Closed => Exited | Blocked => WaitOn end)
                  (set_q tid q' s))
      end
  | Some WaitOn =>
      match queues s !! tid with
      | None => None
      | Some q =>
          if spurious || negb (bool_decide (tid ∈ waiting q)) then
            Some (set_worker tid PopOwn
                    (set_q tid (mk_nq (queue q) (finished q)
                                  (List.filter (fun t => negb (Nat.eqb t tid)) (waiting q))) s))
          else None
      end
  | Some (Exec f) =>
      Some (mk_sys (queues s) (<[tid := Scan 0]> (workers s)) (client s) (index s) (executed s ++ [f]))
  end.

Definition is_exited (pc : wpc) : bool := match pc with Exited => true | _ => false end.

(** One step of the client, [k_bound] being the bound of the [async]
    loop ([48] for the default constructor). *)
Definition client_step (k_bound : Z) (acquired : bool) (s : sys) : option sys :=
  let count := length (queues s) in
  match client s with
  | CAsync [] => Some (set_client (CShutdown 0) s)
  | CAsync (w :: ws) =>
      Some (mk_sys (queues s) (workers s) (CTry w ws (index s) 0) (wrap32 (index s + 1)) (executed s))
  | CTry w ws i n =>
      if Nat.eqb count 0 then Some (set_client CUndefined s)
      else if Z.eqb n (wrap32 (Z.of_nat count * k_bound)) then
        let j := Z.to_nat (i mod Z.of_nat count) in
        match queues s !! j with
        | None => None
        | Some q => Some (set_client (CAsync ws) (set_q j (push w q) s))
        end
      else
        let j := slot i n count in
        match queues s !! j with
        | None => None
        | Some q =>
            let '(b, q') := try_push acquired w q in
            Some (set_client (if b then CAsync ws else CTry w ws i (wrap32 (n + 1))) (set_q j q' s))
        end
  | CShutdown j =>
      if Nat.eqb j count then Some (set_client CJoin s)
      else match queues s !! j with
           | None => None
           | Some q => Some (set_client (CShutdown (S j)) (set_q j (done q) s))
           end
  | CJoin => if forallb is_exited (workers s) then Some (set_client CFinished s) else None
  | CFinished | CUndefined => None
  end.

Inductive actor := Worker (tid : nat) | Client.

(** The scheduler's choice: who moves, whether its [try_lock] succeeds
    and whether a blocked worker wakes spuriously. *)
Record choice := mk_choice { who : actor; acquired : bool; spurious : bool }.

Definition sys_step (k_bound : Z) (c : choice) (s : sys) : option sys :=
  match who c with
  | Worker tid => worker_step (acquired c) (spurious c) tid s
  | Client => client_step k_bound (acquired c) s
  end.

Definition step (k_bound : Z) (s s' : sys) : Prop := exists c, sys_step k_bound c s = Some s'.

(** The constructor: [count] empty queues and [count] workers about to
    scan; the client about to submit [ws]. *)
Definition init (count : nat) (ws : list task) : sys :=
  mk_sys (repeat empty_nq count) (repeat (Scan 0) count) (CAsync ws) 0 [].

Fixpoint run_schedule (k_bound : Z) (cs : list choice) (s : sys) : option sys :=
  match cs with
  | [] => Some s
  | c :: cs' => match sys_step k_bound c s with
                | Some s' => run_schedule k_bound cs' s'
                | None => None
                end
  end.

(** ** Where the tasks are *)

Definition pc_tasks (pc : wpc) : list task := match pc with Exec f => [f] | _ => [] end.

Definition client_tasks (c : cpc) : list task :=
  match c with CAsync ws => ws | CTry w ws _ _ => w :: ws | _ => [] end.

(** Every task the client was given: not yet submitted, queued, running
    or run. *)
Definition pool (s : sys) : list task :=
  client_tasks (client s) ++ concat (map queue (queues s)) ++
  concat (map pc_tasks (workers s)) ++ executed s.

Definition pop_tasks (r : pop_result) : list task := match r with Popped f => [f] | _ => [] end.

Lemma concat_map_insert {A B} (g : A -> list B) (l : list A) j x y :
  l !! j = Some x -> concat (map g (<[j := y]> l)) ++ g x ≡ₚ concat (map g l) ++ g y.
Proof.
  intros Hj. pose proof (lookup_lt_Some _ _ _ Hj) as Hlt.
  rewrite <- (take_drop_middle l j x Hj) at 2. rewrite insert_take_drop by done.
  rewrite !map_app, !concat_app. simpl. solve_Permutation.
Qed.

Lemma pool_set_q s j q q' :
  queues s !! j = Some q -> pool (set_q j q' s) ++ queue q ≡ₚ pool s ++ queue q'.
Proof.
  intros Hj. unfold pool. simpl. pose proof (concat_map_insert queue _ _ _ q' Hj) as Hc.
  rewrite <- !(assoc_L app). rewrite !(comm app _ (queue _)). rewrite !(assoc_L app).
  rewrite !(comm app _ (executed s)), !(comm app _ (concat (map pc_tasks _))).
  rewrite <- !(assoc_L app). by rewrite Hc.
Qed.

Lemma pool_set_worker s tid pc pc' :
  workers s !! tid = Some pc -> pool (set_worker tid pc' s) ++ pc_tasks pc ≡ₚ pool s ++ pc_tasks pc'.
Proof.
  intros Hw. unfold pool. simpl. pose proof (concat_map_insert pc_tasks _ _ _ pc' Hw) as Hc.
  rewrite <- !(assoc_L app). rewrite (comm app (executed s)), (comm app (executed s)).
  rewrite !(assoc_L app). rewrite <- !(assoc_L app _ (concat (map pc_tasks _))).
  by rewrite Hc.
Qed.

Lemma pool_set_client s c : pool (set_client c s) ++ client_tasks (client s) ≡ₚ pool s ++ client_tasks c.
Proof. unfold pool. simpl. solve_Permutation. Qed.

Lemma try_pop_tasks a q r q' : try_pop a q = (r, q') -> queue q = option_list r ++ queue q'.
Proof. unfold try_pop. destruct a, (queue q) eqn:Hq; simpl; intros [= <- <-]; by rewrite ?Hq. Qed.

Lemma pop_tasks_eq tid q r q' : pop tid q = (r, q') -> queue q = pop_tasks r ++ queue q'.
Proof. unfold pop. destruct (queue q) eqn:Hq; [destruct (finished q)|]; intros [= <- <-]; by rewrite ?Hq. Qed.

Lemma try_push_tasks a w q b q' :
  try_push a w q = (b, q') -> queue q' = queue q ++ (if b then [w] else []) /\ finished q' = finished q.
Proof. unfold try_push. destruct a; simpl; intros [= <- <-]; by rewrite ?app_nil_r. Qed.

Lemma pool_worker_q s tid pc pc' j q q' :
  workers s !! tid = Some pc -> queues s !! j = Some q ->
  queue q ++ pc_tasks pc ≡ₚ queue q' ++ pc_tasks pc' ->
  pool (set_worker tid pc' (set_q j q' s)) ≡ₚ pool s.
Proof.
  intros Hw Hj Hm. apply (Permutation_app_inv_r (pc_tasks pc ++ queue q)).
  pose proof (pool_set_worker (set_q j q' s) tid pc pc' Hw) as H1.
  pose proof (pool_set_q s j q q' Hj) as H2.
  trans ((pool (set_worker tid pc' (set_q j q' s)) ++ pc_tasks pc) ++ queue q); [solve_Permutation|].
  rewrite H1. trans ((pool (set_q j q' s) ++ queue q) ++ pc_tasks pc'); [solve_Permutation|].
  rewrite H2, <- (assoc_L app), <- Hm. solve_Permutation.
Qed.

Lemma pool_client_q s c j q q' :
  queues s !! j = Some q ->
  client_tasks (client s) ++ queue q ≡ₚ client_tasks c ++ queue q' ->
  pool (set_client c (set_q j q' s)) ≡ₚ pool s.
Proof.
  intros Hj Hm. apply (Permutation_app_inv_r (client_tasks (client s) ++ queue q)).
  pose proof (pool_set_client (set_q j q' s) c) as H1. pose proof (pool_set_q s j q q' Hj) as H2.
  simpl in H1. trans ((pool (set_client c (set_q j q' s)) ++ client_tasks (client s)) ++ queue q);
    [solve_Permutation|].
  rewrite H1. trans ((pool (set_q j q' s) ++ queue q) ++ client_tasks c); [solve_Permutation|].
  rewrite H2, <- (assoc_L app), (comm app (queue q')), <- Hm. solve_Permutation.
Qed.

Lemma worker_step_pool a sp tid s s' : worker_step a sp tid s = Some s' -> pool s' ≡ₚ pool s.
Proof.
  unfold worker_step. destruct (workers s !! tid) as [pc|] eqn:Hw; [|done].
  destruct pc as [n| | |f|]; try done.
  - case_match; [intros [= <-]|].
    + apply (Permutation_app_inv_r []). by rewrite (pool_set_worker s tid _ PopOwn Hw).
    + case_match eqn:Hq; [|done]. destruct (try_pop a _) as [r q'] eqn:Hp. intros [= <-].
      apply (pool_worker_q _ _ _ _ _ _ _ Hw Hq). rewrite (try_pop_tasks _ _ _ _ Hp).
      destruct r; simpl; solve_Permutation.
  - case_match eqn:Hq; [|done]. destruct (pop tid _) as [r q'] eqn:Hp. intros [= <-].
    apply (pool_worker_q _ _ _ _ _ _ _ Hw Hq). rewrite (pop_tasks_eq _ _ _ _ Hp).
    destruct r; simpl; solve_Permutation.
  - case_match eqn:Hq; [|done]. case_match; [|done]. intros [= <-].
    by apply (pool_worker_q _ _ _ _ _ _ _ Hw Hq).
  - intros [= <-]. unfold pool. simpl. pose proof (concat_map_insert pc_tasks _ _ _ (Scan 0) Hw) as Hc.
    simpl in Hc. rewrite app_nil_r in Hc.
    trans (client_tasks (client s) ++ concat (map queue (queues s)) ++
           (concat (map pc_tasks (<[tid:=Scan 0]> (workers s))) ++ [f]) ++ executed s);
      [solve_Permutation|]. by rewrite Hc.
Qed.

Lemma client_step_pool k a s s' :
  length (queues s) <> 0 -> client_step k a s = Some s' -> pool s' ≡ₚ pool s.
Proof.
  intros Hcount. unfold client_step. destruct (client s) as [[|w ws]|w ws i n|j| | |] eqn:Hc; try done.
  - intros [= <-]. apply (Permutation_app_inv_r (client_tasks (client s))).
    rewrite pool_set_client, Hc. done.
  - intros [= <-]. unfold pool. simpl. by rewrite Hc.
  - case_match eqn:Hz; [by apply Nat.eqb_eq in Hz|].
    case_match.
    + case_match eqn:Hq; [|done]. intros [= <-]. apply (pool_client_q _ _ _ _ _ Hq).
      rewrite Hc. simpl. solve_Permutation.
    + case_match eqn:Hq; [|done]. destruct (try_push a w _) as [b q'] eqn:Hp. intros [= <-].
      apply (pool_client_q _ _ _ _ _ Hq). rewrite Hc, (proj1 (try_push_tasks _ _ _ _ _ Hp)).
      destruct b; simpl; solve_Permutation.
  - case_match; [intros [= <-]; apply (Permutation_app_inv_r (client_tasks (client s)));
      by rewrite pool_set_client, Hc|].
    case_match eqn:Hq; [|done]. intros [= <-]. apply (pool_client_q _ _ _ _ _ Hq). by rewrite Hc.
  - case_match; [|done]. intros [= <-]. apply (Permutation_app_inv_r (client_tasks (client s))).
    by rewrite pool_set_client, Hc.
Qed.

Lemma step_lengths k s s' :
  step k s s' -> length (queues s') = length (queues s) /\ length (workers s') = length (workers s).
Proof.
  intros [[[tid|] a sp] Hs]; unfold sys_step in Hs; simpl in Hs.
  - unfold worker_step in Hs. repeat (case_match; simplify_eq/=); by rewrite ?length_insert.
  - unfold client_step in Hs. repeat (case_match; simplify_eq/=); by rewrite ?length_insert.
Qed.

Lemma reachable_lengths k s0 s :
  rtc (step k) s0 s -> length (queues s) = length (queues s0) /\ length (workers s) = length (workers s0).
Proof.
  induction 1 as [|x y z Hxy _ IH]; [done|]. destruct (step_lengths _ _ _ Hxy). lia.
Qed.

Lemma step_pool k s s' : length (queues s) <> 0 -> step k s s' -> pool s' ≡ₚ pool s.
Proof.
  intros Hc [[[tid|] a sp] Hs]; unfold sys_step in Hs; simpl in Hs;
    [eapply worker_step_pool|eapply client_step_pool]; eauto.
Qed.

Lemma reachable_pool k s0 s :
  length (queues s0) <> 0 -> rtc (step k) s0 s -> pool s ≡ₚ pool s0.
Proof.
  intros Hc Hr. revert Hc. induction Hr as [|x y z Hxy Hr IH]; intros Hc; [done|].
  rewrite IH by (by rewrite (proj1 (step_lengths k _ _ Hxy))). by apply (step_pool k).
Qed.

(** ** Shutdown *)

(** Worker steps only take tasks off queues and never touch a
    [finished] flag. *)
Definition shrinks (l l' : list nqueue) : Prop :=
  length l' = length l /\
  forall j q', l' !! j = Some q' ->
    exists q, l !! j = Some q /\ finished q' = finished q /\ (exists pre, queue q = pre ++ queue q') /\
      (finished q = true -> waiting q = [] -> waiting q' = []).

Lemma shrinks_refl l : shrinks l l.
Proof. split; [done|]. intros j q' Hj. exists q'. split_and!; [done|done| |done]. by exists []. Qed.

Lemma shrinks_insert l j q q' :
  l !! j = Some q -> finished q' = finished q -> (exists pre, queue q = pre ++ queue q') ->
  (finished q = true -> waiting q = [] -> waiting q' = []) ->
  shrinks l (<[j := q']> l).
Proof.
  intros Hj Hf Hpre Hw. split; [by rewrite length_insert|]. intros j' q'' Hj'.
  apply list_lookup_insert_Some in Hj' as [(<- & <- & _)|(_ & Hj')].
  - by exists q.
  - exists q''. split_and!; [done|done| |done]. by exists [].
Qed.

Lemma try_pop_shrinks a q r q' :
  try_pop a q = (r, q') -> finished q' = finished q /\ (exists pre, queue q = pre ++ queue q') /\
    (finished q = true -> waiting q = [] -> waiting q' = []).
Proof. intros Hp. split_and!; [| eexists; apply (try_pop_tasks _ _ _ _ Hp) |]; revert Hp; unfold try_pop;
  destruct a, (queue q); simpl; intros [= <- <-]; done. Qed.

Lemma pop_shrinks tid q r q' :
  pop tid q = (r, q') -> finished q' = finished q /\ (exists pre, queue q = pre ++ queue q') /\
    (finished q = true -> waiting q = [] -> waiting q' = []).
Proof. intros Hp. split_and!; [| eexists; apply (pop_tasks_eq _ _ _ _ Hp) |]; revert Hp; unfold pop;
  destruct (queue q); try destruct (finished q) eqn:Hf; intros [= <- <-]; done. Qed.

Lemma pop_closed tid q q' : pop tid q = (Closed, q') -> queue q = [] /\ finished q = true.
Proof. unfold pop. destruct (queue q); [|done]. by destruct (finished q); intros [=]. Qed.

Lemma worker_step_shape a sp tid s s' :
  worker_step a sp tid s = Some s' ->
  client s' = client s /\ shrinks (queues s) (queues s') /\
  exists pc pc', workers s !! tid = Some pc /\ pc <> Exited /\ workers s' = <[tid := pc']> (workers s) /\
    (pc' = Exited -> exists q, queues s !! tid = Some q /\ queue q = [] /\ finished q = true).
Proof.
  unfold worker_step. destruct (workers s !! tid) as [pc|] eqn:Hw; [|done].
  destruct pc as [n| | |f|]; try done.
  - case_match; [intros [= <-]; split_and!; [done|apply shrinks_refl|by eexists _, _]|].
    case_match eqn:Hq; [|done]. destruct (try_pop a _) as [r q'] eqn:Hp. intros [= <-].
    destruct (try_pop_shrinks _ _ _ _ Hp) as (Hf & Hpre & Hwt).
    split_and!; [done|by eapply shrinks_insert|]. eexists _, _. split_and!; [done..|].
    by destruct r.
  - case_match eqn:Hq; [|done]. destruct (pop tid _) as [r q'] eqn:Hp. intros [= <-].
    destruct (pop_shrinks _ _ _ _ Hp) as (Hf & Hpre & Hwt).
    split_and!; [done|by eapply shrinks_insert|]. eexists _, _. split_and!; [done..|].
    destruct r; [done| |done]. intros _. eexists. split; [done|]. by eapply pop_closed.
  - case_match eqn:Hq; [|done]. case_match; [|done]. intros [= <-].
    split_and!; [done| |by eexists _, _]. eapply shrinks_insert; [exact Hq|done|by exists []|].
    simpl. intros _ ->. done.
  - intros [= <-]. split_and!; [done|apply shrinks_refl|by eexists _, _].
Qed.

Definition client_done (c : cpc) : bool :=
  match c with CShutdown _ | CJoin | CFinished => true | _ => false end.

(** A queue is finished only once the client is in the destructor; an
    exited worker left its own queue empty and finished; [join] has
    returned only when every worker has exited. *)
Definition shutdown_inv (s : sys) : Prop :=
  (forall j q, queues s !! j = Some q -> finished q = true -> client_done (client s) = true) /\
  (forall tid, workers s !! tid = Some Exited ->
     exists q, queues s !! tid = Some q /\ queue q = [] /\ finished q = true) /\
  (client s = CFinished -> forall tid pc, workers s !! tid = Some pc -> pc = Exited).

Lemma shrinks_empty l l' j q :
  shrinks l l' -> l !! j = Some q -> queue q = [] -> finished q = true ->
  exists q', l' !! j = Some q' /\ queue q' = [] /\ finished q' = true.
Proof.
  intros [Hlen Hsh] Hq Hq0 Hf.
  destruct (lookup_lt_is_Some_2 l' j) as [q' Hq']; [rewrite Hlen; by eapply lookup_lt_Some|].
  destruct (Hsh _ _ Hq') as (q2 & Hq2 & Hf2 & (pre & Hpre) & _). rewrite Hq in Hq2. simplify_eq.
  exists q'. rewrite Hq0 in Hpre. symmetry in Hpre. apply app_eq_nil in Hpre as [_ ->].
  split_and!; congruence.
Qed.

Lemma worker_step_inv a sp tid s s' : shutdown_inv s -> worker_step a sp tid s = Some s' -> shutdown_inv s'.
Proof.
  intros (Hb & Hc & Hd) Hs.
  destruct (worker_step_shape _ _ _ _ _ Hs) as (Hcl & Hsh & pc & pc' & Hw & Hne & Hws & Hex).
  split_and!.
  - intros j q' Hj Hf. destruct (proj2 Hsh j q' Hj) as (q & Hq & Hf' & _). rewrite Hcl.
    apply (Hb j q Hq). congruence.
  - intros t Ht. rewrite Hws in Ht. apply list_lookup_insert_Some in Ht as [(<- & -> & _)|(_ & Ht)].
    + destruct (Hex eq_refl) as (q & Hq & Hq0 & Hf). by eapply shrinks_empty.
    + destruct (Hc t Ht) as (q & Hq & Hq0 & Hf). by eapply shrinks_empty.
  - intros Hfin. rewrite Hcl in Hfin. by specialize (Hd Hfin tid pc Hw).
Qed.

(** An update of one queue that keeps its [finished] flag, by a client
    that is not in the destructor. *)
Lemma client_set_q_inv s c j q q' :
  shutdown_inv s -> client_done (client s) = false -> client_done c = false -> c <> CFinished ->
  queues s !! j = Some q -> finished q' = finished q ->
  (forall tid, workers s !! tid = Some Exited -> tid <> j) ->
  shutdown_inv (set_client c (set_q j q' s)).
Proof.
  intros (Hb & Hc & Hd) Hcs Hc' Hnf Hq Hf Hex. split_and!; simpl.
  - intros j' q0 Hj' Hf0. apply list_lookup_insert_Some in Hj' as [(<- & <- & _)|(_ & Hj')].
    + rewrite Hf in Hf0. by rewrite (Hb _ _ Hq Hf0) in Hcs.
    + by rewrite (Hb _ _ Hj' Hf0) in Hcs.
  - intros t Ht. destruct (Hc t Ht) as (q0 & Hq0 & Hqe & Hf0). exists q0.
    rewrite list_lookup_insert_ne by (symmetry; by apply Hex). done.
  - done.
Qed.

Lemma client_step_inv k a s s' : shutdown_inv s -> client_step k a s = Some s' -> shutdown_inv s'.
Proof.
  intros Hinv. pose proof Hinv as (Hb & Hc & Hd). unfold client_step.
  destruct (client s) as [[|w ws]|w ws i n|j| | |] eqn:Hcl; try done.
  - intros [= <-]. split_and!; simpl; [done| |done]. apply Hc.
  - intros [= <-]. split_and!; simpl; [|done|done].
    intros j q Hj Hf. by specialize (Hb j q Hj Hf).
  - assert (Hex : forall j tid, workers s !! tid = Some Exited -> queues s !! j <> None -> tid <> j).
    { intros j tid Ht _ <-. destruct (Hc tid Ht) as (q & Hq & _ & Hf).
      by specialize (Hb _ _ Hq Hf). }
    case_match; [intros [= <-]; split_and!; simpl; [|done|done]|].
    { intros j q Hj Hf. by specialize (Hb j q Hj Hf). }
    case_match; case_match eqn:Hq; try done.
    + intros [= <-]. eapply (client_set_q_inv _ _ _ _ _ Hinv); [by rewrite Hcl|done|done|done|done|].
      intros tid Ht. apply (Hex _ tid Ht). by rewrite Hq.
    + destruct (try_push a w _) as [b q'] eqn:Hp. intros [= <-].
      eapply (client_set_q_inv _ _ _ _ _ Hinv); [by rewrite Hcl|by destruct b|by destruct b|done|
        apply (proj2 (try_push_tasks _ _ _ _ _ Hp))|].
      intros tid Ht. apply (Hex _ tid Ht). by rewrite Hq.
  - case_match; [intros [= <-]; split_and!; simpl; [done|apply Hc|done]|].
    case_match eqn:Hq; [|done]. intros [= <-]. split_and!; simpl; [done| |done].
    intros t Ht. destruct (Hc t Ht) as (q0 & Hq0 & Hqe & Hf0).
    destruct (decide (j = t)) as [<-|Hne].
    + rewrite Hq in Hq0. simplify_eq. exists (done q0). split_and!; [|done|done].
      apply list_lookup_insert_Some. left. split_and!; [done|done|by eapply lookup_lt_Some].
    + exists q0. by rewrite list_lookup_insert_ne.
  - case_match eqn:Hall; [|done]. intros [= <-]. split_and!; simpl; [done|apply Hc|].
    intros _ tid pc Hw. apply forallb_forall with (x := pc) in Hall.
    + by destruct pc.
    + by eapply list_elem_of_In, list_elem_of_lookup_2.
Qed.

Lemma step_inv k s s' : shutdown_inv s -> step k s s' -> shutdown_inv s'.
Proof.
  intros Hinv [[[tid|] a sp] Hs]; unfold sys_step in Hs; simpl in Hs;
    [eapply worker_step_inv|eapply client_step_inv]; eauto.
Qed.

Lemma lookup_repeat_some {A} (x y : A) n i : repeat x n !! i = Some y -> y = x.
Proof. revert i. induction n as [|n IH]; intros [|i]; simpl; intros H; simplify_eq; eauto. Qed.

Lemma init_inv count ws : shutdown_inv (init count ws).
Proof.
  split_and!; simpl.
  - intros j q Hj. by apply lookup_repeat_some in Hj as ->.
  - intros tid Ht. by apply lookup_repeat_some in Ht.
  - done.
Qed.

Lemma reachable_inv k count ws s : rtc (step k) (init count ws) s -> shutdown_inv s.
Proof.
  intros Hr. remember (init count ws) as s0 eqn:Hs0. pose proof (init_inv count ws) as Hi.
  rewrite <- Hs0 in Hi. clear Hs0. induction Hr as [|x y z Hxy _ IH]; [done|].
  apply IH. by eapply step_inv.
Qed.

Lemma init_lengths count ws :
  length (queues (init count ws)) = count /\ length (workers (init count ws)) = count.
Proof. unfold init. cbn [queues workers]. by rewrite !repeat_length. Qed.

Lemma pool_init count ws : pool (init count ws) = ws.
Proof.
  unfold pool, init. simpl. rewrite app_nil_r.
  assert (Hq : concat (map queue (repeat empty_nq count)) = []) by (induction count; simpl; auto).
  assert (Hw : concat (map pc_tasks (repeat (Scan 0) count)) = []) by (induction count; simpl; auto).
  by rewrite Hq, Hw, !app_nil_r.
Qed.

(** C27: Every task the client submits runs at most once, whatever the
    interleaving, the [try_lock] failures and the spurious wake-ups. *)
Theorem tasks_run_at_most_once k count ws s :
  count <> 0 -> NoDup ws -> rtc (step k) (init count ws) s -> NoDup (executed s).
Proof.
  intros Hc Hnd Hr. pose proof (reachable_pool k _ _ ltac:(by rewrite (proj1 (init_lengths count ws))) Hr) as Hp.
  rewrite pool_init in Hp. rewrite <- Hp in Hnd. unfold pool in Hnd.
  by apply NoDup_app in Hnd as (_ & _ & (_ & _ & (_ & _ & ?)%NoDup_app)%NoDup_app).
Qed.

(** Shared by the clients of the task system: a finished run has run
    exactly the submitted tasks. *)
Lemma finished_executed k count ws s :
  count <> 0 -> rtc (step k) (init count ws) s -> client s = CFinished -> executed s ≡ₚ ws.
Proof.
  intros Hc Hr Hfin. pose proof (reachable_pool k _ _ ltac:(by rewrite (proj1 (init_lengths count ws))) Hr) as Hp.
  rewrite pool_init in Hp. destruct (reachable_inv _ _ _ _ Hr) as (_ & Hex & Hall).
  destruct (reachable_lengths _ _ _ Hr) as [Hlq Hlw].
  rewrite (proj1 (init_lengths count ws)) in Hlq. rewrite (proj2 (init_lengths count ws)) in Hlw.
  specialize (Hall Hfin).
  assert (Hq : concat (map queue (queues s)) = []).
  { apply concat_nil_Forall, Forall_forall. intros l (q & -> & Hq)%list_elem_of_fmap.
    apply list_elem_of_lookup in Hq as [j Hj].
    destruct (lookup_lt_is_Some_2 (workers s) j) as [pc Hw];
      [rewrite Hlw, <- Hlq; by eapply lookup_lt_Some|].
    rewrite (Hall _ _ Hw) in Hw. destruct (Hex _ Hw) as (q' & Hq' & Hq0 & _). congruence. }
  assert (Hw : concat (map pc_tasks (workers s)) = []).
  { apply concat_nil_Forall, Forall_forall. intros l (pc & -> & Hpc)%list_elem_of_fmap.
    apply list_elem_of_lookup in Hpc as [j Hj]. by rewrite (Hall _ _ Hj). }
  rewrite <- Hp. unfold pool. by rewrite Hq, Hw, Hfin.
Qed.

(** C28: Once the destructor's [join] has returned, every submitted task has
    run exactly once. *)
Theorem join_runs_every_task k count ws s :
  count <> 0 -> rtc (step k) (init count ws) s -> client s = CFinished -> executed s ≡ₚ ws.
Proof. apply finished_executed. Qed.


Lemma run_schedule_rtc k cs s s' : run_schedule k cs s = Some s' -> rtc (step k) s s'.
Proof.
  revert s. induction cs as [|c cs IH]; intros s; simpl; [by intros [= ->]|].
  destruct (sys_step k c s) as [s1|] eqn:Hs; [|done]. intros Hr.
  eapply rtc_l; [by exists c|]. by apply IH.
Qed.

(** ** Executions *)

Definition run_as (tid : nat) : choice := mk_choice (Worker tid) true false.
Definition client_ok : choice := mk_choice Client true false.
Definition client_busy : choice := mk_choice Client false false.

(** Two workers, tasks [7] and [8]: the client submits both and shuts
    down, worker 0 runs [7] from its queue and steals [8] from queue 1,
    both workers exit and [join] returns. *)
Definition two_workers_schedule : list choice :=
  repeat client_ok 8 ++ repeat (run_as 0) 9 ++ repeat (run_as 1) 4 ++ [client_ok].

Definition two_workers_final : sys :=
  default (init 0 []) (run_schedule 48 two_workers_schedule (init 2 [7; 8])).

Lemma two_workers_reach : rtc (step 48) (init 2 [7; 8]) two_workers_final.
Proof. apply (run_schedule_rtc _ two_workers_schedule). vm_compute. reflexivity. Qed.

(** Worker 0 blocks on its empty queue; [try_lock] then fails in all 48
    rounds of [async] (a failure the standard allows), so the task goes
    through [push]. *)
Definition blocked_schedule : list choice :=
  [run_as 0; run_as 0; run_as 0; client_ok] ++ repeat client_busy 48 ++ [client_ok].

(** The same with [try_push] succeeding at once. *)
Definition notified_schedule : list choice := [run_as 0; run_as 0; run_as 0; client_ok; client_ok].


Lemma tasks_run_at_most_once_witness :
  2 <> 0 /\ NoDup [7; 8] /\ rtc (step 48) (init 2 [7; 8]) two_workers_final /\
  NoDup (executed two_workers_final).
Proof.
  assert (Hnd : NoDup [7; 8]) by (repeat constructor; set_solver).
  split; [lia|]. split; [exact Hnd|]. split; [exact two_workers_reach|].
  apply (tasks_run_at_most_once 48 2 [7; 8]); [lia|exact Hnd|exact two_workers_reach].
Defined.

Lemma join_runs_every_task_witness :
  2 <> 0 /\ rtc (step 48) (init 2 [7; 8]) two_workers_final /\ client two_workers_final = CFinished /\
  executed two_workers_final ≡ₚ [7; 8].
Proof.
  assert (Hfin : client two_workers_final = CFinished) by (vm_compute; reflexivity).
  split; [lia|]. split; [exact two_workers_reach|]. split; [exact Hfin|].
  apply (join_runs_every_task 48 2); [lia|exact two_workers_reach|exact Hfin].
Defined.

(** ** Progress *)

(** A finished queue has no blocked thread; the destructor has finished
    every queue before the one it is at; [CUndefined] is not reached. *)
Definition progress_inv (s : sys) : Prop :=
  (forall j q, queues s !! j = Some q -> finished q = true -> waiting q = []) /\
  (forall j, client s = CShutdown j -> j <= length (queues s) /\
     forall j' q, j' < j -> queues s !! j' = Some q -> finished q = true) /\
  (client s = CJoin \/ client s = CFinished -> forall j q, queues s !! j = Some q -> finished q = true) /\
  client s <> CUndefined.

Lemma worker_step_progress a sp tid s s' :
  progress_inv s -> worker_step a sp tid s = Some s' -> progress_inv s'.
Proof.
  intros (H1 & H2 & H3 & H4) Hs.
  destruct (worker_step_shape _ _ _ _ _ Hs) as (Hcl & [Hlen Hsh] & _).
  unfold progress_inv. rewrite Hcl, Hlen. split_and!; [|intros j Hj; destruct (H2 j Hj) as [Hle Hfin]; split; [done|]|..|done].
  - intros j q' Hj Hf. destruct (Hsh j q' Hj) as (q & Hq & Hf' & _ & Hw).
    rewrite Hf' in Hf. by apply Hw, (H1 j).
  - intros j' q' Hlt Hj'. destruct (Hsh j' q' Hj') as (q & Hq & -> & _). by apply (Hfin j').
  - intros Hc j q' Hj. destruct (Hsh j q' Hj) as (q & Hq & -> & _). by apply (H3 Hc j).
Qed.

Lemma slot_bound i n count : count <> 0 -> slot i n count < count.
Proof.
  intros Hc. unfold slot. pose proof (Z.mod_pos_bound (wrap32 (i + n)) (Z.of_nat count)) as Hb. lia.
Qed.

Lemma client_step_progress k a s s' :
  length (queues s) <> 0 -> progress_inv s -> client_step k a s = Some s' -> progress_inv s'.
Proof.
  intros Hcount (H1 & H2 & H3 & H4). unfold client_step.
  destruct (client s) as [[|w ws]|w ws i n|j| | |] eqn:Hcl; try done.
  - intros [= <-]. split_and!; simpl; [done| |naive_solver|done]. intros j [= <-]. split; [lia|].
    intros; lia.
  - intros [= <-]. split_and!; simpl; [done|done|naive_solver|done].
  - case_match eqn:Hz; [by apply Nat.eqb_eq in Hz|].
    assert (Hq' : forall j q q', queues s !! j = Some q -> finished q' = finished q ->
                  (waiting q = [] -> waiting q' = []) ->
                  progress_inv (set_client (CAsync ws) (set_q j q' s)) /\
                  progress_inv (set_client (CTry w ws i (wrap32 (n + 1))) (set_q j q' s))).
    { intros j q q' Hq Hf Hw. split; (split_and!; simpl; [|done|naive_solver|done]);
        intros j' q0 Hj' Hf0; apply list_lookup_insert_Some in Hj' as [(<- & <- & _)|(_ & Hj')];
        [apply Hw, (H1 j q Hq); congruence|by apply (H1 j')|apply Hw, (H1 j q Hq); congruence|
         by apply (H1 j')]. }
    destruct (Z.eqb _ _) eqn:Hb; destruct (queues s !! _) as [q0|] eqn:Hq; try done.
    + intros [= <-]. by eapply (Hq' _ _ _ Hq).
    + destruct (try_push a w _) as [b q'] eqn:Hp. intros [= <-].
      pose proof (proj2 (try_push_tasks _ _ _ _ _ Hp)) as Hf.
      assert (Hw : waiting q0 = [] -> waiting q' = []).
      { revert Hp. unfold try_push. destruct a; intros [= <- <-]; [|done]. intros Hw0.
        unfold notify_one, set_queue. simpl. by rewrite Hw0. }
      destruct b; [exact (proj1 (Hq' _ _ _ Hq Hf Hw))|exact (proj2 (Hq' _ _ _ Hq Hf Hw))].
  - destruct (H2 j eq_refl) as [Hle Hfin]. case_match eqn:Hj.
    + apply Nat.eqb_eq in Hj as ->. intros [= <-]. split_and!; simpl; [done|done| |done].
      intros _ j' q Hj'. apply (Hfin j'); [by eapply lookup_lt_Some|done].
    + apply Nat.eqb_neq in Hj. case_match eqn:Hq; [|done]. intros [= <-].
      split_and!; simpl; [| |naive_solver|done].
      * intros j' q0 Hj' Hf0. apply list_lookup_insert_Some in Hj' as [(<- & <- & _)|(_ & Hj')];
          [done|by apply (H1 j')].
      * intros j0 [= <-]. rewrite length_insert. split; [lia|].
        intros j' q0 Hlt Hj'. apply list_lookup_insert_Some in Hj' as [(<- & <- & _)|(Hne & Hj')];
          [done|]. apply (Hfin j'); [lia|done].
  - case_match; [|done]. intros [= <-]. split_and!; simpl; [done|done| |done].
    intros _. apply H3. by left.
Qed.

Lemma step_progress k s s' : length (queues s) <> 0 -> progress_inv s -> step k s s' -> progress_inv s'.
Proof.
  intros Hc Hinv [[[tid|] a sp] Hs]; unfold sys_step in Hs; simpl in Hs;
    [eapply worker_step_progress|eapply client_step_progress]; eauto.
Qed.

Lemma reachable_progress k count ws s :
  count <> 0 -> rtc (step k) (init count ws) s -> progress_inv s.
Proof.
  intros Hc Hr.
  assert (Hi : progress_inv (init count ws)).
  { split_and!; simpl; [|done|naive_solver|done]. intros j q Hj. by apply lookup_repeat_some in Hj as ->. }
  assert (Hl : length (queues (init count ws)) <> 0) by (by rewrite (proj1 (init_lengths count ws))).
  assert (Hgen : forall s0, rtc (step k) s0 s -> progress_inv s0 -> length (queues s0) <> 0 ->
                 progress_inv s).
  { intros s0 Hr'. clear Hr Hi Hl. induction Hr' as [|x y z Hxy _ IH]; intros Hx Hlx; [done|]. apply IH.
    - by eapply step_progress.
    - by rewrite (proj1 (step_lengths _ _ _ Hxy)). }
  by apply (Hgen _ Hr).
Qed.

(** C29: No deadlock: for [count <> 0], in every reachable state before
    [join] has returned some thread can take a step without a spurious
    wake-up. *)
Theorem no_deadlock k count ws s :
  count <> 0 -> rtc (step k) (init count ws) s -> client s <> CFinished ->
  exists c, spurious c = false /\ sys_step k c s <> None.
Proof.
  intros Hc Hr Hfin. destruct (reachable_progress _ _ _ _ Hc Hr) as (H1 & H2 & H3 & H4).
  destruct (reachable_lengths _ _ _ Hr) as [Hlq Hlw].
  rewrite (proj1 (init_lengths count ws)) in Hlq. rewrite (proj2 (init_lengths count ws)) in Hlw.
  assert (Hlook : forall j, j < count -> exists q, queues s !! j = Some q).
  { intros j Hj. apply lookup_lt_is_Some_2. lia. }
  destruct (client s) as [[|w ws']|w ws' i n|j| | |] eqn:Hcl; try done.
  - exists (mk_choice Client true false). split; [done|]. unfold sys_step, client_step; simpl. by rewrite Hcl.
  - exists (mk_choice Client true false). split; [done|]. unfold sys_step, client_step; simpl. by rewrite Hcl.
  - exists (mk_choice Client true false). split; [done|]. unfold sys_step, client_step; simpl.
    rewrite Hcl, Hlq. destruct (Nat.eqb_spec count 0) as [|_]; [done|].
    destruct (Z.eqb _ _).
    + destruct (Hlook (Z.to_nat (i mod Z.of_nat count))) as [q ->]; [|done].
      pose proof (Z.mod_pos_bound i (Z.of_nat count)). lia.
    + destruct (Hlook (slot i n count)) as [q ->]; [by apply slot_bound|]. by destruct (try_push true w q).
  - exists (mk_choice Client true false). split; [done|]. unfold sys_step, client_step; simpl.
    rewrite Hcl, Hlq. destruct (Nat.eqb_spec j count) as [|Hne]; [done|].
    destruct (H2 j eq_refl) as [Hle _]. destruct (Hlook j) as [q ->]; [lia|done].
  - destruct (forallb is_exited (workers s)) eqn:Hall.
    { exists (mk_choice Client true false). split; [done|]. unfold sys_step, client_step; simpl.
      by rewrite Hcl, Hall. }
    destruct (forallb_false_lookup _ _ Hall) as (tid & pc & Htid & Hpc).
    pose proof (lookup_lt_Some _ _ _ Htid) as Hlt. rewrite Hlw in Hlt.
    exists (mk_choice (Worker tid) true false). split; [done|]. unfold sys_step, worker_step; simpl.
    rewrite Htid. destruct pc as [m| | |f|]; [| | |done|done].
    + destruct (Nat.eqb _ _); [done|]. rewrite Hlq.
      destruct (Hlook (slot (Z.of_nat tid) (Z.of_nat m) count)) as [q ->]; [by apply slot_bound|].
      by destruct (try_pop true q).
    + destruct (Hlook tid) as [q ->]; [done|]. by destruct (pop tid q).
    + destruct (Hlook tid) as [q Hq]; [done|]. rewrite Hq.
      rewrite (H1 tid q Hq (H3 (or_introl eq_refl) tid q Hq)). done.
Qed.

Definition blocked_state : sys :=
  default (init 0 []) (run_schedule 48 blocked_schedule (init 1 [7])).

Lemma no_deadlock_witness :
  1 <> 0 /\ rtc (step 48) (init 1 [7]) blocked_state /\ client blocked_state <> CFinished /\
  exists c, spurious c = false /\ sys_step 48 c blocked_state <> None.
Proof.
  assert (Hr : rtc (step 48) (init 1 [7]) blocked_state)
    by (apply (run_schedule_rtc _ blocked_schedule); vm_compute; reflexivity).
  assert (Hf : client blocked_state <> CFinished) by (vm_compute; discriminate).
  split; [lia|]. split; [exact Hr|]. split; [exact Hf|].
  exact (no_deadlock 48 1 [7] blocked_state ltac:(lia) Hr Hf).
Defined.

(** ** Machine integers *)

(** A value of [unsigned]. *)
Definition u32 (z : Z) : Prop := (0 <= z < 2 ^ 32)%Z.

(** The state fits the types of the code: [index] and the [i] and [n]
    of [async] are [unsigned]; the [n] of [run]'s scan and the [j] of
    the destructor's loop run from [0] to [count]. *)
Definition typed (s : sys) : Prop :=
  u32 (index s) /\
  (forall w ws i n, client s = CTry w ws i n -> u32 i /\ u32 n) /\
  (forall tid n, workers s !! tid = Some (Scan n) -> n <= length (queues s)) /\
  (forall j, client s = CShutdown j -> j <= length (queues s)).

Lemma wrap32_u32 (z : Z) : u32 (wrap32 z).
Proof. unfold u32, wrap32. apply Z.mod_pos_bound. lia. Qed.

(** A worker step changes the worker's own program counter, and the
    queues but not their number; a new scan position is [0] or the next
    one below [count]. *)
Lemma worker_step_frame a sp tid s s' :
  worker_step a sp tid s = Some s' ->
  index s' = index s /\ client s' = client s /\ length (queues s') = length (queues s) /\
  exists pc', workers s' = <[tid := pc']> (workers s) /\
    forall n', pc' = Scan n' -> n' = 0%nat \/
      exists n, workers s !! tid = Some (Scan n) /\ n <> length (queues s) /\ n' = S n.
Proof.
  unfold worker_step. destruct (workers s !! tid) as [[n| | |f|]|] eqn:Hw; try done;
    repeat (case_match; simplify_eq/=); intros [= <-]; simpl; rewrite ?length_insert;
    (split_and!; [done..|]); eexists; (split; [done|]); intros n' [= <-]; eauto.
  right. exists n. split_and!; [done| |done]. by apply Nat.eqb_neq.
Qed.

Lemma scan_bound_insert (ws : list wpc) tid pc m :
  (forall t n, ws !! t = Some (Scan n) -> n <= m) -> (forall n, pc = Scan n -> n <= m) ->
  forall t n, <[tid := pc]> ws !! t = Some (Scan n) -> n <= m.
Proof.
  intros Hws Hpc t n [(<- & -> & _)|(_ & Ht)]%list_lookup_insert_Some; [by apply Hpc|by apply (Hws t)].
Qed.

Lemma worker_step_typed a sp tid s s' : typed s -> worker_step a sp tid s = Some s' -> typed s'.
Proof.
  intros (Hi & Hc & Hw & Hj) Hs.
  destruct (worker_step_frame _ _ _ _ _ Hs) as (Hix & Hcl & Hl & pc' & Hws & Hpc).
  unfold typed. rewrite Hix, Hcl, Hl, Hws. split_and!; [done|done| |done].
  apply scan_bound_insert; [done|]. intros n ->.
  destruct (Hpc n eq_refl) as [->|(m & Hm & Hne & ->)]; [lia|]. specialize (Hw _ _ Hm). lia.
Qed.

Lemma client_step_typed k a s s' : typed s -> client_step k a s = Some s' -> typed s'.
Proof.
  intros (Hi & Hc & Hw & Hj). unfold client_step.
  destruct (client s) as [[|w ws]|w ws i n|j| | |] eqn:Hcl; try done;
    repeat (case_match; simplify_eq/=); intros [= <-]; unfold typed; simpl; rewrite ?length_insert;
    split_and!; try done; intros; simplify_eq/=; eauto using wrap32_u32.
  - lia.
  - split; [done|unfold u32; lia].
  - split; [by destruct (Hc _ _ _ _ eq_refl)|apply wrap32_u32].
  - match goal with H : Nat.eqb _ _ = false |- _ => apply Nat.eqb_neq in H end.
    specialize (Hj _ eq_refl). lia.
Qed.

Lemma step_typed k s s' : typed s -> step k s s' -> typed s'.
Proof.
  intros Hs [[[tid|] a sp] Hst]; unfold sys_step in Hst; simpl in Hst;
    [eapply worker_step_typed|eapply client_step_typed]; eauto.
Qed.



Definition wrap_state : sys := default (init 0 []) (run_schedule (2 ^ 31) [client_ok] (init 2 [7])).


End TaskQueue.
