(* ===== verification/TaskTest.v ===== *)
(** * [task_algorithms.hpp] and [timer.hpp]: the timing driver

    [timer] (timer.hpp) reads [system_clock::now()] when it is built and
    prints the elapsed nanoseconds and its name when it is destroyed.
    [task_test] (task_algorithms.hpp) prints the numbers [0 .. 999] in a
    loop that sleeps 3us after each, under a [timer]; then builds a
    [task_system], submits five tasks under a second [timer], each of
    which prints its chunk of 200 numbers under a third one, and returns,
    which destroys the task system (its destructor joins the workers).

    A thread's effects are a state monad [M] over a [world]: the wall
    clock, the drift the environment adds at each clock reading, and the
    lines printed so far.  The task system is the one of [TaskQueue]: the
    tasks are the numbers [0 .. 4], and the lines of the threads that run
    concurrently (the client's timer and the five tasks) reach the output
    as an [interleaving] of their own lines.

    The theorems: the single-threaded part prints every number in order
    and reports at least the 3ms it slept when the clock is steady; the
    clock is [system_clock], which can be set back, and then the
    reported duration is negative; once [task_test] has returned, each
    number [0 .. 999] has been printed exactly twice, whatever the
    interleaving of the threads. *)

From S2P Require Import Prelude TaskQueue.
From stdpp Require Import relations strings pretty list_numbers.
Import TaskQueue.

Module TaskTest.
Local Open Scope Z_scope.

(** ** The machine: the wall clock and the standard output *)

(** The two [printf] formats: ["[task #%d]\n"] and
    ["[duration] %lld nanosecs [name] %s\n"]. *)
Inductive line :=
| TaskLine (n : Z)
| DurationLine (d : Z) (name : string).

(** [clock] is [system_clock]'s time in nanoseconds (libstdc++'s period
    for it, so [duration_cast<nanoseconds>] is the identity).  [drift]
    lists, for each reading of the clock in turn, the time the clock has
    moved since the last event besides the sleeps: time spent running,
    oversleeping, or an adjustment of the wall clock, which may be
    negative. *)
Record world := mk_world { clock : Z; drift : list Z; out : list line }.

Definition M (A : Type) : Type := world -> A * world.

#[export] Instance M_ret : MRet M := fun A x w => (x, w).
#[export] Instance M_bind : MBind M := fun A B k m w => let '(x, w') := m w in k x w'.

(** [clock::now()]. *)
Definition now : M Z := fun w =>
  let c := clock w + hd 0 (drift w) in (c, mk_world c (tail (drift w)) (out w)).

(** [std::this_thread::sleep_for(d)]: at least [d]; the rest is drift. *)
Definition sleep_for (d : Z) : M unit := fun w => (tt, mk_world (clock w + d) (drift w) (out w)).

Definition printf (l : line) : M unit := fun w => (tt, mk_world (clock w) (drift w) (out w ++ [l])).

(** [struct timer] (timer.hpp lines 4-20). *)
Record timer := mk_timer { name : string; start : Z }.

(** [timer(n)]: [name{n}, start{clock::now()}]. *)
Definition timer_ctor (n : string) : M timer := t ← now; mret (mk_timer n t).

(** [~timer()]: print [duration_cast<nanoseconds>(now() - start).count()]. *)
Definition timer_dtor (t : timer) : M unit :=
  t1 ← now; printf (DurationLine (t1 - start t) (name t)).

(** [for (int i = i0; n iterations; ++i) body(i)]. *)
Fixpoint for_from (i : Z) (n : nat) (body : Z -> M unit) : M unit :=
  match n with
  | O => mret tt
  | S n' => body i;; for_from (i + 1) n' body
  end.

(** [for (int i = 0; i < bound; ++i) body(i)]. *)
Definition for_lt (bound : Z) (body : Z -> M unit) : M unit := for_from 0 (Z.to_nat bound) body.

(** The lines a thread prints when it runs [m] from clock [c] with the
    drifts [dr]. *)
Definition run_thread (m : M unit) (c : Z) (dr : list Z) : list line :=
  out (m (mk_world c dr [])).2.

(** ** [task_test] (task_algorithms.hpp lines 4-36) *)

(** Lines 7-11; [3us] in nanoseconds. *)
Definition total : Z := 1000.
Definition sleep_time : Z := 3000.
Definition n_async : Z := 5.
Definition chunk_size : Z := Z.quot total n_async.

(** The body of both loops: [printf("[task #%d]\n", n); sleep_for(sleep_time)]. *)
Definition print_and_sleep (n : Z) : M unit := printf (TaskLine n);; sleep_for sleep_time.

(** Lines 13-18. *)
Definition single_threaded : M unit :=
  t ← timer_ctor "single threaded"; for_lt total (fun i => print_and_sleep i);; timer_dtor t.

(** Lines 26-33: the task submitted at iteration [i]. *)
Definition async_task (i : Z) : M unit :=
  let start := i * chunk_size in
  t3 ← timer_ctor (pretty i); for_lt chunk_size (fun j => print_and_sleep (j + start));; timer_dtor t3.

(** Lines 22-35 on the client thread: the [t2] timer around the [async]
    calls, which print nothing and do not sleep. *)
Definition client_timer : M unit := t2 ← timer_ctor "async function"; timer_dtor t2.

(** Lines 24-34: the tasks [0 .. n_async - 1], submitted in order. *)
Definition submitted : list task := seq 0 (Z.to_nat n_async).

(** [task_system ts{}]: the default constructor's [k_bound]
    (task_queue.hpp line 107). *)
Definition ts_k_bound : Z := 48.

(** The lines printed by concurrent threads reach the output one at a
    time, each thread's in its own order. *)
Inductive interleaving {A} : list (list A) -> list A -> Prop :=
| il_end ls : Forall (eq []) ls -> interleaving ls []
| il_next ls i x xs o :
    ls !! i = Some (x :: xs) -> interleaving (<[i := xs]> ls) o -> interleaving ls (x :: o).

(** The output of [task_test] after the task system [s] has been
    destroyed: the single-threaded part, then the client's timer line
    and the lines of each task run, interleaved. *)
Definition task_test_output (c0 : Z) (dr0 : list Z) (cenv : Z * list Z)
    (tenv : task -> Z * list Z) (s : sys) (o : list line) : Prop :=
  exists o', o = run_thread single_threaded c0 dr0 ++ o' /\
    interleaving (run_thread client_timer cenv.1 cenv.2 ::
                  map (fun f => run_thread (async_task (Z.of_nat f)) (tenv f).1 (tenv f).2)
                    (executed s)) o'.

(** The numbers of the ["[task #%d]"] lines. *)
Fixpoint task_numbers (o : list line) : list Z :=
  match o with
  | [] => []
  | TaskLine n :: o' => n :: task_numbers o'
  | DurationLine _ _ :: o' => task_numbers o'
  end.

(** ** Lemmas *)

(** Run the monadic code on a concrete world. *)
Ltac run_M :=
  cbn [for_from]; unfold mbind, M_bind, mret, M_ret, timer_ctor, timer_dtor, now, printf, sleep_for, for_lt;
  simpl.

Lemma task_numbers_app o1 o2 : task_numbers (o1 ++ o2) = task_numbers o1 ++ task_numbers o2.
Proof. induction o1 as [|[] o1 IH]; simpl; by rewrite ?IH. Qed.

#[export] Instance task_numbers_perm : Proper ((≡ₚ) ==> (≡ₚ)) task_numbers.
Proof.
  induction 1 as [|[] ??? IH|[] []|]; simpl; try done; try by f_equiv.
  - apply perm_swap.
  - by etrans.
Qed.

Lemma print_loop (g : Z -> Z) i n c dr o :
  for_from i n (fun j => print_and_sleep (g j)) (mk_world c dr o) =
    (tt, mk_world (c + Z.of_nat n * sleep_time) dr
           (o ++ map (fun j => TaskLine (g j)) (seqZ i (Z.of_nat n)))).
Proof.
  revert i c o. induction n as [|n IH]; intros i c o; run_M.
  - rewrite app_nil_r. f_equal. f_equal. lia.
  - rewrite IH, (seqZ_cons i (Z.of_nat (S n))) by lia.
    replace (Z.pred (Z.of_nat (S n))) with (Z.of_nat n) by lia.
    replace (Z.succ i) with (i + 1) by lia. simpl. rewrite <- app_assoc.
    f_equal. f_equal. lia.
Qed.

Lemma timed_loop (nm : string) (g : Z -> Z) n c dr :
  (t ← timer_ctor nm; for_lt n (fun j => print_and_sleep (g j));; timer_dtor t)
    (mk_world c dr []) =
    (tt, mk_world (c + hd 0 dr + Z.of_nat (Z.to_nat n) * sleep_time + hd 0 (tail dr)) (tail (tail dr))
           (map (fun j => TaskLine (g j)) (seqZ 0 (Z.of_nat (Z.to_nat n))) ++
            [DurationLine (Z.of_nat (Z.to_nat n) * sleep_time + hd 0 (tail dr)) nm])).
Proof.
  run_M. rewrite print_loop. run_M. do 5 f_equal. lia.
Qed.

Lemma interleaving_perm {A} (ls : list (list A)) o : interleaving ls o -> o ≡ₚ concat ls.
Proof.
  induction 1 as [ls Hnil|ls i x xs o Hi _ IH].
  - assert (concat ls = []) as -> by (apply concat_nil_Forall; by eapply Forall_impl).
    done.
  - rewrite IH. pose proof (concat_map_insert id ls i (x :: xs) xs Hi) as Hp.
    rewrite !map_id in Hp. unfold id in Hp. apply (Permutation_app_inv_r xs).
    rewrite <- Hp. solve_Permutation.
Qed.

Lemma interleaving_cons_nil {A} (ls : list (list A)) o : interleaving ls o -> interleaving ([] :: ls) o.
Proof.
  induction 1 as [ls Hnil|ls i x xs o Hi _ IH]; [by constructor; constructor|].
  by apply (il_next _ (S i) x xs).
Qed.

(** Printing each thread's lines in turn is one of the interleavings. *)
Lemma interleaving_concat {A} (ls : list (list A)) : interleaving ls (concat ls).
Proof.
  induction ls as [|l ls IH]; [by constructor|]. simpl.
  induction l as [|x l IHl]; simpl; [by apply interleaving_cons_nil|].
  by apply (il_next _ 0 x l).
Qed.

Lemma task_numbers_concat (ls : list (list line)) :
  task_numbers (concat ls) = concat (map task_numbers ls).
Proof. induction ls as [|l ls IH]; simpl; [done|]. by rewrite task_numbers_app, IH. Qed.

Lemma task_numbers_lines (g : Z -> Z) l d nm :
  task_numbers (map (fun j => TaskLine (g j)) l ++ [DurationLine d nm]) = map g l.
Proof. induction l as [|j l IH]; simpl; [done|]. by rewrite IH. Qed.

(** The single-threaded part on any clock: the numbers in order, then
    the slept time plus the drift of the second reading. *)
Lemma single_threaded_output c dr :
  run_thread single_threaded c dr =
    map TaskLine (seqZ 0 total) ++
    [DurationLine (total * sleep_time + hd 0 (tail dr)) "single threaded"].
Proof.
  pose proof (timed_loop "single threaded" (fun j => j) total c dr) as Hl. cbv beta in Hl.
  unfold run_thread, single_threaded. by rewrite Hl.
Qed.

Lemma async_task_numbers f c dr :
  task_numbers (run_thread (async_task f) c dr) =
    map (fun j => j + f * chunk_size) (seqZ 0 chunk_size).
Proof.
  pose proof (timed_loop (pretty f) (fun j => j + f * chunk_size) chunk_size c dr) as Hl.
  unfold run_thread, async_task. rewrite Hl. apply task_numbers_lines.
Qed.

(** The five chunks cover [0 .. total - 1]. *)
Lemma chunks_cover :
  concat (map (fun f : task => map (fun j => j + Z.of_nat f * chunk_size) (seqZ 0 chunk_size))
            submitted) = seqZ 0 total.
Proof. vm_compute. reflexivity. Qed.

(** ** Theorems *)

(** C35: [timer] (timer.hpp, task_algorithms.hpp lines 13-18) measures the
    single-threaded part, which prints [0 .. 999] in order and then one
    duration line.  With a clock that never goes back the duration is at
    least the [1000 * 3us] it slept; but [timer] reads [system_clock], which
    is not steady, and when the wall clock is set back an hour while the
    loop runs the reported duration is negative. *)
Theorem single_threaded_duration :
  (forall c dr, Forall (fun d => 0 <= d) dr ->
     exists d, run_thread single_threaded c dr =
       map TaskLine (seqZ 0 total) ++ [DurationLine d "single threaded"] /\ total * sleep_time <= d) /\
  (exists c dr d, run_thread single_threaded c dr =
     map TaskLine (seqZ 0 total) ++ [DurationLine d "single threaded"] /\ d < 0).
Proof.
  split.
  - intros c dr Hdr. rewrite single_threaded_output. eexists. split; [done|].
    destruct dr as [|d0 [|d1 dr]]; simpl; [lia|lia|]. inversion Hdr as [|? ? _ Hdr']. inversion Hdr'. lia.
  - exists 0, [0; -3600 * 10 ^ 9], (total * sleep_time - 3600 * 10 ^ 9).
    rewrite single_threaded_output. split; [done|]. vm_compute. done.
Qed.

(** C34: Composition of [task_test] with the task system: once
    [task_test] has returned (the destructor of [ts] has joined the
    workers), each number [0 .. 999] has been printed exactly twice, once
    by the single-threaded loop and once by one of the tasks, whatever the
    number of workers, the schedule, the clocks and the interleaving of
    the threads' lines. *)
Theorem task_test_prints_each_number_twice (count : nat) s c0 dr0 cenv tenv o :
  count <> 0%nat -> rtc (step ts_k_bound) (init count submitted) s -> client s = CFinished ->
  task_test_output c0 dr0 cenv tenv s o ->
  task_numbers o ≡ₚ seqZ 0 total ++ seqZ 0 total.
Proof.
  intros Hc Hr Hfin (o' & -> & Hil). rewrite task_numbers_app, single_threaded_output.
  rewrite task_numbers_lines, map_id. f_equiv.
  rewrite (interleaving_perm _ _ Hil), task_numbers_concat. simpl.
  rewrite map_map.
  rewrite (map_ext _ (fun f : task => map (fun j => j + Z.of_nat f * chunk_size) (seqZ 0 chunk_size)))
    by (intros f; apply async_task_numbers).
  rewrite (finished_executed _ _ _ _ Hc Hr Hfin). by rewrite chunks_cover.
Qed.

(** ** Executions *)

(** One worker: the client submits the five tasks and shuts down, the
    worker runs them in order and exits, [join] returns. *)
Definition one_worker_schedule : list choice :=
  repeat client_ok 13 ++ repeat (run_as 0) 13 ++ [client_ok].

Definition one_worker_final : sys :=
  default (init 0 []) (run_schedule ts_k_bound one_worker_schedule (init 1 submitted)).

Definition one_worker_output : list line :=
  run_thread single_threaded 0 [] ++
  concat (run_thread client_timer 0 [] ::
          map (fun f => run_thread (async_task (Z.of_nat f)) 0 []) (executed one_worker_final)).

Lemma task_test_prints_each_number_twice_witness :
  1%nat <> 0%nat /\ rtc (step ts_k_bound) (init 1 submitted) one_worker_final /\
  client one_worker_final = CFinished /\
  task_test_output 0 [] (0, []) (fun _ => (0, [])) one_worker_final one_worker_output /\
  task_numbers one_worker_output ≡ₚ seqZ 0 total ++ seqZ 0 total.
Proof.
  assert (Hr : rtc (step ts_k_bound) (init 1 submitted) one_worker_final).
  { apply (run_schedule_rtc _ one_worker_schedule). vm_compute. reflexivity. }
  assert (Hf : client one_worker_final = CFinished) by (vm_compute; reflexivity).
  assert (Ho : task_test_output 0 [] (0, []) (fun _ => (0, [])) one_worker_final one_worker_output).
  { eexists. split; [reflexivity|]. apply interleaving_concat. }
  split_and!; [lia|exact Hr|exact Hf|exact Ho|].
  exact (task_test_prints_each_number_twice 1 _ 0 [] (0, []) (fun _ => (0, [])) _ ltac:(lia) Hr Hf Ho).
Defined.

Lemma single_threaded_duration_witness :
  Forall (fun d => 0 <= d) [5; 7] /\
  exists d, run_thread single_threaded 0 [5; 7] =
    map TaskLine (seqZ 0 total) ++ [DurationLine d "single threaded"] /\ total * sleep_time <= d.
Proof.
  assert (H : Forall (fun d => 0 <= d) [5; 7]) by (repeat constructor; lia).
  split; [exact H|]. exact (proj1 single_threaded_duration 0 [5; 7] H).
Defined.

End TaskTest.
