(* ===== verification/HasField.v ===== *)
(** * [has_field_example.hpp]: a detection trait and the function it guards

    [has_field<T>] is true when [T::field] and [&T::member_fun] are well
    formed (lines 3-11); [requires_field<T>] turns it into an
    [enable_if] (lines 16-17), so [fun] (lines 19-22), which returns
    [value.field * value.field], can only be called on such types.  The
    trait is the class [has_field]: a type with a [double] member [field]
    and a declared member function [member_fun], whose definition may be
    missing ([test] declares it and never defines it, which the trait
    does not look at).  [double] is IEEE 754 binary64 as the Standard
    Library's [SpecFloat] specifies it (53 bits of precision, exponents
    below 1024, round to nearest even), so the product rounds, overflows
    to infinity and propagates NaN as the hardware does.

    The theorems: the square is never negative (no result has its sign
    bit set) and is NaN exactly when the field is NaN; it overflows to
    [+inf] from [2^512] on, while the largest double below [2^512] has a
    finite square. *)

From S2P Require Import Prelude.
From Stdlib Require Import SpecFloat.

Module HasField.
Local Open Scope Z_scope.

(** [double]: binary64. *)
Definition double : Type := spec_float.
Definition dprec : Z := 53.
Definition demax : Z := 1024.

(** The [*] of two [double]s. *)
Definition dmul (x y : double) : double := SFmul dprec demax x y.

(** The sign bit of a [double]; NaN has none in this specification. *)
Definition sign_bit (x : double) : bool :=
  match x with
  | S754_zero s | S754_infinity s | S754_finite s _ _ => s
  | S754_nan => false
  end.

(** [has_field<T>] (lines 3-11): [decltype(T::field)] and
    [decltype(&T::member_fun)]; the member function's body, when it has
    one. *)
Class has_field (T : Type) := {
  field : T -> double;
  member_fun : option (T -> double -> double -> double)
}.

(** [fun] (lines 19-22), callable through [requires_field<T>] only on a
    type with [has_field]. *)
Definition fun_ {T} `{has_field T} (value : T) : double := dmul (field value) (field value).

(** [struct test] (lines 24-27). *)
Record test := mk_test { test_field : double }.

#[export] Instance test_has_field : has_field test := {|
  field := test_field;
  member_fun := None
|}.

(** ** Rounding keeps the sign and never makes a NaN of a number *)

Lemma shr_1_nonneg mrs : 0 <= shr_m mrs -> 0 <= shr_m (shr_1 mrs).
Proof. destruct mrs as [[|[p|p|]|p] r s]; simpl; lia. Qed.

Lemma iter_shr_1_nonneg p mrs : 0 <= shr_m mrs -> 0 <= shr_m (iter_pos shr_1 p mrs).
Proof.
  revert mrs. induction p as [p IH|p IH|]; intros mrs Hm; simpl; auto using shr_1_nonneg.
Qed.

Lemma shr_fexp_nonneg m e l : 0 <= m -> 0 <= shr_m (fst (shr_fexp dprec demax m e l)).
Proof.
  intros Hm. unfold shr_fexp, shr.
  assert (0 <= shr_m (shr_record_of_loc m l)) by (destruct l as [|[]]; simpl; lia).
  case_match; simpl; auto using iter_shr_1_nonneg.
Qed.

Lemma round_nearest_even_nonneg m l : 0 <= m -> 0 <= round_nearest_even m l.
Proof. intros Hm. destruct l as [|[]]; simpl; try case_match; lia. Qed.

(** A rounded product of positive mantissas is a number of the sign asked for. *)
Lemma binary_round_aux_sign sx mx ex lx :
  0 <= mx ->
  binary_round_aux dprec demax sx mx ex lx <> S754_nan /\
  sign_bit (binary_round_aux dprec demax sx mx ex lx) = sx.
Proof.
  intros Hm. unfold binary_round_aux.
  destruct (shr_fexp dprec demax mx ex lx) as [mrs' e'] eqn:E1.
  pose proof (shr_fexp_nonneg mx ex lx Hm) as H1. rewrite E1 in H1. simpl in H1.
  pose proof (round_nearest_even_nonneg _ (loc_of_shr_record mrs') H1) as H2.
  destruct (shr_fexp dprec demax (round_nearest_even (shr_m mrs') (loc_of_shr_record mrs')) e' loc_Exact)
    as [mrs'' e''] eqn:E2.
  pose proof (shr_fexp_nonneg _ e' loc_Exact H2) as H3. rewrite E2 in H3. simpl in H3.
  destruct (shr_m mrs'') as [|p|p]; [done| |lia]. by case_match.
Qed.

(** ** Theorems *)

(** The square of a number is a number of sign [+]. *)
Lemma fun_square_sign {T} `{has_field T} (value : T) :
  sign_bit (fun_ value) = false /\ (fun_ value = S754_nan <-> field value = S754_nan).
Proof.
  unfold fun_, dmul, SFmul. destruct (field value) as [s|s| |s m e]; simpl;
    try (rewrite xorb_nilpotent; split; [done|split; discriminate]); [done|].
  destruct (binary_round_aux_sign (xorb s s) (Z.pos (m * m)) (e + e) loc_Exact ltac:(lia))
    as [Hn Hs].
  rewrite xorb_nilpotent in *. split; [done|]. split; [done|discriminate].
Qed.

(** C36: [fun] never returns a negative number: whatever the field, the
    square has its sign bit clear, and it is NaN exactly when the field
    is NaN ([0 * inf], the one product of binary64 that makes a NaN of
    numbers, cannot be a square).  It overflows from [2^512] on: the
    largest double below [2^512], [(2^53 - 1) * 2^459], squares to the
    finite [(2^53 - 2) * 2^971] (rounded to nearest even), and [2^512]
    squares to [+inf]; both inputs are well-formed doubles. *)
Theorem fun_square_range :
  (forall T `{has_field T} (value : T),
     sign_bit (fun_ value) = false /\ (fun_ value = S754_nan <-> field value = S754_nan)) /\
  valid_binary dprec demax (S754_finite false 9007199254740991 459) = true /\
  fun_ (mk_test (S754_finite false 9007199254740991 459)) =
    S754_finite false 9007199254740990 971 /\
  valid_binary dprec demax (S754_finite false 4503599627370496 460) = true /\
  fun_ (mk_test (S754_finite false 4503599627370496 460)) = S754_infinity false.
Proof.
  split; [intros T HT value; apply fun_square_sign|]. vm_compute. split_and!; reflexivity.
Qed.

End HasField.
